(** * advanced-vector: RawMemory<T> and Vector<T> (vector.h)

    A shallow embedding of [src/advanced-vector/vector.h].

    The program is a class template over an element type [T]; it handles raw
    storage by hand, constructs and destroys elements in place, and relies on
    exceptions and on destructors of locals during unwinding.  The embedding
    therefore makes these explicit:

    - a [World] holds the [Vector] objects (by address), the raw blocks
      obtained from [operator new], the objects alive in the slots of these
      blocks, and a trace of the constructor / destructor / allocation calls
      that were made;
    - member functions are computations in a state-and-exception monad [M];
      a computation ends normally ([Ok]), by an exception ([Throw]) or by
      behaviour the language leaves undefined ([Undef]: access outside a
      block, use or destruction of an object that is not alive, a failed
      [assert]);
    - [size_t] values are integers with their wrap-around modulo 2^64
      written out. *)

From stdpp Require Import gmap list.
From Stdlib Require Import ZArith Lia.

Local Open Scope Z_scope.

(** ** Machine integers *)

Definition SIZE_MAX : Z := 18446744073709551615.
Definition PTRDIFF_MAX : Z := 9223372036854775807.

(** Conversion of an integer to [size_t]. *)
Definition size_t (z : Z) : Z := z mod (SIZE_MAX + 1).

(** ** Exceptions *)

Inductive exn : Type :=
| bad_alloc                        (* std::bad_alloc, derived from std::exception *)
| std_exception (tag : nat)        (* any other class derived from std::exception *)
| foreign_exception (tag : nat).   (* a thrown value that is not a std::exception *)

Global Instance exn_eq_dec : EqDecision exn.
Proof. solve_decision. Defined.

(** The handlers written [catch (const std::exception &e)]. *)
Definition catch_std_exception (e : exn) : bool :=
  match e with
  | foreign_exception _ => false
  | _ => true
  end.

(** The handlers written [catch (...)]. *)
Definition catch_all (e : exn) : bool := true.

(** ** Pointers *)

Definition loc := nat.    (* identity of a raw block *)
Definition addr := nat.   (* identity (address) of a Vector object *)

(** A [T*]: null, or slot [i] of block [l]. *)
Inductive ptr : Type :=
| nullptr
| Ptr (l : loc) (i : Z).

Global Instance ptr_eq_dec : EqDecision ptr.
Proof. solve_decision. Defined.

(** [p + k].  Adding to a null pointer stays null. *)
Definition ptr_add (p : ptr) (k : Z) : ptr :=
  match p with
  | nullptr => nullptr
  | Ptr l i => Ptr l (i + k)
  end.

(** [p - q]; only defined inside one block (or for two null pointers). *)
Definition ptr_diff (p q : ptr) : option Z :=
  match p, q with
  | nullptr, nullptr => Some 0
  | Ptr l i, Ptr l' j => if decide (l = l') then Some (i - j) else None
  | _, _ => None
  end.

(** ** The element type

    What the template needs to know about [T]: its size, the values produced
    by value- and default-initialisation, the value a moved-from object is
    left with, and the two traits queried with [if constexpr]. *)

Class Element (T : Type) := {
  sizeof : positive;
  value_init : T;
  default_init : T;
  moved_from : T → T;
  is_nothrow_move_constructible : bool;
  is_copy_constructible : bool;
  (* sizeof(T) is itself a size_t *)
  sizeof_size_t : (Z.pos sizeof <=? 18446744073709551615) = true;
}.

(** ** Trace of calls *)

Inductive ctor_kind := DefaultCtor | ValueCtor | CopyCtor | MoveCtor | DirectCtor.

Global Instance ctor_kind_eq_dec : EqDecision ctor_kind.
Proof. solve_decision. Defined.

(** Where an element lives: in a slot of a raw block, or in a local variable. *)
Inductive place :=
| InBuffer (l : loc) (i : Z)
| OnStack.

Global Instance place_eq_dec : EqDecision place.
Proof. solve_decision. Defined.

Inductive event :=
| EvNew (bytes : Z)
| EvDelete (l : loc)
| EvConstruct (k : ctor_kind) (p : place)
| EvDestroy (p : place)
| EvCopyAssign (p : place)
| EvMoveAssign (p : place).

Global Instance event_eq_dec : EqDecision event.
Proof. solve_decision. Defined.

(** Number of events of the trace that satisfy [f]. *)
Definition count_events (f : event → bool) (tr : list event) : nat :=
  length (filter (λ e, f e = true) tr).

Definition is_destroy_of (p : place) (e : event) : bool :=
  match e with
  | EvDestroy q => bool_decide (p = q)
  | _ => false
  end.

Definition is_construct_of (p : place) (e : event) : bool :=
  match e with
  | EvConstruct _ q => bool_decide (p = q)
  | _ => false
  end.

Definition is_construct_kind (k : ctor_kind) (e : event) : bool :=
  match e with
  | EvConstruct k' _ => bool_decide (k = k')
  | _ => false
  end.

Definition is_new (e : event) : bool :=
  match e with
  | EvNew _ => true
  | _ => false
  end.

(** ** RawMemory and Vector objects *)

(** [T *buffer_ = nullptr; size_t capacity_ = 0;] *)
Record RawMemory := mkRawMemory { buffer_ : ptr; capacity_ : Z }.

(** [RawMemory<T> data_; size_t size_ = 0;] *)
Record Vector := mkVector { data_ : RawMemory; size_ : Z }.

Section Model.
Context {T : Type} {ET : Element T}.

(** ** The world *)

Record World := mkWorld {
  vecs : gmap addr Vector;            (* the Vector objects *)
  blocks : gmap loc Z;                (* live raw blocks and their size in bytes *)
  cells : gmap (loc * Z) T;           (* the elements alive in the slots *)
  next_loc : loc;                     (* blocks are never given out twice *)
  trace : list event;                 (* most recent call first *)
  fault_at : Z → option exn;          (* which element operation throws what *)
  ops_done : Z;                       (* potentially-throwing element operations so far *)
  alloc_fault_at : Z → bool;          (* which call of operator new fails *)
  allocs_done : Z;                    (* calls of operator new so far *)
}.

Definition set_vecs (f : gmap addr Vector → gmap addr Vector) (w : World) : World :=
  mkWorld (f (vecs w)) (blocks w) (cells w) (next_loc w) (trace w)
          (fault_at w) (ops_done w) (alloc_fault_at w) (allocs_done w).
Definition set_blocks (f : gmap loc Z → gmap loc Z) (w : World) : World :=
  mkWorld (vecs w) (f (blocks w)) (cells w) (next_loc w) (trace w)
          (fault_at w) (ops_done w) (alloc_fault_at w) (allocs_done w).
Definition set_cells (f : gmap (loc * Z) T → gmap (loc * Z) T) (w : World) : World :=
  mkWorld (vecs w) (blocks w) (f (cells w)) (next_loc w) (trace w)
          (fault_at w) (ops_done w) (alloc_fault_at w) (allocs_done w).
Definition set_next_loc (n : loc) (w : World) : World :=
  mkWorld (vecs w) (blocks w) (cells w) n (trace w)
          (fault_at w) (ops_done w) (alloc_fault_at w) (allocs_done w).
Definition log (e : event) (w : World) : World :=
  mkWorld (vecs w) (blocks w) (cells w) (next_loc w) (e :: trace w)
          (fault_at w) (ops_done w) (alloc_fault_at w) (allocs_done w).
Definition tick_op (w : World) : World :=
  mkWorld (vecs w) (blocks w) (cells w) (next_loc w) (trace w)
          (fault_at w) (ops_done w + 1) (alloc_fault_at w) (allocs_done w).
Definition tick_alloc (w : World) : World :=
  mkWorld (vecs w) (blocks w) (cells w) (next_loc w) (trace w)
          (fault_at w) (ops_done w) (alloc_fault_at w) (allocs_done w + 1).

(** ** The monad *)

Inductive result (A : Type) : Type :=
| Ok (a : A) (w : World)
| Throw (e : exn) (w : World)
| Undef.
Global Arguments Ok {A} a w.
Global Arguments Throw {A} e w.
Global Arguments Undef {A}.

Definition M (A : Type) : Type := World → result A.

Definition ret {A} (a : A) : M A := λ w, Ok a w.

Definition bind {A B} (m : M A) (k : A → M B) : M B :=
  λ w, match m w with
       | Ok a w' => k a w'
       | Throw e w' => Throw e w'
       | Undef => Undef
       end.

Definition throw {A} (e : exn) : M A := λ w, Throw e w.

Definition undef {A} : M A := λ _, Undef.

Definition modify (f : World → World) : M unit := λ w, Ok tt (f w).

(** [try { m } catch (<handles>) { h e }]. *)
Definition try_catch {A} (m : M A) (handles : exn → bool) (h : exn → M A) : M A :=
  λ w, match m w with
       | Throw e w' => if handles e then h e w' else Throw e w'
       | r => r
       end.

(** A local whose destructor [cleanup] runs when an exception leaves its
    scope. *)
Definition unwinding {A} (m : M A) (cleanup : M unit) : M A :=
  try_catch m catch_all (λ e, bind cleanup (λ _, throw e)).

(** [assert(b)]. *)
Definition assert (b : bool) : M unit := if b then ret tt else undef.

Definition from_option {A} (o : option A) : M A :=
  match o with
  | Some a => ret a
  | None => undef
  end.

Notation "'let*' x ':=' m 'in' k" := (bind m (λ x, k))
  (at level 10, x name, m at level 100, k at level 200).
Notation "m '>>' k" := (bind m (λ _, k))
  (at level 100, k at level 200, right associativity).

(** ** Element operations that may throw

    Every call of a constructor or assignment operator of [T] that is
    allowed to throw draws the next decision of [fault_at]. *)
Definition may_throw : M unit :=
  λ w, match fault_at w (ops_done w) with
       | Some e => Throw e (tick_op w)
       | None => Ok tt (tick_op w)
       end.

(** A move constructor declared [noexcept] never throws; every other
    constructor may. *)
Definition ctor_may_throw (k : ctor_kind) : bool :=
  match k with
  | MoveCtor => negb is_nothrow_move_constructible
  | _ => true
  end.

(** ** Raw storage *)

(** Slot [i] of block [l] lies inside the bytes that were allocated. *)
Definition in_block (w : World) (l : loc) (i : Z) : bool :=
  match blocks w !! l with
  | Some bytes => bool_decide (0 ≤ i ∧ (i + 1) * Z.pos sizeof ≤ bytes)
  | None => false
  end.

(** [operator new(bytes)]: fails with [std::bad_alloc] when the allocator
    says so, and for every request above [PTRDIFF_MAX]; otherwise returns a
    block that was never handed out before. *)
Definition operator_new (bytes : Z) : M ptr :=
  λ w, let w1 := tick_alloc (log (EvNew bytes) w) in
       if alloc_fault_at w (allocs_done w) || (PTRDIFF_MAX <? bytes)
       then Throw bad_alloc w1
       else Ok (Ptr (next_loc w) 0)
               (set_next_loc (S (next_loc w))
                  (set_blocks (insert (next_loc w) bytes) w1)).

(** [operator delete(p)]: nothing for a null pointer, else releases the
    block that starts at [p]. *)
Definition operator_delete (p : ptr) : M unit :=
  match p with
  | nullptr => ret tt
  | Ptr l i =>
      λ w, match blocks w !! l with
           | Some _ =>
               if decide (i = 0)
               then Ok tt (set_blocks (delete l) (log (EvDelete l) w))
               else Undef
           | None => Undef
           end
  end.

(** Value of the object at [p]. *)
Definition load (p : ptr) : M T :=
  match p with
  | nullptr => undef
  | Ptr l i =>
      λ w, if in_block w l i
           then match cells w !! (l, i) with
                | Some x => Ok x w
                | None => Undef
                end
           else Undef
  end.

(** Overwrites the value of the object alive at [p]. *)
Definition store (p : ptr) (x : T) : M unit :=
  match p with
  | nullptr => undef
  | Ptr l i =>
      λ w, if in_block w l i
           then match cells w !! (l, i) with
                | Some _ => Ok tt (set_cells (insert (l, i) x) w)
                | None => Undef
                end
           else Undef
  end.

(** A constructor of kind [k] runs on the storage at [p] and leaves an
    object of value [x] there. *)
Definition construct (k : ctor_kind) (p : ptr) (x : T) : M unit :=
  match p with
  | nullptr => undef
  | Ptr l i =>
      (if ctor_may_throw k then may_throw else ret tt) >>
      λ w, if in_block w l i
           then Ok tt (set_cells (insert (l, i) x) (log (EvConstruct k (InBuffer l i)) w))
           else Undef
  end.

(** [std::destroy_at(p)]: the destructor of [T] is called on the object in
    slot [p] and ends its lifetime.  On a slot that holds no object (one
    that was never constructed, or whose object was destroyed already)
    the call has undefined behaviour. *)
Definition destroy_at (p : ptr) : M unit :=
  match p with
  | nullptr => undef
  | Ptr l i =>
      λ w, if in_block w l i
           then match cells w !! (l, i) with
                | Some _ =>
                    Ok tt (set_cells (delete (l, i)) (log (EvDestroy (InBuffer l i)) w))
                | None => Undef
                end
           else Undef
  end.

(** Placement new at [dst] of a copy of the object at [src]. *)
Definition copy_construct (dst src : ptr) : M unit :=
  let* x := load src in
  construct CopyCtor dst x.

(** Placement new at [dst], move-constructing from the object at [src]. *)
Definition move_construct (dst src : ptr) : M unit :=
  let* x := load src in
  construct MoveCtor dst x >>
  store src (moved_from x).

(** Copy assignment of the object at [src] to the object at [dst]. *)
Definition copy_assign (dst src : ptr) : M unit :=
  let* x := load src in
  let* _ := load dst in
  may_throw >>
  store dst x >>
  modify (log (EvCopyAssign match dst with Ptr l i => InBuffer l i | nullptr => OnStack end)).

(** Move assignment of the object at [src] to the object at [dst]. *)
Definition move_assign (dst src : ptr) : M unit :=
  let* x := load src in
  let* _ := load dst in
  may_throw >>
  store dst x >>
  store src (moved_from x) >>
  modify (log (EvMoveAssign match dst with Ptr l i => InBuffer l i | nullptr => OnStack end)).

(** ** Arguments of a construction

    [Emplace(pos, args...)], [Insert(pos, value)] and [PushBack(value)]
    take their arguments by reference.  A reference to a [T] designates
    an object in a slot of a raw block (an element of a Vector, which may
    be the Vector the function is called on), or an object that lives
    elsewhere (a local variable, a temporary); of the latter only the
    value is part of the model. *)
Inductive ref :=
| Outside (x : T)
| Slot (p : ptr).

(** The new element is built from [args]: a copy of the object referred
    to ([const T &]), a move from it ([T &&]), or any other constructor
    call, which gives it the value [x]. *)
Inductive init :=
| ByCopy (r : ref)
| ByMove (r : ref)
| ByArgs (x : T).

Definition init_kind (a : init) : ctor_kind :=
  match a with
  | ByCopy _ => CopyCtor
  | ByMove _ => MoveCtor
  | ByArgs _ => DirectCtor
  end.

(** The value of the object a reference designates. *)
Definition deref (r : ref) : M T :=
  match r with
  | Outside x => ret x
  | Slot p => load p
  end.

(** The value the constructor reads from its arguments. *)
Definition init_value (a : init) : M T :=
  match a with
  | ByCopy r | ByMove r => deref r
  | ByArgs x => ret x
  end.

(** What the constructor leaves in its argument: a move constructor
    leaves the object it was given moved-from. *)
Definition init_done (a : init) (x : T) : M unit :=
  match a with
  | ByMove (Slot p) => store p (moved_from x)
  | _ => ret tt
  end.

(** [std::construct_at(p, std::forward<Args>(args)...)] *)
Definition construct_at (p : ptr) (a : init) : M unit :=
  let* x := init_value a in
  construct (init_kind a) p x >>
  init_done a x.

(** ** Loops *)

(** [body i; body (i+1); ...], [n] times. *)
Fixpoint for_loop (i : Z) (n : nat) (body : Z → M unit) : M unit :=
  match n with
  | O => ret tt
  | S n' => body i >> for_loop (i + 1) n' body
  end.

(** [std::destroy_n(first, n)] *)
Definition destroy_n (first : ptr) (n : Z) : M unit :=
  for_loop 0 (Z.to_nat n) (λ i, destroy_at (ptr_add first i)).

(** The uninitialized_* algorithms: when the construction of element [i]
    throws, the [i] objects built so far are destroyed and the exception is
    rethrown. *)
Definition guarded (d_first : ptr) (i : Z) (m : M unit) : M unit :=
  try_catch m catch_all (λ e, destroy_n d_first i >> throw e).

(** [std::uninitialized_copy_n(first, n, d_first)] *)
Definition uninitialized_copy_n (first : ptr) (n : Z) (d_first : ptr) : M unit :=
  for_loop 0 (Z.to_nat n)
    (λ i, guarded d_first i (copy_construct (ptr_add d_first i) (ptr_add first i))).

(** [std::uninitialized_move_n(first, n, d_first)] *)
Definition uninitialized_move_n (first : ptr) (n : Z) (d_first : ptr) : M unit :=
  for_loop 0 (Z.to_nat n)
    (λ i, guarded d_first i (move_construct (ptr_add d_first i) (ptr_add first i))).

(** [std::uninitialized_value_construct_n(first, n)] *)
Definition uninitialized_value_construct_n (first : ptr) (n : Z) : M unit :=
  for_loop 0 (Z.to_nat n)
    (λ i, guarded first i (construct ValueCtor (ptr_add first i) value_init)).

(** [std::uninitialized_default_construct_n(first, n)] *)
Definition uninitialized_default_construct_n (first : ptr) (n : Z) : M unit :=
  for_loop 0 (Z.to_nat n)
    (λ i, guarded first i (construct DefaultCtor (ptr_add first i) default_init)).

(** [std::move(first, last, d_first)]: front to back. *)
Definition move_range (first last d_first : ptr) : M unit :=
  let* n := from_option (ptr_diff last first) in
  for_loop 0 (Z.to_nat n) (λ i, move_assign (ptr_add d_first i) (ptr_add first i)).

(** [std::move_backward(first, last, d_last)]: back to front. *)
Definition move_backward (first last d_last : ptr) : M unit :=
  let* n := from_option (ptr_diff last first) in
  for_loop 0 (Z.to_nat n)
    (λ j, move_assign (ptr_add d_last (- (j + 1))) (ptr_add last (- (j + 1)))).

(** The relocation used by [Reserve] and [Emplace]:
    [if constexpr (std::is_nothrow_move_constructible_v<T> ||
                   !std::is_copy_constructible_v<T>)]. *)
Definition relocate_by_move : bool :=
  is_nothrow_move_constructible || negb is_copy_constructible.

Definition relocate_n (first : ptr) (n : Z) (d_first : ptr) : M unit :=
  if relocate_by_move
  then uninitialized_move_n first n d_first
  else uninitialized_copy_n first n d_first.

(** ** RawMemory<T> *)

(** [RawMemory() = default] *)
Definition RawMemory_default : RawMemory := mkRawMemory nullptr 0.

(** [n != 0 ? static_cast<T *>(operator new(n * sizeof(T))) : nullptr];
    the product is computed in [size_t]. *)
Definition Allocate (n : Z) : M ptr :=
  if decide (n ≠ 0)
  then operator_new (size_t (n * Z.pos sizeof))
  else ret nullptr.

Definition Deallocate (buf : ptr) : M unit := operator_delete buf.

(** [explicit RawMemory(size_t capacity)] *)
Definition RawMemory_ctor (capacity : Z) : M RawMemory :=
  let* buffer := Allocate capacity in
  ret (mkRawMemory buffer capacity).

(** [~RawMemory()] *)
Definition RawMemory_dtor (rm : RawMemory) : M unit :=
  Deallocate (buffer_ rm).

(** [RawMemory(RawMemory &&other) noexcept]: the new object, and what is
    left in [other]. *)
Definition RawMemory_move_ctor (other : RawMemory) : RawMemory * RawMemory :=
  (mkRawMemory (buffer_ other) (capacity_ other), mkRawMemory nullptr 0).

(** [RawMemory &operator=(RawMemory &&rhs) noexcept]; [same] tells whether
    [rhs] is the object itself ([this == &rhs]).  The result is the object
    and what is left in [rhs]. *)
Definition RawMemory_assign_move (same : bool) (rm rhs : RawMemory) :
    M (RawMemory * RawMemory) :=
  if negb same then
    Deallocate (buffer_ rm) >>
    ret (mkRawMemory (buffer_ rhs) (capacity_ rhs), mkRawMemory nullptr 0)
  else ret (rm, rhs).

(** [T *operator+(size_t offset)] *)
Definition RawMemory_plus (rm : RawMemory) (offset : Z) : M ptr :=
  assert (offset <=? capacity_ rm) >>
  ret (ptr_add (buffer_ rm) offset).

(** [T &operator[](size_t index)]; the reference is a pointer to the slot. *)
Definition RawMemory_index (rm : RawMemory) (index : Z) : M ptr :=
  assert (index <? capacity_ rm) >>
  ret (ptr_add (buffer_ rm) index).

(** [void Swap(RawMemory &other)]: both objects after the exchange. *)
Definition RawMemory_Swap (rm other : RawMemory) : RawMemory * RawMemory :=
  (mkRawMemory (buffer_ other) (capacity_ other),
   mkRawMemory (buffer_ rm) (capacity_ rm)).

Definition GetAddress (rm : RawMemory) : ptr := buffer_ rm.

Definition RawMemory_Capacity (rm : RawMemory) : Z := capacity_ rm.

(** ** Vector<T> *)

Definition get_vec (this : addr) : M Vector :=
  λ w, match vecs w !! this with
       | Some v => Ok v w
       | None => Undef
       end.

Definition put_vec (this : addr) (v : Vector) : M unit :=
  modify (set_vecs (insert this v)).

Definition get_data (this : addr) : M RawMemory :=
  let* v := get_vec this in ret (data_ v).

Definition get_size (this : addr) : M Z :=
  let* v := get_vec this in ret (size_ v).

Definition set_data (this : addr) (d : RawMemory) : M unit :=
  let* v := get_vec this in put_vec this (mkVector d (size_ v)).

Definition set_size (this : addr) (n : Z) : M unit :=
  let* v := get_vec this in put_vec this (mkVector (data_ v) n).

(** [Vector() = default] *)
Definition Vector_default (this : addr) : M unit :=
  put_vec this (mkVector RawMemory_default 0).

(** [explicit Vector(size_t size)] *)
Definition Vector_sized (this : addr) (size : Z) : M unit :=
  let* data := RawMemory_ctor size in
  unwinding (uninitialized_value_construct_n (GetAddress data) size)
            (RawMemory_dtor data) >>
  put_vec this (mkVector data size).

(** The members built by [Vector(const Vector &other)]. *)
Definition copy_of (other : addr) : M Vector :=
  let* o := get_vec other in
  let* data := RawMemory_ctor (size_ o) in
  unwinding (uninitialized_copy_n (GetAddress (data_ o)) (size_ o) (GetAddress data))
            (RawMemory_dtor data) >>
  ret (mkVector data (size_ o)).

(** [Vector(const Vector &other)] *)
Definition Vector_copy (this other : addr) : M unit :=
  let* v := copy_of other in
  put_vec this v.

(** [Vector(Vector &&other) noexcept] *)
Definition Vector_move (this other : addr) : M unit :=
  let* o := get_vec other in
  let (data, other_data) := RawMemory_move_ctor (data_ o) in
  put_vec this (mkVector data (size_ o)) >>
  put_vec other (mkVector other_data 0).

(** What [~Vector()] does with the members. *)
Definition destroy_members (v : Vector) : M unit :=
  destroy_n (GetAddress (data_ v)) (size_ v) >>
  RawMemory_dtor (data_ v).

(** [~Vector()] *)
Definition Vector_dtor (this : addr) : M unit :=
  let* v := get_vec this in
  destroy_members v >>
  modify (set_vecs (delete this)).

Definition Size (this : addr) : M Z := get_size this.

Definition Capacity (this : addr) : M Z :=
  let* data := get_data this in ret (RawMemory_Capacity data).

(** [data_.Swap(other.data_); std::swap(size_, other.size_);] on the
    members of two objects. *)
Definition swap_members (v other : Vector) : Vector * Vector :=
  let (d, od) := RawMemory_Swap (data_ v) (data_ other) in
  (mkVector d (size_ other), mkVector od (size_ v)).

(** [void Swap(Vector &other) noexcept] *)
Definition Swap (this other : addr) : M unit :=
  let* v := get_vec this in
  let* o := get_vec other in
  let (v', o') := swap_members v o in
  put_vec this v' >>
  put_vec other o'.

(** [Vector &operator=(const Vector &rhs)] *)
Definition assign_copy (this rhs : addr) : M unit :=
  if decide (this ≠ rhs) then
    let* v := get_vec this in
    let* r := get_vec rhs in
    if size_ r >? RawMemory_Capacity (data_ v) then
      (* Vector(rhs).Swap( *this ); the temporary dies with the old members *)
      let* tmp := copy_of rhs in
      let (tmp', v') := swap_members tmp v in
      put_vec this v' >>
      destroy_members tmp'
    else
      let min_size := Z.min (size_ v) (size_ r) in
      for_loop 0 (Z.to_nat min_size)
        (λ i, let* d := RawMemory_index (data_ v) i in
              let* s := RawMemory_index (data_ r) i in
              copy_assign d s) >>
      (if size_ r >? size_ v then
         uninitialized_copy_n
           (ptr_add (GetAddress (data_ r)) (size_ v))
           (size_t (size_ r - size_ v))
           (ptr_add (GetAddress (data_ v)) (size_ v))
       else
         destroy_n
           (ptr_add (GetAddress (data_ v)) (size_ r))
           (size_t (size_ v - size_ r))) >>
      set_size this (size_ r)
  else ret tt.

(** [Vector &operator=(Vector &&rhs) noexcept] *)
Definition assign_move (this rhs : addr) : M unit :=
  Swap this rhs.

(** [void Reserve(size_t new_capacity)] *)
Definition Reserve (this : addr) (new_capacity : Z) : M unit :=
  let* data := get_data this in
  if new_capacity <=? RawMemory_Capacity data then ret tt
  else
    let* new_data := RawMemory_ctor new_capacity in
    let* new_data :=
      unwinding
        (let* size := get_size this in
         relocate_n (GetAddress data) size (GetAddress new_data) >>
         destroy_n (GetAddress data) size >>
         let (data', new_data') := RawMemory_Swap data new_data in
         set_data this data' >>
         ret new_data')
        (RawMemory_dtor new_data) in
    RawMemory_dtor new_data.

(** [void Resize(size_t new_size)] *)
Definition Resize (this : addr) (new_size : Z) : M unit :=
  let* v := get_vec this in
  if size_ v >=? new_size then
    destroy_n (ptr_add (GetAddress (data_ v)) new_size) (size_t (size_ v - new_size)) >>
    set_size this new_size
  else
    Reserve this new_size >>
    let* v := get_vec this in
    uninitialized_default_construct_n
      (ptr_add (GetAddress (data_ v)) (size_ v)) (size_t (new_size - size_ v)) >>
    set_size this new_size.

(** [void PopBack() noexcept] *)
Definition PopBack (this : addr) : M unit :=
  let* v := get_vec this in
  assert (0 <? size_ v) >>
  destroy_at (ptr_add (ptr_add (GetAddress (data_ v)) (size_ v)) (-1)) >>
  set_size this (size_t (size_ v - 1)).

(** [T &operator[](size_t index) noexcept] *)
Definition Vector_index (this : addr) (index : Z) : M ptr :=
  let* v := get_vec this in
  assert (index <? size_ v) >>
  ret (ptr_add (GetAddress (data_ v)) index).

(** [iterator begin() noexcept] *)
Definition Vector_begin (this : addr) : M ptr :=
  let* data := get_data this in ret (GetAddress data).

(** [iterator end() noexcept] *)
Definition Vector_end (this : addr) : M ptr :=
  let* v := get_vec this in ret (ptr_add (GetAddress (data_ v)) (size_ v)).

(** A local [T tmp(args...)], its use as the source of a move assignment,
    and its destructor. *)
Definition construct_local (a : init) : M T :=
  let* x := init_value a in
  (if ctor_may_throw (init_kind a) then may_throw else ret tt) >>
  modify (log (EvConstruct (init_kind a) OnStack)) >>
  init_done a x >>
  ret x.

Definition move_assign_from_local (dst : ptr) (x : T) : M unit :=
  let* _ := load dst in
  may_throw >>
  store dst x >>
  modify (log (EvMoveAssign match dst with Ptr l i => InBuffer l i | nullptr => OnStack end)).

Definition destroy_local : M unit := modify (log (EvDestroy OnStack)).

(** [iterator Emplace(const_iterator pos, Args &&...args)] *)
Definition Emplace (this : addr) (pos : ptr) (args : init) : M ptr :=
  let* first := Vector_begin this in
  let* d := from_option (ptr_diff pos first) in
  let offset := size_t d in
  let* size := get_size this in
  let* capacity := Capacity this in
  (if decide (size = capacity) then
     let new_capacity := Z.max (size_t 1) (size_t (capacity * 2)) in
     let* new_data := RawMemory_ctor new_capacity in
     let* new_data :=
       unwinding
         (let new_element_ptr := ptr_add (GetAddress new_data) offset in
          construct_at new_element_ptr args >>
          try_catch
            ((* the elements before the insertion position *)
             relocate_n first offset (GetAddress new_data) >>
             try_catch
               ((* the elements after the insertion position *)
                relocate_n (ptr_add first offset) (size_t (size - offset))
                           (ptr_add (ptr_add (GetAddress new_data) offset) 1))
               catch_std_exception
               (λ e, destroy_n (GetAddress new_data) (size_t (offset + 1)) >>
                     throw e))
            catch_std_exception
            (λ e, destroy_at (ptr_add (GetAddress new_data) offset) >>
                  throw e) >>
          destroy_n first size >>
          let* data := get_data this in
          let (data', new_data') := RawMemory_Swap data new_data in
          set_data this data' >>
          ret new_data')
         (RawMemory_dtor new_data) in
     RawMemory_dtor new_data
   else
     let* last := Vector_end this in
     let* data := get_data this in
     if decide (pos = last) then
       let* p := RawMemory_plus data offset in
       construct_at p args
     else
       let* tmp := construct_local args in
       unwinding
         (try_catch
            (let* back := RawMemory_index data (size_t (size - 1)) in
             move_construct last back >>
             move_backward (ptr_add first offset) (ptr_add last (-1)) (ptr_add first size))
            catch_all
            (λ e, destroy_at last >> throw e) >>
          let* slot := RawMemory_index data offset in
          move_assign_from_local slot tmp)
         destroy_local >>
       destroy_local) >>
  set_size this (size_t (size + 1)) >>
  let* first := Vector_begin this in
  ret (ptr_add first offset).

(** [T &EmplaceBack(Args &&...args)]; the reference is a pointer to the
    element. *)
Definition EmplaceBack (this : addr) (args : init) : M ptr :=
  let* last := Vector_end this in
  Emplace this last args.

(** [void PushBack(const T &value)] *)
Definition PushBack (this : addr) (value : ref) : M unit :=
  EmplaceBack this (ByCopy value) >> ret tt.

(** [void PushBack(T &&value)] *)
Definition PushBack_move (this : addr) (value : ref) : M unit :=
  EmplaceBack this (ByMove value) >> ret tt.

(** Pointer comparisons [p <= q] and [p < q], within one block. *)
Definition ptr_leb (p q : ptr) : bool :=
  match ptr_diff q p with
  | Some d => 0 <=? d
  | None => false
  end.

Definition ptr_ltb (p q : ptr) : bool :=
  match ptr_diff q p with
  | Some d => 0 <? d
  | None => false
  end.

(** [iterator Erase(const_iterator pos)] *)
Definition Erase (this : addr) (pos : ptr) : M ptr :=
  let* first := Vector_begin this in
  let* last := Vector_end this in
  assert (ptr_leb first pos && ptr_ltb pos last) >>
  let* d := from_option (ptr_diff pos first) in
  let offset := size_t d in
  let* v := get_vec this in
  let data := GetAddress (data_ v) in
  move_range (ptr_add (ptr_add data offset) 1) (ptr_add data (size_ v)) (ptr_add data offset) >>
  destroy_at (ptr_add (ptr_add data (size_ v)) (-1)) >>
  set_size this (size_t (size_ v - 1)) >>
  let* data := get_data this in
  ret (ptr_add (GetAddress data) offset).

(** [iterator Insert(const_iterator pos, const T &value)] *)
Definition Insert (this : addr) (pos : ptr) (value : ref) : M ptr :=
  Emplace this pos (ByCopy value).

(** [iterator Insert(const_iterator pos, T &&value)] *)
Definition Insert_move (this : addr) (pos : ptr) (value : ref) : M ptr :=
  Emplace this pos (ByMove value).
End Model.

Global Arguments World : clear implicits.
Global Arguments result : clear implicits.
Global Arguments M : clear implicits.
Global Arguments ref : clear implicits.
Global Arguments init : clear implicits.

(** * Specifications of computations *)

Section Triples.
Context {T : Type}.

(** [wp_or m w Q R U]: run from [w], the computation [m] returns [a] in
    a world satisfying [Q a], or throws [e] in a world satisfying [R e],
    or has undefined behaviour, and then [U] holds: nothing is said of a
    run that is undefined. *)
Definition wp_or {A} (m : M T A) (w : World T)
    (Q : A → World T → Prop) (R : exn → World T → Prop) (U : Prop) : Prop :=
  match m w with
  | Ok a w' => Q a w'
  | Throw e w' => R e w'
  | Undef => U
  end.
End Triples.

(** [wp m w Q R]: run from [w], the computation [m] is defined, and it
    either returns [a] in a world satisfying [Q a] or throws [e] in a
    world satisfying [R e]. *)
Notation wp m w Q R := (wp_or m w Q R False).

(** * Specification vocabulary *)

Section Vocabulary.
Context {T : Type} {ET : Element T}.
Implicit Types (w : World T) (xs ys zs : list T).

(** The world [w] with its cells, trace and operation counter replaced:
    what the element-level operations touch. *)
Definition with_heap (c : gmap (loc * Z) T) (tr : list event) (ops : Z) w : World T :=
  mkWorld (vecs w) (blocks w) c (next_loc w) tr
          (fault_at w) ops (alloc_fault_at w) (allocs_done w).

(** Element [i] of a sequence, for an integer index. *)
Definition lookupZ xs (i : Z) : option T :=
  if decide (0 ≤ i) then xs !! Z.to_nat i else None.

(** The storage [d] holds exactly the elements [xs]: the block is live and
    has room for [capacity_ d] slots, slots [0, length xs) hold the
    constructed elements [xs], every other slot holds no object. *)
Definition owns w (d : RawMemory) xs : Prop :=
  0 ≤ capacity_ d ∧ Z.of_nat (length xs) ≤ capacity_ d ∧
  match buffer_ d with
  | nullptr => capacity_ d = 0
  | Ptr l o =>
      o = 0 ∧ 0 < capacity_ d ∧
      ∃ bytes, blocks w !! l = Some bytes ∧
               capacity_ d * Z.pos sizeof ≤ bytes ∧
               ∀ i, cells w !! (l, i) = lookupZ xs i
  end.

(** The Vector object at [this] has capacity [cap] and holds [xs]:
    0 <= size <= capacity, slots [0, size) constructed, slots
    [size, capacity) uninitialized. *)
Definition is_vector w (this : addr) xs (cap : Z) : Prop :=
  ∃ d, vecs w !! this = Some (mkVector d (Z.of_nat (length xs))) ∧
       capacity_ d = cap ∧ owns w d xs.

(** The class invariant of [Vector]. *)
Definition vector_inv w (this : addr) : Prop :=
  ∃ xs cap, is_vector w this xs cap.

(** Blocks come from [operator new]: they are older than [next_loc], not
    larger than [PTRDIFF_MAX], and storage never handed out holds
    nothing. *)
Definition heap_wf w : Prop :=
  (∀ l bytes, blocks w !! l = Some bytes →
              (l < next_loc w)%nat ∧ 0 ≤ bytes ≤ PTRDIFF_MAX) ∧
  (∀ l i, (next_loc w ≤ l)%nat → cells w !! (l, i) = None).

(** The block a Vector object points to, if any. *)
Definition buffer_loc w (a : addr) : option loc :=
  match vecs w !! a with
  | Some v => match buffer_ (data_ v) with
              | Ptr l _ => Some l
              | nullptr => None
              end
  | None => None
  end.

(** Two Vector objects never share a block. *)
Definition separate w (a b : addr) : Prop :=
  ∀ l, buffer_loc w a = Some l → buffer_loc w b ≠ Some l.

(** What a member function called on [this] leaves alone: the other
    Vector objects, and every block that existed before the call and was
    not the buffer of [this]; the buffer of [this] afterwards is the old
    one or a block allocated by the call. *)
Definition frame (this : addr) w w' : Prop :=
  (∀ a, a ≠ this → vecs w' !! a = vecs w !! a) ∧
  (∀ l, (l < next_loc w)%nat → buffer_loc w this ≠ Some l →
        blocks w' !! l = blocks w !! l ∧
        ∀ i, cells w' !! (l, i) = cells w !! (l, i)) ∧
  (next_loc w ≤ next_loc w')%nat ∧
  fault_at w' = fault_at w ∧ alloc_fault_at w' = alloc_fault_at w ∧
  ops_done w ≤ ops_done w' ∧ allocs_done w ≤ allocs_done w' ∧
  (∀ l, buffer_loc w' this = Some l →
        buffer_loc w this = Some l ∨ (next_loc w ≤ l)%nat).

(** No element operation throws from now on / no allocation fails from now
    on. *)
Definition no_faults w : Prop := ∀ k, ops_done w ≤ k → fault_at w k = None.
Definition no_alloc_faults w : Prop :=
  ∀ k, allocs_done w ≤ k → alloc_fault_at w k = false.

(** The events [f (InBuffer l i)] for the slots [s, s + n) of block [l], in
    the order of increasing [i] (the trace lists the latest call first). *)
Definition slot_events (f : place → event) (l : loc) (s n : Z) : list event :=
  (λ i, f (InBuffer l i)) <$> reverse (seqZ s n).

(** Calls recorded in [w'] since [w]. *)
Definition events_since w w' (evs : list event) : Prop :=
  trace w' = evs ++ trace w.

(** The block a pointer points into. *)
Definition block_of (p : ptr) : option loc :=
  match p with
  | Ptr l _ => Some l
  | nullptr => None
  end.

(** The pointer [p] is the start of live storage whose constructed
    elements are exactly [xs]. *)
Definition holds w (p : ptr) xs : Prop :=
  match p with
  | nullptr => xs = []
  | Ptr l o =>
      o = 0 ∧
      ∃ bytes, blocks w !! l = Some bytes ∧
               Z.of_nat (length xs) * Z.pos sizeof ≤ bytes ∧
               ∀ i, cells w !! (l, i) = lookupZ xs i
  end.

(** The events [f] for [n] slots from [p] on. *)
Definition ptr_events (f : place → event) (p : ptr) (n : Z) : list event :=
  match p with
  | Ptr l s => slot_events f l s n
  | nullptr => []
  end.

(** The world after a successful / failed [operator new(bytes)], and after
    [operator delete(p)]. *)
Definition allocated (bytes : Z) w : World T :=
  set_next_loc (S (next_loc w))
    (set_blocks (insert (next_loc w) bytes) (tick_alloc (log (EvNew bytes) w))).

Definition alloc_failed (bytes : Z) w : World T :=
  tick_alloc (log (EvNew bytes) w).

Definition released (p : ptr) w : World T :=
  match p with
  | Ptr l _ => set_blocks (delete l) (log (EvDelete l) w)
  | nullptr => w
  end.

(** How many fault decisions a constructor call of kind [k] draws. *)
Definition ctor_ops (k : ctor_kind) : Z := if ctor_may_throw k then 1 else 0.

(** The constructor used by a relocation, what it leaves in the source
    object, and how many of its calls may throw. *)
Definition relocation_kind : ctor_kind :=
  if relocate_by_move then MoveCtor else CopyCtor.
Definition relocated (x : T) : T :=
  if relocate_by_move then moved_from x else x.
Definition relocation_ops (n : Z) : Z :=
  if ctor_may_throw relocation_kind then n else 0.

(** The elements after a relocation gave up the first [j] of them. *)
Definition relocate_prefix (j : Z) xs : list T :=
  (relocated <$> take (Z.to_nat j) xs) ++ drop (Z.to_nat j) xs.

(** The sequence [xs] with [x] put in front of position [k]. *)
Definition inserted (k : Z) (x : T) xs : list T :=
  take (Z.to_nat k) xs ++ x :: drop (Z.to_nat k) xs.

(** The iterator [begin() + k] of the Vector at [this]. *)
Definition iterator_at w (this : addr) (k : Z) : ptr :=
  match vecs w !! this with
  | Some v => ptr_add (buffer_ (data_ v)) k
  | None => nullptr
  end.

(** Why a call ended by an exception. *)
Definition thrown_by_fault w (e : exn) : Prop :=
  ∃ k, ops_done w ≤ k ∧ fault_at w k = Some e.

Definition alloc_refused w (bytes : Z) : Prop :=
  alloc_fault_at w (allocs_done w) = true ∨ PTRDIFF_MAX < bytes.

Definition alloc_granted w (bytes : Z) : Prop :=
  alloc_fault_at w (allocs_done w) = false ∧ bytes ≤ PTRDIFF_MAX.

(** The calls of the constructor of kind [k] among [evs]. *)
Definition constructions (k : ctor_kind) (evs : list event) : nat :=
  count_events (is_construct_kind k) evs.

(** The value of the object the arguments designate in [w]; there is
    none when they refer to a slot that holds no object. *)
Definition arg_value w (a : init T) : option T :=
  match init_value a w with
  | Ok x _ => Some x
  | _ => None
  end.

(** The slot of the object that the construction moves from, if the
    arguments are an rvalue reference to an object in a slot. *)
Definition moved_slot (a : init T) : option ptr :=
  match a with
  | ByMove (Slot p) => Some p
  | _ => None
  end.

(** The arguments refer to no object in a slot, and give the new element
    the value [x]. *)
Definition outside (a : init T) : option T :=
  match a with
  | ByCopy (Outside x) | ByMove (Outside x) | ByArgs x => Some x
  | _ => None
  end.

(** The same construction from an object of value [x] that lives outside
    the blocks. *)
Definition from_outside (a : init T) (x : T) : init T :=
  match a with
  | ByCopy _ => ByCopy (Outside x)
  | ByMove _ => ByMove (Outside x)
  | ByArgs _ => ByArgs x
  end.

(** What holds when [Emplace] returns [r]: the new element sits at
    position [k], the others keep their order, and [r] is [begin() + k]. *)
Definition Emplace_done (this : addr) xs (cap' k : Z) (x : T) w (r : ptr) w' : Prop :=
  is_vector w' this (inserted k x xs) cap' ∧ heap_wf w' ∧ frame this w w' ∧
  r = iterator_at w' this k.

(** [Emplace] into spare capacity returned: the constructor of the new
    element, or of the temporary, did not throw. *)
Definition Emplace_in_place (this : addr) xs (cap k : Z) (a : init T) (x : T) w
    (r : ptr) w' : Prop :=
  Emplace_done this xs cap k x w r w' ∧
  (ctor_may_throw (init_kind a) = true → fault_at w (ops_done w) = None).

(** An exception that left the Vector valid, with contents [xs']. *)
Definition still_valid (this : addr) xs' (cap : Z) w (e : exn) w' : Prop :=
  is_vector w' this xs' cap ∧ heap_wf w' ∧ frame this w w'.

(** The fault decision drawn by the last step of an [Emplace] before
    [end()] of a Vector with spare capacity: the move assignment of the
    temporary into slot [k]. *)
Definition last_assign_op xs (k : Z) (a : init T) w : Z :=
  ops_done w + ctor_ops (init_kind a) + ctor_ops MoveCtor + (Z.of_nat (length xs) - 1 - k).

(** The Vector at [this] has size [n], and slot [n] holds an object too. *)
Definition slot_left_constructed (this : addr) (n : Z) w : Prop :=
  ∃ l d, vecs w !! this = Some (mkVector d n) ∧ buffer_ d = Ptr l 0 ∧
         n < capacity_ d ∧ ∀ i, 0 ≤ i ≤ n → is_Some (cells w !! (l, i)).

(** [Emplace] before [end()] with spare capacity, ended by an exception:
    the Vector is valid with [length xs] elements, unless the exception
    came from the last move assignment. *)
Definition Emplace_shift_failed (this : addr) xs (cap k : Z) (a : init T) w
    (e : exn) w' : Prop :=
  heap_wf w' ∧ frame this w w' ∧ thrown_by_fault w e ∧
  ((∃ xs', is_vector w' this xs' cap ∧ length xs' = length xs) ∨
   (fault_at w (last_assign_op xs k a w) = Some e ∧
    slot_left_constructed this (Z.of_nat (length xs)) w')).

(** Worlds reached from [w] by touching only elements of block [l]. *)
Definition in_place_world (l : loc) w w' : Prop :=
  ∃ c tr ops, w' = with_heap c tr ops w ∧
              (∀ l' i, l' ≠ l → c !! (l', i) = cells w !! (l', i)) ∧
              ops_done w ≤ ops.

(** [std::max(size_t(1), Capacity() * 2)], without the wrap-around. *)
Definition grown_capacity (cap : Z) : Z := Z.max 1 (2 * cap).

(** The two exits of [Emplace] on which a handler runs a destructor on a
    slot that holds no object, so that the behaviour is undefined.  At
    position [k] of a Vector holding [xs] with capacity [cap]:
    - at capacity: the allocation and the construction of the new element
      succeed, and the first operation to throw is the relocation of an
      element at or after [k], with an exception derived from
      [std::exception]; the inner handler destroys the slots [0, k] of
      the new block, and the outer handler destroys slot [k] again;
    - with spare capacity and [k] before [end()]: the construction of the
      temporary succeeds and the move construction of the last element
      into slot [Size()] throws; the handler destroys that slot, in which
      no object was constructed. *)
Definition destroys_dead_slot xs (cap k : Z) (a : init T) w : Prop :=
  let n := Z.of_nat (length xs) in
  (ctor_may_throw (init_kind a) = true → fault_at w (ops_done w) = None) ∧
  if decide (n = cap)
  then alloc_granted w (grown_capacity cap * Z.pos sizeof) ∧
       ctor_may_throw relocation_kind = true ∧
       ∃ j e, k ≤ j < n ∧
              (∀ j', 0 ≤ j' < j →
                     fault_at w (ops_done w + ctor_ops (init_kind a) + j') = None) ∧
              fault_at w (ops_done w + ctor_ops (init_kind a) + j) = Some e ∧
              catch_std_exception e = true
  else k < n ∧ ctor_may_throw MoveCtor = true ∧
       is_Some (fault_at w (ops_done w + ctor_ops (init_kind a))).

(** The calls made by an [Emplace] at capacity in which the relocation of
    element [j] threw [e] and the behaviour is defined: the allocation,
    the construction of the new element in slot [k] of the new block
    [nl], the relocations done so far and their undoing, what the handler
    destroys, and the release of the new block. *)
Definition grow_failure_events (nl : loc) (k j : Z) (a : init T) (e : exn)
    (bytes : Z) : list event :=
  EvDelete nl ::
  (if decide (j < k)
   then (if catch_std_exception e then [EvDestroy (InBuffer nl k)] else []) ++
        slot_events EvDestroy nl 0 j ++
        slot_events (EvConstruct relocation_kind) nl 0 j
   else slot_events EvDestroy nl (k + 1) (j - k) ++
        slot_events (EvConstruct relocation_kind) nl (k + 1) (j - k) ++
        slot_events (EvConstruct relocation_kind) nl 0 k) ++
  [EvConstruct (init_kind a) (InBuffer nl k); EvNew bytes].

(** [Emplace] at capacity of arguments that refer to no slot and give the
    value [x]: what holds when it returns and when it throws. *)
Definition Emplace_grown (this : addr) xs (cap k : Z) (a : init T) (x : T) w
    (r : ptr) w' : Prop :=
  Emplace_done this xs (grown_capacity cap) k x w r w' ∧
  alloc_granted w (grown_capacity cap * Z.pos sizeof) ∧
  (ctor_may_throw (init_kind a) = true → fault_at w (ops_done w) = None) ∧
  (ctor_may_throw relocation_kind = true →
   ∀ j, 0 ≤ j < Z.of_nat (length xs) →
        fault_at w (ops_done w + ctor_ops (init_kind a) + j) = None).

Definition Emplace_grow_failed (this : addr) xs (cap k : Z) (a : init T) w (e : exn) w' : Prop :=
  let bytes := grown_capacity cap * Z.pos sizeof in
  let nl := next_loc w in
  heap_wf w' ∧ frame this w w' ∧ blocks w' !! nl = None ∧
  ((e = bad_alloc ∧ alloc_refused w bytes ∧ is_vector w' this xs cap ∧
    events_since w w' [EvNew bytes]) ∨
   (alloc_granted w bytes ∧ ctor_may_throw (init_kind a) = true ∧
    fault_at w (ops_done w) = Some e ∧ is_vector w' this xs cap ∧
    events_since w w' [EvDelete nl; EvNew bytes]) ∨
   (∃ j, 0 ≤ j < Z.of_nat (length xs) ∧
         alloc_granted w bytes ∧
         (ctor_may_throw (init_kind a) = true → fault_at w (ops_done w) = None) ∧
         ctor_may_throw relocation_kind = true ∧
         (∀ j', 0 ≤ j' < j →
                fault_at w (ops_done w + ctor_ops (init_kind a) + j') = None) ∧
         fault_at w (ops_done w + ctor_ops (init_kind a) + j) = Some e ∧
         (k ≤ j → catch_std_exception e = false) ∧
         is_vector w' this (relocate_prefix j xs) cap ∧
         events_since w w' (grow_failure_events nl k j a e bytes) ∧
         (catch_std_exception e = true → ∀ i, cells w' !! (nl, i) = None))).

(** [Reserve(n)] with [n] above the capacity: what holds when it returns,
    and when it throws. *)
Definition Reserve_grown (this : addr) xs (n : Z) w w' : Prop :=
  is_vector w' this xs n ∧ heap_wf w' ∧ frame this w w' ∧
  ∃ evs, events_since w w' evs ∧
         constructions relocation_kind evs = length xs ∧
         ∀ k, k ≠ relocation_kind → constructions k evs = 0%nat.

Definition Reserve_failed (this : addr) xs (cap n : Z) w (e : exn) w' : Prop :=
  cap < n ∧ heap_wf w' ∧ frame this w w' ∧
  (∃ xs', is_vector w' this xs' cap ∧ length xs' = length xs ∧
          (relocate_by_move = false → xs' = xs)) ∧
  ((e = bad_alloc ∧ alloc_refused w (n * Z.pos sizeof)) ∨ thrown_by_fault w e).

(** [Resize(m)]: what holds when it returns. *)
Definition Resize_done (this : addr) xs (cap m : Z) w w' : Prop :=
  let n := Z.of_nat (length xs) in
  heap_wf w' ∧ frame this w w' ∧
  if decide (m ≤ n)
  then is_vector w' this (take (Z.to_nat m) xs) cap ∧
       events_since w w' (ptr_events EvDestroy (iterator_at w this m) (n - m))
  else is_vector w' this (xs ++ replicate (Z.to_nat (m - n)) default_init) (Z.max cap m) ∧
       ∃ wR, Reserve this m w = Ok tt wR ∧ is_vector wR this xs (Z.max cap m) ∧
             events_since wR w'
               (ptr_events (EvConstruct DefaultCtor) (iterator_at wR this n) (m - n)).

(** Nothing that existed in [w] was touched on the way to [w']. *)
Definition preserved w w' : Prop :=
  vecs w' = vecs w ∧
  (∀ l, (l < next_loc w)%nat →
        blocks w' !! l = blocks w !! l ∧ ∀ i, cells w' !! (l, i) = cells w !! (l, i)) ∧
  (next_loc w ≤ next_loc w')%nat ∧
  fault_at w' = fault_at w ∧ alloc_fault_at w' = alloc_fault_at w ∧
  ops_done w ≤ ops_done w' ∧ allocs_done w ≤ allocs_done w'.

(** The calls of a copy of [n] elements into a fresh block [nl]. *)
Definition copy_events (nl : loc) (n : Z) : list event :=
  if decide (n = 0) then []
  else slot_events (EvConstruct CopyCtor) nl 0 n ++ [EvNew (n * Z.pos sizeof)].

(** What [Vector(const Vector &other)] builds from a Vector holding [ys]. *)
Definition copied ys w (v : Vector) w' : Prop :=
  let n := Z.of_nat (length ys) in
  size_ v = n ∧ capacity_ (data_ v) = n ∧ owns w' (data_ v) ys ∧
  heap_wf w' ∧ preserved w w' ∧
  buffer_ (data_ v) = (if decide (n = 0) then nullptr else Ptr (next_loc w) 0) ∧
  events_since w w' (copy_events (next_loc w) n).

Definition copy_failed ys w (e : exn) w' : Prop :=
  heap_wf w' ∧ preserved w w' ∧
  ((e = bad_alloc ∧ alloc_refused w (Z.of_nat (length ys) * Z.pos sizeof)) ∨
   thrown_by_fault w e).

(** The calls made by [this = rhs], where [this] holds [xs] with capacity
    [ca] and [rhs] holds [ys]. *)
Definition assign_events (this : addr) xs ys (ca : Z) w : list event :=
  let na := Z.of_nat (length xs) in
  let nb := Z.of_nat (length ys) in
  if decide (ca < nb) then
    match buffer_loc w this with Some l => [EvDelete l] | None => [] end ++
    ptr_events EvDestroy (iterator_at w this 0) na ++ copy_events (next_loc w) nb
  else
    (if decide (na < nb)
     then ptr_events (EvConstruct CopyCtor) (iterator_at w this na) (nb - na)
     else ptr_events EvDestroy (iterator_at w this nb) (na - nb)) ++
    ptr_events EvCopyAssign (iterator_at w this 0) (Z.min na nb).

Definition assigned (this : addr) xs ys (ca : Z) w w' : Prop :=
  let nb := Z.of_nat (length ys) in
  heap_wf w' ∧ frame this w w' ∧
  is_vector w' this ys (if decide (ca < nb) then nb else ca) ∧
  (nb ≤ ca → buffer_loc w' this = buffer_loc w this) ∧
  events_since w w' (assign_events this xs ys ca w).

Definition assign_failed (this : addr) xs ys (ca : Z) w (e : exn) w' : Prop :=
  let nb := Z.of_nat (length ys) in
  heap_wf w' ∧ frame this w w' ∧
  (∃ xs', is_vector w' this xs' ca ∧ length xs' = length xs ∧ (ca < nb → xs' = xs)) ∧
  ((e = bad_alloc ∧ ca < nb ∧ alloc_refused w (nb * Z.pos sizeof)) ∨ thrown_by_fault w e).

(** What a constructor that allocates leaves when it throws. *)
Definition construction_failed (n : Z) w (e : exn) w' : Prop :=
  heap_wf w' ∧ preserved w w' ∧
  ((e = bad_alloc ∧ alloc_refused w (n * Z.pos sizeof)) ∨ thrown_by_fault w e).

(** [Emplace] at position [k] of a Vector holding [xs] with capacity
    [cap]: what holds when it returns and when it throws, on each of the
    three paths. *)
Definition Emplace_returned (this : addr) xs (cap k : Z) (a : init T) (x : T) w
    (r : ptr) w' : Prop :=
  if decide (Z.of_nat (length xs) = cap)
  then Emplace_grown this xs cap k a x w r w'
  else Emplace_in_place this xs cap k a x w r w'.

Definition Emplace_failed (this : addr) xs (cap k : Z) (a : init T) w (e : exn) w' : Prop :=
  if decide (Z.of_nat (length xs) = cap)
  then Emplace_grow_failed this xs cap k a w e w'
  else if decide (k = Z.of_nat (length xs))
       then still_valid this xs cap w e w' ∧ thrown_by_fault w e
       else Emplace_shift_failed this xs cap k a w e w'.

(** The capacity after an [Emplace] that returned. *)
Definition capacity_after_insert (n cap : Z) : Z :=
  if decide (n = cap) then grown_capacity cap else cap.

(** The world after a constructor has moved from the object that the
    arguments designate. *)
Definition moved_out (a : init T) w : World T :=
  match moved_slot a with
  | Some (Ptr l i) =>
      match cells w !! (l, i) with
      | Some x => set_cells (insert (l, i) (moved_from x)) w
      | None => w
      end
  | _ => w
  end.

(** [Emplace] on a Vector holding [xs] with capacity [cap] reaches the
    construction of the new element, and the constructor does not
    throw. *)
Definition arg_consumed xs (cap : Z) (a : init T) w : Prop :=
  (Z.of_nat (length xs) = cap → alloc_granted w (grown_capacity cap * Z.pos sizeof)) ∧
  (ctor_may_throw (init_kind a) = true → fault_at w (ops_done w) = None).

Global Instance arg_consumed_dec xs cap a w : Decision (arg_consumed xs cap a w).
Proof. unfold arg_consumed, alloc_granted. apply _. Defined.

(** The world in which [Emplace] continues once it is done with its
    arguments. *)
Definition arg_world xs (cap : Z) (a : init T) w : World T :=
  if decide (arg_consumed xs cap a w) then moved_out a w else w.

(** The elements [xs] of the Vector [this] once the arguments [a] were
    used: the element that was moved from, if it is one of them, is in
    its moved-from state. *)
Definition after_use w (this : addr) (a : init T) xs : list T :=
  match moved_slot a with
  | Some (Ptr l i) =>
      if decide (buffer_loc w this = Some l)
      then alter moved_from (Z.to_nat i) xs
      else xs
  | _ => xs
  end.

(** The state of a program that uses Vectors: the heap is well formed,
    every Vector object satisfies the class invariant, and no two of them
    share a buffer. *)
Definition world_inv w : Prop :=
  heap_wf w ∧
  (∀ a, is_Some (vecs w !! a) → vector_inv w a) ∧
  (∀ a b, a ≠ b → separate w a b).

(** The public operations of [Vector]; positions are offsets from
    [begin()]. *)
Inductive operation : Type :=
| OpDefault | OpSized (n : Z) | OpCopy (other : addr) | OpMove (other : addr) | OpDtor
| OpAssignCopy (rhs : addr) | OpAssignMove (rhs : addr) | OpSwap (other : addr)
| OpReserve (n : Z) | OpResize (n : Z)
| OpPushBack (value : ref T) | OpPushBackMove (value : ref T) | OpPopBack
| OpEmplaceBack (a : init T)
| OpEmplace (k : Z) (a : init T) | OpInsert (k : Z) (value : ref T)
| OpInsertMove (k : Z) (value : ref T)
| OpErase (k : Z).

(** [f(begin() + k)], the result dropped. *)
Definition at_offset (this : addr) (k : Z) (f : ptr → M T ptr) : M T unit :=
  bind (Vector_begin this) (λ first, bind (f (ptr_add first k)) (λ _, ret tt)).

(** The call of [op] on the object at [this]. *)
Definition call (this : addr) (op : operation) : M T unit :=
  match op with
  | OpDefault => Vector_default this
  | OpSized n => Vector_sized this n
  | OpCopy other => Vector_copy this other
  | OpMove other => Vector_move this other
  | OpDtor => Vector_dtor this
  | OpAssignCopy rhs => assign_copy this rhs
  | OpAssignMove rhs => assign_move this rhs
  | OpSwap other => Swap this other
  | OpReserve n => Reserve this n
  | OpResize n => Resize this n
  | OpPushBack x => PushBack this x
  | OpPushBackMove x => PushBack_move this x
  | OpPopBack => PopBack this
  | OpEmplaceBack a => bind (EmplaceBack this a) (λ _, ret tt)
  | OpEmplace k a => at_offset this k (λ pos, Emplace this pos a)
  | OpInsert k x => at_offset this k (λ pos, Insert this pos x)
  | OpInsertMove k x => at_offset this k (λ pos, Insert_move this pos x)
  | OpErase k => at_offset this k (λ pos, Erase this pos)
  end.

(** What the new element of an insertion is constructed from. *)
Definition op_args (op : operation) : option (init T) :=
  match op with
  | OpPushBack r | OpInsert _ r => Some (ByCopy r)
  | OpPushBackMove r | OpInsertMove _ r => Some (ByMove r)
  | OpEmplaceBack a | OpEmplace _ a => Some a
  | _ => None
  end.

(** The contract of each call: a constructor runs on storage that holds no
    Vector yet, every other operation on a live one; sizes fit [size_t]
    when multiplied by [sizeof(T)]; positions lie in the Vector;
    [PopBack] needs an element; a reference passed to an insertion
    designates an object. *)
Definition callable w (this : addr) (op : operation) : Prop :=
  (∀ a, op_args op = Some a → is_Some (arg_value w a)) ∧
  match op with
  | OpDefault => vecs w !! this = None
  | OpSized n => vecs w !! this = None ∧ 0 ≤ n ∧ n * Z.pos sizeof ≤ SIZE_MAX
  | OpCopy other | OpMove other => vecs w !! this = None ∧ is_Some (vecs w !! other)
  | OpDtor | OpPushBack _ | OpPushBackMove _ | OpEmplaceBack _ => is_Some (vecs w !! this)
  | OpAssignCopy rhs | OpAssignMove rhs | OpSwap rhs =>
      is_Some (vecs w !! this) ∧ is_Some (vecs w !! rhs)
  | OpReserve n | OpResize n =>
      is_Some (vecs w !! this) ∧ 0 ≤ n ∧ n * Z.pos sizeof ≤ SIZE_MAX
  | OpPopBack => ∃ v, vecs w !! this = Some v ∧ 0 < size_ v
  | OpEmplace k _ | OpInsert k _ | OpInsertMove k _ =>
      ∃ v, vecs w !! this = Some v ∧ 0 ≤ k ≤ size_ v
  | OpErase k => ∃ v, vecs w !! this = Some v ∧ 0 ≤ k < size_ v
  end.

(** The arguments of an insertion before a given position. *)
Definition insertion (op : operation) : option (Z * init T) :=
  match op with
  | OpEmplace k a => Some (k, a)
  | OpInsert k r => Some (k, ByCopy r)
  | OpInsertMove k r => Some (k, ByMove r)
  | _ => None
  end.

(** The one exit that breaks the invariant: an insertion before [end()]
    into spare capacity whose last move assignment threw [e]. *)
Definition last_assign_threw w (this : addr) (op : operation) (e : exn) w' : Prop :=
  ∃ k a xs cap, insertion op = Some (k, a) ∧ is_vector w this xs cap ∧
                0 ≤ k < Z.of_nat (length xs) ∧ Z.of_nat (length xs) < cap ∧
                fault_at w (last_assign_op xs k a w) = Some e ∧
                slot_left_constructed this (Z.of_nat (length xs)) w'.

(** The two exits on which the behaviour is undefined: an insertion
    before [end()] whose handler destroys a slot that holds no object. *)
Definition reaches_dead_slot w (this : addr) (op : operation) : Prop :=
  ∃ k a xs cap, insertion op = Some (k, a) ∧ is_vector w this xs cap ∧
                destroys_dead_slot xs cap k a w.

(** The insertion [op] moves from an element of the Vector [b]. *)
Definition moves_from w (op : operation) (b : addr) : Prop :=
  ∃ a l i, op_args op = Some a ∧ moved_slot a = Some (Ptr l i) ∧
           buffer_loc w b = Some l.

(** The second Vector an operation changes, if any. *)
Definition exchanged_with (op : operation) : option addr :=
  match op with
  | OpMove other | OpAssignMove other | OpSwap other => Some other
  | _ => None
  end.

(** Every Vector that is not an operand the call may change, and none of
    whose elements the call was asked to move from, holds what it held. *)
Definition others_kept (this : addr) (op : operation) w w' : Prop :=
  ∀ b ys cb, b ≠ this → exchanged_with op ≠ Some b → ¬ moves_from w op b →
             is_vector w b ys cb → is_vector w' b ys cb.

(** How often the events [evs] destroy, and construct, an object at [p]. *)
Definition destroyed (p : place) (evs : list event) : nat :=
  count_events (is_destroy_of p) evs.
Definition constructed (p : place) (evs : list event) : nat :=
  count_events (is_construct_of p) evs.

(** During an [Emplace] at capacity, the construction of the new element
    from [a] succeeds and the relocation of element [j] is the first
    operation to throw; it throws [e]. *)
Definition relocation_throws xs (a : init T) (j : Z) (e : exn) w : Prop :=
  0 ≤ j < Z.of_nat (length xs) ∧
  (ctor_may_throw (init_kind a) = true → fault_at w (ops_done w) = None) ∧
  (∀ j', 0 ≤ j' < j → fault_at w (ops_done w + ctor_ops (init_kind a) + j') = None) ∧
  fault_at w (ops_done w + ctor_ops (init_kind a) + j) = Some e.

(** What the caller finds after an exception thrown while the elements
    before the insertion position [k] were relocated: the new element and
    every relocated element placed in the new block [nl] were constructed
    once and destroyed once, and the block holds no object. *)
Definition new_block_cleaned (nl : loc) (k j : Z) w w' : Prop :=
  ∃ evs, events_since w w' evs ∧
         (∀ i, constructed (InBuffer nl i) evs =
               (if decide (i = k ∨ 0 ≤ i < j) then 1%nat else 0%nat) ∧
               destroyed (InBuffer nl i) evs = constructed (InBuffer nl i) evs) ∧
         ∀ i, cells w' !! (nl, i) = None.

(** A program that has created no Vector yet, with the given schedule of
    exceptions and allocation failures. *)
Definition start (faults : Z → option exn) (alloc_faults : Z → bool) : World T :=
  mkWorld ∅ ∅ ∅ 0%nat [] faults 0 alloc_faults 0.

(** The elements [xs] in the slots [i, i + length xs) of block [l]. *)
Fixpoint cells_from (l : loc) (i : Z) xs : gmap (loc * Z) T :=
  match xs with
  | [] => ∅
  | x :: xs' => <[(l, i) := x]> (cells_from l (i + 1) xs')
  end.

(** The world [w] with one more Vector at [a], holding [xs] in a new block
    of [cap] slots. *)
Definition with_vector (a : addr) xs (cap : Z) w : World T :=
  mkWorld (<[a := mkVector (mkRawMemory (Ptr (next_loc w) 0) cap) (Z.of_nat (length xs))]> (vecs w))
          (<[next_loc w := cap * Z.pos sizeof]> (blocks w))
          (cells_from (next_loc w) 0 xs ∪ cells w)
          (S (next_loc w)) (trace w) (fault_at w) (ops_done w)
          (alloc_fault_at w) (allocs_done w).

(** The capacity of a Vector that started empty, after [n] appends:
    0, 1, 2, 4, 4, 8, 8, 8, 8, 16, ... *)
Definition doubled (n : Z) : Z := if decide (n ≤ 0) then 0 else 2 ^ Z.log2_up n.

(** [PushBack] of each element of [zs], in order. *)
Fixpoint push_all (this : addr) zs : M T unit :=
  match zs with
  | [] => ret tt
  | z :: zs' => bind (PushBack this (Outside z)) (λ _, push_all this zs')
  end.

(** The reference designates an element of the Vector [this]. *)
Definition element_of w (this : addr) (r : ref T) : Prop :=
  ∃ l i, r = Slot (Ptr l i) ∧ buffer_loc w this = Some l.

(** However [m] ends from [w], by returning or by throwing, [Q] or [R]
    holds of the end; nothing is said where [m] is undefined. *)
Definition exits {A} (m : M T A) w
    (Q : A → World T → Prop) (R : exn → World T → Prop) : Prop :=
  match m w with
  | Ok a w' => Q a w'
  | Throw e w' => R e w'
  | Undef => True
  end.

(** What the operations on elements leave alone: the Vector objects, the
    raw blocks and the allocator. *)
Definition same_storage w w' : Prop :=
  vecs w' = vecs w ∧ blocks w' = blocks w ∧ next_loc w' = next_loc w ∧
  allocs_done w' = allocs_done w.

(** A computation that works on elements only. *)
Definition element_level {A} (m : M T A) : Prop :=
  ∀ w, exits m w (λ _, same_storage w) (λ _, same_storage w).

(** The storage after a member function called on the Vector at [this]
    has ended, by returning or by throwing: the other Vector objects are
    as they were; every block that is not the buffer of [this]
    afterwards is as it was, except the former buffer of [this], which
    is released; and the allocator was called at most once, and if it
    was not called, the buffer is the former one or null. *)
Definition storage_step (this : addr) w w' : Prop :=
  (∀ a, a ≠ this → vecs w' !! a = vecs w !! a) ∧
  (∀ l, buffer_loc w' this ≠ Some l →
        blocks w' !! l =
        if decide (buffer_loc w this = Some l) then None else blocks w !! l) ∧
  ((allocs_done w' = allocs_done w ∧
    (buffer_loc w' this = buffer_loc w this ∨ buffer_loc w' this = None)) ∨
   allocs_done w' = allocs_done w + 1).

(** What [RawMemory(n)] returns: no block, or the block just allocated. *)
Definition fresh_storage w (d : RawMemory) w0 : Prop :=
  (buffer_ d = nullptr ∧ w0 = w) ∨
  (∃ bytes, buffer_ d = Ptr (next_loc w) 0 ∧ w0 = allocated bytes w).

(** What is left of a Vector that worked in its buffer: no block and no
    other Vector changed, the allocator was not called, and the buffer
    of [this] is where it was. *)
Definition kept_in_place (this : addr) w w' : Prop :=
  blocks w' = blocks w ∧ next_loc w' = next_loc w ∧ allocs_done w' = allocs_done w ∧
  (∀ a, a ≠ this → vecs w' !! a = vecs w !! a) ∧
  ∃ v v', vecs w !! this = Some v ∧ vecs w' !! this = Some v' ∧ data_ v' = data_ v.

(** Every raw block is the buffer of a Vector: no storage is leaked. *)
Definition all_owned w : Prop :=
  ∀ l, is_Some (blocks w !! l) → ∃ a, buffer_loc w a = Some l.

(** The calls that need no more slots than the Vector at [this] has. *)
Definition within_capacity w (this : addr) (op : operation) : Prop :=
  ∃ v, vecs w !! this = Some v ∧
       match op with
       | OpReserve n | OpResize n => n ≤ capacity_ (data_ v)
       | OpPushBack _ | OpPushBackMove _ | OpEmplaceBack _
       | OpEmplace _ _ | OpInsert _ _ | OpInsertMove _ _ => size_ v ≠ capacity_ (data_ v)
       | OpPopBack | OpErase _ => True
       | OpAssignCopy rhs => ∃ r, vecs w !! rhs = Some r ∧ size_ r ≤ capacity_ (data_ v)
       | _ => False
       end.

(** The size member of the Vector at [this] is what it was. *)
Definition size_kept (this : addr) w w' : Prop :=
  ∀ v, vecs w !! this = Some v → ∃ v', vecs w' !! this = Some v' ∧ size_ v' = size_ v.
End Vocabulary.

Global Arguments wp_or : simpl never.
Global Arguments ctor_ops : simpl never.

(** * Element types and worlds for the examples *)

(** A class of four bytes whose move constructor is noexcept and which can
    be copied; which of its other operations throw is said by the fault
    schedule of the world. *)
Definition int_element : Element Z :=
  {| sizeof := 4; value_init := 0; default_init := 0; moved_from := λ x, x;
     is_nothrow_move_constructible := true; is_copy_constructible := true;
     sizeof_size_t := eq_refl |}.

(** A copyable class whose move constructor is not noexcept: relocated by
    copy. *)
Definition copied_element : Element Z :=
  {| sizeof := 4; value_init := 0; default_init := 0; moved_from := λ _, 0;
     is_nothrow_move_constructible := false; is_copy_constructible := true;
     sizeof_size_t := eq_refl |}.

(** A move-only class whose move constructor may throw: relocated by move. *)
Definition unique_element : Element Z :=
  {| sizeof := 4; value_init := 0; default_init := 0; moved_from := λ _, 0;
     is_nothrow_move_constructible := false; is_copy_constructible := false;
     sizeof_size_t := eq_refl |}.

(** Like [short]: two bytes. *)
Definition short_element : Element Z :=
  {| sizeof := 2; value_init := 0; default_init := 0; moved_from := λ x, x;
     is_nothrow_move_constructible := true; is_copy_constructible := true;
     sizeof_size_t := eq_refl |}.

(** No exception, no allocation failure; one exception, thrown by the
    element operation number [i]. *)
Definition no_fault : Z → option exn := λ _, None.
Definition no_alloc_fault : Z → bool := λ _, false.
Definition fault_on (i : Z) (e : exn) : Z → option exn :=
  λ j, if j =? i then Some e else None.

(** Two Vector objects. *)
Definition vec_a : addr := 0%nat.
Definition vec_b : addr := 1%nat.

(** A Vector [vec_a] holding [xs] with capacity [cap], alone in the world. *)
Definition one_vector (ET : Element Z) (xs : list Z) (cap : Z) (faults : Z → option exn) : World Z :=
  with_vector (ET := ET) vec_a xs cap (start faults no_alloc_fault).

(** [vec_a] holding [1; 2] with capacity 2, and [vec_b] holding [7] with
    capacity 3. *)
Definition two_vectors : World Z :=
  with_vector (ET := int_element) vec_b [7] 3 (one_vector int_element [1; 2] 2 no_fault).

(** A default-constructed [vec_a]. *)
Definition empty_vector : World Z :=
  set_vecs (insert vec_a (mkVector RawMemory_default 0)) (start no_fault no_alloc_fault).

(** [vec_a] holding [1; 2; 3] with capacity 4; [vec_a] holding [1; 2] at
    capacity, where the element operation number [i] throws. *)
Definition three_of_four : World Z := one_vector int_element [1; 2; 3] 4 no_fault.
Definition full_failing (ET : Element Z) (i : Z) : World Z :=
  one_vector ET [1; 2] 2 (fault_on i (std_exception 0)).

(** [vec_a] holding [1; 2] at capacity and [vec_b] holding [7; 8; 9], where
    the element operation number 1 throws. *)
Definition copy_failing : World Z :=
  with_vector (ET := copied_element) vec_b [7; 8; 9] 3
    (one_vector copied_element [1; 2] 2 (fault_on 1 (std_exception 0))).

(** Proof automation: equality of worlds built from the same one, and case
    analysis on which slot a lookup hits. *)
Ltac world_eq :=
  unfold with_heap, set_cells, set_vecs, set_blocks, set_next_loc, log, tick_op, tick_alloc;
  simpl; f_equal; try done; try lia.

Ltac solve_slot :=
  repeat case_decide; try done; exfalso;
  repeat match goal with H : _ ∧ _ |- _ => destruct H end; subst;
  repeat match goal with
         | H : ¬ (_ ∧ _) |- _ => apply H; split_and?; (done || lia)
         | H : (_, _) ≠ (_, _) |- _ => apply H; f_equal; lia
         end.

(** * Reasoning rules *)

Section Rules.
Context {T : Type} {ET : Element T}.
Implicit Types (w : World T) (xs : list T).

Lemma wp_ret {A} (a : A) w (Q : A → World T → Prop) R U :
  Q a w → wp_or (ret a) w Q R U.
Proof. done. Qed.

Lemma wp_bind {A B} (m : M T A) (k : A → M T B) w Q R U :
  wp_or m w (λ a w', wp_or (k a) w' Q R U) R U → wp_or (bind m k) w Q R U.
Proof. unfold wp_or, bind. by destruct (m w). Qed.

Lemma wp_mono {A} (m : M T A) w (Q Q' : A → World T → Prop)
    (R R' : exn → World T → Prop) U :
  wp_or m w Q R U →
  (∀ a w', Q a w' → Q' a w') →
  (∀ e w', R e w' → R' e w') →
  wp_or m w Q' R' U.
Proof. unfold wp_or. destruct (m w); auto. Qed.

(** A computation that is defined may be used where undefined behaviour
    is allowed, and more generally [U] may be weakened. *)
Lemma wp_defined {A} (m : M T A) w Q R U :
  wp m w Q R → wp_or m w Q R U.
Proof. unfold wp_or. by destruct (m w). Qed.

Lemma wp_or_mono {A} (m : M T A) w Q R (U U' : Prop) :
  wp_or m w Q R U → (U → U') → wp_or m w Q R U'.
Proof. unfold wp_or. destruct (m w); auto. Qed.

Lemma wp_throw {A} e w (Q : A → World T → Prop) (R : exn → World T → Prop) U :
  R e w → wp_or (throw e) w Q R U.
Proof. done. Qed.

Lemma wp_modify f w (Q : unit → World T → Prop) R U :
  Q tt (f w) → wp_or (modify f) w Q R U.
Proof. done. Qed.

Lemma wp_assert b w (Q : unit → World T → Prop) R U :
  b = true → Q tt w → wp_or (assert b) w Q R U.
Proof. by intros ->. Qed.

Lemma wp_from_option {A} (o : option A) a w (Q : A → World T → Prop) R U :
  o = Some a → Q a w → wp_or (from_option o) w Q R U.
Proof. by intros ->. Qed.

Lemma wp_try_catch {A} (m : M T A) handles h w Q R U :
  wp_or m w Q (λ e w', if handles e : bool then wp_or (h e) w' Q R U else R e w') U →
  wp_or (try_catch m handles h) w Q R U.
Proof. unfold wp_or, try_catch. destruct (m w); [done| |done]. by destruct (handles e). Qed.

Lemma wp_unwinding {A} (m : M T A) cleanup w Q R U :
  wp_or m w Q (λ e w', wp_or cleanup w' (λ _ w'', R e w'') R U) U →
  wp_or (unwinding m cleanup) w Q R U.
Proof.
  intros H. apply wp_try_catch. eapply wp_mono; [exact H|done|].
  intros e w' Hc. simpl. apply wp_bind. eapply wp_mono; [exact Hc| |done].
  intros [] w'' HR. by apply wp_throw.
Qed.

(** A loop with invariant [I]. *)
Lemma wp_for_loop (I : Z → World T → Prop) i (n : nat) body w
    (Q : unit → World T → Prop) R U :
  I i w →
  (∀ j w1, i ≤ j < i + Z.of_nat n → I j w1 →
           wp_or (body j) w1 (λ _ w2, I (j + 1) w2) R U) →
  (∀ w', I (i + Z.of_nat n) w' → Q tt w') →
  wp_or (for_loop i n body) w Q R U.
Proof.
  revert i w. induction n as [|n IH]; intros i w Hi Hstep Hend.
  - apply wp_ret, Hend. by replace (i + Z.of_nat 0) with i by lia.
  - simpl. apply wp_bind. eapply wp_mono; [apply (Hstep i w); [lia|done]| |done].
    intros [] w2 HI. apply IH; [done| |].
    + intros j w1 Hj. apply Hstep. lia.
    + intros w' Hw'. apply Hend. by replace (i + Z.of_nat (S n)) with (i + 1 + Z.of_nat n) by lia.
Qed.

(** A computation that satisfies a specification whose exceptional
    postcondition is absurd returns normally. *)
Lemma wp_returns {A} (m : M T A) w Q :
  wp m w Q (λ _ _, False) → ∃ a w', m w = Ok a w' ∧ Q a w'.
Proof. unfold wp_or. destruct (m w); [eauto|done|done]. Qed.

Lemma wp_run {A} (m : M T A) w Q R :
  wp m w Q R →
  match m w with
  | Ok a w' => Q a w'
  | Throw e w' => R e w'
  | Undef => False
  end.
Proof. done. Qed.

Lemma wp_or_run {A} (m : M T A) w Q R U :
  wp_or m w Q R U →
  match m w with
  | Ok a w' => Q a w'
  | Throw e w' => R e w'
  | Undef => U
  end.
Proof. done. Qed.

(** ** Primitives *)

Lemma wp_may_throw w (Q : unit → World T → Prop) R U :
  (fault_at w (ops_done w) = None → Q tt (tick_op w)) →
  (∀ e, fault_at w (ops_done w) = Some e → R e (tick_op w)) →
  wp_or may_throw w Q R U.
Proof. unfold wp_or, may_throw. destruct (fault_at w (ops_done w)); auto. Qed.

Lemma wp_load l i x w (Q : T → World T → Prop) R U :
  in_block w l i = true → cells w !! (l, i) = Some x →
  Q x w → wp_or (load (Ptr l i)) w Q R U.
Proof. unfold wp_or, load. by intros -> ->. Qed.

Lemma wp_store l i x w (Q : unit → World T → Prop) R U :
  in_block w l i = true → is_Some (cells w !! (l, i)) →
  Q tt (set_cells (insert (l, i) x) w) → wp_or (store (Ptr l i) x) w Q R U.
Proof. unfold wp_or, store. by intros -> [? ->]. Qed.

Lemma wp_destroy_at l i w (Q : unit → World T → Prop) R U :
  in_block w l i = true → is_Some (cells w !! (l, i)) →
  Q tt (set_cells (delete (l, i)) (log (EvDestroy (InBuffer l i)) w)) →
  wp_or (destroy_at (Ptr l i)) w Q R U.
Proof. unfold wp_or, destroy_at. by intros -> [? ->]. Qed.

Lemma wp_or_destroy_dead l i w (Q : unit → World T → Prop) R (U : Prop) :
  cells w !! (l, i) = None → U → wp_or (destroy_at (Ptr l i)) w Q R U.
Proof. unfold wp_or, destroy_at. intros -> HU. by destruct (in_block w l i). Qed.

Lemma wp_construct k l i x w (Q : unit → World T → Prop) R U :
  in_block w l i = true →
  (if ctor_may_throw k
   then (fault_at w (ops_done w) = None →
         Q tt (set_cells (insert (l, i) x) (log (EvConstruct k (InBuffer l i)) (tick_op w)))) ∧
        (∀ e, fault_at w (ops_done w) = Some e → R e (tick_op w))
   else Q tt (set_cells (insert (l, i) x) (log (EvConstruct k (InBuffer l i)) w))) →
  wp_or (construct k (Ptr l i) x) w Q R U.
Proof.
  intros Hin H. unfold construct. apply wp_bind.
  destruct (ctor_may_throw k).
  - destruct H as [H1 H2]. apply wp_may_throw; [|done].
    intros Hf. unfold wp_or. replace (in_block (tick_op w) l i) with (in_block w l i) by done.
    rewrite Hin. auto.
  - apply wp_ret. unfold wp_or. by rewrite Hin.
Qed.

(** Construction from arguments that refer to no slot. *)
Lemma wp_construct_at p a x w (Q : unit → World T → Prop) R U :
  outside a = Some x →
  wp_or (construct (init_kind a) p x) w Q R U →
  wp_or (construct_at p a) w Q R U.
Proof.
  intros Ha H. unfold wp_or, construct_at, bind in *.
  destruct a as [[y|q]|[y|q]|y]; simplify_eq/=;
    by destruct (construct _ p x w) as [[]| |].
Qed.

Lemma wp_operator_new bytes w (Q : ptr → World T → Prop) R U :
  (alloc_fault_at w (allocs_done w) = false → bytes ≤ PTRDIFF_MAX →
   Q (Ptr (next_loc w) 0) (allocated bytes w)) →
  (alloc_fault_at w (allocs_done w) = true ∨ PTRDIFF_MAX < bytes →
   R bad_alloc (alloc_failed bytes w)) →
  wp_or (operator_new bytes) w Q R U.
Proof.
  intros HQ HR. unfold wp_or, operator_new.
  destruct (alloc_fault_at w (allocs_done w)) eqn:Ha; simpl.
  - apply HR. by left.
  - destruct (PTRDIFF_MAX <? bytes) eqn:Hb.
    + apply HR. right. lia.
    + apply HQ; [done|lia].
Qed.

Lemma wp_operator_delete_null w (Q : unit → World T → Prop) R U :
  Q tt w → wp_or (operator_delete nullptr) w Q R U.
Proof. done. Qed.

Lemma wp_operator_delete l bytes w (Q : unit → World T → Prop) R U :
  blocks w !! l = Some bytes →
  Q tt (set_blocks (delete l) (log (EvDelete l) w)) →
  wp_or (operator_delete (Ptr l 0)) w Q R U.
Proof. unfold wp_or, operator_delete. intros ->. by rewrite decide_True. Qed.

Lemma wp_get_vec this v w (Q : Vector → World T → Prop) R U :
  vecs w !! this = Some v → Q v w → wp_or (get_vec this) w Q R U.
Proof. unfold wp_or, get_vec. by intros ->. Qed.

Lemma wp_put_vec this v w (Q : unit → World T → Prop) R U :
  Q tt (set_vecs (insert this v) w) → wp_or (put_vec this v) w Q R U.
Proof. done. Qed.

Lemma wp_get_data this v w (Q : RawMemory → World T → Prop) R U :
  vecs w !! this = Some v → Q (data_ v) w → wp_or (get_data this) w Q R U.
Proof. unfold wp_or, get_data, bind, get_vec. by intros ->. Qed.

Lemma wp_get_size this v w (Q : Z → World T → Prop) R U :
  vecs w !! this = Some v → Q (size_ v) w → wp_or (get_size this) w Q R U.
Proof. unfold wp_or, get_size, bind, get_vec. by intros ->. Qed.

Lemma wp_set_data this v d w (Q : unit → World T → Prop) R U :
  vecs w !! this = Some v →
  Q tt (set_vecs (insert this (mkVector d (size_ v))) w) →
  wp_or (set_data this d) w Q R U.
Proof. unfold wp_or, set_data, bind, get_vec. by intros ->. Qed.

Lemma wp_set_size this v n w (Q : unit → World T → Prop) R U :
  vecs w !! this = Some v →
  Q tt (set_vecs (insert this (mkVector (data_ v) n)) w) →
  wp_or (set_size this n) w Q R U.
Proof. unfold wp_or, set_size, bind, get_vec. by intros ->. Qed.
End Rules.

(** * Loops over slots *)

Section Loops.
Context {T : Type} {ET : Element T}.
Implicit Types (w : World T) (xs ys zs : list T).

Lemma wp_guarded d_first i (m : M T unit) w Q R U :
  wp_or m w Q (λ e w', wp_or (destroy_n d_first i) w' (λ _ w'', R e w'') R U) U →
  wp_or (guarded d_first i m) w Q R U.
Proof.
  intros H. apply wp_try_catch. eapply wp_mono; [exact H|done|].
  intros e w' Hc. simpl. apply wp_bind. eapply wp_mono; [exact Hc| |done].
  intros [] w'' HR. by apply wp_throw.
Qed.

Lemma with_heap_id w : with_heap (cells w) (trace w) (ops_done w) w = w.
Proof. by destruct w. Qed.

Lemma slot_events_nil f l s n : n ≤ 0 → slot_events f l s n = [].
Proof. intros. unfold slot_events. by rewrite seqZ_nil. Qed.

Lemma slot_events_snoc f l s j :
  0 ≤ j → slot_events f l s (j + 1) = f (InBuffer l (s + j)) :: slot_events f l s j.
Proof.
  intros Hj. unfold slot_events.
  replace (j + 1) with (Z.of_nat (S (Z.to_nat j))) by lia.
  rewrite seqZ_S, reverse_app. simpl.
  by rewrite !Z2Nat.id by lia.
Qed.

(** [std::destroy_n] on slots inside a block. *)
Lemma wp_destroy_n l s n w (Q : unit → World T → Prop) R U :
  0 ≤ n →
  (∀ i, s ≤ i < s + n → in_block w l i = true ∧ is_Some (cells w !! (l, i))) →
  (∀ c, (∀ l' i, c !! (l', i) =
                 if decide (l' = l ∧ s ≤ i < s + n) then None else cells w !! (l', i)) →
        Q tt (with_heap c (slot_events EvDestroy l s n ++ trace w) (ops_done w) w)) →
  wp_or (destroy_n (Ptr l s) n) w Q R U.
Proof.
  intros Hn Hin HQ. unfold destroy_n.
  apply (wp_for_loop (λ j w1, ∃ c,
    w1 = with_heap c (slot_events EvDestroy l s j ++ trace w) (ops_done w) w ∧
    ∀ l' i, c !! (l', i) =
            if decide (l' = l ∧ s ≤ i < s + j) then None else cells w !! (l', i))).
  - exists (cells w). split.
    + rewrite slot_events_nil by lia. symmetry. apply with_heap_id.
    + intros. rewrite decide_False; [done|lia].
  - intros j w1 Hj (c & -> & Hc). simpl. apply wp_destroy_at.
    { apply Hin. lia. }
    { simpl. rewrite Hc, decide_False by lia. apply Hin. lia. }
    exists (delete (l, s + j) c). split.
    + rewrite slot_events_snoc by lia. done.
    + intros l' i. destruct (decide ((l', i) = (l, s + j))) as [[= -> ->]|Hne].
      * rewrite lookup_delete_eq, decide_True; [done|lia].
      * rewrite lookup_delete_ne by done. rewrite Hc.
        repeat case_decide; try done.
        all: solve_slot.
  - intros w' (c & -> & Hc). rewrite Z2Nat.id in Hc |- * by lia.
    apply HQ. intros l' i. rewrite Hc. by replace (s + (0 + n)) with (s + n) by lia.
Qed.

(** [std::uninitialized_copy_n] between two different blocks. *)
Lemma wp_uninitialized_copy_n ls s ld d n w (Q : unit → World T → Prop) R U :
  0 ≤ n → ls ≠ ld →
  (∀ j, 0 ≤ j < n →
        in_block w ls (s + j) = true ∧ is_Some (cells w !! (ls, s + j)) ∧
        in_block w ld (d + j) = true ∧ cells w !! (ld, d + j) = None) →
  (∀ c, (∀ j, 0 ≤ j < n → fault_at w (ops_done w + j) = None) →
        (∀ l' i, c !! (l', i) =
                 if decide (l' = ld ∧ d ≤ i < d + n)
                 then cells w !! (ls, i - d + s) else cells w !! (l', i)) →
        Q tt (with_heap c (slot_events (EvConstruct CopyCtor) ld d n ++ trace w)
                          (ops_done w + n) w)) →
  (∀ k e, 0 ≤ k < n →
          (∀ j, 0 ≤ j < k → fault_at w (ops_done w + j) = None) →
          fault_at w (ops_done w + k) = Some e →
          R e (with_heap (cells w)
                 (slot_events EvDestroy ld d k ++
                  slot_events (EvConstruct CopyCtor) ld d k ++ trace w)
                 (ops_done w + k + 1) w)) →
  wp_or (uninitialized_copy_n (Ptr ls s) n (Ptr ld d)) w Q R U.
Proof.
  intros Hn Hne Hpre HQ HR. unfold uninitialized_copy_n.
  apply (wp_for_loop (λ j w1, ∃ c,
    w1 = with_heap c (slot_events (EvConstruct CopyCtor) ld d j ++ trace w)
                     (ops_done w + j) w ∧
    (∀ j', 0 ≤ j' < j → fault_at w (ops_done w + j') = None) ∧
    ∀ l' i, c !! (l', i) =
            if decide (l' = ld ∧ d ≤ i < d + j)
            then cells w !! (ls, i - d + s) else cells w !! (l', i))).
  - exists (cells w). split_and!.
    + rewrite slot_events_nil by lia. rewrite Z.add_0_r. symmetry. apply with_heap_id.
    + intros; lia.
    + intros. rewrite decide_False; [done|lia].
  - intros j w1 Hj (c & -> & Hf & Hc).
    destruct (Hpre j) as (Hsi & [x Hx] & Hdi & Hdn); [lia|].
    apply wp_guarded. unfold copy_construct. cbn [ptr_add].
    apply wp_bind. eapply wp_load; [exact Hsi| |].
    { simpl. rewrite Hc, decide_False by (by intros [? _]). exact Hx. }
    apply wp_construct; [exact Hdi|]. cbn [ctor_may_throw]. split.
    + intros Hnf. exists (<[(ld, d + j) := x]> c). split_and!.
      * rewrite slot_events_snoc by lia. world_eq.
      * intros j' Hj'. destruct (decide (j' = j)) as [->|]; [done|]. apply Hf. lia.
      * intros l' i. destruct (decide ((l', i) = (ld, d + j))) as [[= -> ->]|Hne'].
        -- rewrite lookup_insert_eq, decide_True by lia. rewrite <- Hx. f_equal. f_equal. lia.
        -- rewrite lookup_insert_ne by done. rewrite Hc. solve_slot.
    + intros e He. apply wp_destroy_n; [lia| |].
      { intros i Hi. destruct (Hpre (i - d)) as (_ & Hs & Hd & _); [lia|].
        replace (d + (i - d)) with i in Hd by lia. split; [done|].
        simpl. rewrite Hc, decide_True by lia.
        by replace (i - d + s) with (s + (i - d)) by lia. }
      intros c' Hc'. simpl.
      assert (c' = cells w) as ->.
      { apply map_eq. intros [l' i]. rewrite Hc'. simpl. rewrite Hc.
        case_decide as Hd1; [|solve_slot].
        destruct Hd1 as [-> Hd1]. destruct (Hpre (i - d)) as (_ & _ & _ & Hd); [lia|].
        by replace (d + (i - d)) with i in Hd by lia. }
      rewrite app_assoc. rewrite <- app_assoc. apply HR; [lia|done|done].
  - intros w' (c & -> & Hf & Hc). rewrite Z2Nat.id in Hf, Hc |- * by lia.
    rewrite !Z.add_0_l in *. apply HQ; done.
Qed.

(** [std::uninitialized_move_n] between two different blocks. *)
Lemma wp_uninitialized_move_n ls s ld d n w (Q : unit → World T → Prop) R U :
  0 ≤ n → ls ≠ ld →
  (∀ j, 0 ≤ j < n →
        in_block w ls (s + j) = true ∧ is_Some (cells w !! (ls, s + j)) ∧
        in_block w ld (d + j) = true ∧ cells w !! (ld, d + j) = None) →
  (∀ c, (ctor_may_throw MoveCtor = true →
         ∀ j, 0 ≤ j < n → fault_at w (ops_done w + j) = None) →
        (∀ l' i, c !! (l', i) =
                 if decide (l' = ld ∧ d ≤ i < d + n)
                 then cells w !! (ls, i - d + s)
                 else if decide (l' = ls ∧ s ≤ i < s + n)
                      then moved_from <$> cells w !! (ls, i)
                      else cells w !! (l', i)) →
        Q tt (with_heap c (slot_events (EvConstruct MoveCtor) ld d n ++ trace w)
                          (ops_done w + (if ctor_may_throw MoveCtor then n else 0)) w)) →
  (∀ k e c, 0 ≤ k < n → ctor_may_throw MoveCtor = true →
            (∀ j, 0 ≤ j < k → fault_at w (ops_done w + j) = None) →
            fault_at w (ops_done w + k) = Some e →
            (∀ l' i, c !! (l', i) =
                     if decide (l' = ls ∧ s ≤ i < s + k)
                     then moved_from <$> cells w !! (ls, i)
                     else cells w !! (l', i)) →
            R e (with_heap c
                   (slot_events EvDestroy ld d k ++
                    slot_events (EvConstruct MoveCtor) ld d k ++ trace w)
                   (ops_done w + k + 1) w)) →
  wp_or (uninitialized_move_n (Ptr ls s) n (Ptr ld d)) w Q R U.
Proof.
  intros Hn Hne Hpre HQ HR. unfold uninitialized_move_n.
  apply (wp_for_loop (λ j w1, ∃ c,
    w1 = with_heap c (slot_events (EvConstruct MoveCtor) ld d j ++ trace w)
                     (ops_done w + (if ctor_may_throw MoveCtor then j else 0)) w ∧
    (ctor_may_throw MoveCtor = true →
     ∀ j', 0 ≤ j' < j → fault_at w (ops_done w + j') = None) ∧
    ∀ l' i, c !! (l', i) =
            if decide (l' = ld ∧ d ≤ i < d + j)
            then cells w !! (ls, i - d + s)
            else if decide (l' = ls ∧ s ≤ i < s + j)
                 then moved_from <$> cells w !! (ls, i)
                 else cells w !! (l', i))).
  - exists (cells w). split_and!.
    + rewrite slot_events_nil by lia.
      replace (ops_done w + _) with (ops_done w) by (destruct (ctor_may_throw _); lia).
      symmetry. apply with_heap_id.
    + intros; lia.
    + intros. rewrite !decide_False; [done|lia|lia].
  - intros j w1 Hj (c & -> & Hf & Hc).
    destruct (Hpre j) as (Hsi & [x Hx] & Hdi & Hdn); [lia|].
    assert (c !! (ls, s + j) = Some x) as Hcx.
    { rewrite Hc, !decide_False; [done|lia|by intros [? _]]. }
    apply wp_guarded. unfold move_construct. cbn [ptr_add].
    apply wp_bind. eapply wp_load; [exact Hsi|exact Hcx|].
    apply wp_bind. apply wp_construct; [exact Hdi|].
    assert (∀ ops tr,
      wp_or (store (Ptr ls (s + j)) (moved_from x))
         (with_heap (<[(ld, d + j) := x]> c) tr ops w)
         (λ _ w2, w2 = with_heap (<[(ls, s + j) := moved_from x]> (<[(ld, d + j) := x]> c)) tr ops w)
         (λ e w', wp_or (destroy_n (Ptr ld d) j) w' (λ _ w'', R e w'') R U) U) as Hstore.
    { intros ops tr. apply wp_store; [exact Hsi| |done].
      simpl. rewrite lookup_insert_ne by congruence. by rewrite Hcx. }
    assert (∀ l' i, <[(ls, s + j) := moved_from x]> (<[(ld, d + j) := x]> c) !! (l', i) =
            if decide (l' = ld ∧ d ≤ i < d + (j + 1))
            then cells w !! (ls, i - d + s)
            else if decide (l' = ls ∧ s ≤ i < s + (j + 1))
                 then moved_from <$> cells w !! (ls, i)
                 else cells w !! (l', i)) as Hnew.
    { intros l' i. destruct (decide ((l', i) = (ls, s + j))) as [[= -> ->]|Hne1].
      - rewrite lookup_insert_eq, decide_False by (by intros [? _]).
        rewrite decide_True by lia. by rewrite Hx.
      - rewrite lookup_insert_ne by done.
        destruct (decide ((l', i) = (ld, d + j))) as [[= -> ->]|Hne2].
        + rewrite lookup_insert_eq, decide_True by lia. rewrite <- Hx. f_equal. f_equal. lia.
        + rewrite lookup_insert_ne by done. rewrite Hc. solve_slot. }
    destruct (ctor_may_throw MoveCtor) eqn:Hmay.
    + split.
      * intros Hnf. eapply wp_mono; [apply Hstore| |done].
        intros [] w2 ->. eexists. split_and!; [|eauto|exact Hnew].
        { rewrite slot_events_snoc by lia. world_eq. }
        intros _ j' Hj'. destruct (decide (j' = j)) as [->|]; [done|]. apply Hf; [done|lia].
      * intros e He. apply wp_destroy_n; [lia| |].
        { intros i Hi. destruct (Hpre (i - d)) as (_ & Hs & Hd & _); [lia|].
          replace (d + (i - d)) with i in Hd by lia. split; [done|].
          simpl. rewrite Hc, decide_True by lia.
          by replace (i - d + s) with (s + (i - d)) by lia. }
        intros c' Hc'. simpl.
        rewrite app_assoc. rewrite <- app_assoc. apply HR; [lia|done|auto|done|].
        intros l' i. rewrite Hc'. simpl. rewrite Hc.
        case_decide as Hd1; [|solve_slot].
        destruct Hd1 as [-> Hd1]. rewrite decide_False by (by intros [? _]).
        destruct (Hpre (i - d)) as (_ & _ & _ & Hd); [lia|].
        by replace (d + (i - d)) with i in Hd by lia.
    + eapply wp_mono; [apply Hstore| |done].
      intros [] w2 ->. eexists. split_and!; [|done|exact Hnew].
      rewrite slot_events_snoc by lia. world_eq.
  - intros w' (c & -> & Hf & Hc). rewrite Z2Nat.id in Hf, Hc |- * by lia.
    rewrite !Z.add_0_l in *. apply HQ; done.
Qed.

(** The relocation chosen by [if constexpr]. *)
Lemma wp_relocate_n ls s ld d n w (Q : unit → World T → Prop) R U :
  0 ≤ n → ls ≠ ld →
  (∀ j, 0 ≤ j < n →
        in_block w ls (s + j) = true ∧ is_Some (cells w !! (ls, s + j)) ∧
        in_block w ld (d + j) = true ∧ cells w !! (ld, d + j) = None) →
  (∀ c, (ctor_may_throw relocation_kind = true →
         ∀ j, 0 ≤ j < n → fault_at w (ops_done w + j) = None) →
        (∀ l' i, c !! (l', i) =
                 if decide (l' = ld ∧ d ≤ i < d + n)
                 then cells w !! (ls, i - d + s)
                 else if decide (l' = ls ∧ s ≤ i < s + n)
                      then relocated <$> cells w !! (ls, i)
                      else cells w !! (l', i)) →
        Q tt (with_heap c (slot_events (EvConstruct relocation_kind) ld d n ++ trace w)
                          (ops_done w + relocation_ops n) w)) →
  (∀ k e c, 0 ≤ k < n → ctor_may_throw relocation_kind = true →
            (∀ j, 0 ≤ j < k → fault_at w (ops_done w + j) = None) →
            fault_at w (ops_done w + k) = Some e →
            (∀ l' i, c !! (l', i) =
                     if decide (l' = ls ∧ s ≤ i < s + k)
                     then relocated <$> cells w !! (ls, i)
                     else cells w !! (l', i)) →
            R e (with_heap c
                   (slot_events EvDestroy ld d k ++
                    slot_events (EvConstruct relocation_kind) ld d k ++ trace w)
                   (ops_done w + k + 1) w)) →
  wp_or (relocate_n (Ptr ls s) n (Ptr ld d)) w Q R U.
Proof.
  intros Hn Hne Hpre HQ HR. unfold relocate_n.
  unfold relocated, relocation_ops, relocation_kind in *.
  destruct relocate_by_move.
  - apply wp_uninitialized_move_n; auto.
  - apply wp_uninitialized_copy_n; auto.
    + intros c Hf Hc. apply HQ; [auto|].
      intros l' i. rewrite Hc. repeat case_decide; try done.
      destruct_and!; subst. by destruct (cells w !! (ls, i)).
    + intros k e Hk Hf He. apply HR; auto.
      intros l' i. case_decide; [|done]. destruct_and!; subst.
      by destruct (cells w !! (ls, i)).
Qed.

Lemma count_events_nil f : count_events f [] = 0%nat.
Proof. done. Qed.

Lemma count_events_cons f e tr :
  count_events f (e :: tr) = ((if f e then 1 else 0) + count_events f tr)%nat.
Proof.
  unfold count_events. rewrite filter_cons. destruct (f e) eqn:E.
  - by rewrite decide_True.
  - by rewrite decide_False by congruence.
Qed.

Lemma count_events_app f tr1 tr2 :
  count_events f (tr1 ++ tr2) = (count_events f tr1 + count_events f tr2)%nat.
Proof. unfold count_events. by rewrite filter_app, length_app. Qed.

Lemma count_slot_events_all f g l s n :
  (∀ i, f (g (InBuffer l i)) = true) →
  count_events f (slot_events g l s n) = Z.to_nat n.
Proof.
  intros H. unfold slot_events, count_events.
  rewrite <- (length_seqZ s n), <- (length_reverse (seqZ s n)).
  generalize (reverse (seqZ s n)). intros js. induction js as [|i js IH]; [done|].
  rewrite fmap_cons, filter_cons, decide_True by auto. simpl. by rewrite IH.
Qed.

Lemma count_slot_events_none f g l s n :
  (∀ i, f (g (InBuffer l i)) = false) →
  count_events f (slot_events g l s n) = 0%nat.
Proof.
  intros H. unfold slot_events, count_events.
  generalize (reverse (seqZ s n)). intros js. induction js as [|i js IH]; [done|].
  rewrite fmap_cons, filter_cons, decide_False; [done|]. rewrite H. done.
Qed.
End Loops.

(** * Storage that holds a sequence *)

Section Owned.
Context {T : Type} {ET : Element T}.
Implicit Types (w : World T) (xs ys zs : list T).

Lemma lookupZ_is_Some xs i : is_Some (lookupZ xs i) ↔ 0 ≤ i < Z.of_nat (length xs).
Proof.
  unfold lookupZ. case_decide.
  - rewrite lookup_lt_is_Some. lia.
  - split; [by intros [? ?]|lia].
Qed.

Lemma lookupZ_None xs i : lookupZ xs i = None ↔ i < 0 ∨ Z.of_nat (length xs) ≤ i.
Proof.
  rewrite eq_None_not_Some, lookupZ_is_Some. lia.
Qed.

Lemma lookupZ_nil i : lookupZ ([] : list T) i = None.
Proof. apply lookupZ_None. simpl. lia. Qed.

Lemma lookupZ_of_nat xs (i : nat) : lookupZ xs (Z.of_nat i) = xs !! i.
Proof. unfold lookupZ. rewrite decide_True by lia. by rewrite Nat2Z.id. Qed.

Lemma lookupZ_ext xs ys : (∀ i, lookupZ xs i = lookupZ ys i) → xs = ys.
Proof.
  intros H. apply list_eq. intros i. by rewrite <- !lookupZ_of_nat.
Qed.

Lemma in_block_intro w l bytes i :
  blocks w !! l = Some bytes → 0 ≤ i → (i + 1) * Z.pos sizeof ≤ bytes →
  in_block w l i = true.
Proof. intros Hb ? ?. unfold in_block. rewrite Hb. by apply bool_decide_eq_true. Qed.

Lemma holds_in_block w l o xs i :
  holds w (Ptr l o) xs → 0 ≤ i < Z.of_nat (length xs) → in_block w l i = true.
Proof.
  intros (-> & bytes & Hb & Hsz & _) Hi. eapply in_block_intro; [done|lia|nia].
Qed.

Lemma owns_holds w d xs : owns w d xs → holds w (buffer_ d) xs.
Proof.
  intros (Hc & Hlen & H). unfold holds. destruct (buffer_ d) as [|l o].
  - subst. destruct xs; [done|]. simpl in *. lia.
  - destruct H as (-> & ? & bytes & ? & ? & ?). split; [done|]. exists bytes. split_and!; [done|nia|done].
Qed.

Lemma size_t_small z : 0 ≤ z ≤ SIZE_MAX → size_t z = z.
Proof. intros. unfold size_t. apply Z.mod_small. unfold SIZE_MAX in *. lia. Qed.

(** Loops that run zero times. *)
Lemma wp_destroy_n_zero p w (Q : unit → World T → Prop) R U :
  Q tt w → wp_or (destroy_n p 0) w Q R U.
Proof. done. Qed.

Lemma wp_relocate_n_zero p q w (Q : unit → World T → Prop) R U :
  Q tt w → wp_or (relocate_n p 0 q) w Q R U.
Proof. unfold relocate_n. by destruct relocate_by_move. Qed.

Lemma relocation_ops_0 : relocation_ops 0 = 0.
Proof. unfold relocation_ops. by destruct (ctor_may_throw _). Qed.

Lemma relocation_ops_bounds n : 0 ≤ n → 0 ≤ relocation_ops n ≤ n.
Proof. unfold relocation_ops. destruct (ctor_may_throw _); lia. Qed.

(** Relocation of [k] elements, from position [s] on, out of storage that
    holds [xs]. *)
Lemma wp_relocate_owned p xs s k ld dd w (Q : unit → World T → Prop) R U :
  holds w p xs → 0 ≤ s → 0 ≤ k → s + k ≤ Z.of_nat (length xs) →
  block_of p ≠ Some ld →
  (∀ j, 0 ≤ j < k → in_block w ld (dd + j) = true ∧ cells w !! (ld, dd + j) = None) →
  (∀ c, (ctor_may_throw relocation_kind = true →
         ∀ j, 0 ≤ j < k → fault_at w (ops_done w + j) = None) →
        (∀ l' i, c !! (l', i) =
                 if decide (l' = ld ∧ dd ≤ i < dd + k)
                 then lookupZ xs (i - dd + s)
                 else if decide (block_of p = Some l' ∧ s ≤ i < s + k)
                      then relocated <$> lookupZ xs i
                      else cells w !! (l', i)) →
        Q tt (with_heap c (slot_events (EvConstruct relocation_kind) ld dd k ++ trace w)
                          (ops_done w + relocation_ops k) w)) →
  (∀ j e c, 0 ≤ j < k → ctor_may_throw relocation_kind = true →
            (∀ j', 0 ≤ j' < j → fault_at w (ops_done w + j') = None) →
            fault_at w (ops_done w + j) = Some e →
            (∀ l' i, c !! (l', i) =
                     if decide (block_of p = Some l' ∧ s ≤ i < s + j)
                     then relocated <$> lookupZ xs i
                     else cells w !! (l', i)) →
            R e (with_heap c
                   (slot_events EvDestroy ld dd j ++
                    slot_events (EvConstruct relocation_kind) ld dd j ++ trace w)
                   (ops_done w + j + 1) w)) →
  wp_or (relocate_n (ptr_add p s) k (Ptr ld dd)) w Q R U.
Proof.
  intros Hh Hs Hk Hlen Hne Hdst HQ HR. destruct p as [|l o].
  - simpl in Hh. subst xs. simpl in Hlen. assert (k = 0) as -> by lia.
    apply wp_relocate_n_zero.
    specialize (HQ (cells w)). rewrite slot_events_nil, relocation_ops_0, (Z.add_0_r (ops_done w)) in HQ by lia.
    change ([] ++ trace w) with (trace w) in HQ.
    rewrite with_heap_id in HQ. apply HQ; [intros; lia|].
    intros l' i. rewrite !decide_False; [done| |]; intros [? ?]; try done; lia.
  - pose proof Hh as (-> & bytes & Hb & Hsz & Hc). simpl in Hne.
    assert (l ≠ ld) as Hne' by congruence.
    cbn [ptr_add]. rewrite Z.add_0_l.
    apply wp_relocate_n; [done|done| | |].
    + intros j Hj. destruct (Hdst j Hj) as [? ?]. split_and!; [|rewrite Hc|done|done].
      * eapply holds_in_block; [done|lia].
      * apply lookupZ_is_Some. lia.
    + intros c Hf Hext. apply HQ; [done|]. intros l' i. rewrite Hext, !Hc.
      simpl. repeat case_decide; try done; exfalso; destruct_and?; simplify_eq; naive_solver.
    + intros j e c Hj Hmay Hf He Hext. apply HR; try done.
      intros l' i. rewrite Hext, !Hc.
      simpl. repeat case_decide; try done; exfalso; destruct_and?; simplify_eq; naive_solver.
Qed.

(** Destruction of the [n] elements held from [p] on. *)
Lemma wp_destroy_owned p xs n w (Q : unit → World T → Prop) R U :
  holds w p xs → n = Z.of_nat (length xs) →
  (∀ c, (∀ l' i, c !! (l', i) =
                 if decide (block_of p = Some l') then None else cells w !! (l', i)) →
        Q tt (with_heap c (ptr_events EvDestroy p n ++ trace w) (ops_done w) w)) →
  wp_or (destroy_n p n) w Q R U.
Proof.
  intros Hh -> HQ. destruct p as [|l o].
  - simpl in Hh. subst xs. apply wp_destroy_n_zero.
    specialize (HQ (cells w)). change (ptr_events _ _ _ ++ trace w) with (trace w) in HQ.
    rewrite with_heap_id in HQ. apply HQ.
    intros. by rewrite decide_False.
  - pose proof Hh as (-> & bytes & Hb & Hsz & Hc).
    apply wp_destroy_n; [lia| |].
    + intros i Hi. split; [eapply holds_in_block; [done|lia]|].
      rewrite Hc. apply lookupZ_is_Some. lia.
    + intros c Hext. apply HQ. intros l' i. rewrite Hext. simpl.
      destruct (decide (l' = l)) as [->|].
      * rewrite (decide_True (P := Some l = Some l)) by done.
        case_decide; [done|]. rewrite Hc. apply lookupZ_None. lia.
      * rewrite !decide_False; [done|congruence|]. by intros [? _].
Qed.

(** [RawMemory(capacity)]. *)
Lemma wp_RawMemory_ctor n w (Q : RawMemory → World T → Prop) R U :
  0 ≤ n → n * Z.pos sizeof ≤ SIZE_MAX →
  (n = 0 → Q (mkRawMemory nullptr 0) w) →
  (0 < n → alloc_fault_at w (allocs_done w) = false → n * Z.pos sizeof ≤ PTRDIFF_MAX →
   Q (mkRawMemory (Ptr (next_loc w) 0) n) (allocated (n * Z.pos sizeof) w)) →
  (0 < n → alloc_fault_at w (allocs_done w) = true ∨ PTRDIFF_MAX < n * Z.pos sizeof →
   R bad_alloc (alloc_failed (n * Z.pos sizeof) w)) →
  wp_or (RawMemory_ctor n) w Q R U.
Proof.
  intros Hn Hsz H0 Hok Hfail. unfold RawMemory_ctor, Allocate. apply wp_bind.
  case_decide as Hz.
  - rewrite size_t_small by lia. apply wp_operator_new.
    + intros. apply wp_ret. apply Hok; [lia|done|done].
    + intros. apply Hfail; [lia|done].
  - assert (n = 0) as -> by lia. apply wp_ret, wp_ret. by apply H0.
Qed.

(** [~RawMemory()]. *)
Lemma wp_RawMemory_dtor d w (Q : unit → World T → Prop) R U :
  (∀ l o, buffer_ d = Ptr l o → o = 0 ∧ is_Some (blocks w !! l)) →
  Q tt (released (buffer_ d) w) →
  wp_or (RawMemory_dtor d) w Q R U.
Proof.
  intros H HQ. unfold RawMemory_dtor, Deallocate. destruct (buffer_ d) as [|l o].
  - done.
  - destruct (H l o eq_refl) as [-> [bytes Hb]]. by eapply wp_operator_delete.
Qed.
End Owned.

(** * Reserve *)

Section Reserving.
Context {T : Type} {ET : Element T}.
Implicit Types (w : World T) (xs ys zs : list T).

Lemma lookupZ_fmap (f : T → T) xs i : lookupZ (f <$> xs) i = f <$> lookupZ xs i.
Proof. unfold lookupZ. case_decide; [|done]. by rewrite list_lookup_fmap. Qed.

Lemma lookupZ_app_l xs ys i : i < Z.of_nat (length xs) → lookupZ (xs ++ ys) i = lookupZ xs i.
Proof. intros. unfold lookupZ. case_decide; [|done]. rewrite lookup_app_l; [done|lia]. Qed.

Lemma lookupZ_app_r xs ys i :
  Z.of_nat (length xs) ≤ i → lookupZ (xs ++ ys) i = lookupZ ys (i - Z.of_nat (length xs)).
Proof.
  intros. unfold lookupZ. rewrite !decide_True by lia.
  rewrite lookup_app_r by lia. f_equal. lia.
Qed.

Lemma lookupZ_take xs (k : nat) i : i < Z.of_nat k → lookupZ (take k xs) i = lookupZ xs i.
Proof. intros. unfold lookupZ. case_decide; [|done]. rewrite lookup_take_lt; [done|lia]. Qed.

Lemma lookupZ_drop xs (k : nat) i : 0 ≤ i → lookupZ (drop k xs) i = lookupZ xs (Z.of_nat k + i).
Proof.
  intros. unfold lookupZ. rewrite !decide_True by lia. rewrite lookup_drop. f_equal. lia.
Qed.

Lemma length_relocate_prefix j xs : length (relocate_prefix j xs) = length xs.
Proof.
  unfold relocate_prefix. rewrite length_app, length_fmap, length_take, length_drop. lia.
Qed.

Lemma lookupZ_relocate_prefix j xs i :
  0 ≤ j ≤ Z.of_nat (length xs) →
  lookupZ (relocate_prefix j xs) i =
  if decide (0 ≤ i < j) then relocated <$> lookupZ xs i else lookupZ xs i.
Proof.
  intros Hj. unfold relocate_prefix.
  assert (length (relocated <$> take (Z.to_nat j) xs) = Z.to_nat j) as Hl.
  { rewrite length_fmap, length_take. lia. }
  case_decide as Hi.
  - rewrite lookupZ_app_l by lia. rewrite lookupZ_fmap, lookupZ_take; [done|lia].
  - destruct (decide (i < 0)).
    + rewrite (proj2 (lookupZ_None _ i)); [|lia]. symmetry. apply lookupZ_None. lia.
    + rewrite lookupZ_app_r by lia. rewrite Hl, lookupZ_drop by lia. f_equal. lia.
Qed.

Lemma relocate_prefix_copy j xs : relocate_by_move = false → relocate_prefix j xs = xs.
Proof.
  intros H. unfold relocate_prefix, relocated. rewrite H.
  rewrite list_fmap_id. apply take_drop.
Qed.

(** Projections of the worlds built by the allocator. *)
Lemma vecs_released p w : vecs (released p w) = vecs w.
Proof. by destruct p. Qed.
Lemma cells_released p w : cells (released p w) = cells w.
Proof. by destruct p. Qed.
Lemma next_loc_released p w : next_loc (released p w) = next_loc w.
Proof. by destruct p. Qed.
Lemma fault_at_released p w : fault_at (released p w) = fault_at w.
Proof. by destruct p. Qed.
Lemma alloc_fault_at_released p w : alloc_fault_at (released p w) = alloc_fault_at w.
Proof. by destruct p. Qed.
Lemma ops_done_released p w : ops_done (released p w) = ops_done w.
Proof. by destruct p. Qed.
Lemma allocs_done_released p w : allocs_done (released p w) = allocs_done w.
Proof. by destruct p. Qed.
Lemma blocks_released p w l :
  blocks (released p w) !! l =
  if decide (block_of p = Some l) then None else blocks w !! l.
Proof.
  destruct p as [|l' o]; unfold released, block_of.
  - by case_decide.
  - cbn [blocks set_blocks log]. case_decide as H.
    + injection H as ->. by rewrite lookup_delete_eq.
    + rewrite lookup_delete_ne; [done|congruence].
Qed.
Lemma trace_released p w :
  trace (released p w) =
  match p with Ptr l _ => [EvDelete l] | nullptr => [] end ++ trace w.
Proof. by destruct p. Qed.

Lemma is_vector_buffer_loc w this d n :
  vecs w !! this = Some (mkVector d n) →
  buffer_loc w this = block_of (buffer_ d).
Proof. unfold buffer_loc. intros ->. simpl. by destruct (buffer_ d). Qed.

Lemma owns_block_lt w d xs l :
  heap_wf w → owns w d xs → block_of (buffer_ d) = Some l → (l < next_loc w)%nat.
Proof.
  intros [Hwf _] (_ & _ & H) Hl. destruct (buffer_ d) as [|l' o]; [done|].
  simpl in Hl. simplify_eq. destruct H as (_ & _ & bytes & Hb & _). by apply Hwf in Hb as [? _].
Qed.

Lemma constructions_slot_events k k' l s n :
  constructions k (slot_events (EvConstruct k') l s n) =
  if decide (k = k') then Z.to_nat n else 0%nat.
Proof.
  unfold constructions. case_decide.
  - apply count_slot_events_all. intros. simpl. by apply bool_decide_eq_true.
  - apply count_slot_events_none. intros. simpl. by apply bool_decide_eq_false.
Qed.

Lemma constructions_ptr_destroy k p n :
  constructions k (ptr_events EvDestroy p n) = 0%nat.
Proof. destruct p; [done|]. by apply count_slot_events_none. Qed.

Lemma Reserve_spec this xs cap n w :
  is_vector w this xs cap → heap_wf w → 0 ≤ n → n * Z.pos sizeof ≤ SIZE_MAX →
  wp (Reserve this n) w
     (λ _ w', if decide (n ≤ cap) then w' = w else Reserve_grown this xs n w w')
     (Reserve_failed this xs cap n w).
Proof.
  intros (d & Hv & Hcap & Hown) Hwf Hn Hsz. unfold Reserve, GetAddress.
  pose proof Hwf as [Hwf1 Hwf2].
  pose proof (owns_holds _ _ _ Hown) as Hh.
  pose proof Hown as (Hc0 & Hlen & Hbuf).
  assert (block_of (buffer_ d) ≠ Some (next_loc w)) as Hfresh.
  { intros Hl. apply (owns_block_lt _ _ _ _ Hwf Hown) in Hl. lia. }
  apply wp_bind. eapply wp_get_data; [exact Hv|]. cbn [data_].
  unfold RawMemory_Capacity. rewrite Hcap.
  destruct (Z.leb_spec n cap) as [Hle|Hgt].
  { apply wp_ret. by rewrite decide_True. }
  eapply (wp_mono _ _ (λ _ w', Reserve_grown this xs n w w'));
    [|intros [] w' H; by rewrite decide_False by lia|intros ?? H; exact H].
  apply wp_bind. apply wp_RawMemory_ctor; [done|done|lia| |].
  2:{ (* the allocation fails *)
    intros _ Hfail. unfold Reserve_failed. split_and!; [done| | | |by left].
    - split; [apply Hwf1|apply Hwf2].
    - unfold frame, alloc_failed. simpl. split_and!; auto; lia.
    - exists xs. split_and!; [|done|done]. by exists d. }
  assert (∀ f (w' : World T) l, vecs w' = vecs w →
            buffer_loc w' this = Some l →
            buffer_loc w this = Some l ∨ f) as Hsame.
  { intros f w' l Hvs. unfold buffer_loc. rewrite Hvs. auto. }
  intros _ Halloc Hbytes.
  set (nl := next_loc w) in *. set (w1 := allocated (n * Z.pos sizeof) w).
  assert (holds w1 (buffer_ d) xs) as Hh1.
  { unfold holds in *. destruct (buffer_ d) as [|l o]; [done|].
    destruct Hh as (-> & bytes & Hb & ? & ?). split; [done|]. exists bytes. split_and!; [|done|done].
    simpl. rewrite lookup_insert_ne; [done|]. apply Hwf1 in Hb. lia. }
  assert (∀ j, 0 ≤ j < n → in_block w1 nl j = true) as Hin1.
  { intros j Hj. eapply in_block_intro; [apply lookup_insert_eq|lia|nia]. }
  apply wp_bind. apply wp_unwinding.
  apply wp_bind. eapply wp_get_size; [exact Hv|]. cbn [size_].
  apply wp_bind.
  replace (buffer_ d) with (ptr_add (buffer_ d) 0) at 1
    by (destruct (buffer_ d); simpl; [done|f_equal; lia]).
  apply (wp_relocate_owned _ xs); [done|lia|lia|lia|done| | |].
  { intros j Hj. split; [apply Hin1; lia|]. apply Hwf2. lia. }
  2:{ (* the relocation throws: the new block is released *)
    intros j e c Hj Hmay Hnf He Hc.
    apply wp_RawMemory_dtor.
    { intros l o [= <- <-]. split; [done|]. simpl. rewrite lookup_insert_eq. eauto. }
    cbn [buffer_]. unfold Reserve_failed. split_and!; [done| | | |].
    - split.
      + intros l bytes. rewrite blocks_released. simpl. case_decide as Hd; [done|].
        rewrite lookup_insert_ne by (by intros <-; apply Hd).
        intros Hb. apply Hwf1 in Hb. simpl. lia.
      + intros l i Hl. simpl in *. rewrite Hc. case_decide as Hd.
        * destruct Hd as [Hd _]. apply (owns_block_lt _ _ _ _ Hwf Hown) in Hd. lia.
        * apply Hwf2. lia.
    - unfold frame. simpl. split_and!; auto; try lia.
      intros l Hl Hnb. rewrite (is_vector_buffer_loc _ _ _ _ Hv) in Hnb.
      split.
      + rewrite lookup_delete_ne by (fold nl; lia). rewrite lookup_insert_ne by (fold nl; lia). done.
      + intros i. rewrite Hc. rewrite decide_False; [done|]. by intros [? _].
    - exists (relocate_prefix j xs). split_and!.
      + eexists. split; [|split; [exact Hcap|]].
        * simpl. rewrite length_relocate_prefix. exact Hv.
        * split; [done|]. rewrite length_relocate_prefix. split; [done|].
          destruct (buffer_ d) as [|l o] eqn:Hbd; [done|].
          destruct Hbuf as (-> & ? & bytes & Hb & ? & Hcells).
          split_and!; [done|done|]. exists bytes. split_and!; [|done|].
          -- simpl. rewrite lookup_delete_ne, lookup_insert_ne; [done| |];
               apply Hwf1 in Hb; fold nl; lia.
          -- intros i. simpl. rewrite Hc. simpl. rewrite lookupZ_relocate_prefix by lia.
             repeat case_decide; try done; exfalso; naive_solver lia.
      + apply length_relocate_prefix.
      + apply relocate_prefix_copy.
    - right. exists (ops_done w + j). split; [lia|done]. }
  (* the relocation succeeded *)
  intros c1 Hnf1 Hc1.
  apply wp_bind.
  eapply (wp_destroy_owned _ (relocated <$> xs)).
  { unfold holds in *. destruct (buffer_ d) as [|l o].
    - by rewrite Hh1.
    - destruct Hh1 as (-> & bytes & Hb & ? & Hcells). split; [done|]. exists bytes.
      rewrite length_fmap. split_and!; [done|done|].
      intros i. simpl. rewrite Hc1. simpl in Hfresh.
      rewrite decide_False by (intros [-> _]; done).
      rewrite lookupZ_fmap. case_decide as Hd; [done|].
      rewrite Hcells. destruct (decide (0 ≤ i < Z.of_nat (length xs))).
      + exfalso. apply Hd. split; [done|lia].
      + rewrite (proj2 (lookupZ_None xs i)); [done|lia]. }
  { by rewrite length_fmap. }
  intros c2 Hc2. cbn [RawMemory_Swap]. apply wp_bind.
  eapply wp_set_data; [exact Hv|]. apply wp_ret.
  apply wp_RawMemory_dtor.
  { intros l o Hl. simpl in Hl. rewrite Hl in Hbuf. destruct Hbuf as (-> & _ & bytes & Hb & _).
    split; [done|]. simpl. rewrite lookup_insert_ne; [eauto|]. apply Hwf1 in Hb. fold nl. lia. }
  unfold Reserve_grown. split_and!.
  - exists (mkRawMemory (Ptr nl 0) n). split; [|split; [reflexivity|]].
    + rewrite vecs_released. simpl. rewrite lookup_insert_eq. done.
    + split; [simpl; lia|]. split; [simpl; lia|]. simpl.
      split_and!; [done|lia|]. exists (n * Z.pos sizeof). split_and!; [|lia|].
      * rewrite blocks_released. rewrite decide_False by done. simpl. apply lookup_insert_eq.
      * intros i. rewrite cells_released. simpl. rewrite Hc2, decide_False by done.
        rewrite Hc1. case_decide as Hd.
        -- f_equal. lia.
        -- rewrite decide_False by (by intros [? _]). simpl. rewrite Hwf2 by (fold nl; lia).
           symmetry. apply lookupZ_None. lia.
  - split.
    + intros l bytes. rewrite blocks_released, next_loc_released. simpl.
      case_decide; [done|]. destruct (decide (l = nl)) as [->|].
      * rewrite lookup_insert_eq. intros [= <-]. lia.
      * rewrite lookup_insert_ne by done. intros Hb. apply Hwf1 in Hb. fold nl in Hb. lia.
    + intros l i. rewrite next_loc_released, cells_released. simpl. intros Hl.
      rewrite Hc2. case_decide; [done|]. rewrite Hc1.
      rewrite !decide_False; [apply Hwf2; fold nl; lia| |].
      * by intros [? _].
      * intros [-> _]. lia.
  - unfold frame.
    rewrite vecs_released, next_loc_released, fault_at_released, alloc_fault_at_released,
      ops_done_released, allocs_done_released. simpl.
    pose proof (relocation_ops_bounds (Z.of_nat (length xs))).
    split_and!; auto; try lia.
    + intros a Ha. by rewrite lookup_insert_ne.
    + intros l Hl Hnb. rewrite (is_vector_buffer_loc _ _ _ _ Hv) in Hnb.
      rewrite blocks_released, cells_released. simpl. rewrite decide_False by done.
      split.
      * rewrite lookup_insert_ne by (fold nl; lia). done.
      * intros i. rewrite Hc2, decide_False by done. rewrite Hc1.
        rewrite !decide_False; [done| |].
        -- by intros [? _].
        -- intros [-> _]. fold nl in Hl. lia.
    + intros l. unfold buffer_loc. rewrite vecs_released. simpl. rewrite lookup_insert_eq.
      simpl. intros [= <-]. right. lia.
  - exists (match buffer_ d with Ptr l _ => [EvDelete l] | nullptr => [] end ++
            ptr_events EvDestroy (buffer_ d) (Z.of_nat (length xs)) ++
            slot_events (EvConstruct relocation_kind) nl 0 (Z.of_nat (length xs)) ++
            [EvNew (n * Z.pos sizeof)]).
    assert (∀ k, constructions k
              (match buffer_ d with Ptr l _ => [EvDelete l] | nullptr => [] end) = 0%nat) as Hk0.
    { intros k. by destruct (buffer_ d). }
    split_and!.
    + unfold events_since. rewrite trace_released. simpl. by rewrite <- !app_assoc.
    + unfold constructions in *. rewrite !count_events_app, Hk0.
      fold (constructions relocation_kind (ptr_events EvDestroy (buffer_ d) (Z.of_nat (length xs)))).
      rewrite constructions_ptr_destroy.
      fold (constructions relocation_kind (slot_events (EvConstruct relocation_kind) nl 0 (Z.of_nat (length xs)))).
      rewrite constructions_slot_events, decide_True by done.
      rewrite count_events_cons, count_events_nil. simpl. lia.
    + intros k Hk. unfold constructions in *. rewrite !count_events_app, Hk0.
      fold (constructions k (ptr_events EvDestroy (buffer_ d) (Z.of_nat (length xs)))).
      rewrite constructions_ptr_destroy.
      fold (constructions k (slot_events (EvConstruct relocation_kind) nl 0 (Z.of_nat (length xs)))).
      rewrite constructions_slot_events, decide_False by done.
      rewrite count_events_cons, count_events_nil. simpl. lia.
Qed.
End Reserving.

(** * Assignments between slots *)

Section InPlace.
Context {T : Type} {ET : Element T}.
Implicit Types (w : World T) (xs ys zs : list T).

Lemma ctor_ops_bounds k : 0 ≤ ctor_ops k ≤ 1.
Proof. unfold ctor_ops. destruct (ctor_may_throw k); lia. Qed.

(** A construction, with the world it leaves written with [with_heap]. *)
Lemma wp_construct_heap k l i x w (Q : unit → World T → Prop) R U :
  in_block w l i = true →
  ((ctor_may_throw k = true → fault_at w (ops_done w) = None) →
   Q tt (with_heap (<[(l, i) := x]> (cells w))
                   (EvConstruct k (InBuffer l i) :: trace w)
                   (ops_done w + ctor_ops k) w)) →
  (∀ e, ctor_may_throw k = true → fault_at w (ops_done w) = Some e →
        R e (with_heap (cells w) (trace w) (ops_done w + 1) w)) →
  wp_or (construct k (Ptr l i) x) w Q R U.
Proof.
  intros Hin HQ HR. apply wp_construct; [done|]. unfold ctor_ops in HQ.
  destruct (ctor_may_throw k).
  - split.
    + intros Hf. apply HQ. done.
    + intros e He. by apply HR.
  - rewrite Z.add_0_r in HQ.
    replace (set_cells _ _) with
      (with_heap (<[(l, i) := x]> (cells w)) (EvConstruct k (InBuffer l i) :: trace w)
                 (ops_done w) w) by done.
    apply HQ. done.
Qed.

Lemma wp_move_assign ld a ls b x w (Q : unit → World T → Prop) R U :
  in_block w ld a = true → in_block w ls b = true →
  cells w !! (ls, b) = Some x → is_Some (cells w !! (ld, a)) →
  (ld, a) ≠ (ls, b) →
  (fault_at w (ops_done w) = None →
   Q tt (with_heap (<[(ls, b) := moved_from x]> (<[(ld, a) := x]> (cells w)))
                   (EvMoveAssign (InBuffer ld a) :: trace w) (ops_done w + 1) w)) →
  (∀ e, fault_at w (ops_done w) = Some e →
        R e (with_heap (cells w) (trace w) (ops_done w + 1) w)) →
  wp_or (move_assign (Ptr ld a) (Ptr ls b)) w Q R U.
Proof.
  intros Ha Hb Hx Hd Hne HQ HR. unfold move_assign.
  apply wp_bind. eapply wp_load; [done|done|].
  destruct Hd as [y Hy].
  apply wp_bind. eapply wp_load; [done|done|].
  apply wp_bind. apply wp_may_throw; [|intros; by apply HR].
  intros Hf. apply wp_bind. apply wp_store; [done|simpl; eauto|].
  apply wp_bind. apply wp_store; [done| |].
  { simpl. rewrite lookup_insert_ne by done. eauto. }
  apply wp_modify. by apply HQ.
Qed.

Lemma wp_copy_assign ld a ls b x w (Q : unit → World T → Prop) R U :
  in_block w ld a = true → in_block w ls b = true →
  cells w !! (ls, b) = Some x → is_Some (cells w !! (ld, a)) →
  (fault_at w (ops_done w) = None →
   Q tt (with_heap (<[(ld, a) := x]> (cells w))
                   (EvCopyAssign (InBuffer ld a) :: trace w) (ops_done w + 1) w)) →
  (∀ e, fault_at w (ops_done w) = Some e →
        R e (with_heap (cells w) (trace w) (ops_done w + 1) w)) →
  wp_or (copy_assign (Ptr ld a) (Ptr ls b)) w Q R U.
Proof.
  intros Ha Hb Hx Hd HQ HR. unfold copy_assign.
  apply wp_bind. eapply wp_load; [done|done|].
  destruct Hd as [y Hy].
  apply wp_bind. eapply wp_load; [done|done|].
  apply wp_bind. apply wp_may_throw; [|intros; by apply HR].
  intros Hf. apply wp_bind. apply wp_store; [done|simpl; eauto|].
  apply wp_modify. by apply HQ.
Qed.

Lemma wp_move_assign_from_local l a x w (Q : unit → World T → Prop) R U :
  in_block w l a = true → is_Some (cells w !! (l, a)) →
  (fault_at w (ops_done w) = None →
   Q tt (with_heap (<[(l, a) := x]> (cells w))
                   (EvMoveAssign (InBuffer l a) :: trace w) (ops_done w + 1) w)) →
  (∀ e, fault_at w (ops_done w) = Some e →
        R e (with_heap (cells w) (trace w) (ops_done w + 1) w)) →
  wp_or (move_assign_from_local (Ptr l a) x) w Q R U.
Proof.
  intros Ha [y Hy] HQ HR. unfold move_assign_from_local.
  apply wp_bind. eapply wp_load; [done|done|].
  apply wp_bind. apply wp_may_throw; [|intros; by apply HR].
  intros Hf. apply wp_bind. apply wp_store; [done|simpl; eauto|].
  apply wp_modify. by apply HQ.
Qed.

(** [std::move(first + 1, last, first)]: the elements of the slots
    (o, e) move one slot to the left. *)
Lemma wp_move_range_left l o e w (Q : unit → World T → Prop) R U :
  o < e →
  (∀ i, o ≤ i < e → in_block w l i = true ∧ is_Some (cells w !! (l, i))) →
  (∀ c, (∀ j, 0 ≤ j < e - o - 1 → fault_at w (ops_done w + j) = None) →
        (∀ l' i, c !! (l', i) =
                 if decide (l' = l ∧ o ≤ i < e - 1) then cells w !! (l, i + 1)
                 else if decide (l' = l ∧ i = e - 1 ∧ o < e - 1)
                      then moved_from <$> cells w !! (l, i)
                      else cells w !! (l', i)) →
        Q tt (with_heap c (slot_events EvMoveAssign l o (e - o - 1) ++ trace w)
                          (ops_done w + (e - o - 1)) w)) →
  (∀ j ex c tr, 0 ≤ j < e - o - 1 →
        fault_at w (ops_done w + j) = Some ex →
        (∀ l' i, is_Some (c !! (l', i)) ↔ is_Some (cells w !! (l', i))) →
        (∀ l' i, l' ≠ l → c !! (l', i) = cells w !! (l', i)) →
        R ex (with_heap c tr (ops_done w + j + 1) w)) →
  wp_or (move_range (Ptr l (o + 1)) (Ptr l e) (Ptr l o)) w Q R U.
Proof.
  intros Hoe Hpre HQ HR. unfold move_range. cbn [ptr_diff].
  rewrite decide_True by done. apply wp_bind. eapply wp_from_option; [done|].
  replace (e - (o + 1)) with (e - o - 1) by lia.
  apply (wp_for_loop (λ j w1, ∃ c,
    w1 = with_heap c (slot_events EvMoveAssign l o j ++ trace w) (ops_done w + j) w ∧
    (∀ j', 0 ≤ j' < j → fault_at w (ops_done w + j') = None) ∧
    ∀ l' i, c !! (l', i) =
            if decide (l' = l ∧ o ≤ i < o + j) then cells w !! (l, i + 1)
            else if decide (l' = l ∧ i = o + j ∧ 0 < j)
                 then moved_from <$> cells w !! (l, i)
                 else cells w !! (l', i))).
  - exists (cells w). split_and!.
    + rewrite slot_events_nil by lia. rewrite Z.add_0_r. symmetry. apply with_heap_id.
    + intros; lia.
    + intros. rewrite !decide_False; [done|lia|lia].
  - intros j w1 Hj (c & -> & Hf & Hc). rewrite Z2Nat.id in Hj by lia.
    cbn [ptr_add].
    destruct (Hpre (o + 1 + j)) as [Hin1 [x Hx]]; [lia|].
    destruct (Hpre (o + j)) as [Hin2 [y Hy]]; [lia|].
    assert (c !! (l, o + 1 + j) = Some x) as Hcx.
    { rewrite Hc, !decide_False; [done|lia|lia]. }
    eapply wp_move_assign; [exact Hin2|exact Hin1|exact Hcx| | | |].
    + cbn [cells with_heap]. rewrite Hc, decide_False by (intros [_ ?]; lia).
      destruct (decide (l = l ∧ o + j = o + j ∧ 0 < j)); rewrite Hy; simpl; eauto.
    + intros [=]. lia.
    + intros Hnf. eexists. split_and!.
      * rewrite slot_events_snoc by lia. world_eq.
      * intros j' Hj'. destruct (decide (j' = j)) as [->|]; [done|]. apply Hf. lia.
      * intros l' i. simpl.
        destruct (decide ((l', i) = (l, o + 1 + j))) as [[= -> ->]|Hne1].
        { rewrite lookup_insert_eq. rewrite decide_False by lia.
          rewrite decide_True by lia. by rewrite Hx. }
        rewrite lookup_insert_ne by done.
        destruct (decide ((l', i) = (l, o + j))) as [[= -> ->]|Hne2].
        { rewrite lookup_insert_eq. rewrite decide_True by lia.
          rewrite <- Hx. f_equal. f_equal. lia. }
        rewrite lookup_insert_ne by done. rewrite Hc. solve_slot.
    + intros ex Hex. simpl. apply (HR j); [lia|done| |].
      * intros l' i. rewrite Hc.
        destruct (decide (l' = l ∧ o ≤ i < o + j)) as [[-> ?]|?].
        -- destruct (Hpre (i + 1)) as [_ ?]; [lia|]. destruct (Hpre i) as [_ ?]; [lia|].
           split; auto.
        -- destruct (decide (l' = l ∧ i = o + j ∧ 0 < j)) as [[-> ?]|?];
             [by rewrite fmap_is_Some|tauto].
      * intros l' i Hl. rewrite Hc.
        destruct (decide (l' = l ∧ o ≤ i < o + j)) as [[? ?]|?]; [done|].
        destruct (decide (l' = l ∧ i = o + j ∧ 0 < j)) as [[? ?]|?]; done.
  - intros w' (c & -> & Hf & Hc). rewrite Z2Nat.id in Hf, Hc |- * by lia.
    rewrite !Z.add_0_l in *. apply HQ; [done|].
    intros l' i. rewrite Hc. solve_slot.
Qed.
End InPlace.

(** * Erase *)

Section Erasing.
Context {T : Type} {ET : Element T}.
Implicit Types (w : World T) (xs ys zs : list T).

Lemma lookupZ_delete xs k i :
  0 ≤ k →
  lookupZ (delete (Z.to_nat k) xs) i =
  if decide (i < k) then lookupZ xs i else lookupZ xs (i + 1).
Proof.
  intros Hk. unfold lookupZ. destruct (decide (0 ≤ i)).
  - case_decide.
    + rewrite list_lookup_delete_lt by lia. done.
    + rewrite decide_True by lia. rewrite list_lookup_delete_ge by lia.
      f_equal. lia.
  - case_decide; [done|lia].
Qed.

Lemma lookupZ_inserted xs k x i :
  0 ≤ k ≤ Z.of_nat (length xs) →
  lookupZ (inserted k x xs) i =
  if decide (i < k) then lookupZ xs i
  else if decide (i = k) then Some x else lookupZ xs (i - 1).
Proof.
  intros Hk. unfold inserted.
  assert (length (take (Z.to_nat k) xs) = Z.to_nat k) as Hl by (rewrite length_take; lia).
  case_decide.
  - rewrite lookupZ_app_l by lia. destruct (decide (0 ≤ i)).
    + by rewrite lookupZ_take by lia.
    + unfold lookupZ. by rewrite !decide_False by lia.
  - rewrite lookupZ_app_r by lia. rewrite Hl, Z2Nat.id by lia.
    case_decide.
    + subst. rewrite Z.sub_diag. done.
    + unfold lookupZ. rewrite !decide_True by lia.
      replace (Z.to_nat (i - k)) with (S (Z.to_nat (i - k - 1))) by lia.
      simpl. rewrite lookup_drop. f_equal. lia.
Qed.

Lemma length_inserted xs k x : length (inserted k x xs) = S (length xs).
Proof.
  unfold inserted. rewrite length_app. simpl. rewrite length_take, length_drop. lia.
Qed.

(** Slots that all hold an object hold some sequence. *)
Lemma contents_exist (c : gmap (loc * Z) T) l (n : nat) :
  (∀ i, 0 ≤ i < Z.of_nat n → is_Some (c !! (l, i))) →
  ∃ xs, length xs = n ∧ ∀ i, 0 ≤ i < Z.of_nat n → c !! (l, i) = lookupZ xs i.
Proof.
  induction n as [|n IH]; intros H.
  - exists []. split; [done|]. intros; lia.
  - destruct IH as (xs & Hlen & Hxs); [intros; apply H; lia|].
    destruct (H (Z.of_nat n)) as [x Hx]; [lia|].
    exists (xs ++ [x]). split; [rewrite length_app; simpl; lia|].
    intros i Hi. destruct (decide (i = Z.of_nat n)) as [->|].
    + rewrite lookupZ_app_r by lia. rewrite Hlen, Z.sub_diag. done.
    + rewrite lookupZ_app_l by lia. apply Hxs. lia.
Qed.

Lemma heap_wf_with_heap c tr ops w :
  heap_wf w →
  (∀ l i, (next_loc w ≤ l)%nat → c !! (l, i) = None) →
  heap_wf (with_heap c tr ops w).
Proof. intros [H1 H2] Hc. split; [exact H1|exact Hc]. Qed.

Lemma heap_wf_set_vecs f w : heap_wf w → heap_wf (set_vecs f w).
Proof. done. Qed.

(** An operation that only changes elements of the block of [this] (and
    the members of [this]). *)
Lemma frame_in_place this l v c tr ops w :
  buffer_loc w this = Some l →
  block_of (buffer_ (data_ v)) = Some l →
  (∀ l' i, l' ≠ l → c !! (l', i) = cells w !! (l', i)) →
  ops_done w ≤ ops →
  frame this w (set_vecs (insert this v) (with_heap c tr ops w)).
Proof.
  intros Hl Hv Hc Hops. unfold frame. split_and!; simpl; auto; try lia.
  - intros a Ha. by rewrite lookup_insert_ne.
  - intros l' _ Hne. split; [done|]. intros i. apply Hc. intros ->. by apply Hne.
  - intros l'. unfold buffer_loc at 1. simpl. rewrite lookup_insert_eq.
    destruct (buffer_ (data_ v)); [done|]. simpl in Hv. intros [= <-]. left. congruence.
Qed.

Lemma frame_in_place' this l c tr ops w :
  buffer_loc w this = Some l →
  (∀ l' i, l' ≠ l → c !! (l', i) = cells w !! (l', i)) →
  ops_done w ≤ ops →
  frame this w (with_heap c tr ops w).
Proof.
  intros Hl Hc Hops. unfold frame. split_and!; simpl; auto; try lia.
  intros l' _ Hne. split; [done|]. intros i. apply Hc. intros ->. by apply Hne.
Qed.

(** A Vector whose members and block hold [xs']. *)
Lemma is_vector_in_place this l bytes d xs' c tr ops w :
  buffer_ d = Ptr l 0 → 0 < capacity_ d → Z.of_nat (length xs') ≤ capacity_ d →
  blocks w !! l = Some bytes → capacity_ d * Z.pos sizeof ≤ bytes →
  (∀ i, c !! (l, i) = lookupZ xs' i) →
  is_vector (set_vecs (insert this (mkVector d (Z.of_nat (length xs')))) (with_heap c tr ops w))
            this xs' (capacity_ d).
Proof.
  intros Hb Hcap Hlen Hbl Hsz Hc. exists d. split_and!; [|done|].
  - simpl. apply lookup_insert_eq.
  - split; [lia|]. split; [done|]. rewrite Hb. split_and!; [done|done|].
    exists bytes. split_and!; done.
Qed.

Lemma is_vector_resized this l bytes d xs' n c tr ops w :
  n = Z.of_nat (length xs') →
  buffer_ d = Ptr l 0 → 0 < capacity_ d → Z.of_nat (length xs') ≤ capacity_ d →
  blocks w !! l = Some bytes → capacity_ d * Z.pos sizeof ≤ bytes →
  (∀ i, c !! (l, i) = lookupZ xs' i) →
  is_vector (set_vecs (insert this (mkVector d n)) (with_heap c tr ops w))
            this xs' (capacity_ d).
Proof. intros ->. apply is_vector_in_place. Qed.

Lemma is_vector_with_heap this l bytes d xs' n c tr ops w :
  vecs w !! this = Some (mkVector d n) → n = Z.of_nat (length xs') →
  buffer_ d = Ptr l 0 → 0 < capacity_ d → n ≤ capacity_ d →
  blocks w !! l = Some bytes → capacity_ d * Z.pos sizeof ≤ bytes →
  (∀ i, c !! (l, i) = lookupZ xs' i) →
  is_vector (with_heap c tr ops w) this xs' (capacity_ d).
Proof.
  intros Hv -> Hb Hcap Hlen Hbl Hsz Hc. exists d. split_and!; [done|done|].
  split; [lia|]. split; [done|]. rewrite Hb. split_and!; [done|done|].
  exists bytes. split_and!; done.
Qed.

Lemma is_vector_nonempty w this xs cap :
  is_vector w this xs cap → 0 < Z.of_nat (length xs) →
  ∃ l bytes, vecs w !! this = Some (mkVector (mkRawMemory (Ptr l 0) cap) (Z.of_nat (length xs))) ∧
             0 < cap ∧ Z.of_nat (length xs) ≤ cap ∧
             blocks w !! l = Some bytes ∧ cap * Z.pos sizeof ≤ bytes ∧
             (∀ i, cells w !! (l, i) = lookupZ xs i) ∧
             buffer_loc w this = Some l.
Proof.
  intros (d & Hv & Hcap & Hc0 & Hlen & Hbuf) Hpos. destruct d as [p c]. simpl in *. subst c.
  destruct p as [|l o]; [lia|]. destruct Hbuf as (-> & ? & bytes & ? & ? & ?).
  exists l, bytes. split_and!; try done. unfold buffer_loc. by rewrite Hv.
Qed.

Lemma is_vector_has_room w this xs cap :
  is_vector w this xs cap → 0 < cap →
  ∃ l bytes, vecs w !! this = Some (mkVector (mkRawMemory (Ptr l 0) cap) (Z.of_nat (length xs))) ∧
             Z.of_nat (length xs) ≤ cap ∧
             blocks w !! l = Some bytes ∧ cap * Z.pos sizeof ≤ bytes ∧
             (∀ i, cells w !! (l, i) = lookupZ xs i) ∧
             buffer_loc w this = Some l.
Proof.
  intros (d & Hv & Hcap & Hc0 & Hlen & Hbuf) Hpos. destruct d as [p c]. simpl in *. subst c.
  destruct p as [|l o]; [lia|]. destruct Hbuf as (-> & ? & bytes & ? & ? & ?).
  exists l, bytes. split_and!; try done. unfold buffer_loc. by rewrite Hv.
Qed.

Lemma heap_wf_block w l bytes :
  heap_wf w → blocks w !! l = Some bytes → (l < next_loc w)%nat ∧ 0 ≤ bytes ≤ PTRDIFF_MAX.
Proof. intros [H _]. apply H. Qed.

Lemma capacity_bound w l bytes cap :
  heap_wf w → blocks w !! l = Some bytes → cap * Z.pos sizeof ≤ bytes → cap ≤ PTRDIFF_MAX.
Proof. intros Hwf Hb Hc. apply (heap_wf_block _ _ _ Hwf) in Hb. nia. Qed.

Lemma Erase_spec this xs cap k w :
  is_vector w this xs cap → heap_wf w → 0 ≤ k < Z.of_nat (length xs) →
  wp (Erase this (iterator_at w this k)) w
     (λ r w', is_vector w' this (delete (Z.to_nat k) xs) cap ∧ heap_wf w' ∧
              frame this w w' ∧ r = iterator_at w' this k ∧
              buffer_loc w' this = buffer_loc w this)
     (λ e w', (∃ xs', is_vector w' this xs' cap ∧ length xs' = length xs) ∧
              heap_wf w' ∧ frame this w w' ∧ thrown_by_fault w e ∧
              buffer_loc w' this = buffer_loc w this).
Proof.
  intros Hvec Hwf Hk.
  destruct (is_vector_nonempty _ _ _ _ Hvec) as (l & bytes & Hv & Hcap & Hlen & Hb & Hsz & Hc & Hbl); [lia|].
  pose proof (capacity_bound _ _ _ _ Hwf Hb Hsz) as Hcb.
  set (n := Z.of_nat (length xs)) in *.
  assert (∀ i, 0 ≤ i < cap → in_block w l i = true) as Hin.
  { intros i Hi. eapply in_block_intro; [done|lia|nia]. }
  unfold Erase, iterator_at, Vector_begin, Vector_end, GetAddress. rewrite Hv. cbn [data_ buffer_ ptr_add].
  apply wp_bind. apply wp_bind. eapply wp_get_data; [done|]. apply wp_ret.
  apply wp_bind. apply wp_bind. eapply wp_get_vec; [done|]. apply wp_ret.
  cbn [data_ buffer_ size_ ptr_add].
  apply wp_bind. apply wp_assert.
  { unfold ptr_leb, ptr_ltb, ptr_diff. rewrite !decide_True by done.
    apply andb_true_intro. split; [apply Z.leb_le|apply Z.ltb_lt]; lia. }
  apply wp_bind. eapply wp_from_option.
  { unfold ptr_diff. rewrite decide_True by done. done. }
  rewrite size_t_small by (unfold SIZE_MAX, PTRDIFF_MAX in *; lia).
  replace (0 + k - 0) with k by lia.
  apply wp_bind. eapply wp_get_vec; [done|]. cbn [data_ buffer_ size_ ptr_add].
  apply wp_bind.
  apply wp_move_range_left; [lia| | |].
  { intros i Hi. split; [apply Hin; lia|]. rewrite Hc. apply lookupZ_is_Some. lia. }
  2:{ (* a move assignment throws *)
    intros j ex c tr Hj Hex Hdom Hoth.
    destruct (contents_exist c l (length xs)) as (xs' & Hlen' & Hxs').
    { intros i Hi. apply Hdom. rewrite Hc. apply lookupZ_is_Some. lia. }
    split_and!.
    - exists xs'. split; [|done]. eexists. split_and!; [| |].
      + simpl. rewrite Hlen'. exact Hv.
      + done.
      + split; [simpl; lia|]. split; [simpl; lia|]. simpl. split_and!; [done|done|].
        exists bytes. split_and!; [done|done|]. intros i.
        destruct (decide (0 ≤ i < n)); [apply Hxs'; lia|].
        rewrite (proj2 (lookupZ_None xs' i)) by lia.
        apply eq_None_not_Some. rewrite Hdom, Hc, lookupZ_is_Some. lia.
    - apply heap_wf_with_heap; [done|]. intros l' i Hl'. rewrite Hoth.
      + by apply Hwf.
      + apply (heap_wf_block _ _ _ Hwf) in Hb. lia.
    - eapply frame_in_place'; [done|done|simpl; lia].
    - exists (ops_done w + j). split; [lia|done].
    - done. }
  intros c1 Hnf Hc1. apply wp_bind. apply wp_destroy_at.
  { apply Hin. lia. }
  { simpl. rewrite Hc1, decide_False by (intros [_ ?]; lia).
    destruct (decide _); rewrite Hc; [rewrite fmap_is_Some|]; apply lookupZ_is_Some; lia. }
  apply wp_bind. eapply wp_set_size; [exact Hv|].
  rewrite size_t_small by (unfold SIZE_MAX, PTRDIFF_MAX in *; lia).
  apply wp_bind. eapply wp_get_data; [simpl; apply lookup_insert_eq|].
  apply wp_ret. cbn [data_ buffer_ ptr_add].
  assert (length (delete (Z.to_nat k) xs) = (length xs - 1)%nat) as Hld.
  { rewrite length_delete; [done|]. apply lookup_lt_is_Some. lia. }
  replace (n - 1) with (Z.of_nat (length (delete (Z.to_nat k) xs))) by lia.
  assert (∀ l' i, delete (l, 0 + n + -1) c1 !! (l', i) =
            if decide (l' = l) then lookupZ (delete (Z.to_nat k) xs) i
            else cells w !! (l', i)) as Hc2.
  { intros l' i. destruct (decide ((l', i) = (l, 0 + n + -1))) as [[= -> ->]|Hne].
    - rewrite lookup_delete_eq, decide_True by done. symmetry. apply lookupZ_None. lia.
    - rewrite lookup_delete_ne by done. rewrite Hc1.
      destruct (decide (l' = l)) as [->|].
      + rewrite lookupZ_delete by lia. rewrite !Hc.
        destruct (decide (i < k)).
        * rewrite !decide_False; [done| |]; intros [_ ?]; lia.
        * destruct (decide (i < n - 1)).
          -- rewrite decide_True; [done|]. split; [done|lia].
          -- rewrite decide_False by (intros [_ ?]; lia).
             assert (i ≠ n - 1) by (intros ->; apply Hne; f_equal; lia).
             rewrite decide_False by (intros (_ & ? & _); lia).
             rewrite !(proj2 (lookupZ_None xs _)) by lia. done.
      + rewrite !decide_False; [done| |]; by intros [? _]. }
  split_and!.
  - apply (is_vector_in_place this l bytes (mkRawMemory (Ptr l 0) cap)); simpl; try done; try lia.
    intros i. rewrite Hc2. by rewrite decide_True.
  - apply heap_wf_set_vecs. apply (heap_wf_with_heap _ _ _ w); [done|].
    intros l' i Hl'. rewrite Hc2. rewrite decide_False.
    + by apply Hwf.
    + apply (heap_wf_block _ _ _ Hwf) in Hb. lia.
  - eapply (frame_in_place _ _ _ _ _ _ w); [done|done| |simpl; lia].
    intros l' i Hne. rewrite Hc2. by rewrite decide_False.
  - simpl. by rewrite lookup_insert_eq.
  - rewrite Hbl. unfold buffer_loc. simpl. by rewrite lookup_insert_eq.
Qed.
End Erasing.

(** * Emplace into spare capacity *)

Section EmplaceInPlace.
Context {T : Type} {ET : Element T}.
Implicit Types (w : World T) (xs ys zs : list T).

(** [std::move_backward(first, last, last + 1)]: the elements of the slots
    [o, e) move one slot to the right. *)
Lemma wp_move_backward_right l o e w (Q : unit → World T → Prop) R U :
  o ≤ e →
  (∀ i, o ≤ i ≤ e → in_block w l i = true ∧ is_Some (cells w !! (l, i))) →
  (∀ c tr, (∀ j, 0 ≤ j < e - o → fault_at w (ops_done w + j) = None) →
        (∀ l' i, c !! (l', i) =
                 if decide (l' = l ∧ o < i ≤ e) then cells w !! (l, i - 1)
                 else if decide (l' = l ∧ i = o ∧ o < e)
                      then moved_from <$> cells w !! (l, i)
                      else cells w !! (l', i)) →
        Q tt (with_heap c tr (ops_done w + (e - o)) w)) →
  (∀ j ex c tr, 0 ≤ j < e - o →
        fault_at w (ops_done w + j) = Some ex →
        (∀ l' i, is_Some (c !! (l', i)) ↔ is_Some (cells w !! (l', i))) →
        (∀ l' i, l' ≠ l → c !! (l', i) = cells w !! (l', i)) →
        R ex (with_heap c tr (ops_done w + j + 1) w)) →
  wp_or (move_backward (Ptr l o) (Ptr l e) (Ptr l (e + 1))) w Q R U.
Proof.
  intros Hoe Hpre HQ HR. unfold move_backward. cbn [ptr_diff].
  rewrite decide_True by done. apply wp_bind. eapply wp_from_option; [done|].
  apply (wp_for_loop (λ j w1, ∃ c tr,
    w1 = with_heap c tr (ops_done w + j) w ∧
    (∀ j', 0 ≤ j' < j → fault_at w (ops_done w + j') = None) ∧
    ∀ l' i, c !! (l', i) =
            if decide (l' = l ∧ e - j < i ≤ e) then cells w !! (l, i - 1)
            else if decide (l' = l ∧ i = e - j ∧ 0 < j)
                 then moved_from <$> cells w !! (l, i)
                 else cells w !! (l', i))).
  - exists (cells w), (trace w). split_and!.
    + rewrite Z.add_0_r. symmetry. apply with_heap_id.
    + intros; lia.
    + intros. rewrite !decide_False; [done|lia|lia].
  - intros j w1 Hj (c & tr & -> & Hf & Hc). rewrite Z2Nat.id in Hj by lia.
    cbn [ptr_add].
    destruct (Hpre (e + - (j + 1))) as [Hin1 [x Hx]]; [lia|].
    destruct (Hpre (e - j)) as [Hin2 [y Hy]]; [lia|].
    replace (e + 1 + - (j + 1)) with (e - j) by lia.
    assert (c !! (l, e + - (j + 1)) = Some x) as Hcx.
    { rewrite Hc, !decide_False; [done|lia|lia]. }
    eapply wp_move_assign; [exact Hin2|exact Hin1|exact Hcx| | | |].
    + cbn [cells with_heap]. rewrite Hc, decide_False by (intros [_ ?]; lia).
      destruct (decide (l = l ∧ e - j = e - j ∧ 0 < j)); rewrite Hy; simpl; eauto.
    + intros [=]. lia.
    + intros Hnf. eexists _, _. split_and!.
      * world_eq.
      * intros j' Hj'. destruct (decide (j' = j)) as [->|]; [done|]. apply Hf. lia.
      * intros l' i. cbn [cells with_heap].
        destruct (decide ((l', i) = (l, e + - (j + 1)))) as [[= -> ->]|Hne1].
        { rewrite lookup_insert_eq. rewrite decide_False by lia.
          rewrite decide_True by lia. by rewrite Hx. }
        rewrite lookup_insert_ne by done.
        destruct (decide ((l', i) = (l, e - j))) as [[= -> ->]|Hne2].
        { rewrite lookup_insert_eq. rewrite decide_True by lia.
          rewrite <- Hx. f_equal. f_equal. lia. }
        rewrite lookup_insert_ne by done. rewrite Hc. solve_slot.
    + intros ex Hex. cbn [cells with_heap trace]. apply (HR j); [lia|done| |].
      * intros l' i. rewrite Hc.
        destruct (decide (l' = l ∧ e - j < i ≤ e)) as [[-> ?]|?].
        -- destruct (Hpre (i - 1)) as [_ ?]; [lia|]. destruct (Hpre i) as [_ ?]; [lia|].
           split; auto.
        -- destruct (decide (l' = l ∧ i = e - j ∧ 0 < j)) as [[-> ?]|?];
             [by rewrite fmap_is_Some|tauto].
      * intros l' i Hl. rewrite Hc.
        destruct (decide (l' = l ∧ e - j < i ≤ e)) as [[? ?]|?]; [done|].
        destruct (decide (l' = l ∧ i = e - j ∧ 0 < j)) as [[? ?]|?]; done.
  - intros w' (c & tr & -> & Hf & Hc). rewrite Z2Nat.id in Hf, Hc |- * by lia.
    rewrite !Z.add_0_l in *. apply HQ; [done|].
    intros l' i. rewrite Hc. solve_slot.
Qed.

Lemma thrown_by_fault_now w e : fault_at w (ops_done w) = Some e → thrown_by_fault w e.
Proof. intros H. exists (ops_done w). split; [lia|done]. Qed.

Lemma iterator_at_eq w this d n k :
  vecs w !! this = Some (mkVector d n) → iterator_at w this k = ptr_add (buffer_ d) k.
Proof. unfold iterator_at. by intros ->. Qed.

(** [Emplace] at [end()] of a Vector with spare capacity. *)
Lemma Emplace_at_end_spec this xs cap a x w :
  is_vector w this xs cap → heap_wf w → Z.of_nat (length xs) < cap →
  outside a = Some x →
  wp (Emplace this (iterator_at w this (Z.of_nat (length xs))) a) w
     (Emplace_in_place this xs cap (Z.of_nat (length xs)) a x w)
     (λ e w', still_valid this xs cap w e w' ∧ thrown_by_fault w e).
Proof.
  intros Hvec Hwf Hroom Hout.
  destruct (is_vector_has_room _ _ _ _ Hvec) as (l & bytes & Hv & Hlen & Hb & Hsz & Hc & Hbl); [lia|].
  pose proof (capacity_bound _ _ _ _ Hwf Hb Hsz) as Hcb.
  set (n := Z.of_nat (length xs)) in *.
  assert (0 ≤ n) as Hn0 by (unfold n; lia).
  assert (∀ i, 0 ≤ i < cap → in_block w l i = true) as Hin.
  { intros i Hi. eapply in_block_intro; [done|lia|nia]. }
  unfold Emplace, iterator_at, Vector_begin, Vector_end, Capacity, GetAddress,
    RawMemory_Capacity. rewrite Hv. cbn [data_ buffer_ ptr_add].
  apply wp_bind. apply wp_bind. eapply wp_get_data; [done|]. apply wp_ret.
  cbn [data_ buffer_ capacity_].
  apply wp_bind. eapply wp_from_option.
  { unfold ptr_diff. rewrite decide_True by done. done. }
  rewrite (size_t_small (0 + n - 0)) by (unfold SIZE_MAX, PTRDIFF_MAX in *; lia).
  replace (0 + n - 0) with n by lia.
  apply wp_bind. eapply wp_get_size; [done|]. cbn [size_].
  apply wp_bind. apply wp_bind. eapply wp_get_data; [done|]. apply wp_ret.
  cbn [data_ buffer_ capacity_].
  rewrite decide_False by lia.
  apply wp_bind. apply wp_bind. apply wp_bind. eapply wp_get_vec; [done|]. apply wp_ret.
  cbn [data_ buffer_ size_ ptr_add].
  apply wp_bind. eapply wp_get_data; [done|]. cbn [data_].
  rewrite decide_True by done.
  apply wp_bind. unfold RawMemory_plus. cbn [capacity_ buffer_ ptr_add].
  apply wp_bind. apply wp_assert; [apply Z.leb_le; lia|]. apply wp_ret.
  eapply wp_construct_at; [exact Hout|]. apply wp_construct_heap.
  { apply Hin. lia. }
  2:{ intros e Hmay He. split; [|by apply thrown_by_fault_now].
      split_and!.
      - exists (mkRawMemory (Ptr l 0) cap). split_and!; [exact Hv|done|].
        split; [simpl; lia|]. split; [simpl; lia|]. simpl. split_and!; [done|lia|].
        exists bytes. done.
      - by apply (heap_wf_with_heap _ _ _ w); [|apply Hwf].
      - apply (frame_in_place' _ l _ _ _ w); [done|done|simpl; lia]. }
  intros Hnf.
  apply wp_bind. eapply wp_set_size; [exact Hv|].
  rewrite size_t_small by (unfold SIZE_MAX, PTRDIFF_MAX in *; lia).
  apply wp_bind. apply wp_bind. eapply wp_get_data; [simpl; apply lookup_insert_eq|].
  apply wp_ret. apply wp_ret.
  cbn [data_ buffer_ ptr_add].
  assert (length (inserted n x xs) = S (length xs)) as Hli
    by apply length_inserted.
  replace (n + 1) with (Z.of_nat (length (inserted n x xs))) by lia.
  split; [|exact Hnf]. split_and!.
  - apply (is_vector_in_place this l bytes (mkRawMemory (Ptr l 0) cap)); simpl; try done; try lia.
    intros i. rewrite lookupZ_inserted by lia.
    destruct (decide ((l, i) = (l, 0 + n))) as [[= ->]|Hne].
    + rewrite lookup_insert_eq. rewrite decide_False by lia. by rewrite decide_True by lia.
    + rewrite lookup_insert_ne by done. rewrite Hc.
      case_decide; [done|]. rewrite decide_False by (intros ->; apply Hne; f_equal; lia).
      rewrite (proj2 (lookupZ_None xs i)) by (fold n; lia).
      rewrite (proj2 (lookupZ_None xs (i - 1))); [done|].
      assert (i ≠ n) by (intros ->; apply Hne; f_equal; lia). fold n. lia.
  - apply heap_wf_set_vecs. apply (heap_wf_with_heap _ _ _ w); [done|].
    intros l' i Hl'. rewrite lookup_insert_ne.
    + by apply Hwf.
    + apply (heap_wf_block _ _ _ Hwf) in Hb. intros [=]. lia.
  - eapply (frame_in_place _ _ _ _ _ _ w);
      [done|done| |simpl; pose proof (ctor_ops_bounds (init_kind a)); lia].
    intros l' i Hne. rewrite lookup_insert_ne; [done|]. intros [=]. done.
  - unfold iterator_at. simpl. by rewrite lookup_insert_eq.
Qed.

Lemma in_place_world_wf l w w' :
  heap_wf w → (l < next_loc w)%nat → in_place_world l w w' → heap_wf w'.
Proof.
  intros Hwf Hl (c & tr & ops & -> & Hc & _). apply heap_wf_with_heap; [done|].
  intros l' i Hl'. rewrite Hc by lia. by apply Hwf.
Qed.

Lemma in_place_world_frame this l w w' :
  buffer_loc w this = Some l → in_place_world l w w' → frame this w w'.
Proof. intros Hb (c & tr & ops & -> & Hc & ?). by eapply frame_in_place'. Qed.

Lemma wp_construct_local a x w (Q : T → World T → Prop) R U :
  outside a = Some x →
  ((ctor_may_throw (init_kind a) = true → fault_at w (ops_done w) = None) →
   Q x
     (with_heap (cells w) (EvConstruct (init_kind a) OnStack :: trace w)
                (ops_done w + ctor_ops (init_kind a)) w)) →
  (∀ e, ctor_may_throw (init_kind a) = true → fault_at w (ops_done w) = Some e →
        R e (with_heap (cells w) (trace w) (ops_done w + 1) w)) →
  wp_or (construct_local a) w Q R U.
Proof.
  intros Hout HQ HR. unfold construct_local. apply wp_bind.
  assert (init_value a w = Ok x w ∧ ∀ w', init_done a x w' = Ok tt w') as [Hval Hdone].
  { destruct a as [[y|q]|[y|q]|y]; by simplify_eq/=. }
  unfold wp_or at 1. rewrite Hval.
  apply wp_bind. unfold ctor_ops in HQ.
  destruct (ctor_may_throw (init_kind a)).
  - apply wp_may_throw; [|by auto]. intros Hf. apply wp_bind, wp_modify.
    apply wp_bind. unfold wp_or at 1. rewrite Hdone. apply wp_ret.
    by apply HQ.
  - apply wp_ret. apply wp_bind, wp_modify.
    apply wp_bind. unfold wp_or at 1. rewrite Hdone. apply wp_ret.
    replace (log _ w) with
      (with_heap (cells w) (EvConstruct (init_kind a) OnStack :: trace w) (ops_done w + 0) w).
    + by apply HQ.
    + rewrite Z.add_0_r. by destruct w.
Qed.

Lemma wp_move_construct l a b x w (Q : unit → World T → Prop) R U :
  in_block w l a = true → in_block w l b = true →
  cells w !! (l, b) = Some x → a ≠ b →
  ((ctor_may_throw MoveCtor = true → fault_at w (ops_done w) = None) →
   Q tt (with_heap (<[(l, b) := moved_from x]> (<[(l, a) := x]> (cells w)))
                   (EvConstruct MoveCtor (InBuffer l a) :: trace w)
                   (ops_done w + ctor_ops MoveCtor) w)) →
  (∀ e, ctor_may_throw MoveCtor = true → fault_at w (ops_done w) = Some e →
        R e (with_heap (cells w) (trace w) (ops_done w + 1) w)) →
  wp_or (move_construct (Ptr l a) (Ptr l b)) w Q R U.
Proof.
  intros Ha Hb Hx Hne HQ HR. unfold move_construct.
  apply wp_bind. eapply wp_load; [done|done|].
  apply wp_bind. apply wp_construct_heap; [done| |intros; by apply HR].
  intros Hnf. apply wp_store; [done| |by apply HQ].
  cbn [cells with_heap]. rewrite lookup_insert_ne by congruence. eauto.
Qed.

(** [Emplace] before [end()] of a Vector with spare capacity. *)
Lemma Emplace_shift_spec this xs cap k a x w :
  is_vector w this xs cap → heap_wf w →
  0 ≤ k < Z.of_nat (length xs) → Z.of_nat (length xs) < cap →
  outside a = Some x →
  wp_or (Emplace this (iterator_at w this k) a) w
     (Emplace_in_place this xs cap k a x w)
     (Emplace_shift_failed this xs cap k a w)
     (destroys_dead_slot xs cap k a w).
Proof.
  intros Hvec Hwf Hk Hroom Hout.
  destruct (is_vector_has_room _ _ _ _ Hvec) as (l & bytes & Hv & Hlen & Hb & Hsz & Hc & Hbl); [lia|].
  pose proof (capacity_bound _ _ _ _ Hwf Hb Hsz) as Hcb.
  pose proof (heap_wf_block _ _ _ Hwf Hb) as [Hlt _].
  set (n := Z.of_nat (length xs)) in *.
  assert (∀ i, 0 ≤ i < cap → in_block w l i = true) as Hin.
  { intros i Hi. eapply in_block_intro; [done|lia|nia]. }
  eapply (wp_mono _ _ _ _ (λ e w',
            in_place_world l w w' ∧ thrown_by_fault w e ∧
            ((∀ i, is_Some (cells w' !! (l, i)) ↔ 0 ≤ i < n) ∨
             (fault_at w (last_assign_op xs k a w) = Some e ∧
              ∀ i, 0 ≤ i ≤ n → is_Some (cells w' !! (l, i))))));
    [|intros ?? H; exact H|].
  2:{ intros e w' (Hw & He & Hdom). unfold Emplace_shift_failed.
      split_and!; [by eapply in_place_world_wf|by eapply in_place_world_frame|done|].
      destruct Hw as (c & tr & ops & -> & Hoth & Hops). cbn [cells with_heap] in Hdom.
      destruct Hdom as [Hdom|[Hf Hdom]].
      - left. destruct (contents_exist c l (length xs)) as (xs' & Hlen' & Hxs').
        { intros i Hi. apply Hdom. fold n. lia. }
        exists xs'. split; [|done].
        apply (is_vector_with_heap this l bytes (mkRawMemory (Ptr l 0) cap) xs' n _ _ _ w);
          simpl; try done; try lia.
        intros i. destruct (decide (0 ≤ i < n)); [apply Hxs'; lia|].
        rewrite (proj2 (lookupZ_None xs' i)) by lia.
        apply eq_None_not_Some. rewrite Hdom. lia.
      - right. split; [done|]. exists l, (mkRawMemory (Ptr l 0) cap).
        split_and!; [exact Hv|done|simpl; lia|exact Hdom]. }
  unfold Emplace, iterator_at, Vector_begin, Vector_end, Capacity, GetAddress,
    RawMemory_Capacity. rewrite Hv. cbn [data_ buffer_ ptr_add].
  apply wp_bind. apply wp_bind. eapply wp_get_data; [done|]. apply wp_ret.
  cbn [data_ buffer_ capacity_].
  apply wp_bind. eapply wp_from_option.
  { unfold ptr_diff. rewrite decide_True by done. done. }
  rewrite (size_t_small (0 + k - 0)) by (unfold SIZE_MAX, PTRDIFF_MAX in *; lia).
  replace (0 + k - 0) with k by lia.
  apply wp_bind. eapply wp_get_size; [done|]. cbn [size_].
  apply wp_bind. apply wp_bind. eapply wp_get_data; [done|]. apply wp_ret.
  cbn [data_ buffer_ capacity_].
  rewrite decide_False by lia.
  apply wp_bind. apply wp_bind. apply wp_bind. eapply wp_get_vec; [done|]. apply wp_ret.
  cbn [data_ buffer_ size_ ptr_add].
  apply wp_bind. eapply wp_get_data; [done|]. cbn [data_].
  rewrite decide_False by (intros [=]; lia).
  rewrite !Z.add_0_l.
  apply wp_bind. eapply wp_construct_local; [exact Hout| |].
  2:{ intros e _ He. split_and!; [|by apply thrown_by_fault_now|].
      - eexists _, _, _. split_and!; [done|done|lia].
      - left. intros i. cbn [cells with_heap]. rewrite Hc. apply lookupZ_is_Some. }
  intros Hnf0.
  pose proof (ctor_ops_bounds (init_kind a)) as Hco1.
  remember (ops_done w + ctor_ops (init_kind a)) as ops1 eqn:Hops1d.
  assert (ops_done w ≤ ops1) as Hops1 by lia.
  remember (EvConstruct (init_kind a) OnStack :: trace w) as tr1 eqn:Htr1. clear Htr1.
  apply wp_bind. apply wp_unwinding. apply wp_bind. apply wp_try_catch.
  unfold RawMemory_index. cbn [capacity_ buffer_ ptr_add].
  rewrite (size_t_small (n - 1)) by (unfold SIZE_MAX, PTRDIFF_MAX in *; lia).
  apply wp_bind. apply wp_bind. apply wp_assert; [apply Z.ltb_lt; lia|]. apply wp_ret.
  rewrite !Z.add_0_l.
  destruct (lookupZ_is_Some xs (n - 1)) as [_ [xl Hxl]]; [lia|].
  apply wp_bind. eapply wp_move_construct;
    [apply Hin; lia|apply Hin; lia|cbn [cells with_heap]; by rewrite Hc|lia| |].
  2:{ (* the move constructor throws: the handler destroys the slot at
         end(), which holds no object *)
    intros e Hmay He. cbn [catch_all]. apply wp_bind. apply wp_or_destroy_dead.
    - cbn [cells with_heap]. rewrite Hc. apply lookupZ_None. lia.
    - split; [exact Hnf0|]. fold n. rewrite decide_False by lia.
      split_and!; [lia|exact Hmay|]. cbn [ops_done with_heap] in He. subst ops1. eauto. }
  intros Hnf1. cbn [cells with_heap ops_done trace].
  pose proof (ctor_ops_bounds MoveCtor) as Hco2.
  remember (ops1 + ctor_ops MoveCtor) as ops2 eqn:Hops2d.
  assert (ops1 ≤ ops2) as Hops2 by lia.
  set (c1 := <[(l, n - 1) := moved_from xl]> (<[(l, n) := xl]> (cells w))).
  remember (EvConstruct MoveCtor (InBuffer l n) :: tr1) as tr2 eqn:Htr2. clear Htr2.
  assert (∀ l' i, c1 !! (l', i) =
            if decide (l' = l ∧ i = n) then Some xl
            else if decide (l' = l ∧ i = n - 1) then Some (moved_from xl)
                 else cells w !! (l', i)) as Hc1.
  { intros l' i. unfold c1.
    destruct (decide ((l', i) = (l, n - 1))) as [[= -> ->]|Hne1].
    - rewrite lookup_insert_eq. rewrite decide_False by (intros [_ ?]; lia).
      by rewrite decide_True.
    - rewrite lookup_insert_ne by done.
      destruct (decide ((l', i) = (l, n))) as [[= -> ->]|Hne2].
      + rewrite lookup_insert_eq. by rewrite decide_True.
      + rewrite lookup_insert_ne by done.
        rewrite !decide_False; [done| |]; intros [-> ->]; done. }
  replace (Ptr l n) with (Ptr l (n + -1 + 1)) at 1 by (f_equal; lia).
  change (with_heap c1 tr2 ops2 (with_heap (cells w) tr1 ops1 w))
    with (with_heap c1 tr2 ops2 w).
  apply wp_move_backward_right; [lia| | |].
  { intros i Hi. split; [apply Hin; lia|]. cbn [cells with_heap]. rewrite Hc1.
    repeat case_decide; eauto. rewrite Hc. apply lookupZ_is_Some. lia. }
  2:{ (* a move assignment of the shift throws *)
    intros j ex c tr Hj Hex Hdom Hoth. cbn [catch_all].
    apply wp_bind. apply wp_destroy_at; [apply Hin; lia| |].
    { cbn [cells with_heap]. rewrite Hdom. cbn [cells with_heap]. rewrite Hc1.
      rewrite decide_True by done. eauto. }
    apply wp_throw. unfold destroy_local. apply wp_modify. split_and!.
    - eexists _, _, _. split_and!; [reflexivity| |].
      + intros l' i Hne. simpl. rewrite lookup_delete_ne by congruence.
        rewrite Hoth by done. simpl. rewrite Hc1.
        rewrite !decide_False; [done| |]; by intros [? _].
      + simpl in *. lia.
    - exists (ops2 + j). split; [lia|done].
    - left. intros i. simpl. destruct (decide (i = n)) as [->|].
      + rewrite lookup_delete_eq. split; [by intros [? ?]|lia].
      + rewrite lookup_delete_ne by congruence. rewrite Hdom. simpl. rewrite Hc1.
        rewrite decide_False by (intros [_ ?]; lia).
        destruct (decide (l = l ∧ i = n - 1)) as [[_ ->]|].
        * split; [lia|eauto].
        * rewrite Hc. apply lookupZ_is_Some. }
  intros c2 tr3 Hnf2 Hc2. cbn [cells with_heap ops_done] in *.
  unfold RawMemory_index. cbn [capacity_ buffer_ ptr_add].
  apply wp_bind. apply wp_bind. apply wp_assert; [apply Z.ltb_lt; lia|]. apply wp_ret.
  apply wp_move_assign_from_local.
  { apply Hin. lia. }
  { cbn [cells with_heap]. rewrite Hc2. rewrite decide_False by (intros [_ ?]; lia).
    destruct (decide (l = l ∧ k = k ∧ k < n + -1)).
    - rewrite Hc1, !decide_False by (intros [_ ?]; lia). rewrite Hc.
      apply fmap_is_Some, lookupZ_is_Some. lia.
    - rewrite Hc1. rewrite decide_False by (intros [_ ?]; lia).
      destruct (decide (l = l ∧ k = n - 1)); [eauto|].
      rewrite Hc. apply lookupZ_is_Some. lia. }
  2:{ (* the move assignment from the temporary throws *)
    intros e He. unfold destroy_local. apply wp_modify. split_and!.
    - eexists _, _, _. split_and!; [reflexivity| |].
      + intros l' i Hne. simpl. rewrite Hc2.
        rewrite !decide_False; [| |]; try (by intros [? _]).
        rewrite Hc1. rewrite !decide_False; [done| |]; by intros [? _].
      + simpl in *. lia.
    - exists (ops2 + (n + -1 - k)). split; [lia|done].
    - right. split.
      + unfold last_assign_op. fold n. rewrite <- He. simpl. f_equal. lia.
      + intros i Hi. simpl. rewrite Hc2.
        assert (∀ i', 0 ≤ i' ≤ n → is_Some (c1 !! (l, i'))) as Hc1s.
        { intros i' Hi'. rewrite Hc1.
          destruct (decide (l = l ∧ i' = n)) as [|Hn1]; [eauto|].
          destruct (decide (l = l ∧ i' = n - 1)) as [|Hn2]; [eauto|].
          rewrite Hc. apply lookupZ_is_Some.
          assert (i' ≠ n) by (intros ->; by apply Hn1). lia. }
        repeat case_decide;
          first [apply Hc1s; lia | apply fmap_is_Some, Hc1s; lia]. }
  intros Hnf3. unfold destroy_local. apply wp_modify.
  apply wp_bind. eapply wp_set_size; [exact Hv|].
  rewrite size_t_small by (unfold SIZE_MAX, PTRDIFF_MAX in *; lia).
  apply wp_bind. apply wp_bind. eapply wp_get_data; [simpl; apply lookup_insert_eq|].
  apply wp_ret. apply wp_ret.
  cbn [data_ buffer_ ptr_add].
  assert (length (inserted k x xs) = S (length xs)) as Hli
    by apply length_inserted.
  replace (n + 1) with (Z.of_nat (length (inserted k x xs))) by lia.
  assert (∀ l' i, <[(l, k) := x]> c2 !! (l', i) =
            if decide (l' = l) then lookupZ (inserted k x xs) i
            else cells w !! (l', i)) as Hc3.
  { intros l' i. destruct (decide (l' = l)) as [->|Hne].
    - rewrite lookupZ_inserted by lia.
      destruct (decide (i = k)) as [->|Hik].
      + rewrite lookup_insert_eq. by rewrite decide_False by lia.
      + rewrite lookup_insert_ne by congruence. rewrite Hc2.
        destruct (decide (i < k)).
        * rewrite !decide_False; [|intros (_ & ? & _); lia|intros [_ ?]; lia].
          rewrite Hc1, !decide_False; [apply Hc| |]; intros [_ ?]; lia.
        * destruct (decide (i ≤ n + -1)).
          -- rewrite decide_True by (split; [done|lia]).
             rewrite Hc1, !decide_False; [apply Hc| |]; intros [_ ?]; lia.
          -- rewrite !decide_False; [|intros (_ & ? & _); lia|intros [_ ?]; lia].
             rewrite Hc1. destruct (decide (i = n)) as [->|].
             ++ rewrite decide_True by done. rewrite <- Hxl. f_equal.
             ++ rewrite !decide_False; [|intros [_ ?]; lia|intros [_ ?]; lia].
                rewrite Hc, !(proj2 (lookupZ_None xs _)); [done| |]; fold n; lia.
    - rewrite lookup_insert_ne by congruence. rewrite Hc2.
      rewrite !decide_False; [| |]; try (by intros [? _]).
      rewrite Hc1. rewrite !decide_False; [done| |]; by intros [? _]. }
  split; [|exact Hnf0]. split_and!.
  - apply (is_vector_in_place this l bytes (mkRawMemory (Ptr l 0) cap)); simpl; try done; try lia.
    intros i. rewrite Hc3. by rewrite decide_True.
  - apply heap_wf_set_vecs. apply (heap_wf_with_heap _ _ _ w); [done|].
    intros l' i Hl'. rewrite Hc3. rewrite decide_False by lia. by apply Hwf.
  - eapply (frame_in_place _ _ _ _ _ _ w); [done|done| |simpl; lia].
    intros l' i Hne. rewrite Hc3. by rewrite decide_False.
  - unfold iterator_at. simpl. by rewrite lookup_insert_eq.
Qed.
End EmplaceInPlace.

(** * Emplace at capacity *)

Section EmplaceGrow.
Context {T : Type} {ET : Element T}.
Implicit Types (w : World T) (xs ys zs : list T).

Lemma sizeof_le_SIZE_MAX : Z.pos sizeof ≤ SIZE_MAX.
Proof. pose proof sizeof_size_t as H. apply Z.leb_le in H. exact H. Qed.

Lemma relocate_prefix_0 xs : relocate_prefix 0 xs = xs.
Proof. unfold relocate_prefix. simpl. by rewrite drop_0. Qed.

Lemma relocate_prefix_all xs : relocate_prefix (Z.of_nat (length xs)) xs = relocated <$> xs.
Proof.
  unfold relocate_prefix. rewrite Nat2Z.id, firstn_all, drop_all. apply app_nil_r.
Qed.

Lemma owns_capacity_bytes w d xs :
  heap_wf w → owns w d xs → capacity_ d * Z.pos sizeof ≤ PTRDIFF_MAX.
Proof.
  intros Hwf (Hc0 & Hlen & H). destruct (buffer_ d) as [|l o].
  - rewrite H. unfold PTRDIFF_MAX. lia.
  - destruct H as (_ & _ & bytes & Hb & Hsz & _).
    apply (heap_wf_block _ _ _ Hwf) in Hb. lia.
Qed.

(** The world after a growing operation failed and released its new
    block: the Vector still owns its old block, where the first [j]
    elements were given up by the relocation. *)
Lemma grow_failed_world this d xs w bytes cT trT opsT j :
  vecs w !! this = Some (mkVector d (Z.of_nat (length xs))) →
  owns w d xs → heap_wf w →
  ops_done w ≤ opsT → 0 ≤ j ≤ Z.of_nat (length xs) →
  (∀ l' i, l' ≠ next_loc w →
           cT !! (l', i) =
           if decide (block_of (buffer_ d) = Some l' ∧ 0 ≤ i < j)
           then relocated <$> lookupZ xs i else cells w !! (l', i)) →
  let w' := released (Ptr (next_loc w) 0) (with_heap cT trT opsT (allocated bytes w)) in
  heap_wf w' ∧ frame this w w' ∧ blocks w' !! next_loc w = None ∧
  is_vector w' this (relocate_prefix j xs) (capacity_ d).
Proof.
  intros Hv Hown Hwf Hops Hj Hc w'.
  pose proof Hwf as [Hwf1 Hwf2]. pose proof Hown as (Hc0 & Hlen & Hbuf).
  assert (∀ l, block_of (buffer_ d) = Some l → (l < next_loc w)%nat) as Hold.
  { intros l Hl. by eapply owns_block_lt. }
  split_and!.
  - split.
    + intros l b. unfold w'. simpl. intros Hb.
      destruct (decide (l = next_loc w)) as [->|Hne].
      * by rewrite lookup_delete_eq in Hb.
      * rewrite lookup_delete_ne, lookup_insert_ne in Hb by done.
        apply Hwf1 in Hb. lia.
    + intros l i Hl. unfold w'. simpl in *. rewrite Hc by lia.
      rewrite decide_False; [apply Hwf2; lia|].
      intros [Hb _]. apply Hold in Hb. lia.
  - unfold frame, w'. simpl. split_and!; auto; try lia.
    intros l Hl Hnb. rewrite (is_vector_buffer_loc _ _ _ _ Hv) in Hnb. split.
    + rewrite lookup_delete_ne, lookup_insert_ne by lia. done.
    + intros i. rewrite Hc by lia. rewrite decide_False; [done|]. by intros [? _].
  - unfold w'. simpl. apply lookup_delete_eq.
  - exists d. split_and!; [|done|].
    + unfold w'. simpl. by rewrite length_relocate_prefix.
    + split; [done|]. rewrite length_relocate_prefix. split; [done|].
      destruct (buffer_ d) as [|l o] eqn:Hbd; [done|].
      destruct Hbuf as (-> & ? & b & Hb & ? & Hcells).
      assert (l ≠ next_loc w) as Hne by (apply Hwf1 in Hb; lia).
      split_and!; [done|done|]. exists b. split_and!; [|done|].
      * unfold w'. simpl. by rewrite lookup_delete_ne, lookup_insert_ne.
      * intros i. unfold w'. cbn [cells released set_blocks log with_heap].
        rewrite Hc by done. cbn [block_of]. rewrite lookupZ_relocate_prefix by lia.
        rewrite Hcells.
        destruct (decide (0 ≤ i < j)).
        -- rewrite decide_True; done.
        -- rewrite decide_False; [done|]. by intros [_ ?].
Qed.

Lemma grown_capacity_gt cap : 0 ≤ cap → cap < grown_capacity cap.
Proof. unfold grown_capacity. lia. Qed.

(** [Emplace] on a Vector at capacity. *)
Lemma Emplace_grow_spec this xs k a x w :
  is_vector w this xs (Z.of_nat (length xs)) → heap_wf w →
  0 ≤ k ≤ Z.of_nat (length xs) →
  outside a = Some x →
  wp_or (Emplace this (iterator_at w this k) a) w
     (Emplace_grown this xs (Z.of_nat (length xs)) k a x w)
     (Emplace_grow_failed this xs (Z.of_nat (length xs)) k a w)
     (destroys_dead_slot xs (Z.of_nat (length xs)) k a w).
Proof.
  intros (d & Hv & Hcap & Hown) Hwf Hk Hout.
  pose proof Hwf as [Hwf1 Hwf2].
  pose proof (owns_holds _ _ _ Hown) as Hh.
  pose proof Hown as (Hc0 & Hlen & Hbuf).
  pose proof (owns_capacity_bytes _ _ _ Hwf Hown) as Hcb.
  pose proof sizeof_le_SIZE_MAX as Hsmax.
  remember (Z.of_nat (length xs)) as n eqn:Hn.
  assert (0 ≤ n) as Hn0 by lia.
  set (nl := next_loc w).
  set (ncap := grown_capacity n).
  set (bytes := ncap * Z.pos sizeof).
  assert (n < ncap) as Hncap by (apply grown_capacity_gt; lia).
  assert (block_of (buffer_ d) ≠ Some nl) as Hfresh.
  { intros Hl. apply (owns_block_lt _ _ _ _ Hwf Hown) in Hl. unfold nl in *. lia. }
  assert (n ≤ PTRDIFF_MAX) as Hnmax by nia.
  assert (bytes ≤ SIZE_MAX) as Hbytes.
  { unfold bytes, ncap, grown_capacity, SIZE_MAX, PTRDIFF_MAX in *.
    destruct (decide (n = 0)) as [->|]; [simpl; lia|]. rewrite Z.max_r by lia. nia. }
  assert (ptr_diff (ptr_add (buffer_ d) k) (buffer_ d) = Some (if buffer_ d is nullptr then 0 else k))
    as Hdiff.
  { destruct (buffer_ d) as [|l o]; [done|]. simpl. rewrite decide_True by done.
    f_equal. lia. }
  assert ((if buffer_ d is nullptr then 0 else k) = k) as Hknull.
  { destruct (buffer_ d) eqn:Hbd; [|done]. simpl in Hh. subst xs. simpl in *. lia. }
  unfold Emplace. rewrite (iterator_at_eq _ _ _ _ _ Hv).
  unfold Vector_begin, Vector_end, Capacity, GetAddress, RawMemory_Capacity.
  apply wp_bind. apply wp_bind. eapply wp_get_data; [done|]. apply wp_ret.
  cbn [data_]. apply wp_bind. eapply wp_from_option; [exact Hdiff|]. rewrite Hknull.
  rewrite (size_t_small k) by (unfold SIZE_MAX, PTRDIFF_MAX in *; lia).
  apply wp_bind. eapply wp_get_size; [done|]. cbn [size_].
  apply wp_bind. apply wp_bind. eapply wp_get_data; [done|]. apply wp_ret.
  cbn [data_]. rewrite Hcap. rewrite decide_True by done.
  replace (Z.max (size_t 1) (size_t (n * 2))) with ncap.
  2:{ unfold ncap, grown_capacity. rewrite (size_t_small (n * 2))
        by (unfold SIZE_MAX, PTRDIFF_MAX in *; lia).
      replace (size_t 1) with 1 by done. lia. }
  apply wp_bind. apply wp_bind.
  apply wp_RawMemory_ctor; [lia|done|lia| |].
  2:{ (* the allocation fails *)
    intros _ Hfail. fold bytes. unfold Emplace_grow_failed. fold nl bytes.
    split_and!.
    - split; [apply Hwf1|apply Hwf2].
    - unfold frame, alloc_failed. simpl. split_and!; auto; lia.
    - simpl. apply eq_None_not_Some. intros [b Hb]. apply Hwf1 in Hb. unfold nl in *. lia.
    - left. split_and!; [done|done| |done]. exists d. by rewrite <- Hn. }
  intros _ Halloc Hbmax. fold bytes nl.
  set (w1 := allocated bytes w).
  assert (∀ i, 0 ≤ i < ncap → in_block w1 nl i = true) as Hin1.
  { intros i Hi. eapply in_block_intro; [apply lookup_insert_eq|lia|unfold bytes; nia]. }
  assert (alloc_granted w bytes) as Hgranted by (split; done).
  apply wp_bind. apply wp_unwinding. cbn [buffer_ ptr_add]. rewrite !Z.add_0_l.
  apply wp_bind. eapply wp_construct_at; [exact Hout|].
  apply wp_construct_heap; [apply Hin1; lia| |].
  2:{ (* the constructor of the new element throws *)
    intros e Hmay He. apply wp_RawMemory_dtor.
    { intros l o [= <- <-]. split; [done|]. simpl. rewrite lookup_insert_eq. eauto. }
    cbn [buffer_]. unfold Emplace_grow_failed. fold nl bytes.
    destruct (grow_failed_world this d xs w bytes (cells w1) (trace w1) (ops_done w1 + 1) 0)
      as (H1 & H2 & H3 & H4); [by rewrite <- Hn|done|done|simpl; lia|lia| |].
    { intros l' i Hne. rewrite decide_False; [done|]. intros [_ ?]. lia. }
    rewrite relocate_prefix_0, Hcap in H4.
    split_and!; [exact H1|exact H2|exact H3|].
    right. left. split_and!; try done. }
  intros Hnf0.
  pose proof (ctor_ops_bounds (init_kind a)) as Hco.
  remember (ops_done w1 + ctor_ops (init_kind a)) as ops1 eqn:Hops1.
  assert (ops1 = ops_done w + ctor_ops (init_kind a)) as Hops1' by (subst ops1; done).
  clear Hops1.
  set (c2 := <[(nl, k) := x]> (cells w1)).
  set (tr2 := EvConstruct (init_kind a) (InBuffer nl k) :: trace w1).
  change (with_heap c2 tr2 ops1 w1) with (with_heap c2 tr2 ops1 w1).
  assert (∀ l' i, c2 !! (l', i) =
            if decide (l' = nl ∧ i = k) then Some x else cells w !! (l', i)) as Hc2.
  { intros l' i. unfold c2. destruct (decide ((l', i) = (nl, k))) as [[= -> ->]|Hne].
    - rewrite lookup_insert_eq. by rewrite decide_True.
    - rewrite lookup_insert_ne by done. rewrite decide_False; [done|]. by intros [-> ->]. }
  assert (∀ c tr ops xs', length xs' = length xs →
            (∀ i l, buffer_ d = Ptr l 0 → c !! (l, i) = lookupZ xs' i) →
            holds (with_heap c tr ops w1) (buffer_ d) xs') as Hholds.
  { intros c tr ops xs' Hlen' Hc'. unfold holds in *. destruct (buffer_ d) as [|l o].
    - subst xs. by destruct xs'.
    - destruct Hh as (-> & b & Hb & ? & ?). split; [done|]. exists b. split_and!.
      + simpl. rewrite lookup_insert_ne; [done|]. apply Hwf1 in Hb. unfold nl. lia.
      + by rewrite Hlen'.
      + intros i. simpl. by apply Hc'. }
  assert (∀ l i, buffer_ d = Ptr l 0 → l ≠ nl ∧ cells w !! (l, i) = lookupZ xs i) as Hold.
  { intros l i Hl. split.
    - intros ->. apply Hfresh. by rewrite Hl.
    - rewrite Hl in Hh. by destruct Hh as (_ & b & _ & _ & ->). }
  apply wp_bind. apply wp_try_catch. apply wp_bind.
  replace (buffer_ d) with (ptr_add (buffer_ d) 0) at 1
    by (destruct (buffer_ d); simpl; [done|f_equal; lia]).
  apply (wp_relocate_owned _ xs); [| lia | lia | lia | done | | |].
  { apply Hholds; [done|]. intros i l Hl. destruct (Hold l i Hl) as [Hne Hx].
    rewrite Hc2. by rewrite decide_False by (by intros [? _]). }
  { intros j Hj. split; [apply Hin1; lia|]. cbn [cells with_heap]. rewrite Hc2.
    rewrite decide_False by (intros [_ ?]; lia). apply Hwf2. unfold nl. lia. }
  2:{ (* the relocation of a prefix element throws *)
    intros j e c Hj Hmay Hnf He Hc. cbn [cells with_heap ops_done fault_at trace] in *.
    assert (∀ l' i, l' ≠ nl →
              c !! (l', i) =
              if decide (block_of (buffer_ d) = Some l' ∧ 0 ≤ i < j)
              then relocated <$> lookupZ xs i else cells w !! (l', i)) as Hsrc.
    { intros l' i Hne. rewrite Hc. rewrite Z.add_0_l. case_decide; [done|].
      rewrite Hc2. rewrite decide_False; [done|]. by intros [? _]. }
    assert (∀ i, c !! (nl, i) = if decide (i = k) then Some x else None) as Hnew.
    { intros i. rewrite Hc. rewrite decide_False by (by intros [? _]).
      rewrite Hc2. destruct (decide (i = k)) as [->|].
      - by rewrite decide_True.
      - rewrite decide_False by (intros [_ ?]; done). apply Hwf2. unfold nl. lia. }
    destruct (catch_std_exception e) eqn:Hstd.
    - apply wp_bind. apply wp_destroy_at; [apply Hin1; lia| |].
      { cbn [cells with_heap]. rewrite Hnew, decide_True by done. eauto. }
      apply wp_throw.
      apply wp_RawMemory_dtor.
      { intros l o [= <- <-]. split; [done|]. simpl. rewrite lookup_insert_eq. eauto. }
      cbn [buffer_]. unfold Emplace_grow_failed. fold nl bytes.
      match goal with |- context [released _ (set_cells ?f (log ?ev (with_heap ?c0 ?tr0 ?ops0 _)))] =>
        change (set_cells f (log ev (with_heap c0 tr0 ops0 w1)))
          with (with_heap (f c0) (ev :: tr0) ops0 w1);
        destruct (grow_failed_world this d xs w bytes (f c0) (ev :: tr0) ops0 j)
          as (H1 & H2 & H3 & H4)
      end; [by rewrite <- Hn|done|done|lia|lia| |].
      { intros l' i Hne.
        rewrite lookup_delete_ne by (intros [= Heq _]; apply Hne; symmetry; exact Heq).
        by apply Hsrc. }
      rewrite Hcap in H4.
      split_and!; [exact H1|exact H2|exact H3|].
      right. right. exists j. rewrite <- Hops1'. split_and!; try done; try lia.
      + unfold events_since, grow_failure_events. rewrite Hstd.
        destruct (decide (j < k)); [|lia].
        unfold tr2. simpl. by rewrite <- !app_assoc.
      + intros _ i. simpl. destruct (decide (i = k)) as [->|].
        * apply lookup_delete_eq.
        * rewrite lookup_delete_ne by congruence. rewrite Hnew. by rewrite decide_False.
    - apply wp_RawMemory_dtor.
      { intros l o [= <- <-]. split; [done|]. simpl. rewrite lookup_insert_eq. eauto. }
      cbn [buffer_]. unfold Emplace_grow_failed. fold nl bytes.
      match goal with |- context [released _ (with_heap ?c0 ?tr0 ?ops0 _)] =>
        destruct (grow_failed_world this d xs w bytes c0 tr0 ops0 j)
          as (H1 & H2 & H3 & H4)
      end; [by rewrite <- Hn|done|done|lia|lia|done|].
      rewrite Hcap in H4.
      split_and!; [exact H1|exact H2|exact H3|].
      right. right. exists j. rewrite <- Hops1'. split_and!; try done; try lia.
      + unfold events_since, grow_failure_events. rewrite Hstd.
        destruct (decide (j < k)); [|lia].
        unfold tr2. simpl. by rewrite <- !app_assoc.
      + intros Hs. congruence. }
  (* the prefix is relocated *)
  intros c3 Hnf3 Hc3. cbn [cells with_heap ops_done fault_at trace] in *.
  pose proof (relocation_ops_bounds k) as Hro.
  remember (ops1 + relocation_ops k) as ops3 eqn:Hops3.
  assert (ctor_may_throw relocation_kind = true → ops3 = ops1 + k) as Hops3'.
  { intros Hmay. subst ops3. unfold relocation_ops. by rewrite Hmay. }
  assert (ops1 ≤ ops3) as Hops13 by lia.
  clear Hops3.
  set (tr3 := slot_events (EvConstruct relocation_kind) nl 0 k ++ tr2).
  change (with_heap c3 tr3 ops3 (with_heap c2 tr2 ops1 w1)) with (with_heap c3 tr3 ops3 w1).
  assert (∀ l' i, c3 !! (l', i) =
            if decide (l' = nl) then
              if decide (0 ≤ i < k) then lookupZ xs i
              else if decide (i = k) then Some x else None
            else if decide (block_of (buffer_ d) = Some l' ∧ 0 ≤ i < k)
                 then relocated <$> lookupZ xs i else cells w !! (l', i)) as Hc3'.
  { intros l' i. rewrite Hc3, !Z.add_0_l, Z.sub_0_r, Z.add_0_r.
    destruct (decide (l' = nl)) as [->|Hne].
    - destruct (decide (0 ≤ i < k)).
      + by rewrite decide_True.
      + rewrite decide_False by (by intros [_ ?]).
        rewrite decide_False by (by intros [? _]).
        rewrite Hc2. destruct (decide (i = k)) as [->|].
        * by rewrite decide_True.
        * rewrite decide_False by (by intros [_ ?]). apply Hwf2. unfold nl. lia.
    - rewrite decide_False by (by intros [? _]).
      destruct (decide (block_of (buffer_ d) = Some l' ∧ 0 ≤ i < k)); [done|].
      rewrite Hc2. by rewrite decide_False by (by intros [? _]). }
  clear Hc3.
  apply wp_try_catch.
  rewrite (size_t_small (n - k)) by (unfold SIZE_MAX, PTRDIFF_MAX in *; lia).
  apply (wp_relocate_owned _ (relocate_prefix k xs)); [| lia | lia | | done | | |].
  { apply Hholds; [apply length_relocate_prefix|]. intros i l Hl.
    destruct (Hold l i Hl) as [Hne Hx].
    rewrite Hc3', decide_False by done. rewrite lookupZ_relocate_prefix by lia.
    rewrite Hl. cbn [block_of]. rewrite Hx.
    destruct (decide (0 ≤ i < k)).
    - by rewrite decide_True.
    - by rewrite decide_False by (by intros [_ ?]). }
  { rewrite length_relocate_prefix. lia. }
  { intros j Hj. split; [apply Hin1; lia|]. cbn [cells with_heap].
    rewrite Hc3', decide_True by done. rewrite !decide_False by lia. done. }
  2:{ (* the relocation of a suffix element throws *)
    intros j e c Hj Hmay Hnf He Hc. cbn [cells with_heap ops_done fault_at trace] in *.
    assert (∀ l' i, l' ≠ nl →
              c !! (l', i) =
              if decide (block_of (buffer_ d) = Some l' ∧ 0 ≤ i < k + j)
              then relocated <$> lookupZ xs i else cells w !! (l', i)) as Hsrc.
    { intros l' i Hne. rewrite Hc, Hc3', (decide_False (P := l' = nl)) by done.
      rewrite lookupZ_relocate_prefix by lia.
      destruct (decide (block_of (buffer_ d) = Some l')) as [Hb|Hb].
      - destruct (decide (0 ≤ i < k)).
        + rewrite decide_False by (intros [_ ?]; lia).
          rewrite !decide_True; [done| |]; split; [done|lia|done|lia].
        + destruct (decide (k ≤ i < k + j)).
          * rewrite !decide_True; [done| |]; split; [done|lia|done|lia].
          * rewrite !decide_False; [done| | |]; intros [_ ?]; lia.
      - rewrite !decide_False; [done| | |]; by intros [? _]. }
    assert (∀ i, c !! (nl, i) =
              if decide (0 ≤ i < k) then lookupZ xs i
              else if decide (i = k) then Some x else None) as Hnew.
    { intros i. rewrite Hc. rewrite decide_False by (by intros [? _]).
      rewrite Hc3'. by rewrite decide_True. }
    specialize (Hops3' Hmay). subst ops3.
    destruct (catch_std_exception e) eqn:Hstd.
    - (* the inner handler destroys the prefix and the new element, the
         outer handler destroys the new element again *)
      rewrite (size_t_small (k + 1)) by (unfold SIZE_MAX, PTRDIFF_MAX in *; lia).
      apply wp_bind. apply wp_destroy_n; [lia| |].
      { intros i Hi. split; [apply Hin1; lia|]. cbn [cells with_heap]. rewrite Hnew.
        destruct (decide (0 ≤ i < k)); [apply lookupZ_is_Some; lia|].
        rewrite decide_True by lia. eauto. }
      intros c' Hc'. apply wp_throw. rewrite Hstd.
      apply wp_bind. apply wp_or_destroy_dead.
      { cbn [cells with_heap]. rewrite Hc'. by rewrite decide_True by (split; [done|lia]). }
      split; [exact Hnf0|]. rewrite <- Hn, decide_True by done.
      split_and!; [exact Hgranted|exact Hmay|].
      exists (k + j), e. rewrite <- Hops1'. split_and!; [lia|lia| |by rewrite Z.add_assoc|done].
      intros j' Hj'. destruct (decide (j' < k)).
      + apply Hnf3; [done|lia].
      + replace (ops1 + j') with (ops1 + k + (j' - k)) by lia. apply Hnf. lia.
    - apply wp_RawMemory_dtor.
      { intros l o [= <- <-]. split; [done|]. simpl. rewrite lookup_insert_eq. eauto. }
      cbn [buffer_]. unfold Emplace_grow_failed. fold nl bytes.
      match goal with |- context [released _ (with_heap ?c0 ?tr0 ?ops0 _)] =>
        change (with_heap c0 tr0 ops0 (with_heap c3 tr3 (ops1 + k) w1))
          with (with_heap c0 tr0 ops0 w1);
        destruct (grow_failed_world this d xs w bytes c0 tr0 ops0 (k + j))
          as (H1 & H2 & H3 & H4)
      end; [by rewrite <- Hn|done|done|simpl; lia|lia|done|].
      rewrite Hcap in H4.
      split_and!; [exact H1|exact H2|exact H3|].
      right. right. exists (k + j). rewrite <- Hops1'. split_and!; try done; try lia.
      + intros j' Hj'. destruct (decide (j' < k)).
        * apply Hnf3; [done|lia].
        * replace (ops1 + j') with (ops1 + k + (j' - k)) by lia. apply Hnf. lia.
      + by rewrite Z.add_assoc.
      + unfold events_since, grow_failure_events. rewrite Hstd.
        destruct (decide (k + j < k)); [lia|].
        replace (k + j - k) with j by lia.
        unfold tr3, tr2. simpl. by rewrite <- !app_assoc.
      + intros Hs. congruence. }
  (* the suffix is relocated *)
  intros c4 Hnf4 Hc4. cbn [cells with_heap ops_done fault_at trace] in *.
  pose proof (relocation_ops_bounds (n - k)) as Hro4.
  remember (ops3 + relocation_ops (n - k)) as ops4 eqn:Hops4.
  assert (ops3 ≤ ops4) as Hops34 by lia. clear Hops4 Hro4.
  set (tr4 := slot_events (EvConstruct relocation_kind) nl (k + 1) (n - k) ++ tr3).
  change (with_heap c4 tr4 ops4 (with_heap c3 tr3 ops3 w1)) with (with_heap c4 tr4 ops4 w1).
  assert (∀ l' i, c4 !! (l', i) =
            if decide (l' = nl) then lookupZ (inserted k x xs) i
            else if decide (block_of (buffer_ d) = Some l')
                 then lookupZ (relocated <$> xs) i else cells w !! (l', i)) as Hc4'.
  { intros l' i. rewrite Hc4. destruct (decide (l' = nl)) as [->|Hne].
    - rewrite lookupZ_inserted by lia.
      destruct (decide (k + 1 ≤ i < k + 1 + (n - k))).
      + rewrite decide_True by done. rewrite lookupZ_relocate_prefix by lia.
        rewrite !decide_False by lia. f_equal. lia.
      + rewrite decide_False by (by intros [_ ?]).
        rewrite decide_False by (by intros [? _]).
        rewrite Hc3', decide_True by done.
        destruct (decide (0 ≤ i < k)).
        * by rewrite decide_True by lia.
        * destruct (decide (i = k)) as [->|].
          -- by rewrite decide_False by lia.
          -- destruct (decide (i < k)).
             ++ symmetry. apply lookupZ_None. lia.
             ++ symmetry. apply lookupZ_None. lia.
    - rewrite decide_False by (by intros [? _]).
      rewrite lookupZ_relocate_prefix by lia. rewrite lookupZ_fmap, Hc3'.
      rewrite (decide_False (P := l' = nl)) by done.
      destruct (decide (block_of (buffer_ d) = Some l')) as [Hb|Hb].
      + destruct (decide (0 ≤ i < k)).
        * rewrite decide_False by (intros [_ ?]; lia). by rewrite decide_True.
        * destruct (decide (k ≤ i < k + (n - k))).
          -- by rewrite decide_True.
          -- rewrite !decide_False; [|by intros [_ ?]|by intros [_ ?]].
             destruct (buffer_ d) as [|l o] eqn:Hbd; [done|]. simpl in Hb. simplify_eq.
             destruct Hbuf as (-> & _). destruct (Hold l' i eq_refl) as [_ ->].
             rewrite (proj2 (lookupZ_None xs i)) by lia. done.
      + rewrite !decide_False; [done| |]; by intros [? _]. }
  clear Hc4.
  apply wp_bind.
  eapply (wp_destroy_owned _ (relocated <$> xs)).
  { apply Hholds; [apply length_fmap|]. intros i l Hl. destruct (Hold l i Hl) as [Hne _].
    rewrite Hc4', decide_False by done. rewrite Hl. cbn [block_of]. by rewrite decide_True. }
  { by rewrite length_fmap. }
  intros c5 Hc5. cbn [cells with_heap ops_done fault_at trace] in *.
  apply wp_bind. eapply wp_get_data; [exact Hv|]. cbn [data_ RawMemory_Swap].
  apply wp_bind. eapply wp_set_data; [exact Hv|]. apply wp_ret.
  apply wp_RawMemory_dtor.
  { intros l o Hl. simpl in Hl. rewrite Hl in Hbuf. destruct Hbuf as (-> & _ & b & Hb & _).
    split; [done|]. simpl. rewrite lookup_insert_ne; [eauto|]. apply Hwf1 in Hb. fold nl. lia. }
  cbn [buffer_ size_].
  apply wp_bind. eapply wp_set_size.
  { rewrite vecs_released. simpl. apply lookup_insert_eq. }
  rewrite size_t_small by (unfold SIZE_MAX, PTRDIFF_MAX in *; lia).
  apply wp_bind. apply wp_bind. eapply wp_get_data; [simpl; apply lookup_insert_eq|].
  apply wp_ret. apply wp_ret. cbn [data_ buffer_ ptr_add]. rewrite Z.add_0_l.
  assert (length (inserted k x xs) = S (length xs)) as Hli
    by apply length_inserted.
  unfold Emplace_grown, Emplace_done. fold ncap bytes. split_and!.
  - exists (mkRawMemory (Ptr nl 0) ncap). split; [|split; [reflexivity|]].
    + simpl. rewrite lookup_insert_eq. do 2 f_equal. lia.
    + split; [simpl; lia|]. split; [simpl; lia|]. simpl.
      split_and!; [done|lia|]. exists bytes. split_and!; [|done|].
      * rewrite blocks_released. rewrite decide_False by done. simpl. apply lookup_insert_eq.
      * intros i. rewrite cells_released. simpl. rewrite Hc5, decide_False by done.
        rewrite Hc4'. by rewrite decide_True.
  - split.
    + intros l b. simpl. rewrite blocks_released, next_loc_released. simpl.
      case_decide; [done|]. destruct (decide (l = nl)) as [->|].
      * rewrite lookup_insert_eq. intros [= <-].
        assert (0 ≤ bytes) by (unfold bytes, ncap, grown_capacity; nia). lia.
      * rewrite lookup_insert_ne by done. intros Hb. apply Hwf1 in Hb. fold nl in Hb. lia.
    + intros l i. simpl. rewrite next_loc_released, cells_released. simpl. intros Hl.
      rewrite Hc5. case_decide; [done|]. rewrite Hc4'.
      rewrite !decide_False; [apply Hwf2; fold nl; lia|done|].
      intros ->. lia.
  - unfold frame. simpl.
    rewrite vecs_released, next_loc_released, fault_at_released, alloc_fault_at_released,
      ops_done_released, allocs_done_released. simpl.
    split_and!; auto; try lia.
    + intros a' Ha. by rewrite !lookup_insert_ne.
    + intros l Hl Hnb. rewrite (is_vector_buffer_loc _ _ _ _ Hv) in Hnb.
      rewrite blocks_released, cells_released. simpl. rewrite decide_False by done.
      split.
      * rewrite lookup_insert_ne by (fold nl; lia). done.
      * intros i. rewrite Hc5, decide_False by done. rewrite Hc4'.
        rewrite !decide_False; [done|done|]. intros ->. fold nl in Hl. lia.
    + intros l. unfold buffer_loc at 1. simpl. rewrite lookup_insert_eq.
      simpl. intros [= <-]. right. lia.
  - unfold iterator_at. simpl. by rewrite lookup_insert_eq.
  - done.
  - done.
  - intros Hmay j Hj. rewrite <- Hops1'. destruct (decide (j < k)).
    + apply Hnf3; [done|lia].
    + rewrite Hops3' in Hnf4 by done.
      replace (ops1 + j) with (ops1 + k + (j - k)) by lia. apply Hnf4; [done|lia].
Qed.
End EmplaceGrow.

(** * Resize and PopBack *)

Section Resizing.
Context {T : Type} {ET : Element T}.
Implicit Types (w : World T) (xs ys zs : list T).

Lemma frame_refl this w : frame this w w.
Proof. unfold frame. split_and!; auto; lia. Qed.

Lemma frame_trans this w w1 w2 :
  frame this w w1 → frame this w1 w2 → frame this w w2.
Proof.
  intros (Ha1 & Hb1 & Hn1 & Hf1 & Haf1 & Ho1 & Hal1 & Hp1)
         (Ha2 & Hb2 & Hn2 & Hf2 & Haf2 & Ho2 & Hal2 & Hp2).
  unfold frame. split_and!; try congruence; try lia.
  - intros a Ha. rewrite Ha2, Ha1; done.
  - intros l Hl Hnb. destruct (Hb1 l Hl Hnb) as [Hbl Hcl].
    destruct (Hb2 l) as [Hbl2 Hcl2]; [lia| |].
    { intros Hx. destruct (Hp1 l Hx); [done|lia]. }
    split; [congruence|]. intros i. rewrite Hcl2. apply Hcl.
  - intros l Hl. destruct (Hp2 l Hl) as [Hx|Hx]; [|right; lia].
    destruct (Hp1 l Hx); [by left|right; lia].
Qed.

Lemma no_faults_frame this w w' : frame this w w' → no_faults w → no_faults w'.
Proof.
  intros (_ & _ & _ & Hf & _ & Ho & _) Hnf k Hk. rewrite Hf. apply Hnf. lia.
Qed.

Lemma no_alloc_faults_frame this w w' :
  frame this w w' → no_alloc_faults w → no_alloc_faults w'.
Proof.
  intros (_ & _ & _ & _ & Hf & _ & Ho & _) Hnf k Hk. rewrite Hf. apply Hnf. lia.
Qed.

Lemma no_faults_not_thrown w e : no_faults w → ¬ thrown_by_fault w e.
Proof. intros Hnf (k & Hk & He). by rewrite Hnf in He. Qed.

(** [std::uninitialized_value_construct_n] and
    [std::uninitialized_default_construct_n]: [n] constructions of kind
    [k] with value [x]. *)
Lemma wp_uninitialized_fill k x l s n w (Q : unit → World T → Prop) R :
  0 ≤ n → ctor_may_throw k = true →
  (∀ j, 0 ≤ j < n → in_block w l (s + j) = true ∧ cells w !! (l, s + j) = None) →
  (∀ c, (∀ j, 0 ≤ j < n → fault_at w (ops_done w + j) = None) →
        (∀ l' i, c !! (l', i) =
                 if decide (l' = l ∧ s ≤ i < s + n) then Some x else cells w !! (l', i)) →
        Q tt (with_heap c (slot_events (EvConstruct k) l s n ++ trace w)
                          (ops_done w + n) w)) →
  (∀ j e, 0 ≤ j < n →
          (∀ j', 0 ≤ j' < j → fault_at w (ops_done w + j') = None) →
          fault_at w (ops_done w + j) = Some e →
          R e (with_heap (cells w)
                 (slot_events EvDestroy l s j ++ slot_events (EvConstruct k) l s j ++ trace w)
                 (ops_done w + j + 1) w)) →
  wp (for_loop 0 (Z.to_nat n)
        (λ i, guarded (Ptr l s) i (construct k (ptr_add (Ptr l s) i) x))) w Q R.
Proof.
  intros Hn Hmay Hpre HQ HR.
  apply (wp_for_loop (λ j w1, ∃ c,
    w1 = with_heap c (slot_events (EvConstruct k) l s j ++ trace w) (ops_done w + j) w ∧
    (∀ j', 0 ≤ j' < j → fault_at w (ops_done w + j') = None) ∧
    ∀ l' i, c !! (l', i) =
            if decide (l' = l ∧ s ≤ i < s + j) then Some x else cells w !! (l', i))).
  - exists (cells w). split_and!.
    + rewrite slot_events_nil by lia. rewrite Z.add_0_r. symmetry. apply with_heap_id.
    + intros; lia.
    + intros. rewrite decide_False; [done|lia].
  - intros j w1 Hj (c & -> & Hf & Hc). rewrite Z2Nat.id in Hj by lia.
    destruct (Hpre j) as (Hin & Hnone); [lia|].
    apply wp_guarded. cbn [ptr_add].
    apply wp_construct_heap; [exact Hin| |].
    + intros Hnf. unfold ctor_ops. rewrite Hmay. eexists. split_and!.
      * rewrite slot_events_snoc by lia. world_eq.
      * intros j' Hj'. destruct (decide (j' = j)) as [->|]; [by apply Hnf|]. apply Hf. lia.
      * intros l' i. cbn [cells with_heap].
        destruct (decide ((l', i) = (l, s + j))) as [[= -> ->]|Hne'].
        -- rewrite lookup_insert_eq, decide_True by lia. done.
        -- rewrite lookup_insert_ne by done. rewrite Hc. solve_slot.
    + intros e _ He. apply wp_destroy_n; [lia| |].
      { intros i Hi. destruct (Hpre (i - s)) as (Hd & _); [lia|].
        replace (s + (i - s)) with i in Hd by lia. split; [done|].
        cbn [cells with_heap]. rewrite Hc, decide_True by lia. eauto. }
      intros c' Hc'. cbn [cells with_heap trace ops_done] in *.
      assert (c' = cells w) as ->.
      { apply map_eq. intros [l' i]. rewrite Hc'. rewrite Hc.
        destruct (decide (l' = l ∧ s ≤ i < s + j)) as [[-> Hd1]|]; [|done].
        destruct (Hpre (i - s)) as (_ & Hd); [lia|].
        by replace (s + (i - s)) with i in Hd by lia. }
      apply HR; [lia|done|done].
  - intros w' (c & -> & Hf & Hc). rewrite Z2Nat.id in Hf, Hc |- * by lia.
    rewrite !Z.add_0_l in *. apply HQ; done.
Qed.

Lemma lookupZ_replicate (x : T) (m : nat) i :
  lookupZ (replicate m x) i = if decide (0 ≤ i < Z.of_nat m) then Some x else None.
Proof.
  unfold lookupZ. destruct (decide (0 ≤ i)).
  - case_decide.
    + apply lookup_replicate_2. lia.
    + apply lookup_ge_None. rewrite length_replicate. lia.
  - by rewrite decide_False by lia.
Qed.

(** [PopBack]. *)
Lemma PopBack_spec this xs cap w :
  is_vector w this xs cap → heap_wf w → 0 < Z.of_nat (length xs) →
  wp (PopBack this) w
     (λ _ w', is_vector w' this (take (length xs - 1) xs) cap ∧ heap_wf w' ∧
              frame this w w')
     (λ _ _, False).
Proof.
  intros Hvec Hwf Hpos.
  destruct (is_vector_nonempty _ _ _ _ Hvec) as (l & bytes & Hv & Hcap & Hlen & Hb & Hsz & Hc & Hbl); [lia|].
  pose proof (capacity_bound _ _ _ _ Hwf Hb Hsz) as Hcb.
  pose proof (heap_wf_block _ _ _ Hwf Hb) as [Hlt _].
  remember (Z.of_nat (length xs)) as n eqn:Hn.
  unfold PopBack, GetAddress.
  apply wp_bind. eapply wp_get_vec; [done|]. cbn [data_ buffer_ size_ ptr_add].
  apply wp_bind. apply wp_assert; [apply Z.ltb_lt; lia|].
  apply wp_bind. apply wp_destroy_at.
  { eapply in_block_intro; [done|lia|nia]. }
  { rewrite Hc. apply lookupZ_is_Some. lia. }
  eapply wp_set_size; [exact Hv|].
  rewrite size_t_small by (unfold SIZE_MAX, PTRDIFF_MAX in *; lia).
  assert (length (take (length xs - 1) xs) = (length xs - 1)%nat) as Hlt'
    by (rewrite length_take; lia).
  replace (n - 1) with (Z.of_nat (length (take (length xs - 1) xs))) by lia.
  assert (∀ l' i, delete (l, 0 + n + -1) (cells w) !! (l', i) =
            if decide (l' = l) then lookupZ (take (length xs - 1) xs) i
            else cells w !! (l', i)) as Hc2.
  { intros l' i. destruct (decide ((l', i) = (l, 0 + n + -1))) as [[= -> ->]|Hne].
    - rewrite lookup_delete_eq, decide_True by done. symmetry. apply lookupZ_None. lia.
    - rewrite lookup_delete_ne by done. destruct (decide (l' = l)) as [->|]; [|done].
      rewrite Hc. destruct (decide (i < n - 1)).
      + by rewrite lookupZ_take by lia.
      + assert (i ≠ n - 1) by (intros ->; apply Hne; f_equal; lia).
        rewrite !(proj2 (lookupZ_None _ i)); [done| |]; lia. }
  split_and!.
  - apply (is_vector_in_place this l bytes (mkRawMemory (Ptr l 0) cap)); simpl; try done; try lia.
    intros i. rewrite Hc2. by rewrite decide_True.
  - apply heap_wf_set_vecs. apply (heap_wf_with_heap _ _ _ w); [done|].
    intros l' i Hl'. rewrite Hc2. rewrite decide_False by lia. by apply Hwf.
  - eapply (frame_in_place _ _ _ _ _ _ w); [done|done| |simpl; lia].
    intros l' i Hne. rewrite Hc2. by rewrite decide_False.
Qed.

Lemma wp_strengthen {A} (m : M T A) w Q R :
  wp m w Q R →
  wp m w (λ a w', m w = Ok a w' ∧ Q a w') (λ e w', m w = Throw e w' ∧ R e w').
Proof. unfold wp_or. destruct (m w); auto. Qed.

Lemma is_vector_empty_buffer w this xs :
  is_vector w this xs 0 → xs = [] ∧ vecs w !! this = Some (mkVector (mkRawMemory nullptr 0) 0).
Proof.
  intros (d & Hv & Hcap & Hc0 & Hlen & Hbuf). destruct d as [p c]. simpl in *. subst c.
  assert (xs = []) as -> by (destruct xs; [done|simpl in Hlen; lia]).
  split; [done|]. destruct p as [|l o]; [done|]. lia.
Qed.

Lemma Resize_spec this xs cap m w :
  is_vector w this xs cap → heap_wf w → 0 ≤ m → m * Z.pos sizeof ≤ SIZE_MAX →
  wp (Resize this m) w
     (λ _ w', Resize_done this xs cap m w w')
     (λ e w', Z.of_nat (length xs) < m ∧ heap_wf w' ∧ frame this w w' ∧
              (∃ xs' cap', is_vector w' this xs' cap' ∧ length xs' = length xs) ∧
              ((e = bad_alloc ∧ cap < m ∧ alloc_refused w (m * Z.pos sizeof)) ∨
               thrown_by_fault w e)).
Proof.
  intros Hvec Hwf Hm Hsz. unfold Resize, Resize_done. cbv zeta.
  pose proof Hvec as (d & Hv & Hcap & Hown).
  remember (Z.of_nat (length xs)) as n eqn:Hn.
  apply wp_bind. eapply wp_get_vec; [done|]. cbn [size_ data_].
  destruct (n >=? m) eqn:Hcmp.
  - (* shrink *)
    assert (m ≤ n) as Hle by lia. destruct (decide (m ≤ n)) as [_|?]; [|lia].
    destruct (decide (0 < cap)) as [Hpos|Hz].
    + destruct (is_vector_has_room _ _ _ _ Hvec Hpos) as (l & bytes & Hv' & Hlen & Hb & Hbsz & Hc & Hbl).
      pose proof (capacity_bound _ _ _ _ Hwf Hb Hbsz) as Hcb. rewrite <- Hn in Hlen.
      rewrite size_t_small by (unfold SIZE_MAX, PTRDIFF_MAX in *; lia).
      rewrite Hv in Hv'. injection Hv' as ->. unfold GetAddress. cbn [buffer_ ptr_add].
      apply wp_bind. apply wp_destroy_n; [lia| |].
      { intros i Hi. split; [eapply in_block_intro; [done|lia|nia]|].
        rewrite Hc. apply lookupZ_is_Some. lia. }
      intros c Hc'. eapply wp_set_size; [exact Hv|]. cbn [data_].
      assert (length (take (Z.to_nat m) xs) = Z.to_nat m) as Hlt by (rewrite length_take; lia).
      assert (∀ i, c !! (l, i) = lookupZ (take (Z.to_nat m) xs) i) as Hc2.
      { intros i. rewrite Hc', Hc. destruct (decide (l = l ∧ 0 + m ≤ i < 0 + m + (n - m))) as [[_ ?]|Hno].
        - symmetry. apply lookupZ_None. lia.
        - destruct (decide (i < m)).
          + by rewrite lookupZ_take by lia.
          + rewrite !(proj2 (lookupZ_None _ i)); [done| |]; lia. }
      split_and!.
      * apply heap_wf_set_vecs. apply (heap_wf_with_heap _ _ _ w); [done|].
        intros l' i Hl'. rewrite Hc'. pose proof (heap_wf_block _ _ _ Hwf Hb) as [? _].
        rewrite decide_False by (intros [-> _]; lia). by apply Hwf.
      * eapply (frame_in_place _ _ _ _ _ _ w); [done|done| |simpl; lia].
        intros l' i Hne. rewrite Hc'. rewrite decide_False; [done|]. by intros [? _].
      * apply (is_vector_resized this l bytes (mkRawMemory (Ptr l 0) cap)); simpl; try done; lia.
      * unfold events_since, iterator_at. rewrite Hv. simpl. done.
    + assert (cap = 0) as -> by (destruct Hown; lia).
      destruct (is_vector_empty_buffer _ _ _ Hvec) as [-> Hv'].
      simpl in Hn. subst n. assert (m = 0) as -> by lia.
      rewrite Hv in Hv'. injection Hv' as ->. unfold GetAddress. cbn [buffer_ ptr_add].
      rewrite size_t_small by (unfold SIZE_MAX; lia).
      apply wp_bind. apply wp_destroy_n_zero.
      eapply wp_set_size; [exact Hv|]. cbn [data_].
      assert (set_vecs (insert this (mkVector (mkRawMemory nullptr 0) 0)) w = w) as ->.
      { destruct w. unfold set_vecs. simpl in *. f_equal. by apply insert_id. }
      split_and!; [done|apply frame_refl|done|].
      unfold events_since, iterator_at. rewrite Hv. done.
  - (* grow *)
    assert (n < m) as Hlt by lia. destruct (decide (m ≤ n)) as [?|_]; [lia|].
    apply wp_bind. eapply wp_mono; [apply wp_strengthen, (Reserve_spec this xs cap m w); done| |].
    2:{ intros e w' (_ & (Hlt' & Hwf' & Hfr' & (xs' & Hvec' & Hlen') & Hwhy)).
        split_and!; try done.
        - exists xs', cap. split; [done|]. tauto.
        - destruct Hwhy as [[-> ?]|?]; [left|right]; done. }
    intros [] w1 [Hrun Hres].
    assert (is_vector w1 this xs (Z.max cap m) ∧ heap_wf w1 ∧ frame this w w1) as (Hvec1 & Hwf1 & Hfr1).
    { destruct (decide (m ≤ cap)).
      - subst w1. rewrite Z.max_l by lia. split_and!; [done|done|apply frame_refl].
      - destruct Hres as (? & ? & ? & _). rewrite Z.max_r by lia. done. }
    destruct (is_vector_has_room _ _ _ _ Hvec1) as (l & bytes & Hv1 & Hlen1 & Hb1 & Hbsz1 & Hc1 & Hbl1); [lia|].
    rewrite <- Hn in *.
    apply wp_bind. eapply wp_get_vec; [done|]. cbn [size_ data_]. unfold GetAddress. cbn [buffer_ ptr_add].
    rewrite size_t_small by (unfold SIZE_MAX in *; pose proof (Pos2Z.is_pos sizeof); nia).
    apply wp_bind. unfold uninitialized_default_construct_n.
    apply wp_uninitialized_fill; [lia|done| | |].
    + intros j Hj. split.
      * eapply in_block_intro; [done|lia|nia].
      * rewrite Hc1. apply lookupZ_None. lia.
    + intros c Hf Hc'. eapply wp_set_size; [exact Hv1|]. cbn [data_].
      set (ys := xs ++ replicate (Z.to_nat (m - n)) default_init).
      assert (Z.of_nat (length ys) = m) as Hlys.
      { unfold ys. rewrite length_app, length_replicate. lia. }
      assert (∀ i, c !! (l, i) = lookupZ ys i) as Hc2.
      { intros i. rewrite Hc', Hc1. unfold ys.
        destruct (decide (l = l ∧ 0 + n ≤ i < 0 + n + (m - n))) as [[_ ?]|Hno].
        - rewrite lookupZ_app_r by lia. rewrite lookupZ_replicate, decide_True; [done|lia].
        - destruct (decide (i < n)).
          + rewrite lookupZ_app_l; [done|lia].
          + assert (m ≤ i) by lia.
            rewrite (proj2 (lookupZ_None xs i)) by lia. symmetry.
            apply lookupZ_None. rewrite length_app, length_replicate. lia. }
      assert (frame this w1 (set_vecs (insert this (mkVector (mkRawMemory (Ptr l 0) (Z.max cap m)) m))
                (with_heap c (slot_events (EvConstruct DefaultCtor) l (0 + n) (m - n) ++ trace w1)
                   (ops_done w1 + (m - n)) w1))) as Hfr2.
      { eapply (frame_in_place _ _ _ _ _ _ w1); [done|done| |lia].
        intros l' i Hne. rewrite Hc'. rewrite decide_False; [done|]. by intros [? _]. }
      split_and!.
      * apply heap_wf_set_vecs. apply (heap_wf_with_heap _ _ _ w1); [done|].
        intros l' i Hl'. rewrite Hc'. pose proof (heap_wf_block _ _ _ Hwf1 Hb1) as [? _].
        rewrite decide_False by (intros [-> _]; lia). by apply Hwf1.
      * eapply frame_trans; [exact Hfr1|exact Hfr2].
      * apply (is_vector_resized this l bytes (mkRawMemory (Ptr l 0) (Z.max cap m))); simpl; try done; lia.
      * exists w1. split_and!; [done|done|].
        unfold events_since, iterator_at. rewrite Hv1. simpl. done.
    + intros j e Hj Hf He. split_and!; [lia| | | |].
      * apply (heap_wf_with_heap _ _ _ w1); [done|]. apply Hwf1.
      * eapply frame_trans; [exact Hfr1|].
        eapply (frame_in_place' _ _ _ _ _ w1); [done|done|lia].
      * exists xs, (Z.max cap m). split; [|done].
        destruct Hvec1 as (d1 & Hvd1 & Hcap1 & Hown1). exists d1. split_and!; done.
      * right. exists (ops_done w1 + j). destruct Hfr1 as (_ & _ & _ & Hfa & _ & Hops & _).
        split; [lia|]. by rewrite <- Hfa.
Qed.
End Resizing.

(** * Operations on two Vectors *)

Section TwoVectors.
Context {T : Type} {ET : Element T}.
Implicit Types (w : World T) (xs ys zs : list T).

Lemma preserved_frame this w w' : preserved w w' → frame this w w'.
Proof.
  intros (Hv & Hb & ? & ? & ? & ? & ?). unfold frame. split_and!; try done.
  - intros a _. by rewrite Hv.
  - intros l Hl _. by apply Hb.
  - intros l. unfold buffer_loc. rewrite Hv. auto.
Qed.

Lemma owns_ext w w' d xs :
  owns w d xs →
  (∀ l, block_of (buffer_ d) = Some l →
        blocks w' !! l = blocks w !! l ∧ ∀ i, cells w' !! (l, i) = cells w !! (l, i)) →
  owns w' d xs.
Proof.
  intros (Hc & Hlen & Hbuf) Hsame. split_and!; [done|done|].
  destruct (buffer_ d) as [|l o]; [done|].
  destruct Hbuf as (-> & ? & bytes & Hb & ? & Hcells).
  destruct (Hsame l eq_refl) as [Hb' Hc'].
  split_and!; [done|done|]. exists bytes. split_and!; [congruence|done|].
  intros i. by rewrite Hc'.
Qed.

Lemma is_vector_preserved a w w' xs c :
  heap_wf w → preserved w w' → is_vector w a xs c → is_vector w' a xs c.
Proof.
  intros Hwf (Hv & Hb & _) (d & Hva & Hcap & Hown). exists d. split_and!; [congruence|done|].
  eapply owns_ext; [done|]. intros l Hl. apply Hb. by eapply owns_block_lt.
Qed.

(** A call on [this] leaves a Vector with another buffer as it was. *)
Lemma is_vector_frame this b w w' ys c :
  frame this w w' → b ≠ this → heap_wf w → separate w b this →
  is_vector w b ys c → is_vector w' b ys c.
Proof.
  intros (Hv & Hb & _) Hne Hwf Hsep (d & Hvb & Hcap & Hown).
  exists d. split_and!; [by rewrite Hv|done|].
  eapply owns_ext; [done|]. intros l Hl. apply Hb.
  - by eapply owns_block_lt.
  - apply Hsep. by rewrite (is_vector_buffer_loc _ _ _ _ Hvb).
Qed.

Lemma buffer_loc_frame this b w w' :
  frame this w w' → b ≠ this → buffer_loc w' b = buffer_loc w b.
Proof. intros (Hv & _) Hne. unfold buffer_loc. by rewrite Hv. Qed.

Lemma buffer_loc_lt w a l :
  heap_wf w → vector_inv w a → buffer_loc w a = Some l → (l < next_loc w)%nat.
Proof.
  intros Hwf (xs & c & d & Hv & _ & Hown) Hl.
  rewrite (is_vector_buffer_loc _ _ _ _ Hv) in Hl. by eapply owns_block_lt.
Qed.

Lemma separate_sym w a b : separate w a b → separate w b a.
Proof. intros H l Hb Ha. by apply (H l). Qed.

(** After a call on [this], it still shares no block with [b]. *)
Lemma separate_frame this b w w' :
  frame this w w' → b ≠ this → heap_wf w → vector_inv w b ∨ buffer_loc w b = None →
  separate w this b → separate w' this b.
Proof.
  intros Hfr Hne Hwf Hb Hsep l Hl. rewrite (buffer_loc_frame _ _ _ _ Hfr Hne).
  destruct Hfr as (_ & _ & _ & _ & _ & _ & _ & Hp).
  destruct (Hp l Hl) as [Hold|Hnew]; [by apply Hsep|].
  intros Hbl. destruct Hb as [Hb|Hb]; [|congruence].
  pose proof (buffer_loc_lt _ _ _ Hwf Hb Hbl). lia.
Qed.

(** ** [Swap] *)
Lemma Swap_run a b va vb w :
  vecs w !! a = Some va → vecs w !! b = Some vb →
  Swap a b w = Ok tt (set_vecs (λ m, <[b := va]> (<[a := vb]> m)) w).
Proof.
  intros Ha Hb. unfold Swap, bind, get_vec. rewrite Ha, Hb.
  destruct va as [[pa ca] na], vb as [[pb cb] nb]. done.
Qed.

Lemma Swap_spec a b xs ys ca cb w :
  is_vector w a xs ca → is_vector w b ys cb →
  ∃ w', Swap a b w = Ok tt w' ∧
        is_vector w' a ys cb ∧ is_vector w' b xs ca ∧
        buffer_loc w' a = buffer_loc w b ∧ buffer_loc w' b = buffer_loc w a ∧
        (∀ c, c ≠ a → c ≠ b → vecs w' !! c = vecs w !! c) ∧
        blocks w' = blocks w ∧ cells w' = cells w ∧ next_loc w' = next_loc w ∧
        trace w' = trace w ∧ ops_done w' = ops_done w ∧ allocs_done w' = allocs_done w ∧
        fault_at w' = fault_at w ∧ alloc_fault_at w' = alloc_fault_at w.
Proof.
  intros (da & Hva & Hca & Howna) (db & Hvb & Hcb & Hownb).
  eexists. split; [by apply Swap_run|].
  assert (∀ m : gmap addr Vector, m !! a = Some (mkVector da (Z.of_nat (length xs))) →
            m !! b = Some (mkVector db (Z.of_nat (length ys))) →
            <[b := mkVector da (Z.of_nat (length xs))]>
              (<[a := mkVector db (Z.of_nat (length ys))]> m) !! a =
            Some (mkVector db (Z.of_nat (length ys)))) as Hla.
  { intros m Ha Hb. destruct (decide (a = b)) as [->|].
    - rewrite lookup_insert_eq. congruence.
    - rewrite lookup_insert_ne by done. apply lookup_insert_eq. }
  split_and!; try done.
  - exists db. split_and!; [simpl; by apply Hla|done|]. eapply owns_ext; [done|done].
  - exists da. split_and!; [simpl; apply lookup_insert_eq|done|]. eapply owns_ext; [done|done].
  - unfold buffer_loc. simpl. rewrite Hla by done. by rewrite Hvb.
  - unfold buffer_loc. simpl. rewrite lookup_insert_eq. by rewrite Hva.
  - intros c Hc1 Hc2. simpl. by rewrite !lookup_insert_ne.
Qed.

Lemma copy_of_spec other ys co w :
  is_vector w other ys co → heap_wf w →
  wp (copy_of other) w (copied ys w) (copy_failed ys w).
Proof.
  intros (d & Hv & Hcap & Hown) Hwf. pose proof Hwf as [Hwf1 Hwf2].
  pose proof Hown as (Hc0 & Hlen & Hbuf).
  unfold copy_of, GetAddress, copied, copy_failed. cbv zeta.
  remember (Z.of_nat (length ys)) as n eqn:Hn.
  assert (n * Z.pos sizeof ≤ PTRDIFF_MAX) as Hbytes.
  { destruct (buffer_ d) as [|l o].
    - rewrite Hbuf in Hlen. assert (n = 0) as -> by lia. unfold PTRDIFF_MAX. lia.
    - destruct Hbuf as (_ & _ & bytes & Hb & ? & _). apply Hwf1 in Hb. nia. }
  apply wp_bind. eapply wp_get_vec; [exact Hv|]. cbn [data_ size_].
  apply wp_bind. apply wp_RawMemory_ctor; [lia|unfold SIZE_MAX, PTRDIFF_MAX in *; lia| | |].
  - (* nothing to copy *)
    intros ->. assert (ys = []) as -> by (destruct ys; [done|simpl in Hn; lia]).
    apply wp_bind. apply wp_unwinding. unfold uninitialized_copy_n. simpl. apply wp_ret, wp_ret.
    cbn [data_ size_ buffer_ capacity_]. split_and!; done.
  - (* the allocation succeeded *)
    intros Hpos Halloc _. destruct (decide (n = 0)) as [?|_]; [lia|].
    destruct (buffer_ d) as [|l o] eqn:Hbd; [lia|].
    destruct Hbuf as (-> & _ & bytes & Hb & Hbsz & Hcells).
    pose proof (Hwf1 _ _ Hb) as [Hllt _].
    set (nl := next_loc w) in *. set (w1 := allocated (n * Z.pos sizeof) w).
    assert (preserved w w1) as Hp1.
    { unfold preserved. simpl. split_and!; auto; try lia.
      intros l' Hl'. split; [|done]. rewrite lookup_insert_ne; [done|]. fold nl. lia. }
    apply wp_bind. apply wp_unwinding. cbn [buffer_].
    apply wp_uninitialized_copy_n; [lia|lia| | |].
    + intros j Hj. split_and!.
      * eapply in_block_intro; [simpl; rewrite lookup_insert_ne by lia; done|lia|nia].
      * simpl. rewrite Hcells. apply lookupZ_is_Some. lia.
      * eapply in_block_intro; [apply lookup_insert_eq|lia|nia].
      * apply Hwf2. lia.
    + intros c Hnf Hc. apply wp_ret. cbn [data_ size_ buffer_ capacity_].
      split_and!; try done.
      * split; [simpl; lia|]. split; [simpl; lia|]. simpl. split_and!; [done|lia|].
        exists (n * Z.pos sizeof). split_and!; [apply lookup_insert_eq|lia|].
        intros i. rewrite Hc. simpl. case_decide as Hd.
        -- rewrite Hcells. f_equal. lia.
        -- rewrite Hwf2 by (fold nl; lia). symmetry. apply lookupZ_None.
           destruct (decide (0 ≤ i < n)); [|lia]. exfalso. apply Hd. split; [done|lia].
      * split.
        -- intros l' bytes'. simpl. destruct (decide (l' = nl)) as [->|].
           ++ rewrite lookup_insert_eq. intros [= <-]. lia.
           ++ rewrite lookup_insert_ne by done. intros Hb'. apply Hwf1 in Hb'. fold nl in Hb'. lia.
        -- intros l' i Hl'. simpl in *. rewrite Hc. rewrite decide_False by (intros [-> _]; lia).
           apply Hwf2. fold nl. lia.
      * unfold preserved. simpl. split_and!; auto; try lia.
        intros l' Hl'. split.
        -- rewrite lookup_insert_ne; [done|]. fold nl. lia.
        -- intros i. rewrite Hc. rewrite decide_False; [done|]. intros [-> _]. fold nl in Hl'. lia.
      * unfold events_since, copy_events. rewrite decide_False by lia.
        simpl. by rewrite <- app_assoc.
    + (* a copy throws: the block is released *)
      intros k e Hk Hnf He. apply wp_RawMemory_dtor.
      { intros l' o [= <- <-]. split; [done|]. simpl. rewrite lookup_insert_eq. eauto. }
      cbn [buffer_]. split_and!.
      * split.
        -- intros l' bytes'. simpl. destruct (decide (l' = nl)) as [->|].
           ++ by rewrite lookup_delete_eq.
           ++ rewrite lookup_delete_ne, lookup_insert_ne by done.
              intros Hb'. apply Hwf1 in Hb'. fold nl in Hb'. lia.
        -- intros l' i Hl'. simpl in *. apply Hwf2. fold nl. lia.
      * unfold preserved. simpl. split_and!; auto; try lia.
        intros l' Hl'. split; [|done].
        rewrite lookup_delete_ne, lookup_insert_ne; [done| |]; fold nl; lia.
      * right. exists (ops_done w + k). split; [lia|done].
  - (* the allocation failed *)
    intros Hpos Hfail. split_and!.
    + split; [apply Hwf1|apply Hwf2].
    + unfold preserved. simpl. split_and!; auto; lia.
    + left. done.
Qed.

(** ** The destructor's work on the members *)
Lemma wp_destroy_members d xs w (Q : unit → World T → Prop) R U :
  owns w d xs →
  (∀ c, (∀ l' i, c !! (l', i) =
                 if decide (block_of (buffer_ d) = Some l') then None else cells w !! (l', i)) →
        Q tt (released (buffer_ d)
                (with_heap c (ptr_events EvDestroy (buffer_ d) (Z.of_nat (length xs)) ++ trace w)
                           (ops_done w) w))) →
  wp_or (destroy_members (mkVector d (Z.of_nat (length xs)))) w Q R U.
Proof.
  intros Hown HQ. unfold destroy_members, GetAddress. cbn [data_ size_].
  apply wp_bind. eapply wp_destroy_owned; [by apply owns_holds|done|].
  intros c Hc. apply wp_RawMemory_dtor; [|by apply HQ].
  intros l o Hl. destruct Hown as (_ & _ & Hbuf). rewrite Hl in Hbuf.
  destruct Hbuf as (-> & _ & bytes & Hb & _). split; [done|]. simpl. eauto.
Qed.

(** The loop [data_[i] = rhs.data_[i]] for [i < k]. *)
Lemma wp_copy_assign_loop la lb ca cb k w (Q : unit → World T → Prop) R :
  0 ≤ k → k ≤ ca → k ≤ cb → la ≠ lb →
  (∀ i, 0 ≤ i < k →
        in_block w la i = true ∧ in_block w lb i = true ∧
        is_Some (cells w !! (la, i)) ∧ is_Some (cells w !! (lb, i))) →
  (∀ c, (∀ j, 0 ≤ j < k → fault_at w (ops_done w + j) = None) →
        (∀ l' i, c !! (l', i) =
                 if decide (l' = la ∧ 0 ≤ i < k) then cells w !! (lb, i)
                 else cells w !! (l', i)) →
        Q tt (with_heap c (slot_events EvCopyAssign la 0 k ++ trace w) (ops_done w + k) w)) →
  (∀ j e c, 0 ≤ j < k →
            (∀ j', 0 ≤ j' < j → fault_at w (ops_done w + j') = None) →
            fault_at w (ops_done w + j) = Some e →
            (∀ l' i, c !! (l', i) =
                     if decide (l' = la ∧ 0 ≤ i < j) then cells w !! (lb, i)
                     else cells w !! (l', i)) →
            R e (with_heap c (slot_events EvCopyAssign la 0 j ++ trace w)
                           (ops_done w + j + 1) w)) →
  wp (for_loop 0 (Z.to_nat k)
        (λ i, bind (RawMemory_index (mkRawMemory (Ptr la 0) ca) i)
                (λ d, bind (RawMemory_index (mkRawMemory (Ptr lb 0) cb) i)
                        (λ s, copy_assign d s)))) w Q R.
Proof.
  intros Hk Hca Hcb Hne Hpre HQ HR.
  apply (wp_for_loop (λ j w1, ∃ c,
    w1 = with_heap c (slot_events EvCopyAssign la 0 j ++ trace w) (ops_done w + j) w ∧
    (∀ j', 0 ≤ j' < j → fault_at w (ops_done w + j') = None) ∧
    ∀ l' i, c !! (l', i) =
            if decide (l' = la ∧ 0 ≤ i < j) then cells w !! (lb, i)
            else cells w !! (l', i))).
  - exists (cells w). split_and!.
    + rewrite slot_events_nil by lia. rewrite Z.add_0_r. symmetry. apply with_heap_id.
    + intros; lia.
    + intros. rewrite decide_False; [done|lia].
  - intros j w1 Hj (c & -> & Hf & Hc). rewrite Z2Nat.id in Hj by lia.
    destruct (Hpre j) as (Hina & Hinb & Hsa & [y Hy]); [lia|].
    unfold RawMemory_index. cbn [capacity_ buffer_ ptr_add].
    apply wp_bind, wp_bind. apply wp_assert; [apply Z.ltb_lt; lia|]. apply wp_ret.
    apply wp_bind, wp_bind. apply wp_assert; [apply Z.ltb_lt; lia|]. apply wp_ret.
    rewrite Z.add_0_l.
    apply (wp_copy_assign _ _ _ _ y); [done|done| | | |].
    + cbn [cells with_heap]. rewrite Hc. rewrite decide_False; [done|]. by intros [? _].
    + cbn [cells with_heap]. rewrite Hc. case_decide; [by rewrite Hy|done].
    + intros Hnf. cbn [cells with_heap trace ops_done fault_at] in *.
      eexists. split_and!.
      * rewrite slot_events_snoc by lia. world_eq.
      * intros j' Hj'. destruct (decide (j' = j)) as [->|]; [done|]. apply Hf. lia.
      * intros l' i. destruct (decide ((l', i) = (la, j))) as [[= -> ->]|Hne'].
        -- rewrite lookup_insert_eq, decide_True by lia. done.
        -- rewrite lookup_insert_ne by done. rewrite Hc. solve_slot.
    + intros e He. cbn [cells with_heap trace ops_done fault_at] in *.
      apply HR; [lia|done|done|done].
  - intros w' (c & -> & Hf & Hc). rewrite Z2Nat.id in Hf, Hc |- * by lia.
    rewrite !Z.add_0_l in *. apply HQ; done.
Qed.

Lemma wp_assign_prefix la bytes ca pb cb xs ys w (Q : unit → World T → Prop) R :
  blocks w !! la = Some bytes → ca * Z.pos sizeof ≤ bytes →
  (∀ i, cells w !! (la, i) = lookupZ xs i) → Z.of_nat (length xs) ≤ ca →
  owns w (mkRawMemory pb cb) ys → block_of pb ≠ Some la →
  (∀ c, (∀ l' i, c !! (l', i) =
                 if decide (l' = la ∧ 0 ≤ i < Z.min (Z.of_nat (length xs)) (Z.of_nat (length ys)))
                 then lookupZ ys i else cells w !! (l', i)) →
        Q tt (with_heap c
                (slot_events EvCopyAssign la 0
                   (Z.min (Z.of_nat (length xs)) (Z.of_nat (length ys))) ++ trace w)
                (ops_done w + Z.min (Z.of_nat (length xs)) (Z.of_nat (length ys))) w)) →
  (∀ j e c, 0 ≤ j < Z.min (Z.of_nat (length xs)) (Z.of_nat (length ys)) →
            fault_at w (ops_done w + j) = Some e →
            (∀ l' i, c !! (l', i) =
                     if decide (l' = la ∧ 0 ≤ i < j) then lookupZ ys i
                     else cells w !! (l', i)) →
            R e (with_heap c (slot_events EvCopyAssign la 0 j ++ trace w)
                           (ops_done w + j + 1) w)) →
  wp (for_loop 0 (Z.to_nat (Z.min (Z.of_nat (length xs)) (Z.of_nat (length ys))))
        (λ i, bind (RawMemory_index (mkRawMemory (Ptr la 0) ca) i)
                (λ d, bind (RawMemory_index (mkRawMemory pb cb) i)
                        (λ s, copy_assign d s)))) w Q R.
Proof.
  intros Hb Hsz Hc Hlen (Hc0 & Hlenb & Hbuf) Hne HQ HR. cbn [buffer_ capacity_] in *.
  destruct pb as [|lb o].
  - subst cb. assert (ys = []) as -> by (destruct ys; [done|simpl in Hlenb; lia]).
    simpl length in *. change (Z.of_nat 0) with 0 in *.
    rewrite Z.min_r in * by lia. apply wp_ret.
    specialize (HQ (cells w)). rewrite slot_events_nil, Z.add_0_r in HQ by lia.
    change ([] ++ trace w) with (trace w) in HQ. rewrite with_heap_id in HQ. apply HQ.
    intros. rewrite decide_False; [done|lia].
  - destruct Hbuf as (-> & Hcb & bytesb & Hbb & Hbsz & Hcb').
    simpl in Hne. assert (la ≠ lb) as Hne' by congruence.
    apply wp_copy_assign_loop; [lia|lia|lia|done| | |].
    + intros i Hi. split_and!.
      * eapply in_block_intro; [done|lia|nia].
      * eapply in_block_intro; [done|lia|nia].
      * rewrite Hc. apply lookupZ_is_Some. lia.
      * rewrite Hcb'. apply lookupZ_is_Some. lia.
    + intros c _ Hc'. apply HQ. intros l' i. rewrite Hc'. by rewrite Hcb'.
    + intros j e c Hj _ He Hc'. apply HR; [done|done|]. intros l' i. rewrite Hc'. by rewrite Hcb'.
Qed.

Lemma assign_copy_rebuild this rhs xs ys ca cb w :
  this ≠ rhs → is_vector w this xs ca → is_vector w rhs ys cb → heap_wf w →
  ca < Z.of_nat (length ys) →
  wp (assign_copy this rhs) w (λ _ w', assigned this xs ys ca w w')
     (assign_failed this xs ys ca w).
Proof.
  intros Hne Hveca Hvecb Hwf Hlt.
  pose proof Hveca as ([pa ca'] & Hva & Hcapa & Howna).
  pose proof Hvecb as ([pb cb'] & Hvb & Hcapb & Hownb). simpl in Hcapa, Hcapb. subst ca' cb'.
  pose proof Hwf as [Hwf1 Hwf2].
  assert (0 ≤ ca) as Hca0 by (by destruct Howna).
  unfold assign_copy, assigned, assign_failed, assign_events. cbv zeta.
  rewrite decide_True by done.
  destruct (decide (ca < Z.of_nat (length ys))) as [_|?]; [|lia].
  apply wp_bind. eapply wp_get_vec; [exact Hva|].
  apply wp_bind. eapply wp_get_vec; [exact Hvb|]. cbn [data_ size_ RawMemory_Capacity capacity_].
  destruct (Z.gtb_spec (Z.of_nat (length ys)) ca) as [_|?]; [|lia].
  apply wp_bind. eapply wp_mono; [exact (copy_of_spec rhs ys cb w Hvecb Hwf)| |].
  2:{ intros e w' (Hwf' & Hp & Hwhy). split_and!; [done|by apply preserved_frame| |].
      - exists xs. split_and!; [exact (is_vector_preserved _ _ _ _ _ Hwf Hp Hveca)|done|done].
      - destruct Hwhy as [[-> ?]|?]; [left|right]; done. }
  intros [[pt ct] nt] w1 (Hnt & Hct & Hownt & Hwf' & Hp & Hpt & Hev). cbn [data_ size_ buffer_ capacity_] in *.
  subst nt ct. rewrite decide_False in Hpt by lia. subst pt.
  pose proof Hp as (Hpv & Hpb & Hpn & Hpf & Hpa & Hpo & Hpal).
  unfold swap_members, RawMemory_Swap. cbn [data_ size_ buffer_ capacity_].
  apply wp_bind. apply wp_put_vec.
  assert (∀ l, block_of pa = Some l → (l < next_loc w)%nat) as Hold.
  { intros l Hl. by eapply (owns_block_lt w (mkRawMemory pa ca)). }
  apply (wp_destroy_members (mkRawMemory pa ca) xs).
  { eapply owns_ext; [exact Howna|]. intros l Hl. simpl. apply Hpb. by apply Hold. }
  intros c Hc. cbn [buffer_ cells set_vecs trace ops_done] in *.
  assert (block_of pa ≠ Some (next_loc w)) as Hfresh.
  { intros Hl. apply Hold in Hl. lia. }
  split_and!.
  - split.
    + intros l bytes. rewrite blocks_released, next_loc_released. simpl.
      case_decide; [done|]. apply Hwf'.
    + intros l i. rewrite next_loc_released, cells_released. simpl. intros Hl.
      rewrite Hc. case_decide; [done|]. by apply Hwf'.
  - unfold frame.
    rewrite vecs_released, next_loc_released, fault_at_released, alloc_fault_at_released,
      ops_done_released, allocs_done_released. simpl.
    split_and!; try done.
    + intros a Ha. rewrite lookup_insert_ne by done. by rewrite Hpv.
    + intros l Hl Hnb. rewrite (is_vector_buffer_loc _ _ _ _ Hva) in Hnb. simpl in Hnb.
      rewrite blocks_released, cells_released. simpl. rewrite decide_False by done.
      split; [by apply Hpb|]. intros i. rewrite Hc, decide_False by done. by apply Hpb.
    + intros l. unfold buffer_loc. rewrite vecs_released. simpl. rewrite lookup_insert_eq.
      simpl. intros [= <-]. right. lia.
  - exists (mkRawMemory (Ptr (next_loc w) 0) (Z.of_nat (length ys))). split_and!; [|done|].
    + rewrite vecs_released. simpl. by rewrite lookup_insert_eq.
    + eapply owns_ext; [exact Hownt|]. simpl. intros l [= <-].
      rewrite blocks_released, cells_released. simpl. rewrite decide_False by done.
      split; [done|]. intros i. by rewrite Hc, decide_False.
  - intros. lia.
  - unfold events_since in *. rewrite trace_released. simpl. rewrite Hev.
    rewrite (is_vector_buffer_loc _ _ _ _ Hva). unfold iterator_at. rewrite Hva. simpl.
    rewrite <- !app_assoc. destruct pa as [|l o]; simpl; [done|].
    replace (o + 0) with o by lia. done.
Qed.

Lemma assign_copy_reuse this rhs xs ys ca cb w :
  this ≠ rhs → is_vector w this xs ca → is_vector w rhs ys cb → heap_wf w →
  separate w this rhs → Z.of_nat (length ys) ≤ ca →
  wp (assign_copy this rhs) w (λ _ w', assigned this xs ys ca w w')
     (assign_failed this xs ys ca w).
Proof.
  intros Hne Hveca Hvecb Hwf Hsep Hle.
  pose proof Hveca as ([pa ca'] & Hva & Hcapa & Howna).
  pose proof Hvecb as ([pb cb'] & Hvb & Hcapb & Hownb). simpl in Hcapa, Hcapb. subst ca' cb'.
  pose proof Hwf as [Hwf1 Hwf2].
  unfold assign_copy, assigned, assign_failed, assign_events. cbv zeta.
  rewrite decide_True by done.
  destruct (decide (ca < Z.of_nat (length ys))) as [?|_]; [lia|].
  apply wp_bind. eapply wp_get_vec; [exact Hva|].
  apply wp_bind. eapply wp_get_vec; [exact Hvb|].
  cbn [data_ size_ RawMemory_Capacity capacity_ GetAddress buffer_].
  destruct (Z.gtb_spec (Z.of_nat (length ys)) ca) as [?|_]; [lia|].
  unfold iterator_at. rewrite Hva. cbn [data_ buffer_].
  destruct (decide (0 < ca)) as [Hpos|Hz].
  2:{ (* no storage on either side *)
    assert (ca = 0) as -> by (destruct Howna; simpl in *; lia).
    destruct (is_vector_empty_buffer _ _ _ Hveca) as [-> Hva'].
    assert (ys = []) as -> by (destruct ys; [done|simpl in Hle; lia]).
    rewrite Hva in Hva'. injection Hva' as ->.
    apply wp_bind. simpl. apply wp_ret. apply wp_bind. apply wp_ret.
    eapply wp_set_size; [exact Hva|]. cbn [data_].
    assert (set_vecs (insert this (mkVector (mkRawMemory nullptr 0) (Z.of_nat 0))) w = w) as ->.
    { destruct w. unfold set_vecs. simpl in *. f_equal. by apply insert_id. }
    split_and!; [done|apply frame_refl|done|done|done]. }
  destruct (is_vector_has_room _ _ _ _ Hveca Hpos) as (la & bytes & Hva' & Hlen & Hb & Hbsz & Hc & Hbl).
  rewrite Hva in Hva'. injection Hva' as ->.
  pose proof (capacity_bound _ _ _ _ Hwf Hb Hbsz) as Hcb.
  pose proof (heap_wf_block _ _ _ Hwf Hb) as [Hlalt _].
  assert (block_of pb ≠ Some la) as Hpb.
  { pose proof (is_vector_buffer_loc _ _ _ _ Hvb) as Hx. simpl in Hx. rewrite <- Hx.
    by apply Hsep. }
  remember (Z.of_nat (length xs)) as na eqn:Hna.
  remember (Z.of_nat (length ys)) as nb eqn:Hnb.
  assert (∀ i, 0 ≤ i < ca → in_block w la i = true) as Hin.
  { intros i Hi. eapply in_block_intro; [done|lia|nia]. }
  apply wp_bind. subst na nb.
  apply (wp_assign_prefix la bytes ca pb cb xs ys w); [done|done|done|done|done|done| |].
  2:{ (* a copy assignment throws *)
    intros j e c Hj He Hc'.
    destruct (contents_exist c la (length xs)) as (xs' & Hlen' & Hxs').
    { intros i Hi. rewrite Hc'. case_decide.
      - apply lookupZ_is_Some. lia.
      - rewrite Hc. apply lookupZ_is_Some. lia. }
    split_and!.
    - apply heap_wf_with_heap; [done|]. intros l' i Hl'. rewrite Hc'.
      rewrite decide_False by (intros [-> _]; lia). by apply Hwf2.
    - eapply frame_in_place'; [done| |lia].
      intros l' i Hne'. rewrite Hc'. rewrite decide_False; [done|]. by intros [? _].
    - exists xs'. split_and!; [|done|lia].
      apply (is_vector_with_heap this la bytes (mkRawMemory (Ptr la 0) ca) xs' (Z.of_nat (length xs)));
        simpl; try done; try lia.
      intros i. destruct (decide (0 ≤ i < Z.of_nat (length xs))); [apply Hxs'; lia|].
      rewrite Hc'. rewrite decide_False by (intros [_ ?]; lia). rewrite Hc.
      rewrite !(proj2 (lookupZ_None _ i)); [done| |]; lia.
    - right. exists (ops_done w + j). split; [lia|done]. }
  intros c2 Hc2.
  remember (Z.of_nat (length xs)) as na eqn:Hna.
  remember (Z.of_nat (length ys)) as nb eqn:Hnb.
  set (w2 := with_heap c2 (slot_events EvCopyAssign la 0 (Z.min na nb) ++ trace w)
               (ops_done w + Z.min na nb) w).
  assert (frame this w w2) as Hfr2.
  { eapply frame_in_place'; [done| |lia].
    intros l' i Hne'. rewrite Hc2. rewrite decide_False; [done|]. by intros [? _]. }
  assert (heap_wf w2) as Hwfw2.
  { apply heap_wf_with_heap; [done|]. intros l' i Hl'. rewrite Hc2.
    rewrite decide_False by (intros [-> _]; lia). by apply Hwf2. }
  apply wp_bind. cbn [ptr_add].
  destruct (Z.gtb_spec nb na) as [Hgt|Hngt].
  - (* rhs is longer: copy-construct the rest *)
    destruct (decide (na < nb)) as [_|?]; [|lia].
    rewrite Z.min_l in * by lia.
    rewrite size_t_small by (unfold SIZE_MAX, PTRDIFF_MAX in *; lia).
    destruct pb as [|lb o].
    { destruct Hownb as (_ & Hx & Hy). simpl in *. lia. }
    pose proof Hownb as (_ & Hnbcb & (-> & _ & bytesb & Hbb & Hbbsz & Hcells)).
    simpl in Hpb, Hnbcb, Hbbsz. rewrite <- Hnb in Hnbcb. assert (lb ≠ la) as Hne' by congruence. cbn [ptr_add].
    apply wp_uninitialized_copy_n; [lia|done| | |].
    + intros j Hj. subst w2. cbn [cells with_heap]. split_and!.
      * eapply in_block_intro; [exact Hbb|lia|nia].
      * rewrite Hc2. rewrite decide_False by (by intros [? _]).
        rewrite Hcells. apply lookupZ_is_Some. lia.
      * apply Hin. lia.
      * rewrite Hc2. rewrite decide_False by (intros [_ ?]; lia).
        rewrite Hc. apply lookupZ_None. lia.
    + intros c3 Hnf Hc3. eapply wp_set_size; [exact Hva|]. cbn [data_].
      assert (∀ i, c3 !! (la, i) = lookupZ ys i) as Hc4.
      { intros i. rewrite Hc3. subst w2. cbn [cells with_heap].
        destruct (decide (la = la ∧ 0 + na ≤ i < 0 + na + (nb - na))) as [[_ ?]|Hno].
        - rewrite Hc2. rewrite decide_False by (by intros [? _]). rewrite Hcells. f_equal. lia.
        - rewrite Hc2. case_decide as Hd; [done|]. rewrite Hc.
          rewrite !(proj2 (lookupZ_None _ i)); [done| |]; lia. }
      split_and!.
      * apply heap_wf_set_vecs. apply (heap_wf_with_heap _ _ _ w2); [done|].
        intros l' i Hl'. rewrite Hc3.
        rewrite decide_False by (intros [-> _]; simpl in Hl'; lia). by apply Hwfw2.
      * eapply frame_trans; [exact Hfr2|].
        eapply (frame_in_place _ _ _ _ _ _ w2); [exact Hbl|done| |simpl; lia].
        intros l' i Hnl. rewrite Hc3. rewrite decide_False; [done|]. by intros [? _].
      * apply (is_vector_resized this la bytes (mkRawMemory (Ptr la 0) ca) ys nb _ _ _ w2);
          simpl; try done; lia.
      * intros _. rewrite Hbl. unfold buffer_loc. simpl. by rewrite lookup_insert_eq.
      * unfold events_since. simpl. rewrite <- app_assoc. rewrite Z.min_l by lia. done.
    + (* a copy construction throws *)
      intros j e Hj Hnf He. subst w2. cbn [cells with_heap trace ops_done fault_at] in *.
      destruct (contents_exist c2 la (length xs)) as (xs' & Hlen' & Hxs').
      { intros i Hi. rewrite Hc2. case_decide.
        - apply lookupZ_is_Some. lia.
        - rewrite Hc. apply lookupZ_is_Some. lia. }
      split_and!.
      * apply (heap_wf_with_heap _ _ _ w); [done|]. intros l' i Hl'. rewrite Hc2.
        rewrite decide_False by (intros [-> _]; lia). by apply Hwf2.
      * eapply (frame_in_place' _ _ _ _ _ w); [done| |lia].
        intros l' i Hnl. rewrite Hc2. rewrite decide_False; [done|]. by intros [? _].
      * exists xs'. split_and!; [|done|lia].
        apply (is_vector_with_heap this la bytes (mkRawMemory (Ptr la 0) ca) xs' na _ _ _ w);
          simpl; try done; try lia.
        intros i. destruct (decide (0 ≤ i < na)); [apply Hxs'; lia|].
        rewrite Hc2. rewrite decide_False by (intros [_ ?]; lia). rewrite Hc.
        rewrite !(proj2 (lookupZ_None _ i)); [done| |]; lia.
      * right. eexists. split; [|exact He]. lia.
  - (* rhs is not longer: destroy the rest *)
    destruct (decide (na < nb)) as [?|_]; [lia|].
    rewrite Z.min_r in * by lia.
    rewrite size_t_small by (unfold SIZE_MAX, PTRDIFF_MAX in *; lia).
    apply wp_destroy_n; [lia| |].
    { intros i Hi. split; [apply Hin; lia|]. subst w2. cbn [cells with_heap].
      rewrite Hc2. case_decide; [apply lookupZ_is_Some; lia|].
      rewrite Hc. apply lookupZ_is_Some. lia. }
    intros c3 Hc3. eapply wp_set_size; [exact Hva|]. cbn [data_].
    assert (∀ i, c3 !! (la, i) = lookupZ ys i) as Hc4.
    { intros i. rewrite Hc3. subst w2. cbn [cells with_heap].
      destruct (decide (la = la ∧ 0 + nb ≤ i < 0 + nb + (na - nb))) as [[_ ?]|Hno].
      - symmetry. apply lookupZ_None. lia.
      - rewrite Hc2. case_decide as Hd; [done|]. rewrite Hc.
        rewrite !(proj2 (lookupZ_None _ i)); [done| |]; lia. }
    split_and!.
    + apply heap_wf_set_vecs. apply (heap_wf_with_heap _ _ _ w2); [done|].
      intros l' i Hl'. rewrite Hc3.
      rewrite decide_False by (intros [-> _]; simpl in Hl'; lia). by apply Hwfw2.
    + eapply frame_trans; [exact Hfr2|].
      eapply (frame_in_place _ _ _ _ _ _ w2); [exact Hbl|done| |simpl; lia].
      intros l' i Hnl. rewrite Hc3. rewrite decide_False; [done|]. by intros [? _].
    + apply (is_vector_resized this la bytes (mkRawMemory (Ptr la 0) ca) ys nb _ _ _ w2);
        simpl; try done; lia.
    + intros _. rewrite Hbl. unfold buffer_loc. simpl. by rewrite lookup_insert_eq.
    + unfold events_since. simpl. rewrite <- app_assoc. rewrite Z.min_r by lia. done.
Qed.

Lemma assign_copy_spec this rhs xs ys ca cb w :
  this ≠ rhs → is_vector w this xs ca → is_vector w rhs ys cb → heap_wf w →
  separate w this rhs →
  wp (assign_copy this rhs) w (λ _ w', assigned this xs ys ca w w')
     (assign_failed this xs ys ca w).
Proof.
  intros. destruct (decide (ca < Z.of_nat (length ys))).
  - by eapply assign_copy_rebuild.
  - eapply assign_copy_reuse; [done|done|done|done|done|lia].
Qed.

Lemma assign_copy_self this w : assign_copy this this w = Ok tt w.
Proof. unfold assign_copy. by rewrite decide_False by (intros H; by apply H). Qed.
End TwoVectors.

(** * Constructors and destructor *)

Section Lifetime.
Context {T : Type} {ET : Element T}.
Implicit Types (w : World T) (xs ys zs : list T).


Lemma Vector_default_spec this w :
  heap_wf w →
  wp (Vector_default this) w
     (λ _ w', is_vector w' this [] 0 ∧ heap_wf w' ∧ frame this w w')
     (λ _ _, False).
Proof.
  intros Hwf. unfold Vector_default. apply wp_put_vec. split_and!.
  - exists RawMemory_default. split_and!; [simpl; apply lookup_insert_eq|done|].
    split_and!; done.
  - by apply heap_wf_set_vecs.
  - unfold frame. simpl. split_and!; auto; try lia.
    + intros a Ha. by rewrite lookup_insert_ne.
    + intros l. unfold buffer_loc at 1. simpl. by rewrite lookup_insert_eq.
Qed.

Lemma frame_fresh_buffer this d n c tr ops bytes w :
  (∀ l, block_of (buffer_ d) = Some l → l = next_loc w) →
  (∀ l' i, l' ≠ next_loc w → c !! (l', i) = cells w !! (l', i)) →
  ops_done w ≤ ops →
  frame this w (set_vecs (insert this (mkVector d n)) (with_heap c tr ops (allocated bytes w))).
Proof.
  intros Hd Hc Hops. unfold frame. simpl. split_and!; auto; try lia.
  - intros a Ha. by rewrite lookup_insert_ne.
  - intros l Hl _. split.
    + rewrite lookup_insert_ne; [done|lia].
    + intros i. apply Hc. lia.
  - intros l. unfold buffer_loc at 1. simpl. rewrite lookup_insert_eq. simpl.
    destruct (buffer_ d) as [|l' o] eqn:Hb; [done|]. intros [= <-].
    right. rewrite (Hd l'); [lia|done].
Qed.

Lemma Vector_sized_spec this n w :
  heap_wf w → 0 ≤ n → n * Z.pos sizeof ≤ SIZE_MAX →
  wp (Vector_sized this n) w
     (λ _ w', is_vector w' this (replicate (Z.to_nat n) value_init) n ∧ heap_wf w' ∧
              frame this w w')
     (construction_failed n w).
Proof.
  intros Hwf Hn Hsz. pose proof Hwf as [Hwf1 Hwf2]. unfold Vector_sized, GetAddress.
  apply wp_bind. apply wp_RawMemory_ctor; [done|done| | |].
  - intros ->. apply wp_bind. apply wp_unwinding. simpl. apply wp_ret.
    apply wp_put_vec. split_and!.
    + exists (mkRawMemory nullptr 0). split_and!; [simpl; apply lookup_insert_eq|done|].
      split_and!; done.
    + by apply heap_wf_set_vecs.
    + unfold frame. simpl. split_and!; auto; try lia.
      * intros a Ha. by rewrite lookup_insert_ne.
      * intros l. unfold buffer_loc at 1. simpl. by rewrite lookup_insert_eq.
  - intros Hpos Halloc Hbytes. set (nl := next_loc w) in *.
    apply wp_bind. apply wp_unwinding. cbn [buffer_]. unfold uninitialized_value_construct_n.
    apply wp_uninitialized_fill; [done|done| | |].
    + intros j Hj. split.
      * eapply in_block_intro; [apply lookup_insert_eq|lia|nia].
      * apply Hwf2. lia.
    + intros c Hnf Hc. apply wp_put_vec.
      assert (length (replicate (Z.to_nat n) value_init) = Z.to_nat n) as Hlr
        by apply length_replicate.
      split_and!.
      * apply (is_vector_resized this nl (n * Z.pos sizeof) (mkRawMemory (Ptr nl 0) n)
                 (replicate (Z.to_nat n) value_init) n _ _ _ (allocated (n * Z.pos sizeof) w));
          simpl; try done; try lia.
        -- apply lookup_insert_eq.
        -- intros i. rewrite Hc. simpl. rewrite lookupZ_replicate.
           destruct (decide (0 ≤ i < Z.of_nat (Z.to_nat n))).
           ++ rewrite decide_True; [done|]. split; [done|lia].
           ++ rewrite decide_False by (intros [_ ?]; lia). apply Hwf2. fold nl. lia.
      * apply heap_wf_set_vecs. split.
        -- intros l bytes. simpl. destruct (decide (l = nl)) as [->|].
           ++ rewrite lookup_insert_eq. intros [= <-]. lia.
           ++ rewrite lookup_insert_ne by done. intros Hb. apply Hwf1 in Hb. fold nl in Hb. lia.
        -- intros l i Hl. simpl in *. rewrite Hc. rewrite decide_False by (intros [-> _]; lia).
           apply Hwf2. fold nl. lia.
      * apply frame_fresh_buffer; simpl; [by intros l [= <-]| |lia].
        intros l' i Hne. rewrite Hc. rewrite decide_False; [done|]. by intros [? _].
    + intros j e Hj Hnf He. apply wp_RawMemory_dtor.
      { intros l' o [= <- <-]. split; [done|]. simpl. rewrite lookup_insert_eq. eauto. }
      cbn [buffer_]. split_and!.
      * split.
        -- intros l bytes. simpl. destruct (decide (l = nl)) as [->|].
           ++ by rewrite lookup_delete_eq.
           ++ rewrite lookup_delete_ne, lookup_insert_ne by done.
              intros Hb. apply Hwf1 in Hb. fold nl in Hb. lia.
        -- intros l i Hl. simpl in *. apply Hwf2. fold nl. lia.
      * unfold preserved. simpl. split_and!; auto; try lia.
        intros l Hl. split; [|done].
        rewrite lookup_delete_ne, lookup_insert_ne; [done| |]; fold nl; lia.
      * right. exists (ops_done w + j). split; [lia|done].
  - intros Hpos Hfail. split_and!.
    + split; [apply Hwf1|apply Hwf2].
    + unfold preserved. simpl. split_and!; auto; lia.
    + by left.
Qed.

Lemma Vector_copy_spec this other ys co w :
  is_vector w other ys co → heap_wf w →
  wp (Vector_copy this other) w
     (λ _ w', is_vector w' this ys (Z.of_nat (length ys)) ∧ heap_wf w' ∧ frame this w w' ∧
              events_since w w' (copy_events (next_loc w) (Z.of_nat (length ys))))
     (construction_failed (Z.of_nat (length ys)) w).
Proof.
  intros Hvec Hwf. unfold Vector_copy. apply wp_bind.
  eapply wp_mono; [exact (copy_of_spec other ys co w Hvec Hwf)| |intros ?? H; exact H].
  intros [d n] w1 (Hn & Hd & Hown & Hwf1 & Hp & Hbuf & Hev). simpl in *. subst n.
  apply wp_put_vec. split_and!.
  - exists d. split_and!; [simpl; apply lookup_insert_eq|done|]. eapply owns_ext; [done|done].
  - by apply heap_wf_set_vecs.
  - destruct Hp as (Hpv & Hpb & ? & ? & ? & ? & ?). unfold frame. simpl. split_and!; try done.
    + intros a Ha. rewrite lookup_insert_ne by done. by rewrite Hpv.
    + intros l Hl _. by apply Hpb.
    + intros l. unfold buffer_loc at 1. simpl. rewrite lookup_insert_eq. simpl. rewrite Hbuf.
      case_decide; [done|]. intros [= <-]. right. lia.
  - done.
Qed.

Lemma Vector_move_spec this other ys co w :
  is_vector w other ys co → this ≠ other →
  ∃ w', Vector_move this other w = Ok tt w' ∧
        is_vector w' this ys co ∧ is_vector w' other [] 0 ∧
        buffer_loc w' this = buffer_loc w other ∧ buffer_loc w' other = None ∧
        (∀ c, c ≠ this → c ≠ other → vecs w' !! c = vecs w !! c) ∧
        blocks w' = blocks w ∧ cells w' = cells w ∧ next_loc w' = next_loc w ∧
        trace w' = trace w ∧ ops_done w' = ops_done w ∧ allocs_done w' = allocs_done w ∧
        fault_at w' = fault_at w ∧ alloc_fault_at w' = alloc_fault_at w.
Proof.
  intros ([p c] & Hv & Hcap & Hown) Hne. simpl in Hcap. subst c.
  eexists. split.
  { unfold Vector_move, bind, get_vec. rewrite Hv. simpl. reflexivity. }
  split_and!; try done.
  - exists (mkRawMemory p co). split_and!; [|done|by eapply owns_ext].
    simpl. rewrite lookup_insert_ne by done. apply lookup_insert_eq.
  - exists (mkRawMemory nullptr 0). split_and!; [simpl; apply lookup_insert_eq|done|].
    split_and!; done.
  - unfold buffer_loc. simpl. rewrite lookup_insert_ne by done. rewrite lookup_insert_eq.
    by rewrite Hv.
  - unfold buffer_loc. simpl. by rewrite lookup_insert_eq.
  - intros c Hc1 Hc2. simpl. by rewrite !lookup_insert_ne.
Qed.

Lemma Vector_dtor_spec this xs cap w :
  is_vector w this xs cap → heap_wf w →
  wp (Vector_dtor this) w
     (λ _ w', vecs w' !! this = None ∧ heap_wf w' ∧ frame this w w' ∧
              events_since w w'
                (match buffer_loc w this with Some l => [EvDelete l] | None => [] end ++
                 ptr_events EvDestroy (iterator_at w this 0) (Z.of_nat (length xs))))
     (λ _ _, False).
Proof.
  intros ([p c] & Hv & Hcap & Hown) Hwf. simpl in Hcap. subst c.
  pose proof Hwf as [Hwf1 Hwf2].
  unfold Vector_dtor. apply wp_bind. eapply wp_get_vec; [exact Hv|].
  apply wp_bind. apply (wp_destroy_members (mkRawMemory p cap) xs); [done|].
  intros c Hc. apply wp_modify. cbn [buffer_].
  split_and!.
  - simpl. rewrite vecs_released. simpl. apply lookup_delete_eq.
  - apply heap_wf_set_vecs. split.
    + intros l bytes. rewrite blocks_released, next_loc_released. simpl.
      case_decide; [done|]. apply Hwf1.
    + intros l i. rewrite next_loc_released, cells_released. simpl. intros Hl.
      rewrite Hc. case_decide; [done|]. by apply Hwf2.
  - unfold frame. simpl.
    rewrite vecs_released, next_loc_released, fault_at_released, alloc_fault_at_released,
      ops_done_released, allocs_done_released. simpl.
    split_and!; try done.
    + intros a Ha. by rewrite lookup_delete_ne.
    + intros l Hl Hnb. rewrite (is_vector_buffer_loc _ _ _ _ Hv) in Hnb. simpl in Hnb.
      rewrite blocks_released, cells_released. simpl. rewrite decide_False by done.
      split; [done|]. intros i. by rewrite Hc, decide_False.
    + intros l. unfold buffer_loc at 1. simpl. rewrite vecs_released. simpl.
      by rewrite lookup_delete_eq.
  - unfold events_since. simpl. rewrite trace_released. simpl.
    rewrite (is_vector_buffer_loc _ _ _ _ Hv). unfold iterator_at. rewrite Hv. simpl.
    rewrite <- !app_assoc. destruct p as [|l o]; simpl; [done|].
    replace (o + 0) with o by lia. done.
Qed.
End Lifetime.

(** * Emplace, EmplaceBack, PushBack *)

Section Insertion.
Context {T : Type} {ET : Element T}.
Implicit Types (w : World T) (xs ys zs : list T).

(** [Emplace] of arguments that refer to no slot.  The behaviour is
    undefined on the two exits [destroys_dead_slot]. *)
Lemma Emplace_spec this xs cap k a x w :
  is_vector w this xs cap → heap_wf w → 0 ≤ k ≤ Z.of_nat (length xs) →
  outside a = Some x →
  wp_or (Emplace this (iterator_at w this k) a) w
     (Emplace_returned this xs cap k a x w) (Emplace_failed this xs cap k a w)
     (destroys_dead_slot xs cap k a w).
Proof.
  intros Hvec Hwf Hk Hout. unfold Emplace_returned, Emplace_failed.
  assert (Z.of_nat (length xs) ≤ cap) as Hle by (destruct Hvec as (? & _ & <- & _ & ? & _); done).
  destruct (decide (Z.of_nat (length xs) = cap)) as [<-|Hne].
  - by apply Emplace_grow_spec.
  - destruct (decide (k = Z.of_nat (length xs))) as [->|Hnk].
    + apply wp_defined. apply Emplace_at_end_spec; [done|done|lia|done].
    + apply Emplace_shift_spec; [done|done|lia|lia|done].
Qed.

(** An insertion at [end()] reaches neither of the two exits. *)
Lemma at_end_defined xs cap a w :
  ¬ destroys_dead_slot xs cap (Z.of_nat (length xs)) a w.
Proof.
  unfold destroys_dead_slot. intros [_ H]. case_decide.
  - destruct H as (_ & _ & j & e & ? & _). lia.
  - destruct H as [? _]. lia.
Qed.

Lemma Emplace_returned_done this xs cap k a x w r w' :
  Emplace_returned this xs cap k a x w r w' →
  Emplace_done this xs (capacity_after_insert (Z.of_nat (length xs)) cap) k x w r w'.
Proof.
  unfold Emplace_returned, capacity_after_insert. case_decide; by intros [? _].
Qed.

Lemma Emplace_returned_consumed this xs cap k a x w r w' :
  Emplace_returned this xs cap k a x w r w' →
  (Z.of_nat (length xs) = cap → alloc_granted w (grown_capacity cap * Z.pos sizeof)) ∧
  (ctor_may_throw (init_kind a) = true → fault_at w (ops_done w) = None).
Proof.
  unfold Emplace_returned. case_decide.
  - by intros (_ & ? & ? & _).
  - by intros [_ ?].
Qed.

Lemma Vector_end_run this xs cap w :
  is_vector w this xs cap →
  Vector_end this w = Ok (iterator_at w this (Z.of_nat (length xs))) w.
Proof.
  intros (d & Hv & _). unfold Vector_end, bind, get_vec, iterator_at, GetAddress.
  by rewrite Hv.
Qed.

Lemma Vector_begin_run this xs cap w :
  is_vector w this xs cap → Vector_begin this w = Ok (iterator_at w this 0) w.
Proof.
  intros (d & Hv & _ & Hown). unfold Vector_begin, get_data, bind, get_vec, iterator_at, GetAddress.
  rewrite Hv. simpl. destruct Hown as (_ & _ & Hbuf). destruct (buffer_ d) as [|l o]; [done|].
  destruct Hbuf as (-> & _). done.
Qed.

Lemma EmplaceBack_run this xs cap a w :
  is_vector w this xs cap →
  EmplaceBack this a w = Emplace this (iterator_at w this (Z.of_nat (length xs))) a w.
Proof.
  intros Hvec. unfold EmplaceBack, bind. by rewrite (Vector_end_run _ _ _ _ Hvec).
Qed.

Lemma wp_eq {A} (m m' : M T A) w Q R U :
  m w = m' w → wp_or m' w Q R U → wp_or m w Q R U.
Proof. unfold wp_or. by intros ->. Qed.

Lemma EmplaceBack_spec this xs cap a x w :
  is_vector w this xs cap → heap_wf w → outside a = Some x →
  wp (EmplaceBack this a) w
     (Emplace_returned this xs cap (Z.of_nat (length xs)) a x w)
     (Emplace_failed this xs cap (Z.of_nat (length xs)) a w).
Proof.
  intros Hvec Hwf Hout. eapply wp_eq; [by eapply EmplaceBack_run|].
  eapply wp_or_mono; [apply Emplace_spec; [done|done|lia|done]|apply at_end_defined].
Qed.

Lemma PushBack_spec this xs cap x w :
  is_vector w this xs cap → heap_wf w →
  wp (PushBack this (Outside x)) w
     (λ _ w', ∃ r, Emplace_returned this xs cap (Z.of_nat (length xs))
                     (ByCopy (Outside x)) x w r w')
     (Emplace_failed this xs cap (Z.of_nat (length xs)) (ByCopy (Outside x)) w).
Proof.
  intros Hvec Hwf. unfold PushBack. apply wp_bind.
  eapply wp_mono; [by apply EmplaceBack_spec| |intros ?? H; exact H].
  intros r w' H. apply wp_ret. by exists r.
Qed.

Lemma PushBack_move_spec this xs cap x w :
  is_vector w this xs cap → heap_wf w →
  wp (PushBack_move this (Outside x)) w
     (λ _ w', ∃ r, Emplace_returned this xs cap (Z.of_nat (length xs))
                     (ByMove (Outside x)) x w r w')
     (Emplace_failed this xs cap (Z.of_nat (length xs)) (ByMove (Outside x)) w).
Proof.
  intros Hvec Hwf. unfold PushBack_move. apply wp_bind.
  eapply wp_mono; [by apply EmplaceBack_spec| |intros ?? H; exact H].
  intros r w' H. apply wp_ret. by exists r.
Qed.

Lemma inserted_at_end xs x : inserted (Z.of_nat (length xs)) x xs = xs ++ [x].
Proof. unfold inserted. by rewrite Nat2Z.id, firstn_all, drop_all. Qed.

Lemma lookupZ_insert xs k x i :
  0 ≤ k < Z.of_nat (length xs) →
  lookupZ (<[Z.to_nat k := x]> xs) i = if decide (i = k) then Some x else lookupZ xs i.
Proof.
  intros Hk. unfold lookupZ. destruct (decide (0 ≤ i)) as [Hi|Hi].
  - destruct (decide (i = k)) as [->|Hne].
    + apply list_lookup_insert_eq. lia.
    + apply list_lookup_insert_ne. lia.
  - by rewrite decide_False by lia.
Qed.

Lemma inserted_delete xs k x :
  0 ≤ k < Z.of_nat (length xs) →
  inserted k x (delete (Z.to_nat k) xs) = <[Z.to_nat k := x]> xs.
Proof.
  intros Hk. apply lookupZ_ext. intros i.
  assert (length (delete (Z.to_nat k) xs) = (length xs - 1)%nat) as Hld.
  { rewrite length_delete; [done|]. apply lookup_lt_is_Some. lia. }
  rewrite lookupZ_inserted by lia. rewrite !lookupZ_delete by lia.
  rewrite lookupZ_insert by lia.
  destruct (decide (i < k)).
  - by rewrite decide_False by lia.
  - destruct (decide (i = k)); [done|].
    rewrite decide_False by lia. by replace (i - 1 + 1) with i by lia.
Qed.
End Insertion.

(** * Arguments passed by reference *)

Section References.
Context {T : Type} {ET : Element T}.
Implicit Types (w : World T) (xs ys zs : list T) (a : init T) (x : T).

Lemma set_cells_id w : set_cells (λ c, c) w = w.
Proof. by destruct w. Qed.

Lemma bind_sim {A B} (m : M T A) (k k' : A → M T B) w w2 (r : A) :
  m w = Ok r w → m w2 = Ok r w2 → k r w = k' r w2 → bind m k w = bind m k' w2.
Proof. unfold bind. by intros -> ->. Qed.

Lemma bind_unfold {A B} (m : M T A) (k : A → M T B) w :
  bind m k w = match m w with
               | Ok a w' => k a w'
               | Throw e w' => Throw e w'
               | Undef => Undef
               end.
Proof. done. Qed.

Lemma bind_sim_l {A B} (m m' : M T A) (k : A → M T B) w w2 :
  m w = m' w2 → bind m k w = bind m' k w2.
Proof. unfold bind. by intros ->. Qed.

Lemma try_catch_sim_l {A} (m m' : M T A) handles h w w2 :
  m w = m' w2 → try_catch m handles h w = try_catch m' handles h w2.
Proof. unfold try_catch. by intros ->. Qed.

Lemma get_vec_reads this v w : vecs w !! this = Some v → get_vec this w = Ok v w.
Proof. unfold get_vec. by intros ->. Qed.

Lemma get_data_reads this v w : vecs w !! this = Some v → get_data this w = Ok (data_ v) w.
Proof. unfold get_data, bind, get_vec. by intros ->. Qed.

Lemma get_size_reads this v w : vecs w !! this = Some v → get_size this w = Ok (size_ v) w.
Proof. unfold get_size, bind, get_vec. by intros ->. Qed.

Lemma Vector_begin_reads this v w :
  vecs w !! this = Some v → Vector_begin this w = Ok (GetAddress (data_ v)) w.
Proof. unfold Vector_begin, get_data, bind, get_vec. by intros ->. Qed.

Lemma Vector_end_reads this v w :
  vecs w !! this = Some v →
  Vector_end this w = Ok (ptr_add (GetAddress (data_ v)) (size_ v)) w.
Proof. unfold Vector_end, bind, get_vec. by intros ->. Qed.

Lemma Capacity_reads this v w :
  vecs w !! this = Some v → Capacity this w = Ok (RawMemory_Capacity (data_ v)) w.
Proof. unfold Capacity, get_data, bind, get_vec. by intros ->. Qed.

Lemma RawMemory_ctor_reads ncap w :
  0 < ncap → ncap * Z.pos sizeof ≤ SIZE_MAX →
  RawMemory_ctor ncap w =
  if alloc_fault_at w (allocs_done w) || (PTRDIFF_MAX <? ncap * Z.pos sizeof)
  then Throw bad_alloc (alloc_failed (ncap * Z.pos sizeof) w)
  else Ok (mkRawMemory (Ptr (next_loc w) 0) ncap) (allocated (ncap * Z.pos sizeof) w).
Proof.
  intros Hpos Hle. unfold RawMemory_ctor, Allocate. rewrite decide_True by lia.
  rewrite (size_t_small (ncap * Z.pos sizeof)) by (unfold SIZE_MAX in *; nia).
  unfold bind, operator_new, alloc_failed, allocated.
  by destruct (alloc_fault_at w (allocs_done w) || (PTRDIFF_MAX <? ncap * Z.pos sizeof)).
Qed.

(** [Emplace] uses its arguments once, to construct the new element or
    the temporary: two runs that agree on that step agree altogether. *)
Lemma Emplace_sim this xs cap k a a' g w :
  is_vector w this xs cap → heap_wf w → 0 ≤ k ≤ Z.of_nat (length xs) →
  (Z.of_nat (length xs) = cap →
   alloc_refused w (grown_capacity cap * Z.pos sizeof) → set_cells g w = w) →
  (Z.of_nat (length xs) = cap →
   alloc_granted w (grown_capacity cap * Z.pos sizeof) →
   let w1 := allocated (grown_capacity cap * Z.pos sizeof) w in
   construct_at (Ptr (next_loc w) k) a w1 =
   construct_at (Ptr (next_loc w) k) a' (set_cells g w1)) →
  (Z.of_nat (length xs) < cap → k = Z.of_nat (length xs) →
   construct_at (iterator_at w this k) a w =
   construct_at (iterator_at w this k) a' (set_cells g w)) →
  (Z.of_nat (length xs) < cap → k < Z.of_nat (length xs) →
   construct_local a w = construct_local a' (set_cells g w)) →
  Emplace this (iterator_at w this k) a w =
  Emplace this (iterator_at w this k) a' (set_cells g w).
Proof.
  intros Hvec Hwf Hk Hrefused Hgrow Hend Hshift.
  pose proof Hvec as (d & Hv & Hcap & Hown).
  pose proof Hown as (Hc0 & Hlen & Hbuf).
  pose proof (owns_capacity_bytes _ _ _ Hwf Hown) as Hcb.
  pose proof sizeof_le_SIZE_MAX as Hsmax.
  remember (Z.of_nat (length xs)) as n eqn:Hn.
  assert (1 ≤ Z.pos sizeof) as Hs1 by lia.
  assert (ptr_diff (ptr_add (buffer_ d) k) (buffer_ d) = Some k) as Hdiff.
  { destruct (buffer_ d) as [|l o] eqn:Hbd.
    - simpl in Hbuf. assert (k = 0) as -> by lia. done.
    - simpl. rewrite decide_True by done. f_equal. lia. }
  rewrite (iterator_at_eq _ _ _ _ _ Hv) in *.
  set (w2 := set_cells g w) in *.
  assert (vecs w2 !! this = Some (mkVector d n)) as Hv2 by exact Hv.
  unfold Emplace.
  eapply bind_sim; [by apply Vector_begin_reads|by apply Vector_begin_reads|].
  change (GetAddress (data_ {| data_ := d; size_ := n |})) with (buffer_ d). rewrite Hdiff.
  eapply bind_sim; [done|done|].
  rewrite (size_t_small k) by (unfold SIZE_MAX, PTRDIFF_MAX in *; nia).
  eapply bind_sim; [by apply get_size_reads|by apply get_size_reads|]. cbn [size_].
  eapply bind_sim; [by apply Capacity_reads|by apply Capacity_reads|].
  change (RawMemory_Capacity (data_ {| data_ := d; size_ := n |})) with (capacity_ d).
  rewrite Hcap.
  apply bind_sim_l.
  destruct (decide (n = cap)) as [Heq|Hne].
  - (* at capacity *)
    replace (Z.max (size_t 1) (size_t (cap * 2))) with (grown_capacity cap).
    2:{ unfold grown_capacity. rewrite (size_t_small (cap * 2))
          by (unfold SIZE_MAX, PTRDIFF_MAX in *; nia).
        replace (size_t 1) with 1 by done. lia. }
    set (ncap := grown_capacity cap) in *.
    assert (0 < ncap) as Hncap by (unfold ncap, grown_capacity; lia).
    assert (ncap * Z.pos sizeof ≤ SIZE_MAX) as Hbytes.
    { unfold ncap, grown_capacity, SIZE_MAX, PTRDIFF_MAX in *.
      destruct (decide (cap = 0)) as [->|]; [simpl; lia|]. rewrite Z.max_r by lia. nia. }
    pose proof (RawMemory_ctor_reads ncap w Hncap Hbytes) as Hrun.
    pose proof (RawMemory_ctor_reads ncap w2 Hncap Hbytes) as Hrun2.
    change (alloc_fault_at w2 (allocs_done w2)) with (alloc_fault_at w (allocs_done w)) in Hrun2.
    destruct (alloc_fault_at w (allocs_done w) || (PTRDIFF_MAX <? ncap * Z.pos sizeof)) eqn:Hal.
    + rewrite !(bind_unfold (RawMemory_ctor ncap)), Hrun, Hrun2.
      rewrite (Hrefused Heq); [done|].
      apply orb_true_iff in Hal as [?|?]; [by left|right; lia].
    + apply orb_false_iff in Hal as [Hal1 Hal2].
      rewrite !(bind_unfold (RawMemory_ctor ncap)), Hrun, Hrun2.
      apply bind_sim_l. unfold unwinding. apply try_catch_sim_l.
      cbn [buffer_ GetAddress ptr_add]. rewrite Z.add_0_l.
      apply bind_sim_l.
      apply (Hgrow Heq). split; [done|lia].
  - (* spare capacity *)
    assert (n < cap) as Hlt by lia.
    eapply bind_sim; [by apply Vector_end_reads|by apply Vector_end_reads|].
    change (ptr_add (GetAddress (data_ {| data_ := d; size_ := n |})) (size_ {| data_ := d; size_ := n |}))
      with (ptr_add (buffer_ d) n).
    eapply bind_sim; [by apply get_data_reads|by apply get_data_reads|]. cbn [data_].
    destruct (decide (ptr_add (buffer_ d) k = ptr_add (buffer_ d) n)) as [Hpos|Hpos].
    + assert (k = n) as ->.
      { destruct (buffer_ d) as [|l o]; [simpl in Hbuf; lia|]. simpl in Hpos.
        injection Hpos. lia. }
      unfold RawMemory_plus. unfold bind at 1 3.
      assert ((n <=? capacity_ d) = true) as -> by (apply Z.leb_le; lia).
      cbn [assert ret]. unfold bind at 1 2. cbn [ret]. by apply Hend.
    + assert (k < n) as Hkn.
      { destruct (decide (k = n)) as [->|]; [done|lia]. }
      apply bind_sim_l. by apply Hshift.
Qed.

Lemma in_block_set_cells g w l i : in_block (set_cells g w) l i = in_block w l i.
Proof. done. Qed.

Lemma load_reads l i x w :
  in_block w l i = true → cells w !! (l, i) = Some x → load (Ptr l i) w = Ok x w.
Proof. unfold load. by intros -> ->. Qed.

Lemma load_inv p x w w' :
  load p w = Ok x w' →
  w' = w ∧ ∃ l i, p = Ptr l i ∧ in_block w l i = true ∧ cells w !! (l, i) = Some x.
Proof.
  destruct p as [|l i]; [done|]. unfold load.
  destruct (in_block w l i) eqn:Hin; [|done].
  destruct (cells w !! (l, i)) as [y|] eqn:Hc; [|done].
  intros [= -> ->]. split; [done|]. by exists l, i.
Qed.

(** A constructor that reads its argument behaves as one given a copy of
    it. *)
Lemma construct_at_copy q r x w :
  deref r w = Ok x w →
  construct_at q (ByCopy r) w = construct_at q (ByCopy (Outside x)) w.
Proof. unfold construct_at. cbn [init_value init_kind deref]. intros Hx. by rewrite !bind_unfold, Hx. Qed.

Lemma construct_local_copy r x w :
  deref r w = Ok x w →
  construct_local (ByCopy r) w = construct_local (ByCopy (Outside x)) w.
Proof. unfold construct_local. cbn [init_value init_kind deref]. intros Hx. by rewrite !bind_unfold, Hx. Qed.

(** A move constructor that throws leaves the object it was to move from
    as it was. *)
Lemma construct_at_move_throws q l i x w :
  in_block w l i = true → cells w !! (l, i) = Some x →
  ctor_may_throw MoveCtor = true → is_Some (fault_at w (ops_done w)) →
  construct_at q (ByMove (Slot (Ptr l i))) w = construct_at q (ByMove (Outside x)) w.
Proof.
  intros Hin Hc Hmay [e He]. unfold construct_at. cbn [init_value init_kind deref].
  rewrite !bind_unfold, (load_reads _ _ _ _ Hin Hc). cbn [ret].
  destruct q as [|l' i']; [done|]. unfold construct. rewrite Hmay.
  rewrite !bind_unfold. unfold may_throw. by rewrite He.
Qed.

Lemma construct_local_move_throws l i x w :
  in_block w l i = true → cells w !! (l, i) = Some x →
  ctor_may_throw MoveCtor = true → is_Some (fault_at w (ops_done w)) →
  construct_local (ByMove (Slot (Ptr l i))) w = construct_local (ByMove (Outside x)) w.
Proof.
  intros Hin Hc Hmay [e He]. unfold construct_local. cbn [init_value init_kind deref].
  rewrite !bind_unfold, (load_reads _ _ _ _ Hin Hc). cbn [ret]. rewrite Hmay.
  rewrite !bind_unfold. unfold may_throw. by rewrite He.
Qed.

(** A move constructor that returns behaves as one given a copy of its
    argument, in a world where the argument is moved-from already. *)
Lemma construct_at_move_returns q l i x w :
  in_block w l i = true → cells w !! (l, i) = Some x → q ≠ Ptr l i →
  (ctor_may_throw MoveCtor = true → fault_at w (ops_done w) = None) →
  construct_at q (ByMove (Slot (Ptr l i))) w =
  construct_at q (ByMove (Outside x)) (set_cells (insert (l, i) (moved_from x)) w).
Proof.
  intros Hin Hc Hq Hnf. unfold construct_at. cbn [init_value init_kind deref init_done].
  rewrite !bind_unfold, (load_reads _ _ _ _ Hin Hc). cbn [ret].
  destruct q as [|l' i']; [done|]. unfold construct. rewrite !bind_unfold.
  destruct (ctor_may_throw MoveCtor) eqn:Hmay.
  - unfold may_throw. cbn [fault_at ops_done set_cells]. rewrite (Hnf eq_refl).
    change (in_block (tick_op (set_cells <[(l, i):=moved_from x]> w)) l' i')
      with (in_block w l' i').
    change (in_block (tick_op w) l' i') with (in_block w l' i').
    destruct (in_block w l' i'); [|done].
    unfold store.
    change (in_block (set_cells _ (log _ (tick_op w))) l i) with (in_block w l i). rewrite Hin.
    cbn [cells set_cells log tick_op]. rewrite lookup_insert_ne by congruence. rewrite Hc.
    unfold set_cells, log, tick_op; cbn. do 2 f_equal. apply insert_insert_ne. congruence.
  - cbn [ret].
    change (in_block (set_cells <[(l, i):=moved_from x]> w) l' i') with (in_block w l' i').
    destruct (in_block w l' i'); [|done].
    unfold store.
    change (in_block (set_cells _ (log _ w)) l i) with (in_block w l i). rewrite Hin.
    cbn [cells set_cells log]. rewrite lookup_insert_ne by congruence. rewrite Hc.
    unfold set_cells, log; cbn. do 2 f_equal. apply insert_insert_ne. congruence.
Qed.

Lemma construct_local_move_returns l i x w :
  in_block w l i = true → cells w !! (l, i) = Some x →
  (ctor_may_throw MoveCtor = true → fault_at w (ops_done w) = None) →
  construct_local (ByMove (Slot (Ptr l i))) w =
  construct_local (ByMove (Outside x)) (set_cells (insert (l, i) (moved_from x)) w).
Proof.
  intros Hin Hc Hnf. unfold construct_local. cbn [init_value init_kind deref init_done].
  rewrite !bind_unfold, (load_reads _ _ _ _ Hin Hc). cbn [ret].
  assert (∀ w0, in_block w0 l i = true → cells w0 !! (l, i) = Some x →
            bind (modify (log (EvConstruct MoveCtor OnStack)))
                 (λ _, bind (store (Ptr l i) (moved_from x)) (λ _, ret x)) w0 =
            bind (modify (log (EvConstruct MoveCtor OnStack)))
                 (λ _, bind (ret tt) (λ _, ret x))
                 (set_cells (insert (l, i) (moved_from x)) w0)) as Hrest.
  { intros w0 Hin0 Hc0. unfold bind, modify, store.
    change (in_block (log _ w0) l i) with (in_block w0 l i). rewrite Hin0.
    cbn [cells log]. by rewrite Hc0. }
  destruct (ctor_may_throw MoveCtor) eqn:Hmay.
  - rewrite !(bind_unfold may_throw). unfold may_throw. cbn [fault_at ops_done set_cells].
    rewrite (Hnf eq_refl). exact (Hrest (tick_op w) Hin Hc).
  - rewrite !(bind_unfold (ret tt)). cbn [ret]. exact (Hrest w Hin Hc).
Qed.

Lemma arg_value_outside a x w : outside a = Some x → arg_value w a = Some x.
Proof. unfold arg_value. destruct a as [[]|[]|]; simpl; congruence. Qed.

Lemma from_outside_outside a x : outside (from_outside a x) = Some x.
Proof. by destruct a. Qed.

Lemma init_kind_from_outside a x : init_kind (from_outside a x) = init_kind a.
Proof. by destruct a. Qed.

Lemma moved_out_not_moved a w : moved_slot a = None → moved_out a w = w.
Proof. unfold moved_out. by intros ->. Qed.

Lemma in_block_older w l i : heap_wf w → in_block w l i = true → (l < next_loc w)%nat.
Proof.
  intros [Hb _]. unfold in_block. destruct (blocks w !! l) as [bytes|] eqn:Hl; [|done].
  intros _. by apply (Hb l bytes).
Qed.

Lemma in_block_allocated bytes w l i :
  heap_wf w → in_block w l i = true → in_block (allocated bytes w) l i = true.
Proof.
  intros Hwf Hin. pose proof (in_block_older _ _ _ Hwf Hin) as Hl.
  unfold in_block in *. cbn [allocated blocks set_next_loc set_blocks tick_alloc log].
  rewrite lookup_insert_ne by lia. done.
Qed.

(** [Emplace] given a reference is [Emplace] given the value the
    reference designates, run where the object that was moved from is
    moved-from already. *)
Lemma Emplace_by_reference this xs cap k a x w :
  is_vector w this xs cap → heap_wf w → 0 ≤ k ≤ Z.of_nat (length xs) →
  arg_value w a = Some x →
  Emplace this (iterator_at w this k) a w =
  Emplace this (iterator_at w this k) (from_outside a x) (arg_world xs cap a w).
Proof.
  intros Hvec Hwf Hk Hx.
  destruct (outside a) as [x'|] eqn:Hout.
  { assert (x' = x) as -> by (rewrite (arg_value_outside _ _ w Hout) in Hx; congruence).
    assert (from_outside a x = a) as -> by (destruct a as [[]|[]|]; simpl in *; congruence).
    assert (moved_slot a = None) as Hm by (destruct a as [[]|[]|]; simpl in *; congruence).
    unfold arg_world. rewrite (moved_out_not_moved _ _ Hm). by destruct (decide _). }
  unfold arg_value in Hx. destruct (init_value a w) as [y w1| |] eqn:Hy; [|done|done].
  injection Hx as ->.
  destruct a as [[x'|p]|[x'|p]|x']; try done; cbn [init_value deref] in Hy;
    apply load_inv in Hy as (-> & l & i & -> & Hin & Hc); cbn [from_outside].
  - (* copied from a slot *)
    unfold arg_world. rewrite moved_out_not_moved by done.
    transitivity (Emplace this (iterator_at w this k) (ByCopy (Outside x))
                          (set_cells (λ c, c) w));
      [|rewrite set_cells_id; by destruct (decide _)].
    apply (Emplace_sim this xs cap); try done.
    + intros _ _. apply set_cells_id.
    + intros _ _ w1. rewrite set_cells_id. apply construct_at_copy. cbn [deref].
      apply load_reads; [by apply in_block_allocated|done].
    + intros _ _. rewrite set_cells_id. apply construct_at_copy. by apply load_reads.
    + intros _ _. rewrite set_cells_id. apply construct_local_copy. by apply load_reads.
  - (* moved from a slot *)
    pose proof Hvec as (d & Hv & Hcap & Hc0 & Hlen & Hbuf).
    unfold arg_world, moved_out. cbn [moved_slot]. rewrite Hc.
    destruct (decide (arg_consumed xs cap (ByMove (Slot (Ptr l i))) w)) as [[Hal Hnf]|Hno].
    + apply (Emplace_sim this xs cap); try done.
      * intros Heq [Hr|Hr]; destruct (Hal Heq) as [Hg1 Hg2]; [congruence|lia].
      * intros _ _ w1. apply construct_at_move_returns; try done.
        -- by apply in_block_allocated.
        -- pose proof (in_block_older _ _ _ Hwf Hin). intros [= ? _]. lia.
      * intros Hlt ->. apply construct_at_move_returns; try done.
        rewrite (iterator_at_eq _ _ _ _ _ Hv).
        destruct (buffer_ d) as [|l' o]; [done|]. destruct Hbuf as (-> & _ & bytes & _ & _ & Hcells).
        cbn [ptr_add]. intros [= -> Hi]. rewrite Hcells in Hc.
        unfold lookupZ in Hc. destruct (decide _); [|done].
        apply lookup_lt_Some in Hc. lia.
      * intros _ _. by apply construct_local_move_returns.
    + transitivity (Emplace this (iterator_at w this k) (ByMove (Outside x))
                            (set_cells (λ c, c) w)); [|by rewrite set_cells_id].
      assert (Z.of_nat (length xs) < cap ∨
              alloc_granted w (grown_capacity cap * Z.pos sizeof) →
              ctor_may_throw MoveCtor = true ∧ is_Some (fault_at w (ops_done w))) as Hth.
      { intros Hcase. destruct (ctor_may_throw MoveCtor) eqn:Hmay.
        - split; [done|]. destruct (fault_at w (ops_done w)) eqn:Hf; [done|].
          destruct Hno. split; [|done]. intros Heq. destruct Hcase; [lia|done].
        - destruct Hno. split; [|cbn [init_kind]; congruence].
          intros Heq. destruct Hcase; [lia|done]. }
      apply (Emplace_sim this xs cap); try done.
      * intros _ _. apply set_cells_id.
      * intros _ Hg w1. rewrite set_cells_id. destruct Hth as [Hmay Hf]; [by right|].
        apply construct_at_move_throws; try done. by apply in_block_allocated.
      * intros Hlt _. rewrite set_cells_id. destruct Hth as [Hmay Hf]; [by left|].
        by apply construct_at_move_throws.
      * intros Hlt _. rewrite set_cells_id. destruct Hth as [Hmay Hf]; [by left|].
        by apply construct_local_move_throws.
Qed.

Lemma arg_value_inv a x w :
  arg_value w a = Some x →
  outside a = Some x ∨
  ∃ l i, in_block w l i = true ∧ cells w !! (l, i) = Some x ∧
         (a = ByCopy (Slot (Ptr l i)) ∨ a = ByMove (Slot (Ptr l i))).
Proof.
  unfold arg_value. destruct (init_value a w) as [y w1| |] eqn:Hy; [|done|done].
  intros [= ->]. destruct a as [[x'|p]|[x'|p]|x']; cbn [init_value deref ret] in Hy;
    try (injection Hy as -> _; by left);
    apply load_inv in Hy as (-> & l & i & -> & Hin & Hc); right; exists l, i; auto.
Qed.

Lemma moved_out_cases a x w :
  arg_value w a = Some x →
  (moved_slot a = None ∧ moved_out a w = w) ∨
  ∃ l i, a = ByMove (Slot (Ptr l i)) ∧ in_block w l i = true ∧
         cells w !! (l, i) = Some x ∧
         moved_out a w = set_cells (insert (l, i) (moved_from x)) w.
Proof.
  intros Hx. destruct (arg_value_inv _ _ _ Hx) as [Hout|(l & i & Hin & Hc & [->| ->])].
  - left. assert (moved_slot a = None) as Hm by (destruct a as [[]|[]|]; simpl in *; congruence).
    split; [done|by apply moved_out_not_moved].
  - left. done.
  - right. exists l, i. split_and!; try done. unfold moved_out. cbn [moved_slot]. by rewrite Hc.
Qed.

Lemma lookupZ_alter (f : T → T) xs i j :
  0 ≤ i →
  lookupZ (alter f (Z.to_nat i) xs) j =
  if decide (j = i) then f <$> lookupZ xs j else lookupZ xs j.
Proof.
  intros Hi. unfold lookupZ. destruct (decide (0 ≤ j)) as [Hj|Hj].
  - destruct (decide (j = i)) as [->|Hne].
    + by rewrite list_lookup_alter_eq.
    + rewrite list_lookup_alter_ne by lia. done.
  - by destruct (decide (j = i)).
Qed.

Lemma length_after_use w this a xs : length (after_use w this a xs) = length xs.
Proof.
  unfold after_use. destruct (moved_slot a) as [[|l i]|]; try done.
  case_decide; [apply length_alter|done].
Qed.

Lemma after_use_not_moved w this a xs : moved_slot a = None → after_use w this a xs = xs.
Proof. unfold after_use. by intros ->. Qed.

Lemma heap_wf_moved_out a x w :
  heap_wf w → arg_value w a = Some x → heap_wf (moved_out a w).
Proof.
  intros Hwf Hx. destruct (moved_out_cases _ _ _ Hx) as [[_ ->]|(l & i & -> & Hin & Hc & ->)];
    [done|].
  destruct Hwf as [H1 H2]. split; [exact H1|].
  intros l' i' Hl'. cbn [cells set_cells next_loc] in *.
  destruct (decide ((l', i') = (l, i))) as [[= -> ->]|Hne].
  - rewrite H2 in Hc; [done|lia].
  - rewrite lookup_insert_ne by done. by apply H2.
Qed.

Lemma is_vector_moved_out this xs cap a x w :
  is_vector w this xs cap → arg_value w a = Some x →
  is_vector (moved_out a w) this (after_use w this a xs) cap.
Proof.
  intros Hvec Hx.
  destruct (moved_out_cases _ _ _ Hx) as [[Hm ->]|(l & i & -> & Hin & Hc & ->)].
  { by rewrite after_use_not_moved. }
  destruct Hvec as (d & Hv & Hcap & Hc0 & Hlen & Hbuf).
  unfold after_use. cbn [moved_slot]. rewrite (is_vector_buffer_loc _ _ _ _ Hv).
  exists d. destruct (buffer_ d) as [|l' o] eqn:Hbd; cbn [block_of].
  - rewrite decide_False by done. split_and!; [done|done|].
    unfold owns. rewrite Hbd. done.
  - destruct Hbuf as (-> & Hpos & bytes & Hb & Hsz & Hcells).
    destruct (decide (Some l' = Some l)) as [[= ->]|Hne].
    + assert (0 ≤ i) as Hi.
      { rewrite Hcells in Hc. unfold lookupZ in Hc. by destruct (decide (0 ≤ i)). }
      split_and!; [by rewrite length_alter|done|].
      unfold owns. rewrite Hbd, length_alter. split_and!; [done|done|done|done|].
      exists bytes. split_and!; [done|done|].
      intros j. cbn [cells set_cells]. rewrite lookupZ_alter by done.
      destruct (decide (j = i)) as [->|Hji].
      * rewrite lookup_insert_eq. by rewrite <- Hcells, Hc.
      * rewrite lookup_insert_ne by congruence. apply Hcells.
    + split_and!; [done|done|]. unfold owns. rewrite Hbd. split_and!; [done|done|done|done|].
      exists bytes. split_and!; [done|done|].
      intros j. cbn [cells set_cells]. rewrite lookup_insert_ne by congruence. apply Hcells.
Qed.

Lemma iterator_at_moved_out a w this k :
  iterator_at (moved_out a w) this k = iterator_at w this k.
Proof.
  unfold moved_out. destruct (moved_slot a) as [[|l i]|]; try done.
  by destruct (cells w !! (l, i)).
Qed.

Lemma moved_out_fields a w :
  vecs (moved_out a w) = vecs w ∧ blocks (moved_out a w) = blocks w ∧
  next_loc (moved_out a w) = next_loc w ∧ trace (moved_out a w) = trace w ∧
  fault_at (moved_out a w) = fault_at w ∧ ops_done (moved_out a w) = ops_done w ∧
  alloc_fault_at (moved_out a w) = alloc_fault_at w ∧
  allocs_done (moved_out a w) = allocs_done w.
Proof.
  unfold moved_out. destruct (moved_slot a) as [[|l i]|]; try done.
  by destruct (cells w !! (l, i)).
Qed.

(** The two exits with undefined behaviour are the same for a reference
    and for the value it designates. *)
Lemma destroys_dead_slot_by_reference this xs cap k a x w :
  destroys_dead_slot (after_use w this a xs) cap k (from_outside a x) (moved_out a w) ↔
  destroys_dead_slot xs cap k a w.
Proof.
  destruct (moved_out_fields a w) as (_ & _ & _ & _ & Hf & Ho & Haf & Had).
  unfold destroys_dead_slot, alloc_granted.
  rewrite length_after_use, init_kind_from_outside, Hf, Ho, Haf, Had. done.
Qed.

Lemma arg_consumed_by_reference this xs cap a x w :
  arg_consumed (after_use w this a xs) cap (from_outside a x) (moved_out a w) ↔
  arg_consumed xs cap a w.
Proof.
  destruct (moved_out_fields a w) as (_ & _ & _ & _ & Hf & Ho & Haf & Had).
  unfold arg_consumed, alloc_granted.
  rewrite length_after_use, init_kind_from_outside, Hf, Ho, Haf, Had. done.
Qed.

Lemma Emplace_returned_kind this xs cap k a a' x w r w' :
  init_kind a' = init_kind a →
  Emplace_returned this xs cap k a' x w r w' → Emplace_returned this xs cap k a x w r w'.
Proof.
  unfold Emplace_returned, Emplace_grown, Emplace_in_place. by intros ->.
Qed.

Lemma Emplace_failed_kind this xs cap k a a' w e w' :
  init_kind a' = init_kind a →
  Emplace_failed this xs cap k a' w e w' → Emplace_failed this xs cap k a w e w'.
Proof.
  unfold Emplace_failed, Emplace_grow_failed, Emplace_shift_failed, grow_failure_events,
    last_assign_op. by intros ->.
Qed.

Lemma wp_or_run_eq {A} (m m' : M T A) w w2 Q R U :
  m w = m' w2 → wp_or m' w2 Q R U → wp_or m w Q R U.
Proof. unfold wp_or. by intros ->. Qed.

(** [Emplace] of any arguments that designate an object.  When it
    returns, the arguments were used: the Vector held
    [after_use w this a xs] in the world [moved_out a w] when the
    insertion started.  When it throws before that, nothing was moved. *)
Lemma Emplace_spec_by_reference this xs cap k a x w :
  is_vector w this xs cap → heap_wf w → 0 ≤ k ≤ Z.of_nat (length xs) →
  arg_value w a = Some x →
  wp_or (Emplace this (iterator_at w this k) a) w
     (λ r w', Emplace_returned this (after_use w this a xs) cap k a x (moved_out a w) r w')
     (λ e w', if decide (arg_consumed xs cap a w)
              then Emplace_failed this (after_use w this a xs) cap k a (moved_out a w) e w'
              else Emplace_failed this xs cap k a w e w')
     (destroys_dead_slot xs cap k a w).
Proof.
  intros Hvec Hwf Hk Hx.
  eapply wp_or_run_eq; [by eapply Emplace_by_reference|]. unfold arg_world.
  destruct (decide (arg_consumed xs cap a w)) as [Hcons|Hno].
  - rewrite <- (iterator_at_moved_out a w this k).
    eapply wp_or_mono; [|apply (destroys_dead_slot_by_reference this)].
    eapply wp_mono.
    + apply (Emplace_spec this (after_use w this a xs) cap k (from_outside a x) x).
      * by eapply is_vector_moved_out.
      * by eapply heap_wf_moved_out.
      * by rewrite length_after_use.
      * apply from_outside_outside.
    + intros r w'. apply Emplace_returned_kind, init_kind_from_outside.
    + intros e w'. apply Emplace_failed_kind, init_kind_from_outside.
  - assert (init_kind (from_outside a x) = init_kind a) as Hkind
      by apply init_kind_from_outside.
    pose proof (Emplace_spec this xs cap k (from_outside a x) x w Hvec Hwf Hk
                  (from_outside_outside a x)) as Hspec.
    unfold wp_or in *.
    destruct (Emplace this (iterator_at w this k) (from_outside a x) w) as [r w'|e w'|].
    + apply Emplace_returned_consumed in Hspec. rewrite Hkind in Hspec. by destruct Hno.
    + by eapply Emplace_failed_kind.
    + destruct Hno. unfold destroys_dead_slot in Hspec. rewrite Hkind in Hspec.
      destruct Hspec as [Hnf Hrest]. split; [|done].
      intros Heq. rewrite decide_True in Hrest by done. by destruct Hrest.
Qed.
End References.

(** * The class invariant under every operation *)

Section Operations.
Context {T : Type} {ET : Element T}.
Implicit Types (w : World T) (xs ys zs : list T).

Lemma buffer_loc_None w a : vecs w !! a = None → buffer_loc w a = None.
Proof. unfold buffer_loc. by intros ->. Qed.

Lemma world_inv_frame this w w' :
  world_inv w → frame this w w' → heap_wf w' →
  (is_Some (vecs w' !! this) → vector_inv w' this) → world_inv w'.
Proof.
  intros (Hwf & Hinv & Hsep) Hfr Hwf' Hthis.
  assert (∀ b, b ≠ this → vector_inv w b ∨ buffer_loc w b = None) as Hor.
  { intros b Hb. destruct (vecs w !! b) eqn:Hvb.
    - left. apply Hinv. by rewrite Hvb.
    - right. by apply buffer_loc_None. }
  split_and!; [done| |].
  - intros a Ha. destruct (decide (a = this)) as [->|Hne]; [by apply Hthis|].
    pose proof Hfr as (Hv & _). rewrite Hv in Ha by done.
    destruct (Hinv a Ha) as (xs & c & Hvec). exists xs, c.
    eapply is_vector_frame; [done|done|done| |done]. by apply Hsep.
  - intros a b Hab. destruct (decide (a = this)) as [->|Ha].
    + eapply separate_frame; [done|done|done| |by apply Hsep]. apply Hor. done.
    + destruct (decide (b = this)) as [->|Hb].
      * apply separate_sym. eapply separate_frame; [done|done|done| |by apply Hsep].
        by apply Hor.
      * intros l. rewrite !(buffer_loc_frame _ _ _ _ Hfr) by done. by apply Hsep.
Qed.

(** Two objects exchanged their members (one of them possibly new, or
    left empty), nothing else changed. *)
Lemma world_inv_exchange a b w w' :
  world_inv w → a ≠ b →
  vector_inv w' a → vector_inv w' b →
  buffer_loc w' a = buffer_loc w b → buffer_loc w' b = buffer_loc w a →
  (∀ c, c ≠ a → c ≠ b → vecs w' !! c = vecs w !! c) →
  blocks w' = blocks w → cells w' = cells w → next_loc w' = next_loc w →
  world_inv w'.
Proof.
  intros (Hwf & Hinv & Hsep) Hab Ha Hb Hla Hlb Hoth Hbl Hce Hnl.
  assert (∀ c, c ≠ a → c ≠ b → buffer_loc w' c = buffer_loc w c) as Hlo.
  { intros c ??. unfold buffer_loc. by rewrite Hoth. }
  split_and!.
  - destruct Hwf as [H1 H2]. split.
    + intros l bytes. rewrite Hbl, Hnl. apply H1.
    + intros l i. rewrite Hce, Hnl. apply H2.
  - intros c Hc. destruct (decide (c = a)) as [->|Hca]; [done|].
    destruct (decide (c = b)) as [->|Hcb]; [done|].
    rewrite Hoth in Hc by done. destruct (Hinv c Hc) as (xs & cap & d & Hv & Hcap & Hown).
    exists xs, cap, d. split_and!; [by rewrite Hoth|done|].
    eapply owns_ext; [done|]. intros l _. by rewrite Hbl, Hce.
  - intros x y Hxy l.
    assert (∀ z, ∃ z', buffer_loc w' z = buffer_loc w z' ∧
              (z = a → z' = b) ∧ (z = b → z' = a) ∧ (z ≠ a → z ≠ b → z' = z)) as Hperm.
    { intros z. destruct (decide (z = a)) as [->|]; [exists b; naive_solver|].
      destruct (decide (z = b)) as [->|]; [exists a; naive_solver|].
      exists z. split_and!; [by apply Hlo|done|done|done]. }
    destruct (Hperm x) as (x' & -> & Hx1 & Hx2 & Hx3).
    destruct (Hperm y) as (y' & -> & Hy1 & Hy2 & Hy3).
    apply Hsep.
    destruct (decide (x = a)), (decide (x = b)), (decide (y = a)), (decide (y = b));
      naive_solver.
Qed.

Lemma others_kept_frame this op w w' :
  world_inv w → frame this w w' → others_kept this op w w'.
Proof.
  intros (Hwf & _ & Hsep) Hfr b ys cb Hb _ _ Hv.
  eapply is_vector_frame; [done|done|done|by apply Hsep|done].
Qed.

Lemma others_kept_exchange a b op w w' :
  exchanged_with op = Some b →
  (∀ c, c ≠ a → c ≠ b → vecs w' !! c = vecs w !! c) →
  blocks w' = blocks w → cells w' = cells w →
  others_kept a op w w'.
Proof.
  intros Hop Hoth Hbl Hce c ys cc Hca Hcb _ (d & Hv & Hcap & Hown).
  assert (c ≠ b) by congruence.
  exists d. split_and!; [by rewrite Hoth|done|].
  eapply owns_ext; [done|]. intros l _. by rewrite Hbl, Hce.
Qed.

Lemma at_offset_run this xs cap k f w :
  is_vector w this xs cap →
  at_offset this k f w = bind (f (iterator_at w this k)) (λ _, ret tt) w.
Proof.
  intros Hvec. unfold at_offset. unfold bind at 1.
  rewrite (Vector_begin_run _ _ _ _ Hvec).
  destruct Hvec as (d & Hv & _ & _ & _ & Hbuf). unfold iterator_at. rewrite Hv. simpl.
  destruct (buffer_ d) as [|l o]; [done|]. destruct Hbuf as (-> & _). done.
Qed.

Lemma is_vector_size w this xs cap v :
  is_vector w this xs cap → vecs w !! this = Some v → size_ v = Z.of_nat (length xs).
Proof. intros (d & Hv & _) Hv'. rewrite Hv in Hv'. by injection Hv' as <-. Qed.

Lemma Emplace_failed_inv this xs cap k a w e w' :
  Emplace_failed this xs cap k a w e w' →
  heap_wf w' ∧ frame this w w' ∧
  (vector_inv w' this ∨
   (k ≠ Z.of_nat (length xs) ∧ Z.of_nat (length xs) ≠ cap ∧
    fault_at w (last_assign_op xs k a w) = Some e ∧
    slot_left_constructed this (Z.of_nat (length xs)) w')).
Proof.
  unfold Emplace_failed. destruct (decide (Z.of_nat (length xs) = cap)) as [Heq|Hne].
  - intros (Hwf & Hfr & _ & H). split_and!; [done|done|]. left.
    destruct H as [(_ & _ & Hv & _)|[(_ & _ & _ & Hv & _)|(j & _ & _ & _ & _ & _ & _ & _ & Hv & _)]];
      eexists _, _; exact Hv.
  - destruct (decide (k = Z.of_nat (length xs))) as [Hk|Hk].
    + intros [(Hv & Hwf & Hfr) _]. split_and!; [done|done|]. left. by eexists _, _.
    + intros (Hwf & Hfr & _ & [(xs' & Hv & _)|[Hf Hs]]); (split_and!; [done|done|]).
      * left. by eexists _, _.
      * right. done.
Qed.

Lemma world_inv_moved_out a x w :
  world_inv w → arg_value w a = Some x → world_inv (moved_out a w).
Proof.
  intros (Hwf & Hvi & Hsep) Hx.
  destruct (moved_out_fields a w) as (Hvecs & _).
  split_and!.
  - by eapply heap_wf_moved_out.
  - intros b. rewrite Hvecs. intros Hb. destruct (Hvi b Hb) as (ys & cb & Hv).
    eexists _, _. by eapply is_vector_moved_out.
  - intros b c Hbc l. unfold buffer_loc. rewrite Hvecs. by apply Hsep.
Qed.

Lemma is_vector_not_moved_from b ys cb op a x w :
  is_vector w b ys cb → op_args op = Some a → arg_value w a = Some x →
  ¬ moves_from w op b → is_vector (moved_out a w) b ys cb.
Proof.
  intros Hv Hop Hx Hno.
  assert (after_use w b a ys = ys) as Hsame; [|rewrite <- Hsame; by eapply is_vector_moved_out].
  unfold after_use. destruct (moved_slot a) as [[|l i]|] eqn:Hm; try done.
  rewrite decide_False; [done|]. intros Hl. apply Hno. by exists a, l, i.
Qed.

Lemma destroys_dead_slot_before_end xs cap k a w :
  destroys_dead_slot xs cap k a w → k < Z.of_nat (length xs).
Proof.
  unfold destroys_dead_slot. intros [_ H]. case_decide.
  - destruct H as (_ & _ & j & e & ? & _). lia.
  - by destruct H.
Qed.

(** An insertion of arguments that designate an object, at any
    position. *)
Lemma wp_insertion this xs cap k a x op w :
  world_inv w → is_vector w this xs cap → 0 ≤ k ≤ Z.of_nat (length xs) →
  arg_value w a = Some x → op_args op = Some a →
  (k < Z.of_nat (length xs) → insertion op = Some (k, a)) →
  wp_or (bind (Emplace this (iterator_at w this k) a) (λ _, ret tt)) w
     (λ _ w', world_inv w' ∧ others_kept this op w w')
     (λ e w', (world_inv w' ∨ last_assign_threw w this op e w') ∧ others_kept this op w w')
     (reaches_dead_slot w this op).
Proof.
  intros Hinv Hvec Hk Hx Hop Hins. pose proof Hinv as (Hwf & _).
  pose proof (world_inv_moved_out a x w Hinv Hx) as Hinv0.
  pose proof (is_vector_moved_out this xs cap a x w Hvec Hx) as Hvec0.
  destruct (moved_out_fields a w) as (Hvecs & _ & _ & _ & Hfa & Hops & _).
  assert (∀ w', frame this (moved_out a w) w' → others_kept this op w w') as Hkept0.
  { intros w' Hfr b ys cb Hb Hex Hno Hv.
    destruct Hinv0 as (Hwf0 & _ & Hsep0).
    eapply is_vector_frame; [exact Hfr|done|exact Hwf0|by apply Hsep0|].
    by eapply is_vector_not_moved_from. }
  assert (∀ xs0 w0 e w',
            world_inv w0 → is_vector w0 this xs0 cap → length xs0 = length xs →
            fault_at w0 = fault_at w → ops_done w0 = ops_done w →
            (∀ w', frame this w0 w' → others_kept this op w w') →
            Emplace_failed this xs0 cap k a w0 e w' →
            (world_inv w' ∨ last_assign_threw w this op e w') ∧ others_kept this op w w')
    as Hfailed.
  { intros xs0 w0 e w' Hi0 Hv0 Hl0 Hf0 Ho0 Hk0 He.
    apply Emplace_failed_inv in He as (Hwf' & Hfr & [Hv|(Hk' & Hn & Hf & Hs)]);
      (split; [|by apply Hk0]).
    - left. eapply world_inv_frame; [exact Hi0|done|done|done].
    - right. exists k, a, xs, cap. rewrite Hl0 in *.
      assert (Z.of_nat (length xs) ≤ cap) by (destruct Hvec as (? & _ & <- & _ & ? & _); done).
      split_and!; try done; try lia; [apply Hins; lia|].
      rewrite <- Hf. unfold last_assign_op. by rewrite Hf0, Ho0, Hl0. }
  apply wp_bind.
  eapply wp_or_mono;
    [eapply wp_mono; [by apply (Emplace_spec_by_reference this xs cap k a x w)| |]|].
  - intros r w' Hr. apply wp_ret. apply Emplace_returned_done in Hr as (Hv & Hwf' & Hfr & _).
    split; [|by apply Hkept0].
    eapply world_inv_frame; [exact Hinv0|done|done|]. intros _. by eexists _, _.
  - intros e w' He. destruct (decide (arg_consumed xs cap a w)).
    + eapply (Hfailed (after_use w this a xs) (moved_out a w)); try done.
      apply length_after_use.
    + eapply (Hfailed xs w); try done. intros w'' Hfr. by apply others_kept_frame.
  - intros Hdead. exists k, a, xs, cap. split_and!; [|done|done].
    apply Hins. by eapply destroys_dead_slot_before_end.
Qed.

(** Every operation keeps the invariant when it returns, and when it
    throws, except for the one exit of [last_assign_threw]; the behaviour
    is undefined on the exits of [reaches_dead_slot] only. *)
Lemma call_keeps_invariant this op w :
  world_inv w → callable w this op →
  wp_or (call this op) w
     (λ _ w', world_inv w' ∧ others_kept this op w w')
     (λ e w', (world_inv w' ∨ last_assign_threw w this op e w') ∧ others_kept this op w w')
     (reaches_dead_slot w this op).
Proof.
  intros Hinv [Hargs Hcall]. pose proof Hinv as (Hwf & Hvi & Hsep).
  assert (∀ w', frame this w w' → heap_wf w' →
            (is_Some (vecs w' !! this) → vector_inv w' this) →
            world_inv w' ∧ others_kept this op w w') as Hok.
  { intros w' Hfr Hwf' Hthis. split; [by eapply world_inv_frame|by apply others_kept_frame]. }
  assert (∀ e w', frame this w w' → heap_wf w' →
            (is_Some (vecs w' !! this) → vector_inv w' this) →
            (world_inv w' ∨ last_assign_threw w this op e w') ∧ others_kept this op w w') as Hex.
  { intros e w' Hfr Hwf' Hthis. split; [left; by eapply world_inv_frame|by apply others_kept_frame]. }
  assert (∀ n e w', construction_failed n w e w' → vecs w !! this = None →
            (world_inv w' ∨ last_assign_threw w this op e w') ∧ others_kept this op w w') as Hcf.
  { intros n e w' (Hwf' & Hp & _) Hnone.
    apply Hex; [by apply preserved_frame|done|].
    destruct Hp as (-> & _). rewrite Hnone. by intros [? ?]. }
  assert (∀ a, op_args op = Some a → ∃ x, arg_value w a = Some x) as Harg.
  { intros a Ha. destruct (Hargs a Ha) as [x Hx]. by exists x. }
  destruct op; simpl in Hcall; simpl call.
  - (* Vector() *)
    apply wp_defined. eapply wp_mono; [by apply Vector_default_spec| |done].
    intros _ w' (Hv & Hwf' & Hfr). apply Hok; [done|done|].
    intros _. by eexists _, _.
  - (* Vector(n) *)
    apply wp_defined.
    destruct Hcall as (Hnone & Hn & Hsz).
    eapply wp_mono; [by apply Vector_sized_spec| |].
    + intros _ w' (Hv & Hwf' & Hfr). apply Hok; [done|done|].
      intros _. by eexists _, _.
    + intros e w' Hf. by eapply Hcf.
  - (* Vector(const Vector&) *)
    apply wp_defined.
    destruct Hcall as (Hnone & Hoth). destruct (Hvi _ Hoth) as (ys & co & Hvo).
    eapply wp_mono; [by eapply Vector_copy_spec| |].
    + intros _ w' (Hv & Hwf' & Hfr & _). apply Hok; [done|done|].
      intros _. by eexists _, _.
    + intros e w' Hf. by eapply Hcf.
  - (* Vector(Vector&&) *)
    apply wp_defined.
    destruct Hcall as (Hnone & Hoth). destruct (Hvi _ Hoth) as (ys & co & Hvo).
    assert (this ≠ other) as Hne by (intros ->; rewrite Hnone in Hoth; by destruct Hoth).
    destruct (Vector_move_spec this other ys co w Hvo Hne)
      as (w' & Hrun & Hva & Hvb & Hla & Hlb & Hothers & Hbl & Hce & Hnl & _).
    unfold wp_or. rewrite Hrun. split; [|by eapply others_kept_exchange].
    eapply (world_inv_exchange this other w w'); try done.
    * by eexists _, _.
    * by eexists _, _.
    * rewrite Hlb. symmetry. by apply buffer_loc_None.
  - (* ~Vector() *)
    apply wp_defined.
    destruct (Hvi _ Hcall) as (xs & cap & Hvec).
    eapply wp_mono; [by eapply Vector_dtor_spec| |done].
    intros _ w' (Hnone & Hwf' & Hfr & _). apply Hok; [done|done|].
    rewrite Hnone. by intros [? ?].
  - (* operator=(const Vector&) *)
    apply wp_defined.
    destruct Hcall as (Hthis & Hrhs).
    destruct (decide (this = rhs)) as [<-|Hne].
    { unfold wp_or. rewrite assign_copy_self. split; [done|]. by intros b ys cb _ _ _ ?. }
    destruct (Hvi _ Hthis) as (xs & ca & Hva). destruct (Hvi _ Hrhs) as (ys & cb & Hvb).
    eapply wp_mono; [eapply assign_copy_spec; [done|exact Hva|exact Hvb|done|by apply Hsep]| |].
    + intros _ w' (Hwf' & Hfr & Hv & _). apply Hok; [done|done|].
      intros _. by eexists _, _.
    + intros e w' (Hwf' & Hfr & (xs' & Hv & _) & _).
      apply Hex; [done|done|]. intros _. by eexists _, _.
  - (* operator=(Vector&&) *)
    apply wp_defined.
    destruct Hcall as (Hthis & Hrhs).
    destruct (Hvi _ Hthis) as (xs & ca & Hva). destruct (Hvi _ Hrhs) as (ys & cb & Hvb).
    destruct (Swap_spec this rhs xs ys ca cb w Hva Hvb)
      as (w' & Hrun & Hva' & Hvb' & Hla & Hlb & Hothers & Hbl & Hce & Hnl & Htr & Hops & Hal & Hfa & Hafa).
    unfold wp_or, assign_move. rewrite Hrun.
    split; [|by eapply others_kept_exchange].
    destruct (decide (this = rhs)) as [<-|Hne].
    + eapply (world_inv_frame this w w'); [done| | |intros _; by eexists _, _].
      * unfold frame. rewrite Hbl, Hce, Hnl, Hfa, Hafa, Hops, Hal.
        split_and!; auto; try lia.
        intros l Hl. left. by rewrite <- Hla.
      * destruct Hwf as [H1 H2]. split.
        -- intros l bytes. rewrite Hbl, Hnl. apply H1.
        -- intros l i. rewrite Hce, Hnl. apply H2.
    + eapply (world_inv_exchange this rhs w w'); try done; by eexists _, _.
  - (* Swap *)
    apply wp_defined.
    destruct Hcall as (Hthis & Hrhs).
    destruct (Hvi _ Hthis) as (xs & ca & Hva). destruct (Hvi _ Hrhs) as (ys & cb & Hvb).
    destruct (Swap_spec this other xs ys ca cb w Hva Hvb)
      as (w' & Hrun & Hva' & Hvb' & Hla & Hlb & Hothers & Hbl & Hce & Hnl & Htr & Hops & Hal & Hfa & Hafa).
    unfold wp_or. rewrite Hrun.
    split; [|by eapply others_kept_exchange].
    destruct (decide (this = other)) as [<-|Hne].
    + eapply (world_inv_frame this w w'); [done| | |intros _; by eexists _, _].
      * unfold frame. rewrite Hbl, Hce, Hnl, Hfa, Hafa, Hops, Hal.
        split_and!; auto; try lia.
        intros l Hl. left. by rewrite <- Hla.
      * destruct Hwf as [H1 H2]. split.
        -- intros l bytes. rewrite Hbl, Hnl. apply H1.
        -- intros l i. rewrite Hce, Hnl. apply H2.
    + eapply (world_inv_exchange this other w w'); try done; by eexists _, _.
  - (* Reserve *)
    apply wp_defined.
    destruct Hcall as (Hthis & Hn & Hsz). destruct (Hvi _ Hthis) as (xs & cap & Hvec).
    eapply wp_mono; [by eapply Reserve_spec| |].
    + intros ? w' Hr. destruct (decide (n ≤ cap)).
      { subst w'. split; [done|]. by intros b ys cb _ _ _ ?. }
      destruct Hr as (Hv & Hwf' & Hfr & _). apply Hok; [done|done|].
      intros _. by eexists _, _.
    + intros e w' (_ & Hwf' & Hfr & (xs' & Hv & _) & _).
      apply Hex; [done|done|]. intros _. by eexists _, _.
  - (* Resize *)
    apply wp_defined.
    destruct Hcall as (Hthis & Hn & Hsz). destruct (Hvi _ Hthis) as (xs & cap & Hvec).
    eapply wp_mono; [by eapply Resize_spec| |].
    + intros _ w' (Hwf' & Hfr & Hr). apply Hok; [done|done|].
      intros _. destruct (decide (n ≤ Z.of_nat (length xs))); destruct Hr as [Hv _]; by eexists _, _.
    + intros e w' (_ & Hwf' & Hfr & (xs' & cap' & Hv & _) & _).
      apply Hex; [done|done|]. intros _. by eexists _, _.
  - (* PushBack(const T&) *)
    destruct (Hvi _ Hcall) as (xs & cap & Hvec). destruct (Harg _ eq_refl) as [x Hx].
    unfold PushBack.
    eapply (wp_eq _ (bind (Emplace this (iterator_at w this (Z.of_nat (length xs)))
                             (ByCopy value)) (λ _, ret tt))).
    { unfold bind. by rewrite (EmplaceBack_run _ _ _ _ _ Hvec). }
    eapply wp_insertion; try done; lia.
  - (* PushBack(T&&) *)
    destruct (Hvi _ Hcall) as (xs & cap & Hvec). destruct (Harg _ eq_refl) as [x Hx].
    unfold PushBack_move.
    eapply (wp_eq _ (bind (Emplace this (iterator_at w this (Z.of_nat (length xs)))
                             (ByMove value)) (λ _, ret tt))).
    { unfold bind. by rewrite (EmplaceBack_run _ _ _ _ _ Hvec). }
    eapply wp_insertion; try done; lia.
  - (* PopBack *)
    apply wp_defined.
    destruct Hcall as (v & Hv & Hpos).
    destruct (Hvi this) as (xs & cap & Hvec); [by rewrite Hv|].
    rewrite (is_vector_size _ _ _ _ _ Hvec Hv) in Hpos.
    eapply wp_mono; [by eapply PopBack_spec| |done].
    intros _ w' (Hv' & Hwf' & Hfr). apply Hok; [done|done|].
    intros _. by eexists _, _.
  - (* EmplaceBack *)
    destruct (Hvi _ Hcall) as (xs & cap & Hvec). destruct (Harg _ eq_refl) as [x Hx].
    eapply (wp_eq _ (bind (Emplace this (iterator_at w this (Z.of_nat (length xs))) a)
                          (λ _, ret tt))).
    { unfold bind. by rewrite (EmplaceBack_run _ _ _ _ _ Hvec). }
    eapply wp_insertion; try done; lia.
  - (* Emplace *)
    destruct Hcall as (v & Hv & Hk). destruct (Harg _ eq_refl) as [x Hx].
    destruct (Hvi this) as (xs & cap & Hvec); [by rewrite Hv|].
    rewrite (is_vector_size _ _ _ _ _ Hvec Hv) in Hk.
    eapply wp_eq; [by eapply at_offset_run|].
    by eapply wp_insertion.
  - (* Insert(const T&) *)
    destruct Hcall as (v & Hv & Hk). destruct (Harg _ eq_refl) as [x Hx].
    destruct (Hvi this) as (xs & cap & Hvec); [by rewrite Hv|].
    rewrite (is_vector_size _ _ _ _ _ Hvec Hv) in Hk.
    eapply wp_eq; [by eapply at_offset_run|].
    unfold Insert. by eapply wp_insertion.
  - (* Insert(T&&) *)
    destruct Hcall as (v & Hv & Hk). destruct (Harg _ eq_refl) as [x Hx].
    destruct (Hvi this) as (xs & cap & Hvec); [by rewrite Hv|].
    rewrite (is_vector_size _ _ _ _ _ Hvec Hv) in Hk.
    eapply wp_eq; [by eapply at_offset_run|].
    unfold Insert_move. by eapply wp_insertion.
  - (* Erase *)
    apply wp_defined.
    destruct Hcall as (v & Hv & Hk).
    destruct (Hvi this) as (xs & cap & Hvec); [by rewrite Hv|].
    rewrite (is_vector_size _ _ _ _ _ Hvec Hv) in Hk.
    eapply wp_eq; [by eapply at_offset_run|].
    apply wp_bind. eapply wp_mono; [by eapply Erase_spec| |].
    + intros r w' (Hv' & Hwf' & Hfr & _). apply wp_ret.
      apply Hok; [done|done|]. intros _. by eexists _, _.
    + intros e w' ((xs' & Hv' & _) & Hwf' & Hfr & _).
      apply Hex; [done|done|]. intros _. by eexists _, _.
Qed.
End Operations.

(** * When the operations return *)

Section Returns.
Context {T : Type} {ET : Element T}.
Implicit Types (w : World T) (xs ys zs : list T).

Lemma wp_no_throw {A} (m : M T A) w Q R :
  wp m w Q R → (∀ e w', R e w' → False) → ∃ a w', m w = Ok a w' ∧ Q a w'.
Proof. unfold wp_or. destruct (m w) as [a w'|e w'|]; [eauto| |done]. intros HR H. by destruct (H e w'). Qed.

Lemma not_refused w bytes : alloc_granted w bytes → ¬ alloc_refused w bytes.
Proof. intros [Hf Hb] [Hf'|Hb']; [congruence|lia]. Qed.

Lemma Emplace_failed_why this xs cap k a w e w' :
  Emplace_failed this xs cap k a w e w' →
  (e = bad_alloc ∧ Z.of_nat (length xs) = cap ∧
   alloc_refused w (grown_capacity cap * Z.pos sizeof)) ∨
  thrown_by_fault w e.
Proof.
  unfold Emplace_failed. destruct (decide (Z.of_nat (length xs) = cap)) as [Heq|Hne].
  - intros (_ & _ & _ & [(-> & ? & _)|[(_ & _ & Hf & _)|(j & Hj & _ & _ & _ & _ & Hf & _)]]).
    + left. done.
    + right. by apply thrown_by_fault_now.
    + right. exists (ops_done w + ctor_ops (init_kind a) + j).
      pose proof (ctor_ops_bounds (init_kind a)). split; [lia|done].
  - destruct (decide (k = Z.of_nat (length xs))).
    + intros [_ ?]. by right.
    + intros (_ & _ & ? & _). by right.
Qed.

Lemma wp_or_no_throw {A} (m : M T A) w Q R (U : Prop) :
  wp_or m w Q R U → (∀ e w', R e w' → False) → ¬ U → ∃ r w', m w = Ok r w' ∧ Q r w'.
Proof.
  unfold wp_or. destruct (m w) as [r w'|e w'|]; [eauto| |done].
  intros HR H. by destruct (H e w').
Qed.

(** Without a fault no handler runs. *)
Lemma no_faults_defined xs cap k a w :
  0 ≤ k → no_faults w → ¬ destroys_dead_slot xs cap k a w.
Proof.
  intros Hk Hnf [_ H]. pose proof (ctor_ops_bounds (init_kind a)) as Hb. case_decide.
  - destruct H as (_ & _ & j & e & Hj & _ & He & _). rewrite Hnf in He; [done|lia].
  - destruct H as (_ & _ & [e He]). rewrite Hnf in He; [done|lia].
Qed.

Lemma thrown_by_fault_moved_out a w e :
  thrown_by_fault (moved_out a w) e → thrown_by_fault w e.
Proof.
  destruct (moved_out_fields a w) as (_ & _ & _ & _ & Hf & Ho & _).
  unfold thrown_by_fault. by rewrite Hf, Ho.
Qed.

Lemma alloc_refused_moved_out a w bytes :
  alloc_refused (moved_out a w) bytes → alloc_refused w bytes.
Proof.
  destruct (moved_out_fields a w) as (_ & _ & _ & _ & _ & _ & Hf & Ho).
  unfold alloc_refused. by rewrite Hf, Ho.
Qed.

(** Why an [Emplace] of arguments that designate an object threw. *)
Lemma Emplace_by_reference_failed_why this xs cap k a w e w' :
  (if decide (arg_consumed xs cap a w)
   then Emplace_failed this (after_use w this a xs) cap k a (moved_out a w) e w'
   else Emplace_failed this xs cap k a w e w') →
  (e = bad_alloc ∧ Z.of_nat (length xs) = cap ∧
   alloc_refused w (grown_capacity cap * Z.pos sizeof)) ∨
  thrown_by_fault w e.
Proof.
  case_decide; intros Hf; apply Emplace_failed_why in Hf; [|done].
  rewrite length_after_use in Hf. destruct Hf as [(? & ? & ?)|?].
  - left. split_and!; [done|done|by eapply alloc_refused_moved_out].
  - right. by eapply thrown_by_fault_moved_out.
Qed.

Lemma Emplace_returns this xs cap k a x w :
  is_vector w this xs cap → heap_wf w → 0 ≤ k ≤ Z.of_nat (length xs) →
  arg_value w a = Some x → no_faults w →
  (Z.of_nat (length xs) = cap → alloc_granted w (grown_capacity cap * Z.pos sizeof)) →
  ∃ r w', Emplace this (iterator_at w this k) a w = Ok r w' ∧
          Emplace_returned this (after_use w this a xs) cap k a x (moved_out a w) r w'.
Proof.
  intros Hvec Hwf Hk Hx Hnf Halloc.
  eapply wp_or_no_throw; [by apply Emplace_spec_by_reference| |apply no_faults_defined; [lia|done]].
  intros e w' Hf. apply Emplace_by_reference_failed_why in Hf as [(_ & Heq & Href)|Hth].
  - by apply (not_refused _ _ (Halloc Heq)).
  - by apply (no_faults_not_thrown w e Hnf).
Qed.

Lemma Erase_returns this xs cap k w :
  is_vector w this xs cap → heap_wf w → 0 ≤ k < Z.of_nat (length xs) → no_faults w →
  ∃ r w', Erase this (iterator_at w this k) w = Ok r w' ∧
          is_vector w' this (delete (Z.to_nat k) xs) cap ∧ heap_wf w' ∧ frame this w w' ∧
          r = iterator_at w' this k ∧ buffer_loc w' this = buffer_loc w this.
Proof.
  intros Hvec Hwf Hk Hnf. eapply wp_no_throw; [by apply Erase_spec|].
  intros e w' (_ & _ & _ & Hth & _). by apply (no_faults_not_thrown w e Hnf).
Qed.

Lemma Reserve_noop this xs cap n w :
  is_vector w this xs cap → n ≤ cap → Reserve this n w = Ok tt w.
Proof.
  intros (d & Hv & Hcap & _) Hle. unfold Reserve, get_data, bind, get_vec, RawMemory_Capacity.
  rewrite Hv. simpl. rewrite Hcap. by destruct (Z.leb_spec n cap); [|lia].
Qed.

Lemma Reserve_returns this xs cap n w :
  is_vector w this xs cap → heap_wf w → 0 ≤ n → n * Z.pos sizeof ≤ SIZE_MAX →
  no_faults w → (cap < n → alloc_granted w (n * Z.pos sizeof)) →
  ∃ w', Reserve this n w = Ok tt w'.
Proof.
  intros Hvec Hwf Hn Hsz Hnf Halloc.
  destruct (wp_no_throw (Reserve this n) w _ _ (Reserve_spec this xs cap n w Hvec Hwf Hn Hsz))
    as ([] & w' & Hrun & _); [|by exists w'].
  intros e w' (Hlt & _ & _ & _ & [[_ Href]|Hth]).
  - by apply (not_refused _ _ (Halloc Hlt)).
  - by apply (no_faults_not_thrown w e Hnf).
Qed.

Lemma Resize_returns this xs cap m w :
  is_vector w this xs cap → heap_wf w → 0 ≤ m → m * Z.pos sizeof ≤ SIZE_MAX →
  no_faults w → (cap < m → alloc_granted w (m * Z.pos sizeof)) →
  ∃ w', Resize this m w = Ok tt w'.
Proof.
  intros Hvec Hwf Hm Hsz Hnf Halloc.
  destruct (wp_no_throw (Resize this m) w _ _ (Resize_spec this xs cap m w Hvec Hwf Hm Hsz))
    as ([] & w' & Hrun & _); [|by exists w'].
  intros e w' (_ & _ & _ & _ & [(_ & Hlt & Href)|Hth]).
  - by apply (not_refused _ _ (Halloc Hlt)).
  - by apply (no_faults_not_thrown w e Hnf).
Qed.
End Returns.

(** * Counting constructor and destructor calls *)

Section Counting.
Context {T : Type} {ET : Element T}.
Implicit Types (w : World T) (xs ys zs : list T).

Lemma count_slot_events_at f g l s n i :
  0 ≤ n → (∀ i', f (g (InBuffer l i')) = bool_decide (i' = i)) →
  count_events f (slot_events g l s n) = if decide (s ≤ i < s + n) then 1%nat else 0%nat.
Proof.
  intros Hn Hf. revert n Hn. apply natlike_ind.
  - rewrite slot_events_nil by lia. rewrite decide_False by lia. done.
  - intros n Hn IH. unfold Z.succ. rewrite slot_events_snoc by lia.
    rewrite count_events_cons, IH, Hf.
    destruct (decide (s + n = i)) as [<-|Hne].
    + rewrite bool_decide_eq_true_2 by done.
      rewrite decide_False by lia. rewrite decide_True by lia. done.
    + rewrite bool_decide_eq_false_2 by done. simpl.
      destruct (decide (s ≤ i < s + n)).
      * by rewrite decide_True by lia.
      * by rewrite decide_False by lia.
Qed.

Lemma destroyed_slot_events l' i l s n :
  0 ≤ n →
  destroyed (InBuffer l' i) (slot_events EvDestroy l s n) =
  if decide (l' = l ∧ s ≤ i < s + n) then 1%nat else 0%nat.
Proof.
  intros Hn. unfold destroyed. destruct (decide (l' = l)) as [->|Hne].
  - rewrite (count_slot_events_at _ _ _ _ _ i) by
      (try done; intros i'; simpl; apply bool_decide_ext; split; congruence).
    destruct (decide (s ≤ i < s + n)).
    + by rewrite decide_True.
    + rewrite decide_False; [done|]. by intros [_ ?].
  - rewrite count_slot_events_none.
    + rewrite decide_False; [done|]. by intros [? _].
    + intros i'. simpl. apply bool_decide_eq_false_2. congruence.
Qed.

Lemma constructed_slot_events c l' i l s n :
  0 ≤ n →
  constructed (InBuffer l' i) (slot_events (EvConstruct c) l s n) =
  if decide (l' = l ∧ s ≤ i < s + n) then 1%nat else 0%nat.
Proof.
  intros Hn. unfold constructed. destruct (decide (l' = l)) as [->|Hne].
  - rewrite (count_slot_events_at _ _ _ _ _ i) by
      (try done; intros i'; simpl; apply bool_decide_ext; split; congruence).
    destruct (decide (s ≤ i < s + n)).
    + by rewrite decide_True.
    + rewrite decide_False; [done|]. by intros [_ ?].
  - rewrite count_slot_events_none.
    + rewrite decide_False; [done|]. by intros [? _].
    + intros i'. simpl. apply bool_decide_eq_false_2. congruence.
Qed.

Lemma destroyed_constructs p c l s n :
  destroyed p (slot_events (EvConstruct c) l s n) = 0%nat.
Proof. by apply count_slot_events_none. Qed.

Lemma constructed_destroys p l s n :
  constructed p (slot_events EvDestroy l s n) = 0%nat.
Proof. by apply count_slot_events_none. Qed.

Lemma destroyed_app p evs1 evs2 :
  destroyed p (evs1 ++ evs2) = (destroyed p evs1 + destroyed p evs2)%nat.
Proof. apply count_events_app. Qed.

Lemma constructed_app p evs1 evs2 :
  constructed p (evs1 ++ evs2) = (constructed p evs1 + constructed p evs2)%nat.
Proof. apply count_events_app. Qed.

Lemma destroyed_cons p e evs :
  destroyed p (e :: evs) = ((if is_destroy_of p e then 1 else 0) + destroyed p evs)%nat.
Proof. apply count_events_cons. Qed.

Lemma constructed_cons p e evs :
  constructed p (e :: evs) = ((if is_construct_of p e then 1 else 0) + constructed p evs)%nat.
Proof. apply count_events_cons. Qed.

Lemma is_at_slot l i k : bool_decide (InBuffer l i = InBuffer l k) = bool_decide (i = k).
Proof. apply bool_decide_ext. split; congruence. Qed.

(** The destructor and constructor calls in the new block during an
    [Emplace] at capacity in which the relocation of element [j], one of
    those before the insertion position [k], threw an exception that the
    handler catches. *)
Lemma grow_failure_counts nl k j a e bytes i :
  0 ≤ j < k → catch_std_exception e = true →
  let evs := grow_failure_events nl k j a e bytes in
  constructed (InBuffer nl i) evs =
    (if decide (i = k ∨ 0 ≤ i < j) then 1%nat else 0%nat) ∧
  destroyed (InBuffer nl i) evs = constructed (InBuffer nl i) evs.
Proof.
  intros Hj Hstd. cbv zeta. unfold grow_failure_events. rewrite Hstd.
  rewrite decide_True by lia.
  rewrite constructed_cons, !constructed_app, !constructed_cons, constructed_destroys.
  rewrite destroyed_cons, !destroyed_app, !destroyed_cons, destroyed_constructs.
  rewrite constructed_slot_events, destroyed_slot_events by lia.
  unfold constructed, destroyed. rewrite !count_events_nil. simpl.
  rewrite !is_at_slot.
  destruct (decide (i = k)) as [->|Hik].
  - rewrite !bool_decide_eq_true_2 by done.
    rewrite (decide_False (P := nl = nl ∧ 0 ≤ k < 0 + j)) by (intros [_ ?]; lia).
    rewrite decide_True by (by left). done.
  - rewrite !bool_decide_eq_false_2 by done.
    destruct (decide (nl = nl ∧ 0 ≤ i < 0 + j)) as [[_ ?]|Hno].
    + rewrite !decide_True; [done|right; lia].
    + rewrite !decide_False; [done|]. intros [?|?]; [done|]. apply Hno. split; [done|lia].
Qed.
End Counting.

(** * An exception during the relocation of Emplace *)

Section StrongGuarantee.
Context {T : Type} {ET : Element T}.
Implicit Types (w : World T) (xs ys zs : list T).

Lemma relocation_kind_copy : relocate_by_move = false → relocation_kind = CopyCtor.
Proof. unfold relocation_kind. by intros ->. Qed.

Lemma relocation_throws_moved_out this xs a x j e w :
  relocation_throws xs a j e w →
  relocation_throws (after_use w this a xs) (from_outside a x) j e (moved_out a w).
Proof.
  destruct (moved_out_fields a w) as (_ & _ & _ & _ & Hf & Ho & _).
  unfold relocation_throws. by rewrite length_after_use, init_kind_from_outside, Hf, Ho.
Qed.

(** The outcome of an [Emplace] at capacity in which the construction of
    the new element succeeds and the relocation of element [j] is the
    first operation to throw. *)
Lemma Emplace_relocation_throws this xs k a x j e w :
  is_vector w this xs (Z.of_nat (length xs)) → heap_wf w →
  0 ≤ k ≤ Z.of_nat (length xs) → arg_value w a = Some x →
  alloc_granted w (grown_capacity (Z.of_nat (length xs)) * Z.pos sizeof) →
  ctor_may_throw relocation_kind = true →
  relocation_throws xs a j e w →
  match Emplace this (iterator_at w this k) a w with
  | Ok _ _ => False
  | Throw e' w' =>
      e' = e ∧ (k ≤ j → catch_std_exception e = false) ∧
      is_vector w' this (relocate_prefix j (after_use w this a xs)) (Z.of_nat (length xs)) ∧
      heap_wf w' ∧ frame this (moved_out a w) w' ∧
      blocks w' !! next_loc w = None ∧
      events_since w w'
        (grow_failure_events (next_loc w) k j a e
           (grown_capacity (Z.of_nat (length xs)) * Z.pos sizeof)) ∧
      (catch_std_exception e = true → ∀ i, cells w' !! (next_loc w, i) = None)
  | Undef => k ≤ j ∧ catch_std_exception e = true
  end.
Proof.
  intros Hvec Hwf Hk Hx Halloc Hmay (Hj & Hnew & Hbefore & Hat).
  assert (arg_consumed xs (Z.of_nat (length xs)) a w) as Hcons by done.
  pose proof (Emplace_spec_by_reference this xs _ k a x w Hvec Hwf Hk Hx) as Hrun.
  unfold wp_or in Hrun.
  destruct (moved_out_fields a w) as (_ & _ & Hnl & Htr & Hf & Ho & Haf & Had).
  destruct (Emplace this (iterator_at w this k) a w) as [r w'|e' w'|].
  - (* it cannot return *)
    unfold Emplace_returned in Hrun. rewrite length_after_use, decide_True in Hrun by done.
    destruct Hrun as (_ & _ & _ & Hnone). rewrite length_after_use, Hf, Ho in Hnone.
    rewrite Hnone in Hat; done.
  - rewrite decide_True in Hrun by done.
    unfold Emplace_failed in Hrun. rewrite length_after_use, decide_True in Hrun by done.
    unfold Emplace_grow_failed in Hrun. rewrite length_after_use, Hf, Ho, Hnl in Hrun.
    destruct Hrun as (Hwf' & Hfr & Hgone & [(_ & Href & _)|[(_ & Hm & Hf' & _)|Hrel]]).
    + apply alloc_refused_moved_out in Href. by destruct (not_refused _ _ Halloc).
    + rewrite Hnew in Hf' by done. done.
    + destruct Hrel as (j' & Hj' & _ & _ & _ & Hbefore' & Hat' & Hstd & Hv' & Hev & Hclean).
      assert (j' = j) as ->.
      { destruct (Z.lt_trichotomy j' j) as [?|[?|?]]; [|done|].
        - rewrite Hbefore in Hat' by lia. done.
        - rewrite Hbefore' in Hat by lia. done. }
      rewrite Hat in Hat'. injection Hat' as <-.
      split_and!; try done. unfold events_since in *. by rewrite <- Htr.
  - destruct Hrun as [_ Hrun]. rewrite decide_True in Hrun by done.
    destruct Hrun as (_ & _ & j' & e' & Hj' & Hbefore' & Hat' & Hstd).
    assert (j' = j) as ->.
    { destruct (Z.lt_trichotomy j' j) as [?|[?|?]]; [|done|].
      - rewrite Hbefore in Hat' by lia. done.
      - rewrite Hbefore' in Hat by lia. done. }
    rewrite Hat in Hat'. injection Hat' as <-. split; [lia|done].
Qed.

(** The strong guarantee of a type that is relocated by copy, when a copy
    of one of the elements before the insertion position throws. *)
Lemma Emplace_prefix_copy_throws this xs k a x j e w :
  relocate_by_move = false →
  is_vector w this xs (Z.of_nat (length xs)) → heap_wf w →
  0 ≤ k ≤ Z.of_nat (length xs) → arg_value w a = Some x → moved_slot a = None →
  alloc_granted w (grown_capacity (Z.of_nat (length xs)) * Z.pos sizeof) →
  relocation_throws xs a j e w → j < k →
  ∃ w', Emplace this (iterator_at w this k) a w = Throw e w' ∧
        is_vector w' this xs (Z.of_nat (length xs)) ∧
        heap_wf w' ∧ frame this w w' ∧
        blocks w' !! next_loc w = None ∧
        (catch_std_exception e = true → new_block_cleaned (next_loc w) k j w w').
Proof.
  intros Hcopy Hvec Hwf Hk Hx Hm Halloc Hthrows Hjk.
  pose proof (relocation_kind_copy Hcopy) as Hkind.
  assert (ctor_may_throw relocation_kind = true) as Hmay by (by rewrite Hkind).
  pose proof (Emplace_relocation_throws this xs k a x j e w Hvec Hwf Hk Hx Halloc Hmay Hthrows)
    as Hrun.
  rewrite (moved_out_not_moved _ _ Hm), (after_use_not_moved _ _ _ _ Hm) in Hrun.
  destruct (Emplace this (iterator_at w this k) a w) as [r w'|e' w'|]; [done| |lia].
  destruct Hrun as (-> & _ & Hv' & Hwf' & Hfr & Hgone & Hev & Hclean).
  rewrite (relocate_prefix_copy _ _ Hcopy) in Hv'.
  exists w'. split_and!; try done.
  intros Hstd. eexists. split; [exact Hev|]. split; [|by apply Hclean].
  intros i. apply grow_failure_counts; [|done]. destruct Hthrows as [? _]. lia.
Qed.

(** When the relocation of an element at or after the insertion position
    throws an exception derived from [std::exception], the inner handler
    destroys the new element with the relocated prefix, and the outer
    handler destroys the new element a second time. *)
Lemma Emplace_suffix_relocation_undefined this xs k a x j e w :
  is_vector w this xs (Z.of_nat (length xs)) → heap_wf w →
  0 ≤ k ≤ Z.of_nat (length xs) → arg_value w a = Some x →
  alloc_granted w (grown_capacity (Z.of_nat (length xs)) * Z.pos sizeof) →
  ctor_may_throw relocation_kind = true →
  relocation_throws xs a j e w → k ≤ j → catch_std_exception e = true →
  Emplace this (iterator_at w this k) a w = Undef.
Proof.
  intros Hvec Hwf Hk Hx Halloc Hmay Hthrows Hkj Hstd.
  pose proof (Emplace_relocation_throws this xs k a x j e w Hvec Hwf Hk Hx Halloc Hmay Hthrows)
    as Hrun.
  destruct (Emplace this (iterator_at w this k) a w) as [r w'|e' w'|]; [done| |done].
  destruct Hrun as (_ & Hno & _). rewrite Hno in Hstd; done.
Qed.
End StrongGuarantee.

(** * Sample worlds *)

Section Samples.
Context {T : Type} {ET : Element T}.
Implicit Types (w : World T) (xs ys zs : list T).

Lemma lookup_cells_from l s xs l' i :
  cells_from l s xs !! (l', i) =
  if decide (l' = l ∧ s ≤ i) then lookupZ xs (i - s) else None.
Proof.
  revert s. induction xs as [|x xs IH]; intros s; simpl.
  - rewrite lookup_empty. case_decide; [|done]. by rewrite lookupZ_nil.
  - destruct (decide ((l', i) = (l, s))) as [[= -> ->]|Hne].
    + rewrite lookup_insert_eq, decide_True by (split; [done|lia]).
      by rewrite Z.sub_diag.
    + rewrite lookup_insert_ne by done. rewrite IH.
      destruct (decide (l' = l ∧ s ≤ i)) as [[-> Hs]|Hno].
      * assert (i ≠ s) by (intros ->; by apply Hne).
        rewrite decide_True by (split; [done|lia]).
        unfold lookupZ. rewrite !decide_True by lia.
        replace (Z.to_nat (i - s)) with (S (Z.to_nat (i - (s + 1)))) by lia. done.
      * rewrite decide_False; [done|]. intros [-> ?]. apply Hno. split; [done|lia].
Qed.

Lemma start_inv faults alloc_faults : world_inv (start faults alloc_faults).
Proof.
  split_and!.
  - split; [intros l bytes|intros l i _]; simpl; by rewrite lookup_empty.
  - intros a [v Hv]. simpl in Hv. by rewrite lookup_empty in Hv.
  - intros a b _ l. unfold buffer_loc. simpl. by rewrite lookup_empty.
Qed.

Lemma with_vector_holds a xs cap w :
  heap_wf w → 0 < cap → Z.of_nat (length xs) ≤ cap →
  is_vector (with_vector a xs cap w) a xs cap.
Proof.
  intros [Hwf1 Hwf2] Hcap Hlen. eexists. split_and!; [apply lookup_insert_eq|done|].
  split; [simpl; lia|]. split; [done|]. simpl. split_and!; [done|done|].
  exists (cap * Z.pos sizeof). split_and!; [apply lookup_insert_eq|done|].
  intros i. rewrite lookup_union, lookup_cells_from, Hwf2 by lia.
  destruct (decide (0 ≤ i)).
  - rewrite decide_True by done. rewrite Z.sub_0_r. by destruct (lookupZ xs i).
  - rewrite decide_False by (intros [_ ?]; lia). simpl. symmetry. apply lookupZ_None. lia.
Qed.

Lemma with_vector_frame a xs cap w : heap_wf w → frame a w (with_vector a xs cap w).
Proof.
  intros [Hwf1 Hwf2]. unfold frame. simpl. split_and!; auto; try lia.
  - intros b Hb. by rewrite lookup_insert_ne.
  - intros l Hl _. split.
    + rewrite lookup_insert_ne; [done|lia].
    + intros i. rewrite lookup_union, lookup_cells_from.
      rewrite decide_False by (intros [-> _]; lia). by destruct (cells w !! (l, i)).
  - intros l. unfold buffer_loc at 1. simpl. rewrite lookup_insert_eq. simpl.
    intros [= <-]. right. lia.
Qed.

Lemma with_vector_wf a xs cap w :
  heap_wf w → 0 < cap → cap * Z.pos sizeof ≤ PTRDIFF_MAX → heap_wf (with_vector a xs cap w).
Proof.
  intros [Hwf1 Hwf2] Hcap Hsz. split; simpl.
  - intros l bytes. destruct (decide (l = next_loc w)) as [->|].
    + rewrite lookup_insert_eq. intros [= <-]. split; [lia|]. lia.
    + rewrite lookup_insert_ne by done. intros Hb. apply Hwf1 in Hb. lia.
  - intros l i Hl. rewrite lookup_union, lookup_cells_from.
    rewrite decide_False by (intros [-> _]; lia). rewrite Hwf2 by lia. done.
Qed.

Lemma with_vector_inv a xs cap w :
  world_inv w → 0 < cap → Z.of_nat (length xs) ≤ cap → cap * Z.pos sizeof ≤ PTRDIFF_MAX →
  world_inv (with_vector a xs cap w).
Proof.
  intros Hinv Hcap Hlen Hsz. pose proof Hinv as (Hwf & _).
  eapply world_inv_frame; [done|by apply with_vector_frame|by apply with_vector_wf|].
  intros _. exists xs, cap. by apply with_vector_holds.
Qed.

Lemma with_vector_keeps a b xs ys cap cb w :
  world_inv w → a ≠ b → is_vector w b ys cb → is_vector (with_vector a xs cap w) b ys cb.
Proof.
  intros (Hwf & _ & Hsep) Hne Hv.
  eapply is_vector_frame; [by apply with_vector_frame|done|done|by apply Hsep|done].
Qed.
End Samples.

(** * The claims *)

Section Claims.
Context {T : Type} {ET : Element T}.
Implicit Types (w : World T) (xs ys zs : list T).

(** C1. Where the code departs from the claim.  For a Vector at capacity
    and every position [k]: if, in Emplace, the allocation and the
    construction of the new element succeed and the first operation to
    throw is the relocation (by copy, or by a move that may throw) of an
    element at or after [k], with an exception derived from
    [std::exception], then the inner handler destroys the slots [0, k] of
    the new buffer, the new element among them, and the outer handler
    destroys the new element again: it is destroyed twice, not exactly
    once, and the behaviour of the call is undefined. *)
Theorem C1_suffix_relocation_failure this xs k a x j e w :
  is_vector w this xs (Z.of_nat (length xs)) → heap_wf w →
  0 ≤ k ≤ Z.of_nat (length xs) → arg_value w a = Some x →
  alloc_granted w (grown_capacity (Z.of_nat (length xs)) * Z.pos sizeof) →
  ctor_may_throw relocation_kind = true →
  relocation_throws xs a j e w → k ≤ j → catch_std_exception e = true →
  Emplace this (iterator_at w this k) a w = Undef.
Proof. apply Emplace_suffix_relocation_undefined. Qed.

(** C2 (as amended). Creating a RawMemory for [n] slots (a [size_t]):
    with [n = 0] it is the null block and no allocation call is made;
    with [n <> 0] the request is [n * sizeof(T)] computed in [size_t], that
    is modulo 2^64, whether the product overflows or not; the creation
    fails with [std::bad_alloc] exactly when the allocator refuses that
    request, and otherwise returns a fresh block of that many bytes with
    capacity [n]. *)
Theorem C2_creation n w :
  0 ≤ n ≤ SIZE_MAX →
  (n = 0 → RawMemory_ctor n w = Ok (mkRawMemory nullptr 0) w) ∧
  (n ≠ 0 →
   let bytes := (n * Z.pos sizeof) mod (SIZE_MAX + 1) in
   (alloc_refused w bytes →
    RawMemory_ctor n w = Throw bad_alloc (alloc_failed bytes w)) ∧
   (alloc_granted w bytes →
    RawMemory_ctor n w = Ok (mkRawMemory (Ptr (next_loc w) 0) n) (allocated bytes w)) ∧
   ((∃ w', RawMemory_ctor n w = Throw bad_alloc w') ↔ alloc_refused w bytes)).
Proof.
  intros Hn. split.
  - intros ->. done.
  - intros Hne. cbv zeta. fold (size_t (n * Z.pos sizeof)).
    set (bytes := size_t (n * Z.pos sizeof)).
    assert (RawMemory_ctor n w =
            if alloc_fault_at w (allocs_done w) || (PTRDIFF_MAX <? bytes)
            then Throw bad_alloc (alloc_failed bytes w)
            else Ok (mkRawMemory (Ptr (next_loc w) 0) n) (allocated bytes w)) as Hrun.
    { unfold RawMemory_ctor, Allocate, bind. rewrite decide_True by done.
      unfold operator_new. fold bytes.
      by destruct (alloc_fault_at w (allocs_done w) || (PTRDIFF_MAX <? bytes)). }
    assert (alloc_refused w bytes ↔
            alloc_fault_at w (allocs_done w) || (PTRDIFF_MAX <? bytes) = true) as Hiff.
    { unfold alloc_refused. rewrite orb_true_iff, Z.ltb_lt. done. }
    split_and!.
    + intros Href. apply Hiff in Href. by rewrite Hrun, Href.
    + intros [Hf Hb]. rewrite Hrun, Hf. simpl.
      by destruct (Z.ltb_spec PTRDIFF_MAX bytes); [lia|].
    + rewrite Hiff, Hrun.
      destruct (alloc_fault_at w (allocs_done w) || (PTRDIFF_MAX <? bytes)).
      * split; [done|]. intros _. by eexists.
      * split; [|done]. by intros [w' ?].
Qed.

(** C5. After the move assignment [a = std::move(b)], [a] holds the
    elements, size, capacity and buffer that [b] had, and [b] holds those
    that [a] had; no element is constructed, assigned or destroyed, and
    nothing is allocated or released. *)
Theorem C5_move_assignment_swaps a b xs ys ca cb w :
  is_vector w a xs ca → is_vector w b ys cb →
  ∃ w', assign_move a b w = Ok tt w' ∧
        is_vector w' a ys cb ∧ is_vector w' b xs ca ∧
        buffer_loc w' a = buffer_loc w b ∧ buffer_loc w' b = buffer_loc w a ∧
        trace w' = trace w ∧ cells w' = cells w ∧ blocks w' = blocks w.
Proof.
  intros Ha Hb.
  destruct (Swap_spec a b xs ys ca cb w Ha Hb)
    as (w' & Hrun & Ha' & Hb' & Hla & Hlb & _ & Hbl & Hce & _ & Htr & _).
  exists w'. split_and!; done.
Qed.

(** The constructor calls of a relocation are of one kind, chosen by the
    two traits of the element type. *)
Lemma relocation_kind_traits :
  relocation_kind =
  if is_nothrow_move_constructible || negb is_copy_constructible then MoveCtor else CopyCtor.
Proof. done. Qed.

(** C7 (as amended). [Reserve(n)], for [n] whose size in bytes fits
    [size_t]: when [n <= Capacity()] nothing changes; otherwise, when it
    returns, the capacity is exactly [n], size and elements are
    unchanged, and every element was relocated by one constructor call,
    a move construction when the move constructor is noexcept or the
    type is not copyable and a copy construction otherwise; a second
    [Reserve(n)] changes nothing, so the capacity after two calls is the
    capacity after one.  It returns whenever no element operation throws
    and the allocation succeeds. *)
Theorem C7_Reserve this xs cap n w :
  is_vector w this xs cap → heap_wf w → 0 ≤ n → n * Z.pos sizeof ≤ SIZE_MAX →
  wp (Reserve this n) w
     (λ _ w', (n ≤ cap → w' = w) ∧
              (cap < n →
               is_vector w' this xs n ∧
               ∃ evs, events_since w w' evs ∧
                      constructions relocation_kind evs = length xs ∧
                      ∀ k, k ≠ relocation_kind → constructions k evs = 0%nat) ∧
              Reserve this n w' = Ok tt w')
     (λ _ _, cap < n) ∧
  relocation_kind =
    (if is_nothrow_move_constructible || negb is_copy_constructible
     then MoveCtor else CopyCtor) ∧
  (no_faults w → (cap < n → alloc_granted w (n * Z.pos sizeof)) →
   ∃ w', Reserve this n w = Ok tt w').
Proof.
  intros Hvec Hwf Hn Hsz. split_and!.
  - eapply wp_mono; [by apply Reserve_spec| |].
    + intros [] w' Hr. destruct (decide (n ≤ cap)) as [Hle|Hgt].
      * subst w'. split_and!; [done|lia|by eapply Reserve_noop].
      * destruct Hr as (Hv & _ & _ & Hev). split_and!; [lia|done|].
        eapply Reserve_noop; [done|lia].
    + by intros e w' [? _].
  - apply relocation_kind_traits.
  - by eapply Reserve_returns.
Qed.

(** C8 (as amended). [Resize(m)], for [m] whose size in bytes fits
    [size_t]: with [m <= Size()] it destroys the elements of the slots
    [m, Size()), the size becomes [m], and the capacity and the first
    [m] elements are unchanged; with [m > Size()], when it returns, it
    has run [Reserve(m)], default-constructed the slots [Size(), m), and
    set the size to [m], the old elements keeping their values.  It
    returns whenever no element operation throws and the allocation
    succeeds. *)
Theorem C8_Resize this xs cap m w :
  is_vector w this xs cap → heap_wf w → 0 ≤ m → m * Z.pos sizeof ≤ SIZE_MAX →
  wp (Resize this m) w
     (λ _ w', Resize_done this xs cap m w w')
     (λ _ _, Z.of_nat (length xs) < m) ∧
  (no_faults w → (cap < m → alloc_granted w (m * Z.pos sizeof)) →
   ∃ w', Resize this m w = Ok tt w').
Proof.
  intros Hvec Hwf Hm Hsz. split.
  - eapply wp_mono; [by apply Resize_spec|done|]. by intros e w' [? _].
  - by eapply Resize_returns.
Qed.
End Claims.

(** * Capacity growth *)

Section Growth.
Context {T : Type} {ET : Element T}.
Implicit Types (w : World T) (xs ys zs : list T).

Lemma doubled_step n : 0 ≤ n → doubled (n + 1) = capacity_after_insert n (doubled n).
Proof.
  intros Hn. unfold doubled, capacity_after_insert, grown_capacity.
  rewrite (decide_False (P := n + 1 ≤ 0)) by lia.
  destruct (decide (n ≤ 0)) as [H0|Hpos].
  { assert (n = 0) as -> by lia. done. }
  destruct (decide (n = 1)) as [->|Hn1]; [done|].
  pose proof (Z.log2_up_spec n ltac:(lia)) as [Hlo Hhi].
  pose proof (Z.log2_up_nonneg n) as Hp0.
  assert (0 < Z.log2_up n) as Hp by (apply Z.log2_up_pos; lia).
  set (p := Z.log2_up n) in *.
  assert (0 < 2 ^ p) by (apply Z.pow_pos_nonneg; lia).
  destruct (decide (n = 2 ^ p)) as [Heq|Hne].
  - rewrite (Z.log2_up_unique (n + 1) (p + 1)).
    + rewrite Z.pow_add_r by lia. change (2 ^ 1) with 2. lia.
    + lia.
    + replace (Z.pred (p + 1)) with p by lia. rewrite Z.pow_add_r by lia.
      change (2 ^ 1) with 2. lia.
  - rewrite (Z.log2_up_unique (n + 1) p); [done|lia|]. fold p in Hlo. lia.
Qed.

Lemma doubled_mono n m : n ≤ m → doubled n ≤ doubled m.
Proof.
  intros Hnm. unfold doubled. destruct (decide (n ≤ 0)).
  - destruct (decide (m ≤ 0)); [lia|]. apply Z.pow_nonneg. lia.
  - rewrite decide_False by lia. apply Z.pow_le_mono_r; [lia|]. by apply Z.log2_up_le_mono.
Qed.

Lemma PushBack_returns this xs cap x w :
  is_vector w this xs cap → heap_wf w → no_faults w →
  (Z.of_nat (length xs) = cap → alloc_granted w (grown_capacity cap * Z.pos sizeof)) →
  ∃ w', PushBack this (Outside x) w = Ok tt w' ∧
        is_vector w' this (xs ++ [x]) (capacity_after_insert (Z.of_nat (length xs)) cap) ∧
        heap_wf w' ∧ frame this w w'.
Proof.
  intros Hvec Hwf Hnf Halloc.
  destruct (Emplace_returns this xs cap (Z.of_nat (length xs)) (ByCopy (Outside x)) x w)
    as (r & w' & Hrun & Hret); [done|done|lia|done|done|done|].
  apply Emplace_returned_done in Hret as (Hv & Hwf' & Hfr & _).
  rewrite inserted_at_end in Hv. exists w'. split_and!; try done.
  unfold PushBack, bind. by rewrite (EmplaceBack_run _ _ _ _ _ Hvec), Hrun.
Qed.

Lemma push_all_spec this zs : ∀ ys w,
  is_vector w this ys (doubled (Z.of_nat (length ys))) → heap_wf w →
  no_faults w → no_alloc_faults w →
  doubled (Z.of_nat (length ys + length zs)) * Z.pos sizeof ≤ PTRDIFF_MAX →
  ∃ w', push_all this zs w = Ok tt w' ∧
        is_vector w' this (ys ++ zs) (doubled (Z.of_nat (length ys + length zs))) ∧
        heap_wf w' ∧ frame this w w'.
Proof.
  induction zs as [|z zs IH]; intros ys w Hvec Hwf Hnf Hnaf Hmem.
  - exists w. rewrite app_nil_r, Nat.add_0_r. split_and!; [done|done|done|apply frame_refl].
  - destruct (PushBack_returns this ys _ z w Hvec Hwf Hnf) as (w1 & Hrun & Hv1 & Hwf1 & Hfr1).
    { intros Heq. split; [apply Hnaf; lia|].
      pose proof (doubled_step (Z.of_nat (length ys)) ltac:(lia)) as Hstep.
      unfold capacity_after_insert in Hstep. rewrite decide_True in Hstep by done.
      rewrite <- Hstep.
      pose proof (doubled_mono (Z.of_nat (length ys) + 1)
                    (Z.of_nat (length ys + length (z :: zs)))) as Hmono.
      simpl length in *. pose proof (Pos2Z.is_pos sizeof). nia. }
    rewrite <- doubled_step in Hv1 by lia.
    destruct (IH (ys ++ [z]) w1) as (w' & Hrun' & Hv' & Hwf' & Hfr').
    + rewrite length_app. simpl. by replace (Z.of_nat (length ys + 1)) with (Z.of_nat (length ys) + 1) by lia.
    + done.
    + by eapply no_faults_frame.
    + by eapply no_alloc_faults_frame.
    + rewrite length_app. simpl in *. by replace (length ys + 1 + length zs)%nat with (length ys + S (length zs))%nat by lia.
    + exists w'. rewrite length_app in Hv'. simpl in *.
      replace (length ys + 1 + length zs)%nat with (length ys + S (length zs))%nat in Hv' by lia.
      rewrite <- app_assoc in Hv'. simpl in Hv'.
      split_and!; [|done|done|by eapply frame_trans].
      unfold bind. by rewrite Hrun.
Qed.
End Growth.

(** * The claims, continued *)

Section MoreClaims.
Context {T : Type} {ET : Element T}.
Implicit Types (w : World T) (xs ys zs : list T) (a : init T) (x : T).

Lemma grown_capacity_max cap : grown_capacity cap = Z.max 1 (2 * cap).
Proof. done. Qed.

(** C3. [EmplaceBack(args)] is [Emplace(end(), args)] and [PushBack] is
    [EmplaceBack] with the value copied or moved; an insertion at any
    position of a Vector with [Size() == Capacity()], of arguments that
    designate an object of value [x], that returns leaves the capacity
    [max(1, 2 * old capacity)] and [x] at that position (the other
    elements as the construction of the new one left them: unchanged,
    unless it moved from one of them), and it returns whenever no
    element operation throws and the allocation succeeds; the behaviour
    is undefined on the exit [destroys_dead_slot] only, where the
    relocation of an element at or after the position throws an exception
    derived from [std::exception]; so the capacities of a Vector that
    starts empty are, after [n] appends, 0 for [n = 0] and the least
    power of two not below [n] otherwise: 0, 1, 2, 4, 4, 8, ... *)
Theorem C3_growth (this : addr) :
  (∀ a, EmplaceBack this a = bind (Vector_end this) (λ last, Emplace this last a)) ∧
  (∀ r, PushBack this r = bind (EmplaceBack this (ByCopy r)) (λ _, ret tt)) ∧
  (∀ r, PushBack_move this r = bind (EmplaceBack this (ByMove r)) (λ _, ret tt)) ∧
  (∀ xs k a x w,
     is_vector w this xs (Z.of_nat (length xs)) → heap_wf w →
     0 ≤ k ≤ Z.of_nat (length xs) → arg_value w a = Some x →
     wp_or (Emplace this (iterator_at w this k) a) w
        (λ _ w', is_vector w' this (inserted k x (after_use w this a xs))
                   (Z.max 1 (2 * Z.of_nat (length xs))))
        (λ _ _, True)
        (destroys_dead_slot xs (Z.of_nat (length xs)) k a w) ∧
     (moved_slot a = None → after_use w this a xs = xs) ∧
     (no_faults w →
      alloc_granted w (Z.max 1 (2 * Z.of_nat (length xs)) * Z.pos sizeof) →
      ∃ r w', Emplace this (iterator_at w this k) a w = Ok r w')) ∧
  (∀ zs w,
     is_vector w this [] 0 → heap_wf w → no_faults w → no_alloc_faults w →
     doubled (Z.of_nat (length zs)) * Z.pos sizeof ≤ PTRDIFF_MAX →
     ∃ w', push_all this zs w = Ok tt w' ∧
           is_vector w' this zs (doubled (Z.of_nat (length zs)))).
Proof.
  split_and!; try done.
  - intros xs k a x w Hvec Hwf Hk Hx. split_and!.
    + eapply wp_mono; [by apply Emplace_spec_by_reference| |done].
      intros r w' Hret. apply Emplace_returned_done in Hret as (Hv & _).
      rewrite length_after_use in Hv. unfold capacity_after_insert in Hv.
      by rewrite decide_True in Hv.
    + apply after_use_not_moved.
    + intros Hnf Halloc.
      destruct (Emplace_returns this xs _ k a x w Hvec Hwf Hk Hx Hnf) as (r & w' & Hrun & _);
        [done|by exists r, w'].
  - intros zs w Hvec Hwf Hnf Hnaf Hmem.
    destruct (push_all_spec this zs [] w) as (w' & Hrun & Hv & _); try done.
    by exists w'.
Qed.

(** C4 (as amended). Every operation of Vector, called within its contract
    (a constructor on a fresh object, a position inside the array,
    PopBack on a non-empty array, a requested size whose size in bytes
    fits [size_t], a reference that designates an object) in a state where
    every Vector satisfies the invariant (0 <= size <= capacity, slots
    [0, size) constructed, slots [size, capacity) uninitialized), leaves
    every Vector satisfying it when it returns, and also when it throws,
    three exits of an Emplace or Insert before end() apart: with spare
    capacity, the last step, the move assignment of the new value into
    its slot, throws ([last_assign_threw]: the Vector is left with one
    more constructed slot than its size); with spare capacity, the move
    construction of the last element into slot [Size()] throws; at
    capacity, the relocation of an element at or after the position
    throws an exception derived from [std::exception] (on these two,
    [reaches_dead_slot], a handler destroys a slot that holds no object
    and the behaviour is undefined). *)
Theorem C4_invariant this (op : operation) w :
  world_inv w → callable w this op →
  match call this op w with
  | Ok _ w' => world_inv w'
  | Throw e w' => world_inv w' ∨ last_assign_threw w this op e w'
  | Undef => reaches_dead_slot w this op
  end.
Proof.
  intros Hinv Hcall.
  pose proof (call_keeps_invariant this op w Hinv Hcall) as H. unfold wp_or in H.
  destruct (call this op w) as [r w'|e w'|]; [by destruct H|by destruct H|done].
Qed.

(** C6. Copy assignment [a = b] of two different Vectors, when it
    returns: if [b.Size() > a.Capacity()] a copy of [b] was built in a new
    block of exactly [b.Size()] slots and took the place of [a]'s members,
    whose elements were destroyed and whose block was released; otherwise
    [a]'s block is still its buffer, the first [min] elements were copy
    assigned, and the rest of [b] was copy constructed or the rest of [a]
    destroyed; in both cases [a] holds [b]'s elements and [b] is
    unchanged, and whatever operation is then called on [a] (other than a
    swap or a move assignment with [b] itself, or an insertion that is
    asked to move from an element of [b]), [b] still holds them when the
    call returns or throws; the one call whose behaviour is undefined is
    an insertion that reaches an exit of [reaches_dead_slot].  The
    assignment returns whenever no element operation throws and the
    allocation succeeds. *)
Theorem C6_copy_assignment (a b : addr) xs ys ca cb w :
  a ≠ b → world_inv w → is_vector w a xs ca → is_vector w b ys cb →
  wp (assign_copy a b) w
     (λ _ w', assigned a xs ys ca w w' ∧ is_vector w' b ys cb ∧
              ∀ op, callable w' a op → exchanged_with op ≠ Some b →
                    ¬ moves_from w' op b →
                    wp_or (call a op) w'
                       (λ _ w'', is_vector w'' b ys cb)
                       (λ _ w'', is_vector w'' b ys cb)
                       (reaches_dead_slot w' a op))
     (λ _ _, True) ∧
  (no_faults w →
   (ca < Z.of_nat (length ys) → alloc_granted w (Z.of_nat (length ys) * Z.pos sizeof)) →
   ∃ w', assign_copy a b w = Ok tt w').
Proof.
  intros Hne Hinv Ha Hb. pose proof Hinv as (Hwf & Hvi & Hsep).
  pose proof (assign_copy_spec a b xs ys ca cb w Hne Ha Hb Hwf (Hsep a b Hne)) as Hspec.
  split.
  - eapply wp_mono; [exact Hspec| |done].
    intros [] w' Hass. pose proof Hass as (Hwf' & Hfr & Hv' & _).
    assert (is_vector w' b ys cb) as Hb'.
    { eapply is_vector_frame; [done|done|done|by apply Hsep|done]. }
    assert (world_inv w') as Hinv'.
    { eapply world_inv_frame; [done|done|done|]. intros _. by eexists _, _. }
    split_and!; [done|done|].
    intros op Hcall Hop Hmv.
    eapply wp_mono; [by apply call_keeps_invariant| |].
    + intros _ w'' [_ Hk]. apply Hk; [by intros ->|done|done|done].
    + intros e w'' [_ Hk]. apply Hk; [by intros ->|done|done|done].
  - intros Hnf Halloc.
    destruct (wp_no_throw _ _ _ _ Hspec) as ([] & w' & Hrun & _); [|by exists w'].
    intros e w' (_ & _ & _ & [(_ & Hlt & Href)|Hth]).
    + by apply (not_refused _ _ (Halloc Hlt)).
    + by apply (no_faults_not_thrown w e Hnf).
Qed.

Lemma iterator_at_buffer_loc w this xs cap k :
  is_vector w this xs cap →
  iterator_at w this k =
  match buffer_loc w this with Some l => Ptr l k | None => nullptr end.
Proof.
  intros (d & Hv & _ & _ & _ & Hbuf). unfold iterator_at, buffer_loc. rewrite Hv. simpl.
  destruct (buffer_ d) as [|l o]; [done|]. destruct Hbuf as (-> & _). done.
Qed.

Lemma thrown_by_fault_frame this w w' e :
  frame this w w' → thrown_by_fault w' e → thrown_by_fault w e.
Proof.
  intros (_ & _ & _ & Hf & _ & Hops & _) (k & Hk & He). exists k. split; [lia|].
  by rewrite <- Hf.
Qed.

(** [Erase] followed by [Emplace] at the same position, of arguments
    that designate an object of value [v] once [Erase] has returned, and
    do not move from an element of the Vector. *)
Lemma wp_erase_emplace this xs cap k a v w :
  is_vector w this xs cap → heap_wf w → 0 ≤ k < Z.of_nat (length xs) →
  (∀ p w1, Erase this (iterator_at w this k) w = Ok p w1 → arg_value w1 a = Some v) →
  (∀ l i, moved_slot a = Some (Ptr l i) → buffer_loc w this ≠ Some l) →
  wp_or (bind (Erase this (iterator_at w this k))
              (λ _, Emplace this (iterator_at w this k) a)) w
     (λ r w', is_vector w' this (<[Z.to_nat k := v]> xs) cap ∧
              r = iterator_at w' this k)
     (λ e _, thrown_by_fault w e)
     (∃ p w1, Erase this (iterator_at w this k) w = Ok p w1 ∧
              destroys_dead_slot (delete (Z.to_nat k) xs) cap k a w1).
Proof.
  intros Hvec Hwf Hk Harg Hmv.
  assert (Z.of_nat (length xs) ≤ cap) as Hle by (destruct Hvec as (? & _ & <- & _ & ? & _); done).
  pose proof (Erase_spec this xs cap k w Hvec Hwf Hk) as Herase.
  unfold wp_or in Herase |- *. unfold bind.
  destruct (Erase this (iterator_at w this k) w) as [p w1|e w1|] eqn:Hrun; [| |done].
  2:{ by destruct Herase as (_ & _ & _ & ? & _). }
  destruct Herase as (Hv1 & Hwf1 & Hfr1 & _ & Hsame).
  pose proof (Harg p w1 eq_refl) as Hx.
  assert (length (delete (Z.to_nat k) xs) = (length xs - 1)%nat) as Hld.
  { rewrite length_delete; [done|]. apply lookup_lt_is_Some. lia. }
  assert (after_use w1 this a (delete (Z.to_nat k) xs) = delete (Z.to_nat k) xs) as Huse.
  { unfold after_use. destruct (moved_slot a) as [[|l i]|] eqn:Hm; try done.
    rewrite decide_False; [done|]. rewrite Hsame. by eapply Hmv. }
  replace (iterator_at w this k) with (iterator_at w1 this k).
  2:{ rewrite (iterator_at_buffer_loc _ _ _ _ _ Hv1), (iterator_at_buffer_loc _ _ _ _ _ Hvec).
      by rewrite Hsame. }
  pose proof (Emplace_spec_by_reference this _ cap k a v w1 Hv1 Hwf1 ltac:(lia) Hx) as Hins.
  unfold wp_or in Hins.
  destruct (Emplace this (iterator_at w1 this k) a w1) as [r w'|e w'|].
  - rewrite Huse in Hins. apply Emplace_returned_done in Hins as (Hv' & _ & _ & Hr').
    unfold capacity_after_insert in Hv'. rewrite decide_False in Hv' by lia.
    rewrite inserted_delete in Hv' by lia. done.
  - apply Emplace_by_reference_failed_why in Hins as [(_ & Heq & _)|Hth]; [lia|].
    by eapply thrown_by_fault_frame.
  - by exists p, w1.
Qed.

(** C9 (as amended). For a non-empty Vector and a position [p = begin() + k]
    of one of its elements, [Erase(p)] followed by [Insert(p, v)], where
    [v] is the value of the object that the argument designates when
    [Insert] is called, and the argument is copied from, or is moved from
    and is not an element of the Vector itself, leaves, when both return,
    the size and capacity as they were and the original sequence with the
    element at [k] replaced by [v] (the second call returns [p]); both
    return whenever no element operation throws.  The behaviour is
    undefined on one exit only: [Erase] returns and [Insert] reaches
    [destroys_dead_slot], the move construction of the last element into
    slot [Size()] throwing. *)
Theorem C9_erase_then_insert this xs cap k (value : ref T) v (by_move : bool) w :
  is_vector w this xs cap → heap_wf w → 0 ≤ k < Z.of_nat (length xs) →
  let insert := if by_move then Insert_move else Insert in
  let a := if by_move then ByMove value else ByCopy value in
  (∀ p w1, Erase this (iterator_at w this k) w = Ok p w1 → arg_value w1 a = Some v) →
  (by_move = true → ¬ element_of w this value) →
  wp_or (bind (Erase this (iterator_at w this k))
              (λ _, insert this (iterator_at w this k) value)) w
     (λ r w', is_vector w' this (<[Z.to_nat k := v]> xs) cap ∧
              length (<[Z.to_nat k := v]> xs) = length xs ∧
              r = iterator_at w' this k)
     (λ e _, thrown_by_fault w e)
     (∃ p w1, Erase this (iterator_at w this k) w = Ok p w1 ∧
              destroys_dead_slot (delete (Z.to_nat k) xs) cap k a w1) ∧
  (no_faults w →
   ∃ r w', bind (Erase this (iterator_at w this k))
                (λ _, insert this (iterator_at w this k) value) w = Ok r w').
Proof.
  intros Hvec Hwf Hk insert a Harg Hmv.
  assert (wp_or (bind (Erase this (iterator_at w this k))
                      (λ _, insert this (iterator_at w this k) value)) w
             (λ r w', is_vector w' this (<[Z.to_nat k := v]> xs) cap ∧
                      r = iterator_at w' this k)
             (λ e _, thrown_by_fault w e)
             (∃ p w1, Erase this (iterator_at w this k) w = Ok p w1 ∧
                      destroys_dead_slot (delete (Z.to_nat k) xs) cap k a w1)) as Hspec.
  { subst insert a. destruct by_move.
    - apply (wp_erase_emplace this xs cap k (ByMove value) v w Hvec Hwf Hk Harg).
      intros l i Hm Hl. apply Hmv; [done|]. exists l, i. split; [|done].
      destruct value as [y|q]; simpl in Hm; congruence.
    - apply (wp_erase_emplace this xs cap k (ByCopy value) v w Hvec Hwf Hk Harg).
      intros l i Hm. done. }
  split.
  - eapply wp_mono; [exact Hspec| |done].
    intros r w' [Hv Hr]. split_and!; [done|apply length_insert|done].
  - intros Hnf. destruct (wp_or_no_throw _ _ _ _ _ Hspec) as (r & w' & Hrun & _).
    + intros e w' Hth. by apply (no_faults_not_thrown w e Hnf).
    + intros (p & w1 & Hrun & Hdead).
      pose proof (Erase_spec this xs cap k w Hvec Hwf Hk) as Herase.
      unfold wp_or in Herase. rewrite Hrun in Herase.
      destruct Herase as (_ & _ & Hfr & _).
      eapply no_faults_defined; [|by eapply no_faults_frame|exact Hdead]. lia.
    + by exists r, w'.
Qed.

Lemma load_element w this xs cap k x :
  is_vector w this xs cap → lookupZ xs k = Some x →
  load (iterator_at w this k) w = Ok x w.
Proof.
  intros Hvec Hx.
  assert (0 ≤ k < Z.of_nat (length xs)) as Hk by (apply lookupZ_is_Some; eauto).
  destruct (is_vector_nonempty _ _ _ _ Hvec) as (l & bytes & Hv & Hcap & Hlen & Hb & Hsz & Hc & _); [lia|].
  unfold iterator_at. rewrite Hv. simpl. unfold load.
  rewrite (in_block_intro w l bytes k Hb) by (try lia; nia).
  rewrite Z.add_0_l. by rewrite Hc, Hx.
Qed.

Lemma Emplace_result this xs cap k a x w :
  is_vector w this xs cap → heap_wf w → 0 ≤ k ≤ Z.of_nat (length xs) →
  arg_value w a = Some x →
  wp_or (Emplace this (iterator_at w this k) a) w
     (λ r w', r = iterator_at w' this k ∧ load r w' = Ok x w' ∧
              ∃ cap', is_vector w' this (inserted k x (after_use w this a xs)) cap')
     (λ _ _, True)
     (destroys_dead_slot xs cap k a w).
Proof.
  intros Hvec Hwf Hk Hx. eapply wp_mono; [by apply Emplace_spec_by_reference| |done].
  intros r w' Hret. apply Emplace_returned_done in Hret as (Hv' & _ & _ & ->).
  split_and!; [done| |by eexists].
  eapply load_element; [done|]. rewrite lookupZ_inserted by (rewrite length_after_use; lia).
  rewrite decide_False by lia. by rewrite decide_True.
Qed.

(** C10. Emplace and Insert, given arguments that designate an object of
    value [x], return the iterator [begin() + offset] of the Vector after
    the call, and the element there is the new one, of value [x]; Erase
    returns [begin() + offset], where the element that followed the
    erased one now is, or which is [end()] when the last element was
    erased; EmplaceBack returns a reference to the new last element, the
    one at index [Size() - 1].  Each of them returns whenever no element
    operation throws and an allocation it needs succeeds.  The behaviour
    of Emplace and Insert is undefined on the exits
    [destroys_dead_slot] only. *)
Theorem C10_return_values this xs cap w :
  is_vector w this xs cap → heap_wf w →
  (∀ k a x, 0 ≤ k ≤ Z.of_nat (length xs) → arg_value w a = Some x →
     wp_or (Emplace this (iterator_at w this k) a) w
        (λ r w', r = iterator_at w' this k ∧ load r w' = Ok x w')
        (λ _ _, True)
        (destroys_dead_slot xs cap k a w)) ∧
  (∀ k value x, 0 ≤ k ≤ Z.of_nat (length xs) → arg_value w (ByCopy value) = Some x →
     wp_or (Insert this (iterator_at w this k) value) w
        (λ r w', r = iterator_at w' this k ∧ load r w' = Ok x w')
        (λ _ _, True)
        (destroys_dead_slot xs cap k (ByCopy value) w)) ∧
  (∀ k value x, 0 ≤ k ≤ Z.of_nat (length xs) → arg_value w (ByMove value) = Some x →
     wp_or (Insert_move this (iterator_at w this k) value) w
        (λ r w', r = iterator_at w' this k ∧ load r w' = Ok x w')
        (λ _ _, True)
        (destroys_dead_slot xs cap k (ByMove value) w)) ∧
  (∀ k, 0 ≤ k < Z.of_nat (length xs) →
     wp (Erase this (iterator_at w this k)) w
        (λ r w', r = iterator_at w' this k ∧
                 (k = Z.of_nat (length xs) - 1 → Vector_end this w' = Ok r w') ∧
                 (∀ x, lookupZ xs (k + 1) = Some x → load r w' = Ok x w'))
        (λ _ _, True)) ∧
  (∀ a x, arg_value w a = Some x →
     wp (EmplaceBack this a) w
        (λ r w', load r w' = Ok x w' ∧
                 Vector_index this (Z.of_nat (length xs)) w' = Ok r w' ∧
                 Size this w' = Ok (Z.of_nat (length xs) + 1) w')
        (λ _ _, True)) ∧
  (no_faults w →
   (Z.of_nat (length xs) = cap → alloc_granted w (grown_capacity cap * Z.pos sizeof)) →
   (∀ k a x, 0 ≤ k ≤ Z.of_nat (length xs) → arg_value w a = Some x →
             ∃ r w', Emplace this (iterator_at w this k) a w = Ok r w') ∧
   (∀ k, 0 ≤ k < Z.of_nat (length xs) →
         ∃ r w', Erase this (iterator_at w this k) w = Ok r w') ∧
   (∀ a x, arg_value w a = Some x → ∃ r w', EmplaceBack this a w = Ok r w')).
Proof.
  intros Hvec Hwf. split_and!.
  - intros k a x Hk Hx.
    eapply wp_mono; [exact (Emplace_result this xs cap k a x w Hvec Hwf Hk Hx)| |done].
    by intros r w' (? & ? & _).
  - intros k value x Hk Hx. unfold Insert.
    eapply wp_mono; [exact (Emplace_result this xs cap k _ x w Hvec Hwf Hk Hx)| |done].
    by intros r w' (? & ? & _).
  - intros k value x Hk Hx. unfold Insert_move.
    eapply wp_mono; [exact (Emplace_result this xs cap k _ x w Hvec Hwf Hk Hx)| |done].
    by intros r w' (? & ? & _).
  - intros k Hk. eapply wp_mono; [by apply Erase_spec| |done].
    intros r w' (Hv' & _ & _ & -> & _).
    assert (length (delete (Z.to_nat k) xs) = (length xs - 1)%nat) as Hld.
    { rewrite length_delete; [done|]. apply lookup_lt_is_Some. lia. }
    split_and!; [done| |].
    + intros ->. rewrite (Vector_end_run _ _ _ _ Hv'). do 2 f_equal. lia.
    + intros x Hx. eapply load_element; [done|].
      rewrite lookupZ_delete by lia. by rewrite decide_False by lia.
  - intros a x Hx. eapply wp_eq; [by eapply EmplaceBack_run|].
    eapply wp_or_mono; [|apply (at_end_defined xs cap a w)].
    eapply wp_mono; [apply (Emplace_result this xs cap _ a x w Hvec Hwf); [lia|done]| |done].
    intros r w' (-> & Hload & cap' & Hv'). split_and!; [done| |].
    + destruct Hv' as (d & Hv' & _). unfold Vector_index, bind, get_vec, iterator_at, GetAddress.
      rewrite Hv'. simpl. rewrite length_inserted, length_after_use.
      destruct (Z.ltb_spec (Z.of_nat (length xs)) (Z.of_nat (S (length xs)))); [done|lia].
    + destruct Hv' as (d & Hv' & _). unfold Size, get_size, bind, get_vec. rewrite Hv'. simpl.
      rewrite length_inserted, length_after_use. do 2 f_equal. lia.
  - intros Hnf Halloc. split_and!.
    + intros k a x Hk Hx.
      destruct (Emplace_returns this xs cap k a x w) as (r & w' & Hrun & _); try done.
      by exists r, w'.
    + intros k Hk.
      destruct (Erase_returns this xs cap k w) as (r & w' & Hrun & _); try done.
      by exists r, w'.
    + intros a x Hx. rewrite (EmplaceBack_run _ _ _ _ _ Hvec).
      destruct (Emplace_returns this xs cap (Z.of_nat (length xs)) a x w)
        as (r & w' & Hrun & _); try done; [lia|].
      by exists r, w'.
Qed.
End MoreClaims.

(** * Element access and iterators *)

Section Access.
Context {T : Type} {ET : Element T}.
Implicit Types (w : World T) (xs ys zs : list T).

Lemma iterator_at_plus w this xs cap i :
  is_vector w this xs cap → ptr_add (iterator_at w this 0) i = iterator_at w this i.
Proof.
  intros (d & Hv & _). rewrite !(iterator_at_eq _ _ _ _ _ Hv).
  destruct (buffer_ d); [done|]. simpl. f_equal. lia.
Qed.

Lemma load_end w this xs cap :
  is_vector w this xs cap → load (iterator_at w this (Z.of_nat (length xs))) w = Undef.
Proof.
  intros (d & Hv & _ & _ & _ & Hbuf). rewrite (iterator_at_eq _ _ _ _ _ Hv).
  destruct (buffer_ d) as [|l o]; [done|]. destruct Hbuf as (-> & _ & bytes & _ & _ & Hc).
  unfold load, ptr_add. destruct (in_block w l _); [|done].
  rewrite Hc, (proj2 (lookupZ_None _ _)); [done|lia].
Qed.

(** X1 [operator[]]: for a Vector holding [xs] and an index [i] (a
    [size_t]), [v[i]] with [i < Size()] is a reference to slot [i] of the
    buffer, which holds the element [xs[i]]; with [i >= Size()] the
    assertion [index < size_] fails, also when the slot lies within the
    capacity. *)
Theorem Vector_index_in_range this xs cap i w :
  is_vector w this xs cap → 0 ≤ i →
  match lookupZ xs i with
  | Some x => Vector_index this i w = Ok (iterator_at w this i) w ∧
              load (iterator_at w this i) w = Ok x w
  | None => Vector_index this i w = Undef
  end.
Proof.
  intros Hvec Hi. pose proof Hvec as (d & Hv & _).
  unfold Vector_index, bind, get_vec, GetAddress. rewrite Hv. cbn [size_ data_].
  destruct (lookupZ xs i) as [x|] eqn:Hx.
  - assert (0 ≤ i < Z.of_nat (length xs)) as Hlt by (apply lookupZ_is_Some; eauto).
    destruct (Z.ltb_spec i (Z.of_nat (length xs))); [|lia]. simpl.
    rewrite (iterator_at_eq _ _ _ _ _ Hv). split; [done|].
    rewrite <- (iterator_at_eq _ _ _ _ _ Hv). by eapply load_element.
  - apply lookupZ_None in Hx.
    destruct (Z.ltb_spec i (Z.of_nat (length xs))); [lia|done].
Qed.

(** X2 [begin()], [end()], [Size()], [Capacity()]: for a Vector
    holding [xs] with capacity [cap], [Size()] is the length of [xs] and
    [Capacity()] is [cap]; [end() - begin()] is [Size()]; the pointers
    [begin() + i] with [i < Size()] designate the elements of [xs] in
    order; no object lives at [end()]; and [begin() == end()] exactly
    when the Vector is empty. *)
Theorem begin_end_range this xs cap w :
  is_vector w this xs cap →
  ∃ first last,
    Vector_begin this w = Ok first w ∧ Vector_end this w = Ok last w ∧
    Size this w = Ok (Z.of_nat (length xs)) w ∧ Capacity this w = Ok cap w ∧
    ptr_diff last first = Some (Z.of_nat (length xs)) ∧
    (∀ i x, lookupZ xs i = Some x → load (ptr_add first i) w = Ok x w) ∧
    load last w = Undef ∧
    (first = last ↔ xs = []).
Proof.
  intros Hvec. exists (iterator_at w this 0), (iterator_at w this (Z.of_nat (length xs))).
  pose proof Hvec as (d & Hv & Hcap & _ & Hlen & Hbuf).
  split_and!.
  - by eapply Vector_begin_run.
  - by eapply Vector_end_run.
  - unfold Size, get_size, bind, get_vec. by rewrite Hv.
  - unfold Capacity, get_data, bind, get_vec, RawMemory_Capacity. rewrite Hv. simpl. by rewrite Hcap.
  - rewrite !(iterator_at_eq _ _ _ _ _ Hv). destruct (buffer_ d) as [|l o]; simpl.
    + f_equal. lia.
    + rewrite decide_True by done. f_equal. lia.
  - intros i x Hx. rewrite (iterator_at_plus _ _ _ _ _ Hvec). by eapply load_element.
  - by eapply load_end.
  - rewrite !(iterator_at_eq _ _ _ _ _ Hv). destruct (buffer_ d) as [|l o]; simpl.
    + split; [|done]. intros _. destruct xs; [done|]. simpl in Hlen. lia.
    + split.
      * intros Heq. injection Heq as Heq. assert (length xs = 0%nat) as Hz by lia.
        by destruct xs.
      * by intros ->.
Qed.
End Access.

(** * PopBack and Erase *)

Section Removal.
Context {T : Type} {ET : Element T}.
Implicit Types (w : World T) (xs ys zs : list T).

(** The run of [PopBack] on a Vector whose buffer is block [l]. *)
Lemma PopBack_trace this l cap n w w' :
  vecs w !! this = Some (mkVector (mkRawMemory (Ptr l 0) cap) n) →
  PopBack this w = Ok tt w' →
  trace w' = EvDestroy (InBuffer l (n - 1)) :: trace w ∧
  blocks w' = blocks w ∧
  ∃ n', vecs w' = <[this := mkVector (mkRawMemory (Ptr l 0) cap) n']> (vecs w).
Proof.
  intros Hv. unfold PopBack, bind, get_vec, GetAddress. rewrite Hv. cbn [size_ data_ buffer_ ptr_add].
  destruct (0 <? n); [|done]. simpl.
  destruct (in_block w l (0 + n + -1)); [|done].
  destruct (cells w !! (l, 0 + n + -1)); [|done].
  unfold set_size, bind, get_vec, put_vec, modify. simpl. rewrite Hv. simpl.
  intros [= <-]. simpl. split_and!; [|done|by eexists].
  by replace (0 + n + -1) with (n - 1) by lia.
Qed.

(** X3 [PopBack()]: on a Vector that holds at least one element
    it never throws; it destroys the last element by exactly one
    destructor call, on slot [Size() - 1], and leaves the other
    elements, the capacity and the buffer ([begin()]) as they are; on an
    empty Vector the assertion [size_ > 0] fails. *)
Theorem PopBack_drops_last this xs cap w :
  is_vector w this xs cap → heap_wf w →
  (xs = [] → PopBack this w = Undef) ∧
  (xs ≠ [] →
   ∃ w', PopBack this w = Ok tt w' ∧
         is_vector w' this (take (length xs - 1) xs) cap ∧
         heap_wf w' ∧ frame this w w' ∧
         iterator_at w' this 0 = iterator_at w this 0 ∧
         events_since w w'
           (ptr_events EvDestroy (iterator_at w this (Z.of_nat (length xs) - 1)) 1)).
Proof.
  intros Hvec Hwf. split.
  - intros ->. destruct Hvec as (d & Hv & _).
    unfold PopBack, bind, get_vec. by rewrite Hv.
  - intros Hne. assert (0 < Z.of_nat (length xs)) as Hpos by (destruct xs; [done|simpl; lia]).
    destruct (wp_no_throw _ _ _ _ (PopBack_spec this xs cap w Hvec Hwf Hpos))
      as ([] & w' & Hrun & Hv' & Hwf' & Hfr); [done|].
    destruct (is_vector_nonempty _ _ _ _ Hvec Hpos) as (l & bytes & Hv & _).
    destruct (PopBack_trace _ _ _ _ _ _ Hv Hrun) as (Htr & _ & n' & Hvs).
    exists w'. split_and!; try done.
    + unfold iterator_at. rewrite Hvs, lookup_insert_eq, Hv. done.
    + unfold events_since. rewrite Htr, (iterator_at_eq _ _ _ _ _ Hv). simpl.
      by replace (0 + (Z.of_nat (length xs) - 1)) with (Z.of_nat (length xs) - 1) by lia.
Qed.

(** X4 [Erase(pos)]: for a position [begin() + k] of an element, when
    it returns the element is gone, the others keep their order, and
    capacity and buffer are unchanged; when a move assignment throws, the
    Vector still has its size, capacity and buffer and holds as many
    elements as before; it returns whenever no element operation throws.
    For a position [begin() + k] with [k >= Size()], [end()] included,
    the assertion fails. *)
Theorem Erase_removes this xs cap k w :
  is_vector w this xs cap → heap_wf w → 0 ≤ k →
  if decide (k < Z.of_nat (length xs)) then
    wp (Erase this (iterator_at w this k)) w
       (λ _ w', is_vector w' this (delete (Z.to_nat k) xs) cap ∧
                length (delete (Z.to_nat k) xs) = (length xs - 1)%nat ∧
                buffer_loc w' this = buffer_loc w this)
       (λ e w', thrown_by_fault w e ∧
                buffer_loc w' this = buffer_loc w this ∧
                ∃ xs', is_vector w' this xs' cap ∧ length xs' = length xs) ∧
    (no_faults w → ∃ r w', Erase this (iterator_at w this k) w = Ok r w')
  else Erase this (iterator_at w this k) w = Undef.
Proof.
  intros Hvec Hwf Hk. destruct (decide (k < Z.of_nat (length xs))) as [Hlt|Hge].
  - split.
    + eapply wp_mono; [apply (Erase_spec this xs cap k w Hvec Hwf); lia| |].
      * intros r w' (Hv' & _ & _ & _ & Hb). split_and!; [done| |done].
        rewrite length_delete; [done|]. apply lookup_lt_is_Some. lia.
      * intros e w' (Hx & _ & _ & Hth & Hb). done.
    + intros Hnf. destruct (Erase_returns this xs cap k w Hvec Hwf) as (r & w' & Hrun & _);
        [lia|done|by exists r, w'].
  - pose proof Hvec as (d & Hv & _).
    unfold Erase, bind. rewrite (Vector_begin_run _ _ _ _ Hvec), (Vector_end_run _ _ _ _ Hvec).
    rewrite !(iterator_at_eq _ _ _ _ _ Hv).
    assert (ptr_ltb (ptr_add (buffer_ d) k) (ptr_add (buffer_ d) (Z.of_nat (length xs))) = false)
      as Hcmp.
    { unfold ptr_ltb, ptr_diff. destruct (buffer_ d) as [|l o]; simpl.
      - done.
      - rewrite decide_True by done. apply Z.ltb_ge. lia. }
    rewrite Hcmp, andb_false_r. done.
Qed.
End Removal.

(** * Element operations leave the storage alone *)

Section Storage.
Context {T : Type} {ET : Element T}.
Implicit Types (w : World T) (xs ys zs : list T).

Lemma same_storage_refl w : same_storage w w.
Proof. done. Qed.

Lemma same_storage_trans w w1 w2 :
  same_storage w w1 → same_storage w1 w2 → same_storage w w2.
Proof. unfold same_storage. intros (-> & -> & -> & ->) (-> & -> & -> & ->). done. Qed.

Lemma wp_exits {A} (m : M T A) w Q R : wp m w Q R → exits m w Q R.
Proof. unfold wp_or, exits. by destruct (m w). Qed.

Lemma exits_run {A} (m : M T A) w Q R :
  exits m w Q R →
  match m w with
  | Ok a w' => Q a w'
  | Throw e w' => R e w'
  | Undef => True
  end.
Proof. done. Qed.

Lemma wp_and_exits {A} (m : M T A) w Q R Q' R' :
  wp m w Q R → exits m w Q' R' →
  wp m w (λ a w', Q a w' ∧ Q' a w') (λ e w', R e w' ∧ R' e w').
Proof. unfold wp_or, exits. by destruct (m w). Qed.

Lemma exits_mono {A} (m : M T A) w (Q Q' : A → World T → Prop) (R R' : exn → World T → Prop) :
  exits m w Q R →
  (∀ a w', Q a w' → Q' a w') →
  (∀ e w', R e w' → R' e w') →
  exits m w Q' R'.
Proof. unfold exits. destruct (m w); auto. Qed.

Lemma exits_bind {A B} (m : M T A) (k : A → M T B) w Q R :
  exits m w (λ a w', exits (k a) w' Q R) R → exits (bind m k) w Q R.
Proof. unfold exits, bind. by destruct (m w). Qed.

Lemma exits_try_catch {A} (m : M T A) handles h w Q R :
  exits m w Q (λ e w', if handles e : bool then exits (h e) w' Q R else R e w') →
  exits (try_catch m handles h) w Q R.
Proof. unfold exits, try_catch. destruct (m w); [done| |done]. by destruct (handles e). Qed.

Lemma exits_unwinding {A} (m : M T A) cleanup w Q R :
  exits m w Q (λ e w', exits cleanup w' (λ _ w'', R e w'') R) →
  exits (unwinding m cleanup) w Q R.
Proof.
  intros H. apply exits_try_catch. eapply exits_mono; [exact H|done|].
  intros e w' Hc. simpl. apply exits_bind. eapply exits_mono; [exact Hc| |done].
  by intros [] w'' HR.
Qed.

(** An element-level step keeps whatever is said about the storage. *)
Lemma exits_element_level {A} (m : M T A) w Q R :
  element_level m →
  (∀ a w', same_storage w w' → Q a w') →
  (∀ e w', same_storage w w' → R e w') →
  exits m w Q R.
Proof. intros Hm HQ HR. eapply exits_mono; [apply Hm|done|done]. Qed.

Lemma element_level_ret {A} (a : A) : element_level (T := T) (ret a).
Proof. by intros w. Qed.

Lemma element_level_throw {A} e : element_level (T := T) (throw (A := A) e).
Proof. by intros w. Qed.

Lemma element_level_undef {A} : element_level (T := T) (undef (A := A)).
Proof. by intros w. Qed.

Lemma element_level_bind {A B} (m : M T A) (k : A → M T B) :
  element_level m → (∀ a, element_level (T := T) (k a)) → element_level (T := T) (bind m k).
Proof.
  intros Hm Hk w. apply exits_bind. eapply exits_mono; [apply Hm| |done].
  intros a w1 H1. eapply exits_mono; [apply Hk| |]; intros ? w2 H2; exact (same_storage_trans _ _ _ H1 H2).
Qed.

Lemma element_level_try_catch {A} (m : M T A) handles h :
  element_level m → (∀ e, element_level (T := T) (h e)) → element_level (T := T) (try_catch m handles h).
Proof.
  intros Hm Hh w. apply exits_try_catch. eapply exits_mono; [apply Hm|done|].
  intros e w1 H1. destruct (handles e); [|done].
  eapply exits_mono; [apply Hh| |]; intros ? w2 H2; exact (same_storage_trans _ _ _ H1 H2).
Qed.

Lemma element_level_for_loop i n body :
  (∀ j, element_level (T := T) (body j)) → element_level (T := T) (for_loop i n body).
Proof.
  intros Hb. revert i. induction n as [|n IH]; intros i; simpl.
  - apply element_level_ret.
  - apply element_level_bind; [apply Hb|]. intros _. apply IH.
Qed.

Lemma element_level_assert b : element_level (T := T) (assert b).
Proof. destruct b; [apply element_level_ret|apply element_level_undef]. Qed.

Lemma element_level_from_option {A} (o : option A) : element_level (T := T) (from_option o).
Proof. destruct o; [apply element_level_ret|apply element_level_undef]. Qed.

Lemma element_level_may_throw : element_level (T := T) may_throw.
Proof. intros w. unfold exits, may_throw. by destruct (fault_at w (ops_done w)). Qed.

Lemma element_level_log e : element_level (T := T) (modify (log e)).
Proof. by intros w. Qed.

Lemma element_level_load p : element_level (T := T) (load p).
Proof.
  intros w. unfold exits, load. destruct p as [|l i]; [done|].
  destruct (in_block w l i); [|done]. by destruct (cells w !! (l, i)).
Qed.

Lemma element_level_store p x : element_level (T := T) (store p x).
Proof.
  intros w. unfold exits, store. destruct p as [|l i]; [done|].
  destruct (in_block w l i); [|done]. by destruct (cells w !! (l, i)).
Qed.

Lemma element_level_destroy_at p : element_level (T := T) (destroy_at p).
Proof.
  intros w. unfold exits, destroy_at. destruct p as [|l i]; [done|].
  destruct (in_block w l i); [|done]. by destruct (cells w !! (l, i)).
Qed.

Lemma element_level_construct k p x : element_level (T := T) (construct k p x).
Proof.
  unfold construct. destruct p as [|l i]; [apply element_level_undef|].
  apply element_level_bind.
  - destruct (ctor_may_throw k); [apply element_level_may_throw|apply element_level_ret].
  - intros _ w. unfold exits. by destruct (in_block w l i).
Qed.

Lemma element_level_get_vec this : element_level (T := T) (get_vec this).
Proof. intros w. unfold exits, get_vec. by destruct (vecs w !! this). Qed.

Lemma element_level_init_value a : element_level (T := T) (init_value a).
Proof.
  destruct a as [[x|p]|[x|p]|x]; simpl;
    first [apply element_level_ret|apply element_level_load].
Qed.

Lemma element_level_init_done a x : element_level (T := T) (init_done a x).
Proof.
  destruct a as [[y|p]|[y|p]|y]; simpl;
    first [apply element_level_ret|apply element_level_store].
Qed.
Local Ltac element_level_tac :=
  repeat first
    [ apply element_level_ret | apply element_level_throw | apply element_level_undef
    | apply element_level_assert | apply element_level_from_option
    | apply element_level_may_throw | apply element_level_log | apply element_level_load
    | apply element_level_store | apply element_level_destroy_at
    | apply element_level_construct | apply element_level_get_vec
    | apply element_level_init_value | apply element_level_init_done
    | apply element_level_bind; [|intros ?]
    | apply element_level_try_catch; [|intros ?]
    | apply element_level_for_loop; intros ?
    | match goal with
      | |- element_level (T := T) (if ?b then _ else _) => destruct b
      | |- element_level (T := T) (match ?p with nullptr => _ | Ptr _ _ => _ end) => destruct p
      end ].

Lemma element_level_copy_construct dst src : element_level (T := T) (copy_construct dst src).
Proof. unfold copy_construct. element_level_tac. Qed.

Lemma element_level_move_construct dst src : element_level (T := T) (move_construct dst src).
Proof. unfold move_construct. element_level_tac. Qed.

Lemma element_level_copy_assign dst src : element_level (T := T) (copy_assign dst src).
Proof. unfold copy_assign. element_level_tac. Qed.

Lemma element_level_move_assign dst src : element_level (T := T) (move_assign dst src).
Proof. unfold move_assign. element_level_tac. Qed.

Lemma element_level_construct_at p a : element_level (T := T) (construct_at p a).
Proof. unfold construct_at. element_level_tac. Qed.

Lemma element_level_destroy_n p n : element_level (T := T) (destroy_n p n).
Proof. unfold destroy_n. element_level_tac. Qed.

Lemma element_level_guarded d i m : element_level m → element_level (T := T) (guarded d i m).
Proof.
  intros Hm. unfold guarded. apply element_level_try_catch; [done|]. intros e.
  apply element_level_bind; [apply element_level_destroy_n|]. intros _.
  apply element_level_throw.
Qed.

Lemma element_level_uninitialized_copy_n first n d_first :
  element_level (T := T) (uninitialized_copy_n first n d_first).
Proof.
  unfold uninitialized_copy_n. apply element_level_for_loop. intros i.
  apply element_level_guarded, element_level_copy_construct.
Qed.

Lemma element_level_uninitialized_move_n first n d_first :
  element_level (T := T) (uninitialized_move_n first n d_first).
Proof.
  unfold uninitialized_move_n. apply element_level_for_loop. intros i.
  apply element_level_guarded, element_level_move_construct.
Qed.

Lemma element_level_uninitialized_value_construct_n first n :
  element_level (T := T) (uninitialized_value_construct_n first n).
Proof.
  unfold uninitialized_value_construct_n. apply element_level_for_loop. intros i.
  apply element_level_guarded, element_level_construct.
Qed.

Lemma element_level_uninitialized_default_construct_n first n :
  element_level (T := T) (uninitialized_default_construct_n first n).
Proof.
  unfold uninitialized_default_construct_n. apply element_level_for_loop. intros i.
  apply element_level_guarded, element_level_construct.
Qed.

Lemma element_level_relocate_n first n d_first : element_level (T := T) (relocate_n first n d_first).
Proof.
  unfold relocate_n. destruct relocate_by_move;
    [apply element_level_uninitialized_move_n|apply element_level_uninitialized_copy_n].
Qed.

Lemma element_level_move_range first last d_first :
  element_level (T := T) (move_range first last d_first).
Proof.
  unfold move_range. apply element_level_bind; [apply element_level_from_option|].
  intros n. apply element_level_for_loop. intros i. apply element_level_move_assign.
Qed.

Lemma element_level_move_backward first last d_last :
  element_level (T := T) (move_backward first last d_last).
Proof.
  unfold move_backward. apply element_level_bind; [apply element_level_from_option|].
  intros n. apply element_level_for_loop. intros i. apply element_level_move_assign.
Qed.

Lemma element_level_construct_local a : element_level (T := T) (construct_local a).
Proof. unfold construct_local. element_level_tac. Qed.

Lemma element_level_move_assign_from_local dst x :
  element_level (T := T) (move_assign_from_local dst x).
Proof. unfold move_assign_from_local. element_level_tac. Qed.

Lemma element_level_destroy_local : element_level (T := T) destroy_local.
Proof. apply element_level_log. Qed.

Lemma element_level_RawMemory_plus d i : element_level (T := T) (RawMemory_plus d i).
Proof. unfold RawMemory_plus. element_level_tac. Qed.

Lemma element_level_RawMemory_index d i : element_level (T := T) (RawMemory_index d i).
Proof. unfold RawMemory_index. element_level_tac. Qed.

Lemma exits_get_vec this w (Q : Vector → World T → Prop) R :
  (∀ v, vecs w !! this = Some v → Q v w) → exits (get_vec this) w Q R.
Proof. intros H. unfold exits, get_vec. destruct (vecs w !! this); [by apply H|done]. Qed.

Lemma exits_get_data this w (Q : RawMemory → World T → Prop) R :
  (∀ v, vecs w !! this = Some v → Q (data_ v) w) → exits (get_data this) w Q R.
Proof.
  intros H. unfold get_data. apply exits_bind, exits_get_vec. intros v Hv. by apply H.
Qed.

Lemma exits_get_size this w (Q : Z → World T → Prop) R :
  (∀ v, vecs w !! this = Some v → Q (size_ v) w) → exits (get_size this) w Q R.
Proof.
  intros H. unfold get_size. apply exits_bind, exits_get_vec. intros v Hv. by apply H.
Qed.

Lemma exits_set_size this n w (Q : unit → World T → Prop) R :
  (∀ v, vecs w !! this = Some v → Q tt (set_vecs (insert this (mkVector (data_ v) n)) w)) →
  exits (set_size this n) w Q R.
Proof.
  intros H. unfold set_size. apply exits_bind, exits_get_vec. intros v Hv. by apply H.
Qed.

Lemma exits_set_data this d w (Q : unit → World T → Prop) R :
  (∀ v, vecs w !! this = Some v → Q tt (set_vecs (insert this (mkVector d (size_ v))) w)) →
  exits (set_data this d) w Q R.
Proof.
  intros H. unfold set_data. apply exits_bind, exits_get_vec. intros v Hv. by apply H.
Qed.

Lemma exits_RawMemory_ctor n w (Q : RawMemory → World T → Prop) R :
  (n = 0 → Q (mkRawMemory nullptr 0) w) →
  (∀ bytes, n ≠ 0 → R bad_alloc (alloc_failed bytes w)) →
  (∀ bytes, n ≠ 0 → Q (mkRawMemory (Ptr (next_loc w) 0) n) (allocated bytes w)) →
  exits (RawMemory_ctor n) w Q R.
Proof.
  intros H0 Hf Hg. unfold exits, RawMemory_ctor, bind, Allocate.
  destruct (decide (n ≠ 0)) as [Hn|Hn].
  - unfold operator_new.
    destruct (alloc_fault_at w (allocs_done w) || _); [by apply Hf|by apply Hg].
  - assert (n = 0) as -> by (by destruct (decide (n = 0))). simpl. by apply H0.
Qed.

Lemma exits_RawMemory_dtor d w (Q : unit → World T → Prop) R :
  (buffer_ d = nullptr → Q tt w) →
  (∀ l, buffer_ d = Ptr l 0 → is_Some (blocks w !! l) → Q tt (released (Ptr l 0) w)) →
  exits (RawMemory_dtor d) w Q R.
Proof.
  intros H0 H1. unfold exits, RawMemory_dtor, Deallocate, operator_delete.
  destruct (buffer_ d) as [|l i]; [by apply H0|].
  destruct (blocks w !! l) eqn:Hb; [|done].
  destruct (decide (i = 0)) as [->|]; [|done]. apply H1; [done|]. by rewrite Hb.
Qed.
End Storage.

(** * What each operation does to the storage *)

Section StorageSteps.
Context {T : Type} {ET : Element T}.
Implicit Types (w : World T) (xs ys zs : list T).

Lemma exits_RawMemory_new n w (Q : RawMemory → World T → Prop) R :
  (∀ bytes, R bad_alloc (alloc_failed bytes w)) →
  (∀ d w0, fresh_storage w d w0 → capacity_ d = n → (n = 0 ↔ buffer_ d = nullptr) → Q d w0) →
  exits (RawMemory_ctor n) w Q R.
Proof.
  intros Hf Hg. apply exits_RawMemory_ctor.
  - intros ->. apply Hg; [by left|done|done].
  - intros bytes _. apply Hf.
  - intros bytes Hn. apply Hg; [right; by exists bytes|done|done].
Qed.

Lemma exits_RawMemory_release d w (Q : unit → World T → Prop) R :
  Q tt (released (buffer_ d) w) → exits (RawMemory_dtor d) w Q R.
Proof.
  intros H. apply exits_RawMemory_dtor.
  - intros Hb. by rewrite Hb in H.
  - intros l Hb _. by rewrite Hb in H.
Qed.

Lemma buffer_loc_insert this v f w :
  buffer_loc (set_vecs (λ m, <[this := v]> (f m)) w) this = block_of (buffer_ (data_ v)).
Proof. unfold buffer_loc. simpl. rewrite lookup_insert_eq. by destruct (buffer_ (data_ v)). Qed.

Lemma buffer_loc_same_vecs w w' a : vecs w' = vecs w → buffer_loc w' a = buffer_loc w a.
Proof. unfold buffer_loc. by intros ->. Qed.

Lemma storage_step_same this w w' : same_storage w w' → storage_step this w w'.
Proof.
  intros (Hv & Hb & _ & Ha). split_and!.
  - intros a _. by rewrite Hv.
  - intros l Hl. rewrite (buffer_loc_same_vecs _ _ _ Hv) in Hl.
    rewrite decide_False by done. by rewrite Hb.
  - left. split; [done|]. left. by apply buffer_loc_same_vecs.
Qed.

Lemma storage_step_in_place this v v' w w1 :
  same_storage w w1 → vecs w !! this = Some v →
  buffer_ (data_ v') = buffer_ (data_ v) →
  storage_step this w (set_vecs (insert this v') w1).
Proof.
  intros (Hv & Hb & _ & Ha) Hthis Hbuf.
  assert (buffer_loc (set_vecs (insert this v') w1) this = buffer_loc w this) as Hsame.
  { rewrite (buffer_loc_insert this v' id). unfold buffer_loc. by rewrite Hthis, Hbuf. }
  split_and!.
  - intros a Hne. simpl. by rewrite lookup_insert_ne, Hv.
  - intros l Hl. rewrite Hsame in Hl. rewrite decide_False by done. simpl. by rewrite Hb.
  - left. split; [done|by left].
Qed.

Lemma storage_step_alloc_failed this bytes w : storage_step this w (alloc_failed bytes w).
Proof.
  split_and!; [done| |by right].
  intros l Hl. assert (buffer_loc (alloc_failed bytes w) this = buffer_loc w this) as Hs by done.
  rewrite Hs in Hl. by rewrite decide_False.
Qed.

Lemma same_storage_fresh w d w0 w1 :
  fresh_storage w d w0 → same_storage w0 w1 →
  vecs w1 = vecs w ∧
  (∀ l, blocks w1 !! l =
        if decide (block_of (buffer_ d) = Some l) then blocks w1 !! l else blocks w !! l) ∧
  (block_of (buffer_ d) = None ∨ block_of (buffer_ d) = Some (next_loc w)) ∧
  ((allocs_done w1 = allocs_done w ∧ buffer_ d = nullptr) ∨
   allocs_done w1 = allocs_done w + 1).
Proof.
  intros [[Hd ->]|(bytes & Hd & ->)] (Hv & Hb & _ & Ha); rewrite Hd; simpl.
  - split_and!; [done| |by left|by left]. intros l. by rewrite Hb.
  - split_and!; [done| |by right|by right]. intros l. rewrite Hb. simpl.
    case_decide as Hl; [done|]. rewrite lookup_insert_ne; [done|]. congruence.
Qed.

Local Ltac storage :=
  repeat match goal with H : same_storage _ _ |- _ => destruct H as (? & ? & ? & ?) end;
  intros;
  rewrite ?vecs_released, ?blocks_released, ?allocs_done_released, ?next_loc_released;
  simpl;
  repeat first
    [ match goal with
      | H : vecs _ = _ |- _ => rewrite H
      | H : blocks _ = _ |- _ => rewrite H
      | H : allocs_done _ = _ |- _ => rewrite H
      | H : next_loc _ = _ |- _ => rewrite H
      end
    | progress simpl ];
  try done.

Lemma kept_in_place_same this v w w' :
  vecs w !! this = Some v → same_storage w w' → kept_in_place this w w'.
Proof.
  intros Hv (Hvs & Hb & Hn & Ha). split_and!; try done.
  - intros a _. by rewrite Hvs.
  - exists v, v. by rewrite Hvs.
Qed.

Lemma kept_in_place_set this v v' w w' :
  vecs w !! this = Some v →
  vecs w' = <[this := v']> (vecs w) → blocks w' = blocks w → next_loc w' = next_loc w →
  allocs_done w' = allocs_done w → data_ v' = data_ v →
  kept_in_place this w w'.
Proof.
  intros Hv Hvs Hb Hn Ha Hd. split_and!; try done.
  - intros a Hne. by rewrite Hvs, lookup_insert_ne.
  - exists v, v'. by rewrite Hvs, lookup_insert_eq.
Qed.

Lemma kept_in_place_buffer this w w' :
  kept_in_place this w w' → buffer_loc w' this = buffer_loc w this.
Proof. intros (_ & _ & _ & _ & v & v' & Hv & Hv' & Hd). unfold buffer_loc. by rewrite Hv, Hv', Hd. Qed.

Lemma kept_in_place_step this w w' : kept_in_place this w w' → storage_step this w w'.
Proof.
  intros Hk. pose proof (kept_in_place_buffer _ _ _ Hk) as Hbl.
  destruct Hk as (Hb & _ & Ha & Hvs & _). split_and!; [done| |left; split; [done|by left]].
  intros l Hl. rewrite Hbl in Hl. by rewrite decide_False, Hb.
Qed.

(** The new block is given back: everything is as before the call. *)
Lemma storage_step_discarded this w d w0 wf :
  blocks w !! next_loc w = None → fresh_storage w d w0 →
  vecs wf = vecs w0 →
  (∀ l, blocks wf !! l =
        if decide (block_of (buffer_ d) = Some l) then None else blocks w0 !! l) →
  allocs_done wf = allocs_done w0 →
  storage_step this w wf.
Proof.
  intros Hfresh Hd Hv Hb Ha.
  destruct (same_storage_fresh _ _ _ _ Hd (same_storage_refl w0)) as (Hv0 & Hb0 & Hnl & Ha0).
  assert (buffer_loc wf this = buffer_loc w this) as Hsame.
  { apply buffer_loc_same_vecs. by rewrite Hv. }
  split_and!.
  - intros a _. by rewrite Hv, Hv0.
  - intros l Hl. rewrite Hsame in Hl. rewrite decide_False by done.
    rewrite Hb. case_decide as Hl'.
    + destruct Hnl as [Hnl|Hnl]; rewrite Hnl in Hl'; [done|]. by injection Hl' as <-.
    + rewrite Hb0. by rewrite decide_False.
  - rewrite Ha. destruct Ha0 as [[Ha0 _]|Ha0]; [|by right].
    left. split; [done|by left].
Qed.

(** The new block becomes the buffer, and the former buffer [old] is
    released. *)
Lemma storage_step_grown this w d w0 wf v' (old : ptr) :
  blocks w !! next_loc w = None → fresh_storage w d w0 →
  buffer_loc w this = block_of old →
  vecs wf = <[this := v']> (vecs w0) →
  (∀ l, blocks wf !! l = if decide (block_of old = Some l) then None else blocks w0 !! l) →
  allocs_done wf = allocs_done w0 →
  buffer_ (data_ v') = buffer_ d →
  storage_step this w wf.
Proof.
  intros Hfresh Hd Hold Hv Hb Ha Hbuf.
  destruct (same_storage_fresh _ _ _ _ Hd (same_storage_refl w0)) as (Hv0 & Hb0 & Hnl & Ha0).
  assert (buffer_loc wf this = block_of (buffer_ d)) as Hnew.
  { unfold buffer_loc. rewrite Hv, lookup_insert_eq, Hbuf. by destruct (buffer_ d). }
  split_and!.
  - intros a Hne. by rewrite Hv, lookup_insert_ne, Hv0.
  - intros l Hl. rewrite Hnew in Hl. rewrite Hb, Hold.
    case_decide; [done|]. rewrite Hb0. by rewrite decide_False.
  - rewrite Ha. destruct Ha0 as [[Ha0 Hnull]|Ha0]; [|by right].
    left. split; [done|]. right. rewrite Hnew, Hnull. done.
Qed.

(** After a step, more work in place. *)
Lemma storage_step_then this w w1 wf v1 v' :
  storage_step this w w1 →
  vecs w1 !! this = Some v1 →
  (vecs wf = vecs w1 ∨ vecs wf = <[this := v']> (vecs w1)) →
  blocks wf = blocks w1 → allocs_done wf = allocs_done w1 →
  buffer_ (data_ v') = buffer_ (data_ v1) →
  storage_step this w wf.
Proof.
  intros (H1 & H2 & H3) Hv1 Hv Hb Ha Hbuf.
  assert (buffer_loc wf this = buffer_loc w1 this) as Hsame.
  { unfold buffer_loc. destruct Hv as [->| ->]; [done|].
    by rewrite lookup_insert_eq, Hv1, Hbuf. }
  split_and!.
  - intros a Hne. rewrite <- H1 by done. destruct Hv as [->| ->]; [done|].
    by rewrite lookup_insert_ne.
  - intros l Hl. rewrite Hsame in Hl. rewrite Hb. by apply H2.
  - rewrite Ha, Hsame. done.
Qed.

Lemma block_of_buffer w this v :
  vecs w !! this = Some v → buffer_loc w this = block_of (buffer_ (data_ v)).
Proof. unfold buffer_loc. intros ->. by destruct (buffer_ (data_ v)). Qed.

(** [Reserve]. *)
Lemma Reserve_storage this n w :
  blocks w !! next_loc w = None →
  exits (Reserve this n) w
    (λ _ w', storage_step this w w' ∧
             ∀ v, vecs w !! this = Some v → n ≤ capacity_ (data_ v) → w' = w)
    (λ _ w', storage_step this w w' ∧
             ∀ v, vecs w !! this = Some v → ¬ n ≤ capacity_ (data_ v)).
Proof.
  intros Hfresh. unfold Reserve. apply exits_bind, exits_get_data. intros v Hv.
  unfold RawMemory_Capacity. destruct (Z.leb_spec n (capacity_ (data_ v))) as [Hle|Hgt].
  { split; [by apply storage_step_same|done]. }
  assert (∀ v', vecs w !! this = Some v' → ¬ n ≤ capacity_ (data_ v')) as Hno.
  { intros v' Hv'. rewrite Hv in Hv'. injection Hv' as <-. lia. }
  apply exits_bind, exits_RawMemory_new.
  { intros bytes. split; [apply storage_step_alloc_failed|done]. }
  intros d w0 Hd _ _. apply exits_bind, exits_unwinding.
  apply exits_bind, exits_get_size. intros v1 Hv1.
  apply exits_bind. apply exits_element_level; [apply element_level_relocate_n| |].
  2:{ intros e w2 Hs2. apply exits_RawMemory_release. split; [|done].
      eapply storage_step_discarded; [done|done|..]; storage. }
  intros _ w2 Hs2. apply exits_bind.
  apply exits_element_level; [apply element_level_destroy_n| |].
  2:{ intros e w3 Hs3. apply exits_RawMemory_release. split; [|done].
      eapply storage_step_discarded; [done|done|..]; storage. }
  intros _ w3 Hs3. simpl. apply exits_bind, exits_set_data. intros v3 Hv3. simpl.
  apply exits_RawMemory_release. simpl. split; [|intros v' Hv' Hle; by apply Hno in Hv'].
  eapply (storage_step_grown this w d w0 _ _ (buffer_ (data_ v)));
    [done|done|by apply block_of_buffer|..]; storage.
Qed.

Lemma exits_ret {A} (a : A) w (Q : A → World T → Prop) R : Q a w → exits (ret a) w Q R.
Proof. done. Qed.

Lemma exits_from_option {A} (o : option A) w (Q : A → World T → Prop) R :
  (∀ a, o = Some a → Q a w) → exits (from_option o) w Q R.
Proof. intros H. destruct o; [by apply H|done]. Qed.

Lemma exits_assert b w (Q : unit → World T → Prop) R :
  (b = true → Q tt w) → exits (assert b) w Q R.
Proof. intros H. destruct b; [by apply H|done]. Qed.

Lemma exits_put_vec this v w (Q : unit → World T → Prop) R :
  Q tt (set_vecs (insert this v) w) → exits (put_vec this v) w Q R.
Proof. done. Qed.

Lemma exits_Vector_begin this w (Q : ptr → World T → Prop) R :
  (∀ v, vecs w !! this = Some v → Q (buffer_ (data_ v)) w) →
  exits (Vector_begin this) w Q R.
Proof. intros H. unfold Vector_begin. apply exits_bind, exits_get_data. intros v Hv. by apply H. Qed.

Lemma exits_Vector_end this w (Q : ptr → World T → Prop) R :
  (∀ v, vecs w !! this = Some v → Q (ptr_add (buffer_ (data_ v)) (size_ v)) w) →
  exits (Vector_end this) w Q R.
Proof. intros H. unfold Vector_end. apply exits_bind, exits_get_vec. intros v Hv. by apply H. Qed.

Lemma exits_Capacity this w (Q : Z → World T → Prop) R :
  (∀ v, vecs w !! this = Some v → Q (capacity_ (data_ v)) w) →
  exits (Capacity this) w Q R.
Proof. intros H. unfold Capacity. apply exits_bind, exits_get_data. intros v Hv. by apply H. Qed.

(** Destructors do not throw. *)
Lemma exits_destroy_n p n w (Q : unit → World T → Prop) R :
  (∀ w', same_storage w w' → Q tt w') → exits (destroy_n p n) w Q R.
Proof.
  unfold destroy_n. generalize 0 as i. generalize (Z.to_nat n) as k.
  intros k. revert w. induction k as [|k IH]; intros w i HQ; simpl.
  - by apply HQ.
  - apply exits_bind. unfold exits at 1, destroy_at.
    destruct (ptr_add p i) as [|l j]; [done|]. destruct (in_block w l j); [|done].
    destruct (cells w !! (l, j)); [|done].
    apply IH. intros w' Hs. apply HQ. eapply same_storage_trans; [|exact Hs]. done.
Qed.

Lemma same_lookup w w' this v v' :
  vecs w !! this = Some v → vecs w' !! this = Some v' → vecs w' = vecs w → v' = v.
Proof. intros Hv Hv' Heq. rewrite Heq, Hv in Hv'. by injection Hv'. Qed.

Lemma kept_in_place_then this w w1 wf v1 v' :
  kept_in_place this w w1 →
  vecs w1 !! this = Some v1 →
  (vecs wf = vecs w1 ∨ vecs wf = <[this := v']> (vecs w1)) →
  blocks wf = blocks w1 → next_loc wf = next_loc w1 → allocs_done wf = allocs_done w1 →
  data_ v' = data_ v1 →
  kept_in_place this w wf.
Proof.
  intros (Hb & Hn & Ha & Ho & v & v1' & Hv & Hv1' & Hd) Hv1 Hvf Hbf Hnf Haf Hdf.
  rewrite Hv1 in Hv1'. injection Hv1' as <-.
  split_and!; try congruence.
  - intros a Hne. rewrite <- Ho by done. destruct Hvf as [->| ->]; [done|].
    by rewrite lookup_insert_ne.
  - destruct Hvf as [Hvf|Hvf].
    + exists v, v1. by rewrite Hvf.
    + exists v, v'. rewrite Hvf, lookup_insert_eq. split_and!; congruence.
Qed.

(** [Resize]. *)
Lemma Resize_storage this n w :
  blocks w !! next_loc w = None →
  exits (Resize this n) w
    (λ _ w', storage_step this w w' ∧
             ∀ v, vecs w !! this = Some v → n ≤ capacity_ (data_ v) → kept_in_place this w w')
    (λ _ w', storage_step this w w' ∧
             ∀ v, vecs w !! this = Some v → n ≤ capacity_ (data_ v) → kept_in_place this w w').
Proof.
  intros Hfresh. unfold Resize. apply exits_bind, exits_get_vec. intros v Hv.
  destruct (size_ v >=? n).
  - apply exits_bind, exits_destroy_n. intros w1 Hs1.
    apply exits_set_size. intros v1 Hv1.
    assert (v1 = v) as -> by (eapply same_lookup; [done|done|apply Hs1]).
    assert (kept_in_place this w (set_vecs (insert this (mkVector (data_ v) n)) w1)) as Hk.
    { eapply (kept_in_place_set _ v); [done|..]; storage. }
    split; [by apply kept_in_place_step|done].
  - apply exits_bind. eapply exits_mono; [by apply Reserve_storage| |].
    2:{ intros e w1 [Hst Hno]. split; [done|]. intros v' Hv' Hle. by apply Hno in Hv'. }
    intros _ w1 [Hst Hsame]. apply exits_bind, exits_get_vec. intros v1 Hv1.
    apply exits_bind.
    apply exits_element_level; [apply element_level_uninitialized_default_construct_n| |].
    + intros _ w2 Hs2. apply exits_set_size. intros v2 Hv2.
      assert (v2 = v1) as -> by (eapply same_lookup; [done|done|apply Hs2]).
      split.
      * eapply (storage_step_then _ _ w1 _ v1); [done|done|right|..]; storage.
      * intros v' Hv' Hle. specialize (Hsame v' Hv' Hle). subst w1.
        assert (v1 = v) as -> by congruence.
        eapply (kept_in_place_set _ v); [done|..]; storage.
    + intros e w2 Hs2. split.
      * eapply (storage_step_then _ _ w1 _ v1 v1); [done|done|left|..]; storage.
      * intros v' Hv' Hle. specialize (Hsame v' Hv' Hle). subst w1.
        by eapply kept_in_place_same.
Qed.

(** [PopBack]. *)
Lemma PopBack_storage this w :
  exits (PopBack this) w (λ _, kept_in_place this w) (λ _, kept_in_place this w).
Proof.
  unfold PopBack. apply exits_bind, exits_get_vec. intros v Hv.
  apply exits_bind, exits_assert. intros _.
  apply exits_bind. apply exits_element_level; [apply element_level_destroy_at| |].
  - intros _ w1 Hs1. apply exits_set_size. intros v1 Hv1.
    assert (v1 = v) as -> by (eapply same_lookup; [done|done|apply Hs1]).
    eapply (kept_in_place_set _ v); [done|..]; storage.
  - intros e w1 Hs1. by eapply kept_in_place_same.
Qed.

(** [Erase]. *)
Lemma Erase_storage this pos w :
  exits (Erase this pos) w (λ _, kept_in_place this w) (λ _, kept_in_place this w).
Proof.
  unfold Erase. apply exits_bind, exits_Vector_begin. intros v Hv.
  apply exits_bind, exits_Vector_end. intros v0 Hv0.
  apply exits_bind, exits_assert. intros _.
  apply exits_bind, exits_from_option. intros d _.
  apply exits_bind, exits_get_vec. intros v1 Hv1. cbv zeta.
  apply exits_bind. apply exits_element_level; [apply element_level_move_range| |].
  2:{ intros e w1 Hs1. by eapply kept_in_place_same. }
  intros _ w1 Hs1. apply exits_bind.
  apply exits_element_level; [apply element_level_destroy_at| |].
  2:{ intros e w2 Hs2. eapply kept_in_place_same; [done|]. by eapply same_storage_trans. }
  intros _ w2 Hs2. apply exits_bind, exits_set_size. intros v2 Hv2.
  apply exits_bind, exits_get_data. intros v3 Hv3. apply exits_ret.
  assert (v2 = v) as ->.
  { eapply same_lookup; [done|done|]. transitivity (vecs w1); [apply Hs2|apply Hs1]. }
  eapply (kept_in_place_set _ v); [done|..]; storage.
Qed.

Local Ltac element_level_all :=
  unfold unwinding, Vector_end, Vector_begin, get_data, get_size;
  repeat first
    [ apply element_level_ret | apply element_level_throw | apply element_level_undef
    | apply element_level_assert | apply element_level_from_option
    | apply element_level_destroy_at | apply element_level_destroy_n
    | apply element_level_construct_at | apply element_level_construct_local
    | apply element_level_move_construct | apply element_level_move_backward
    | apply element_level_move_assign_from_local | apply element_level_destroy_local
    | apply element_level_relocate_n | apply element_level_RawMemory_plus
    | apply element_level_RawMemory_index | apply element_level_get_vec
    | apply element_level_copy_assign | apply element_level_uninitialized_copy_n
    | apply element_level_bind; [|intros ?]
    | apply element_level_try_catch; [|intros ?]
    | apply element_level_for_loop; intros ?
    | match goal with
      | |- element_level (T := T) (if ?b then _ else _) => destruct b
      end ].

Lemma fresh_storage_vecs w d w0 : fresh_storage w d w0 → vecs w0 = vecs w.
Proof. by intros [[_ ->]|(bytes & _ & ->)]. Qed.

(** [Emplace]. *)
Lemma Emplace_storage this pos a w :
  blocks w !! next_loc w = None →
  exits (Emplace this pos a) w
    (λ _ w', storage_step this w w' ∧
             ∀ v, vecs w !! this = Some v → size_ v ≠ capacity_ (data_ v) →
                  kept_in_place this w w')
    (λ _ w', storage_step this w w' ∧
             ∀ v, vecs w !! this = Some v → size_ v ≠ capacity_ (data_ v) →
                  kept_in_place this w w').
Proof.
  intros Hfresh. unfold Emplace.
  apply exits_bind, exits_Vector_begin. intros v Hv.
  apply exits_bind, exits_from_option. intros d _. cbv zeta.
  apply exits_bind, exits_get_size. intros v0 Hv0. assert (v0 = v) as -> by congruence.
  apply exits_bind, exits_Capacity. intros v0 Hv0'. assert (v0 = v) as -> by congruence.
  clear Hv0 Hv0'. apply exits_bind.
  set (POST := λ w', storage_step this w w' ∧
                     ∀ v, vecs w !! this = Some v → size_ v ≠ capacity_ (data_ v) →
                          kept_in_place this w w').
  apply (exits_mono _ _ (λ _, POST) _ (λ _, POST)); [| |done].
  - destruct (decide (size_ v = capacity_ (data_ v))) as [Heq|Hne].
    + assert (∀ w', storage_step this w w' → POST w') as Hpost.
      { intros w' Hst. split; [done|]. intros v' Hv' Hne. congruence. }
      apply exits_bind, exits_RawMemory_new.
      { intros bytes. apply Hpost, storage_step_alloc_failed. }
      intros d0 w0 Hd _ _. apply exits_bind, exits_unwinding.
      apply exits_bind. apply exits_element_level; [apply element_level_construct_at| |].
      2:{ intros e w1 Hs1. apply exits_RawMemory_release, Hpost.
          eapply storage_step_discarded; [done|done|..]; storage. }
      intros _ w1 Hs1. apply exits_bind. apply exits_element_level; [element_level_all| |].
      2:{ intros e w2 Hs2. apply exits_RawMemory_release, Hpost.
          eapply storage_step_discarded; [done|done|..]; storage. }
      intros _ w2 Hs2. apply exits_bind, exits_destroy_n. intros w3 Hs3.
      apply exits_bind, exits_get_data. intros v3 Hv3. simpl.
      apply exits_bind, exits_set_data. intros v4 Hv4. apply exits_ret.
      apply exits_RawMemory_release, Hpost. simpl.
      assert (v3 = v) as ->.
      { eapply same_lookup; [done|done|]. rewrite <- (fresh_storage_vecs _ _ _ Hd).
        transitivity (vecs w2); [apply Hs3|]. transitivity (vecs w1); [apply Hs2|apply Hs1]. }
      eapply (storage_step_grown this w d0 w0 _ _ (buffer_ (data_ v)));
        [done|done|by apply block_of_buffer|..]; storage.
    + apply exits_element_level; [element_level_all| |].
      * intros _ w1 Hs1. split; [by apply storage_step_same|]. intros v' Hv' _.
        by eapply kept_in_place_same.
      * intros e w1 Hs1. split; [by apply storage_step_same|]. intros v' Hv' _.
        by eapply kept_in_place_same.
  - intros _ w1 [Hst Hk]. apply exits_bind, exits_set_size. intros v1 Hv1.
    apply exits_bind, exits_Vector_begin. intros v2 Hv2. apply exits_ret.
    split.
    + eapply (storage_step_then _ _ w1 _ v1); [done|done|right|..]; storage.
    + intros v' Hv' Hne. eapply (kept_in_place_then _ _ w1 _ v1); [by eapply Hk|done|right|..];
        storage.
Qed.

(** The constructors, on storage that holds no Vector yet. *)
Lemma Vector_default_storage this w :
  vecs w !! this = None →
  exits (Vector_default this) w (λ _, storage_step this w) (λ _, storage_step this w).
Proof.
  intros Hnone. unfold Vector_default. apply exits_put_vec.
  split_and!.
  - intros a Hne. simpl. by rewrite lookup_insert_ne.
  - intros l _. rewrite (buffer_loc_None _ _ Hnone). done.
  - left. split; [done|]. right. unfold buffer_loc. simpl. by rewrite lookup_insert_eq.
Qed.

Lemma Vector_sized_storage this n w :
  blocks w !! next_loc w = None → vecs w !! this = None →
  exits (Vector_sized this n) w (λ _, storage_step this w) (λ _, storage_step this w).
Proof.
  intros Hfresh Hnone. unfold Vector_sized.
  apply exits_bind, exits_RawMemory_new.
  { intros bytes. apply storage_step_alloc_failed. }
  intros d w0 Hd _ _. apply exits_bind, exits_unwinding.
  apply exits_element_level; [apply element_level_uninitialized_value_construct_n| |].
  - intros _ w1 Hs1. apply exits_put_vec.
    eapply (storage_step_grown this w d w0 _ _ nullptr);
      [done|done|by apply buffer_loc_None|..]; storage.
  - intros e w1 Hs1. apply exits_RawMemory_release.
    eapply storage_step_discarded; [done|done|..]; storage.
Qed.

(** The members that [Vector(const Vector &)] builds. *)
Lemma copy_of_storage other w :
  blocks w !! next_loc w = None →
  exits (copy_of other) w
    (λ v w1, ∃ d w0, fresh_storage w d w0 ∧ same_storage w0 w1 ∧ data_ v = d ∧
                     (∃ o, vecs w !! other = Some o ∧ capacity_ d = size_ o ∧
                           (size_ o = 0 ↔ buffer_ d = nullptr)))
    (λ _ w1, ∀ this, storage_step this w w1).
Proof.
  intros Hfresh. unfold copy_of. apply exits_bind, exits_get_vec. intros o Ho.
  apply exits_bind, exits_RawMemory_new.
  { intros bytes this. apply storage_step_alloc_failed. }
  intros d w0 Hd Hcap Hnull. apply exits_bind, exits_unwinding.
  apply exits_element_level; [apply element_level_uninitialized_copy_n| |].
  - intros _ w1 Hs1. apply exits_ret. exists d, w0. split_and!; [done|done|done|]. by exists o.
  - intros e w1 Hs1. apply exits_RawMemory_release. intros this.
    eapply storage_step_discarded; [done|done|..]; storage.
Qed.

Lemma Vector_copy_storage this other w :
  blocks w !! next_loc w = None → vecs w !! this = None →
  exits (Vector_copy this other) w (λ _, storage_step this w) (λ _, storage_step this w).
Proof.
  intros Hfresh Hnone. unfold Vector_copy.
  apply exits_bind. eapply exits_mono; [by apply copy_of_storage| |by intros e w1 H].
  intros v w1 (d & w0 & Hd & Hs1 & Hdv & _). apply exits_put_vec.
  eapply (storage_step_grown this w d w0 _ _ nullptr);
    [done|done|by apply buffer_loc_None|..]; storage. by rewrite Hdv.
Qed.

(** [~Vector()]. *)
Lemma Vector_dtor_storage this w :
  exits (Vector_dtor this) w (λ _, storage_step this w) (λ _, storage_step this w).
Proof.
  unfold Vector_dtor, destroy_members. apply exits_bind, exits_get_vec. intros v Hv.
  apply exits_bind. apply exits_bind, exits_destroy_n. intros w1 Hs1.
  apply exits_RawMemory_release. unfold exits, modify.
  assert (buffer_loc (set_vecs (delete this) (released (buffer_ (data_ v)) w1)) this = None)
    as Hgone.
  { apply buffer_loc_None. simpl. rewrite vecs_released. apply lookup_delete_eq. }
  split_and!.
  - intros a Hne. simpl. rewrite vecs_released, lookup_delete_ne by done. by storage.
  - intros l _. simpl. rewrite blocks_released, (block_of_buffer _ _ _ Hv). by storage.
  - left. split; [|by right]. simpl. rewrite allocs_done_released. by storage.
Qed.

(** Copy assignment. *)
Lemma assign_copy_storage this rhs w :
  blocks w !! next_loc w = None →
  exits (assign_copy this rhs) w
    (λ _ w', storage_step this w w' ∧
             ∀ v r, vecs w !! this = Some v → vecs w !! rhs = Some r →
                    size_ r ≤ capacity_ (data_ v) → kept_in_place this w w')
    (λ _ w', storage_step this w w' ∧
             ∀ v r, vecs w !! this = Some v → vecs w !! rhs = Some r →
                    size_ r ≤ capacity_ (data_ v) → kept_in_place this w w').
Proof.
  intros Hfresh. unfold assign_copy. destruct (decide (this ≠ rhs)) as [Hne|Heq].
  2:{ apply exits_ret. split; [by apply storage_step_same|]. intros v r Hv _ _.
      by eapply kept_in_place_same. }
  apply exits_bind, exits_get_vec. intros v Hv.
  apply exits_bind, exits_get_vec. intros r Hr.
  unfold RawMemory_Capacity.
  destruct (Z.gtb_spec (size_ r) (capacity_ (data_ v))) as [Hgt|Hle].
  - assert (∀ w', storage_step this w w' →
                  storage_step this w w' ∧
                  ∀ v r, vecs w !! this = Some v → vecs w !! rhs = Some r →
                         size_ r ≤ capacity_ (data_ v) → kept_in_place this w w') as Hpost.
    { intros w' Hst. split; [done|]. intros v' r' Hv' Hr' Hle.
      rewrite Hv in Hv'. rewrite Hr in Hr'. simplify_eq. lia. }
    apply exits_bind. eapply exits_mono; [by apply copy_of_storage| |].
    2:{ intros e w1 Hst. apply Hpost, Hst. }
    intros tmp w1 (d & w0 & Hd & Hs1 & Hdv & _). simpl.
    apply exits_bind, exits_put_vec. unfold destroy_members. simpl.
    apply exits_bind, exits_destroy_n. intros w2 Hs2.
    apply exits_RawMemory_release, Hpost. simpl.
    eapply (storage_step_grown this w d w0 _ _ (buffer_ (data_ v)));
      [done|done|by apply block_of_buffer|..]; storage; by rewrite ?Hdv.
  - assert (∀ w', kept_in_place this w w' →
                  storage_step this w w' ∧
                  ∀ v r, vecs w !! this = Some v → vecs w !! rhs = Some r →
                         size_ r ≤ capacity_ (data_ v) → kept_in_place this w w') as Hpost.
    { intros w' Hk. split; [by apply kept_in_place_step|done]. }
    apply exits_bind. apply exits_element_level; [element_level_all| |].
    2:{ intros e w1 Hs1. apply Hpost. by eapply kept_in_place_same. }
    intros _ w1 Hs1. apply exits_bind. apply exits_element_level; [element_level_all| |].
    2:{ intros e w2 Hs2. apply Hpost. eapply kept_in_place_same; [done|].
        by eapply same_storage_trans. }
    intros _ w2 Hs2. apply exits_set_size. intros v2 Hv2. apply Hpost.
    assert (v2 = v) as ->.
    { eapply same_lookup; [done|done|]. transitivity (vecs w1); [apply Hs2|apply Hs1]. }
    eapply (kept_in_place_set _ v); [done|..]; storage.
Qed.
End StorageSteps.

(** * The storage under every operation *)

Section StorageOfCalls.
Context {T : Type} {ET : Element T}.
Implicit Types (w : World T) (xs ys zs : list T).


Lemma EmplaceBack_storage this a w :
  blocks w !! next_loc w = None →
  exits (EmplaceBack this a) w
    (λ _ w', storage_step this w w' ∧
             ∀ v, vecs w !! this = Some v → size_ v ≠ capacity_ (data_ v) →
                  kept_in_place this w w')
    (λ _ w', storage_step this w w' ∧
             ∀ v, vecs w !! this = Some v → size_ v ≠ capacity_ (data_ v) →
                  kept_in_place this w w').
Proof.
  intros Hfresh. unfold EmplaceBack. apply exits_bind, exits_Vector_end. intros v Hv.
  by apply Emplace_storage.
Qed.

Lemma dropped_storage {A} (m : M T A) w (P : World T → Prop) :
  exits m w (λ _, P) (λ _, P) → exits (bind m (λ _, ret tt)) w (λ _, P) (λ _, P).
Proof. intros H. apply exits_bind. eapply exits_mono; [exact H| |done]. by intros a w' HP. Qed.

Lemma at_offset_storage this k f w (P : World T → Prop) :
  (∀ pos, exits (f pos) w (λ _, P) (λ _, P)) →
  exits (at_offset this k f) w (λ _, P) (λ _, P).
Proof.
  intros H. unfold at_offset. apply exits_bind, exits_Vector_begin. intros v Hv.
  apply dropped_storage, H.
Qed.

(** The storage after any call that works on one Vector. *)
Lemma call_storage this op w :
  blocks w !! next_loc w = None → callable w this op → exchanged_with op = None →
  exits (call this op) w
    (λ _ w', storage_step this w w' ∧ (within_capacity w this op → kept_in_place this w w'))
    (λ _ w', storage_step this w w' ∧ (within_capacity w this op → kept_in_place this w w')).
Proof.
  intros Hfresh [_ Hcall] Hex.
  assert (∀ (A : Type) (m : M T A),
            exits m w
              (λ _ w', storage_step this w w' ∧
                       ∀ v, vecs w !! this = Some v → size_ v ≠ capacity_ (data_ v) →
                            kept_in_place this w w')
              (λ _ w', storage_step this w w' ∧
                       ∀ v, vecs w !! this = Some v → size_ v ≠ capacity_ (data_ v) →
                            kept_in_place this w w') →
            ∀ P : Vector → Prop,
              (∀ v, P v → size_ v ≠ capacity_ (data_ v)) →
              exits m w
                (λ _ w', storage_step this w w' ∧
                         ((∃ v, vecs w !! this = Some v ∧ P v) → kept_in_place this w w'))
                (λ _ w', storage_step this w w' ∧
                         ((∃ v, vecs w !! this = Some v ∧ P v) → kept_in_place this w w')))
    as Hins.
  { intros A m Hm P HP. eapply exits_mono; [exact Hm| |];
      intros ? w' [Hst Hk]; (split; [done|]); intros (v & Hv & Hp); eapply Hk; eauto. }
  destruct op; simpl in Hex; try done; simpl; unfold within_capacity.
  - (* Vector() *)
    eapply exits_mono; [by apply Vector_default_storage| |];
      intros ? w' Hst; (split; [done|]); by intros (v & _ & ?).
  - (* Vector(n) *)
    destruct Hcall as (Hnone & _).
    eapply exits_mono; [by apply Vector_sized_storage| |];
      intros ? w' Hst; (split; [done|]); by intros (v & _ & ?).
  - (* Vector(const Vector &) *)
    destruct Hcall as (Hnone & _).
    eapply exits_mono; [by apply Vector_copy_storage| |];
      intros ? w' Hst; (split; [done|]); by intros (v & _ & ?).
  - (* ~Vector() *)
    eapply exits_mono; [by apply Vector_dtor_storage| |];
      intros ? w' Hst; (split; [done|]); by intros (v & _ & ?).
  - (* operator=(const Vector &) *)
    eapply exits_mono; [by apply assign_copy_storage| |];
      intros ? w' [Hst Hk]; (split; [done|]); intros (v & Hv & r & Hr & Hle); by eapply Hk.
  - (* Reserve *)
    eapply exits_mono; [by apply Reserve_storage| |].
    + intros ? w' [Hst Hk]. split; [done|]. intros (v & Hv & Hle).
      rewrite (Hk v Hv Hle). by eapply kept_in_place_same.
    + intros ? w' [Hst Hk]. split; [done|]. intros (v & Hv & Hle). by destruct (Hk v Hv).
  - (* Resize *)
    eapply exits_mono; [by apply Resize_storage| |];
      intros ? w' [Hst Hk]; (split; [done|]); intros (v & Hv & Hle); by eapply Hk.
  - (* PushBack(const T &) *)
    unfold PushBack. apply (Hins _ _ (dropped_storage _ _ _ (EmplaceBack_storage _ _ _ Hfresh))
                              (λ v, size_ v ≠ capacity_ (data_ v))). done.
  - (* PushBack(T &&) *)
    unfold PushBack_move.
    apply (Hins _ _ (dropped_storage _ _ _ (EmplaceBack_storage _ _ _ Hfresh))
             (λ v, size_ v ≠ capacity_ (data_ v))). done.
  - (* PopBack *)
    eapply exits_mono; [by apply PopBack_storage| |];
      intros ? w' Hk; (split; [by apply kept_in_place_step|done]).
  - (* EmplaceBack *)
    apply (Hins _ _ (dropped_storage _ _ _ (EmplaceBack_storage _ _ _ Hfresh))
             (λ v, size_ v ≠ capacity_ (data_ v))). done.
  - (* Emplace *)
    apply (Hins _ _ (at_offset_storage _ _ _ _ _ (λ pos, Emplace_storage _ pos _ _ Hfresh))
             (λ v, size_ v ≠ capacity_ (data_ v))). done.
  - (* Insert(pos, const T &) *)
    apply (Hins _ _ (at_offset_storage _ _ _ _ _ (λ pos, Emplace_storage _ pos _ _ Hfresh))
             (λ v, size_ v ≠ capacity_ (data_ v))). done.
  - (* Insert(pos, T &&) *)
    apply (Hins _ _ (at_offset_storage _ _ _ _ _ (λ pos, Emplace_storage _ pos _ _ Hfresh))
             (λ v, size_ v ≠ capacity_ (data_ v))). done.
  - (* Erase *)
    eapply exits_mono; [apply at_offset_storage; intros pos; apply Erase_storage| |];
      intros ? w' Hk; (split; [by apply kept_in_place_step|done]).
Qed.
End StorageOfCalls.

(** * Blocks and allocations *)

Section Ownership.
Context {T : Type} {ET : Element T}.
Implicit Types (w : World T) (xs ys zs : list T).

Lemma fresh_block w : heap_wf w → blocks w !! next_loc w = None.
Proof.
  intros [Hwf _]. destruct (blocks w !! next_loc w) as [bytes|] eqn:Hb; [|done].
  apply Hwf in Hb as [? _]. lia.
Qed.

(** The run of the three calls that exchange the members of two objects. *)
Lemma exchange_run this (op : operation) other w :
  callable w this op → exchanged_with op = Some other →
  ∃ v o v' o',
    vecs w !! other = Some o ∧
    (vecs w !! this = Some v ∨ vecs w !! this = None ∧ this ≠ other) ∧
    call this op w = Ok tt (set_vecs (λ m, <[other := o']> (<[this := v']> m)) w) ∧
    buffer_ (data_ v') = buffer_ (data_ o) ∧
    (vecs w !! this = Some v ∧ o' = v ∨ vecs w !! this = None ∧ buffer_ (data_ o') = nullptr).
Proof.
  intros [_ Hcall] Hex. destruct op; simpl in Hex; try done; injection Hex as ->; simpl in *.
  - (* Vector(Vector &&) *)
    destruct Hcall as (Hnone & [o Ho]).
    assert (this ≠ other) as Hne by congruence.
    exists o, o, (mkVector (mkRawMemory (buffer_ (data_ o)) (capacity_ (data_ o))) (size_ o)),
      (mkVector (mkRawMemory nullptr 0) 0).
    split_and!; [done|by right| |done|by right].
    unfold Vector_move, bind, get_vec. rewrite Ho. done.
  - (* operator=(Vector &&) *)
    destruct Hcall as ([v Hv] & [o Ho]).
    exists v, o, o, v. split_and!; [done|by left| |done|by left].
    unfold assign_move. by apply Swap_run.
  - (* Swap *)
    destruct Hcall as ([v Hv] & [o Ho]).
    exists v, o, o, v. split_and!; [done|by left| |done|by left].
    by apply Swap_run.
Qed.

(** The behaviour of a call made within its contract is defined, the
    two exits of [reaches_dead_slot] apart. *)
Lemma call_defined this (op : operation) w :
  world_inv w → callable w this op → call this op w = Undef →
  reaches_dead_slot w this op.
Proof.
  intros Hinv Hcall Hrun.
  pose proof (call_keeps_invariant this op w Hinv Hcall) as H. unfold wp_or in H.
  by rewrite Hrun in H.
Qed.


(** X6 Every operation of Vector calls the allocator at
    most once, whether it returns or throws.  Nothing is said of the two
    exits of an insertion on which the behaviour is undefined
    ([reaches_dead_slot]); the behaviour of every other call is
    defined. *)
Theorem at_most_one_allocation this (op : operation) w :
  world_inv w → callable w this op →
  match call this op w with
  | Ok _ w' | Throw _ w' => allocs_done w ≤ allocs_done w' ≤ allocs_done w + 1
  | Undef => reaches_dead_slot w this op
  end.
Proof.
  intros Hinv Hcall.
  pose proof (call_defined this op w Hinv Hcall) as Hdef.
  destruct (exchanged_with op) as [other|] eqn:Hex.
  - destruct (exchange_run this op other w Hcall Hex) as (v & o & v' & o' & _ & _ & Hrun & _).
    rewrite Hrun. simpl. lia.
  - pose proof (exits_run _ _ _ _
                  (call_storage this op w (fresh_block w (proj1 Hinv)) Hcall Hex)) as Hst.
    destruct (call this op w) as [[] w'|e w'|]; [| |by apply Hdef];
      destruct Hst as [(_ & _ & [[-> _]| ->]) _]; lia.
Qed.

End Ownership.

(** * Construction and destruction *)

Section Lifecycle.
Context {T : Type} {ET : Element T}.
Implicit Types (w : World T) (xs ys zs : list T).

(** X8 [Vector(n)], for [n] whose size in bytes fits [size_t]: when
    it returns, the new Vector holds [n] value-initialized elements and
    its capacity is exactly [n], and nothing else has changed; when the
    allocation fails or a constructor throws, [n] is not 0 and nothing
    that existed before has changed; [Vector(0)] does what [Vector()]
    does: an empty Vector with a null buffer and no call of the
    allocator.  It returns whenever no constructor throws and the
    allocation succeeds. *)
Theorem Vector_sized_builds this n w :
  heap_wf w → 0 ≤ n → n * Z.pos sizeof ≤ SIZE_MAX →
  wp (Vector_sized this n) w
     (λ _ w', is_vector w' this (replicate (Z.to_nat n) value_init) n ∧
              heap_wf w' ∧ frame this w w')
     (λ e w', 0 < n ∧ heap_wf w' ∧ preserved w w' ∧
              ((e = bad_alloc ∧ alloc_refused w (n * Z.pos sizeof)) ∨ thrown_by_fault w e)) ∧
  Vector_sized this 0 w = Vector_default this w ∧
  (no_faults w → (0 < n → alloc_granted w (n * Z.pos sizeof)) →
   ∃ w', Vector_sized this n w = Ok tt w').
Proof.
  intros Hwf Hn Hsz.
  assert (Vector_sized this 0 w = Vector_default this w) as Hzero by reflexivity.
  pose proof (wp_strengthen _ _ _ _ (Vector_sized_spec this n w Hwf Hn Hsz)) as Hspec.
  assert (wp (Vector_sized this n) w
            (λ _ w', is_vector w' this (replicate (Z.to_nat n) value_init) n ∧
                     heap_wf w' ∧ frame this w w')
            (λ e w', 0 < n ∧ heap_wf w' ∧ preserved w w' ∧
                     ((e = bad_alloc ∧ alloc_refused w (n * Z.pos sizeof)) ∨
                      thrown_by_fault w e))) as Hwp.
  { eapply wp_mono; [exact Hspec| |].
    - by intros [] w' [_ ?].
    - intros e w' [Hrun (Hwf' & Hp & Hwhy)]. split_and!; try done.
      destruct (decide (n = 0)) as [->|]; [|lia]. by rewrite Hzero in Hrun. }
  split_and!; [done|done|].
  intros Hnf Halloc. destruct (wp_no_throw _ _ _ _ Hwp) as ([] & w' & Hrun & _); [|by exists w'].
  intros e w' (Hpos & _ & _ & [[_ Href]|Hth]).
  - by apply (not_refused _ _ (Halloc Hpos)).
  - by apply (no_faults_not_thrown w e Hnf).
Qed.

Lemma separate_fresh w w' this other ys co :
  heap_wf w → vecs w !! this = None → frame this w w' → is_vector w other ys co →
  separate w' this other.
Proof.
  intros Hwf Hnone Hfr (d & Hv & _ & Hown) l Hl Hl'.
  assert (other ≠ this) as Hne by congruence.
  destruct Hfr as (Hvs & _ & _ & _ & _ & _ & _ & Hnew).
  destruct (Hnew l Hl) as [Hold|Hge].
  - by rewrite (buffer_loc_None _ _ Hnone) in Hold.
  - unfold buffer_loc in Hl'. rewrite (Hvs other Hne), Hv in Hl'. simpl in Hl'.
    assert (l < next_loc w)%nat; [|lia].
    eapply owns_block_lt; [done|done|]. by destruct (buffer_ d).
Qed.

(** X9 [Vector(const Vector &other)]: when it returns, the new
    Vector holds the elements of [other] in a buffer of its own whose
    capacity is exactly [other.Size()], whatever the capacity of
    [other]; [other] is unchanged; the calls made are one allocation of
    [Size() * sizeof(T)] bytes and one copy construction per element, in
    order (none at all for an empty [other]).  When the allocation fails
    or a copy throws, nothing that existed before has changed.  It
    returns whenever no copy throws and the allocation succeeds. *)
Theorem Vector_copy_builds this other ys co w :
  is_vector w other ys co → heap_wf w → vecs w !! this = None →
  wp (Vector_copy this other) w
     (λ _ w', is_vector w' this ys (Z.of_nat (length ys)) ∧ is_vector w' other ys co ∧
              separate w' this other ∧ heap_wf w' ∧ frame this w w' ∧
              events_since w w' (copy_events (next_loc w) (Z.of_nat (length ys))))
     (λ e w', heap_wf w' ∧ preserved w w' ∧ is_vector w' other ys co ∧
              ((e = bad_alloc ∧ alloc_refused w (Z.of_nat (length ys) * Z.pos sizeof)) ∨
               thrown_by_fault w e)) ∧
  (no_faults w → alloc_granted w (Z.of_nat (length ys) * Z.pos sizeof) →
   ∃ w', Vector_copy this other w = Ok tt w').
Proof.
  intros Hvec Hwf Hnone.
  assert (other ≠ this) as Hne by (destruct Hvec as (d & Hv & _); congruence).
  assert (separate w other this) as Hsep.
  { intros l _. by rewrite (buffer_loc_None _ _ Hnone). }
  assert (wp (Vector_copy this other) w
     (λ _ w', is_vector w' this ys (Z.of_nat (length ys)) ∧ is_vector w' other ys co ∧
              separate w' this other ∧ heap_wf w' ∧ frame this w w' ∧
              events_since w w' (copy_events (next_loc w) (Z.of_nat (length ys))))
     (λ e w', heap_wf w' ∧ preserved w w' ∧ is_vector w' other ys co ∧
              ((e = bad_alloc ∧ alloc_refused w (Z.of_nat (length ys) * Z.pos sizeof)) ∨
               thrown_by_fault w e))) as Hwp.
  { eapply wp_mono; [exact (Vector_copy_spec this other ys co w Hvec Hwf)| |].
    - intros [] w' (Hv & Hwf' & Hfr & Hev). split_and!; try done.
      + exact (is_vector_frame this other w w' ys co Hfr Hne Hwf Hsep Hvec).
      + exact (separate_fresh w w' this other ys co Hwf Hnone Hfr Hvec).
    - intros e w' (Hwf' & Hp & Hwhy). split_and!; try done.
      exact (is_vector_preserved other w w' ys co Hwf Hp Hvec). }
  split; [done|].
  intros Hnf Halloc. destruct (wp_no_throw _ _ _ _ Hwp) as ([] & w' & Hrun & _); [|by exists w'].
  intros e w' (_ & _ & _ & [[_ Href]|Hth]).
  - by apply (not_refused _ _ Halloc).
  - by apply (no_faults_not_thrown w e Hnf).
Qed.

(** X10 [Vector(Vector &&other)]: it always returns; the new
    Vector has the buffer, capacity, size and elements that [other]
    had, so pointers to the elements stay valid; [other] is left empty
    with capacity 0 and a null buffer; no element is constructed, moved
    or destroyed, and the allocator is not called. *)
Theorem Vector_move_steals this other ys co w :
  is_vector w other ys co → this ≠ other →
  ∃ w', Vector_move this other w = Ok tt w' ∧
        is_vector w' this ys co ∧ is_vector w' other [] 0 ∧
        (∀ k, iterator_at w' this k = iterator_at w other k) ∧
        iterator_at w' other 0 = nullptr ∧
        trace w' = trace w ∧ cells w' = cells w ∧ blocks w' = blocks w ∧
        allocs_done w' = allocs_done w.
Proof.
  intros Hvec Hne.
  destruct (Vector_move_spec this other ys co w Hvec Hne)
    as (w' & Hrun & Hv & Hv' & Hbl & Hbl' & _ & Hb & Hc & _ & Htr & _ & Ha & _).
  exists w'. split_and!; try done.
  - intros k. destruct Hvec as (d & Hd & _).
    unfold Vector_move, bind, get_vec in Hrun. rewrite Hd in Hrun. simpl in Hrun.
    injection Hrun as <-. unfold iterator_at. simpl.
    by rewrite lookup_insert_ne, lookup_insert_eq, Hd by done.
  - destruct (is_vector_empty_buffer _ _ _ Hv') as [_ Hv0]. unfold iterator_at. by rewrite Hv0.
Qed.

(** X11 [~Vector()]: it always returns; every element is destroyed by
    exactly one destructor call and no other slot receives one, the
    buffer is released, the object is gone, and the other Vectors and
    their blocks are untouched. *)
Theorem Vector_dtor_destroys this xs cap w :
  is_vector w this xs cap → heap_wf w →
  ∃ w' evs,
    Vector_dtor this w = Ok tt w' ∧ events_since w w' evs ∧
    vecs w' !! this = None ∧ heap_wf w' ∧ frame this w w' ∧
    (∀ l, buffer_loc w this = Some l → blocks w' !! l = None) ∧
    (∀ l i, destroyed (InBuffer l i) evs =
            if decide (buffer_loc w this = Some l ∧ 0 ≤ i < Z.of_nat (length xs))
            then 1%nat else 0%nat) ∧
    count_events is_new evs = 0%nat.
Proof.
  intros Hvec Hwf.
  pose proof (wp_and_exits _ _ _ _ _ _ (Vector_dtor_spec this xs cap w Hvec Hwf)
                (Vector_dtor_storage this w)) as Hwp.
  destruct (wp_no_throw _ _ _ _ Hwp) as ([] & w' & Hrun & (Hnone & Hwf' & Hfr & Hev) & Hst).
  { by intros e w0 [? _]. }
  eexists w', _. split_and!; try done.
  - intros l Hl. destruct Hst as (_ & Hb & _).
    rewrite Hb by (by rewrite (buffer_loc_None _ _ Hnone)). by rewrite decide_True.
  - intros l i. destruct Hvec as (d & Hv & _ & Hc0 & Hlen & Hbuf).
    rewrite (block_of_buffer _ _ _ Hv), (iterator_at_eq _ _ _ _ _ Hv). simpl.
    destruct (buffer_ d) as [|l0 o]; simpl.
    + done.
    + destruct Hbuf as (-> & _). rewrite destroyed_cons, destroyed_slot_events by lia. simpl.
      destruct (decide (l = l0 ∧ 0 + 0 ≤ i < 0 + 0 + Z.of_nat (length xs))) as [[-> Hi]|Hno].
      * rewrite decide_True; [done|]. split; [done|lia].
      * rewrite decide_False; [done|]. intros [[= ->] Hi]. apply Hno. split; [done|lia].
  - destruct Hvec as (d & Hv & _).
    rewrite (block_of_buffer _ _ _ Hv), (iterator_at_eq _ _ _ _ _ Hv). simpl.
    destruct (buffer_ d) as [|l0 o]; simpl; [done|].
    rewrite count_events_cons. simpl. apply count_slot_events_none. done.
Qed.
End Lifecycle.

(** * Swap and self-assignment *)

Section Exchange.
Context {T : Type} {ET : Element T}.
Implicit Types (w : World T) (xs ys zs : list T).

Lemma set_vecs_id f w : f (vecs w) = vecs w → set_vecs f w = w.
Proof. intros H. destruct w. unfold set_vecs. simpl in *. by rewrite H. Qed.

(** X12 [Swap]: exchanging two Vectors twice gives back the state
    before the first exchange; [a.Swap(b)] and [b.Swap(a)] do the same;
    and a Vector exchanged with itself, by [Swap] or by move assignment
    [a = std::move(a)], is unchanged. *)
Theorem Swap_involution a b w :
  is_Some (vecs w !! a) → is_Some (vecs w !! b) →
  bind (Swap a b) (λ _, Swap a b) w = Ok tt w ∧
  Swap a b w = Swap b a w ∧
  Swap a a w = Ok tt w ∧ assign_move a a w = Ok tt w.
Proof.
  intros [va Ha] [vb Hb].
  assert (Swap a a w = Ok tt w) as Hself.
  { rewrite (Swap_run a a va va w Ha Ha). f_equal. apply set_vecs_id.
    rewrite insert_insert_eq. by apply insert_id. }
  split_and!; [| |done|done].
  - unfold bind. rewrite (Swap_run a b va vb w Ha Hb).
    destruct (decide (a = b)) as [->|Hne].
    + assert (vb = va) as -> by congruence.
      rewrite (Swap_run b b va va); [|simpl; apply lookup_insert_eq..].
      f_equal. unfold set_vecs. destruct w. simpl in *. f_equal.
      rewrite !insert_insert_eq. by apply insert_id.
    + rewrite (Swap_run a b vb va).
      2:{ simpl. by rewrite lookup_insert_ne, lookup_insert_eq. }
      2:{ simpl. by rewrite lookup_insert_eq. }
      f_equal. unfold set_vecs. destruct w. simpl in *. f_equal.
      apply map_eq. intros c.
      destruct (decide (c = b)) as [->|Hcb].
      { by rewrite lookup_insert_eq. }
      rewrite lookup_insert_ne by done.
      destruct (decide (c = a)) as [->|Hca].
      { by rewrite lookup_insert_eq. }
      by rewrite !lookup_insert_ne.
  - rewrite (Swap_run a b va vb w Ha Hb), (Swap_run b a vb va w Hb Ha). f_equal.
    unfold set_vecs. f_equal.
    destruct (decide (a = b)) as [->|Hne]; [by assert (vb = va) as -> by congruence|].
    by apply insert_insert_ne.
Qed.
End Exchange.

(** * Exception safety *)

Section Failures.
Context {T : Type} {ET : Element T}.
Implicit Types (w : World T) (xs ys zs : list T).

(** X13 Copy assignment [a = b] that ends by an exception
    (an allocation failure or a throwing copy): [a] keeps its size and
    capacity; when the assignment had to build a copy of [b] first
    ([b.Size() > a.Capacity()]), [a] holds exactly the elements it held;
    [b] is unchanged.  An assignment of a Vector to itself changes
    nothing and makes no call. *)
Theorem assign_copy_exception_safety a b xs ys ca cb w :
  a ≠ b → world_inv w → is_vector w a xs ca → is_vector w b ys cb →
  wp (assign_copy a b) w
     (λ _ w', is_vector w' a ys (if decide (ca < Z.of_nat (length ys))
                                 then Z.of_nat (length ys) else ca) ∧
              is_vector w' b ys cb)
     (λ e w', (∃ xs', is_vector w' a xs' ca ∧ length xs' = length xs ∧
                      (ca < Z.of_nat (length ys) → xs' = xs)) ∧
              is_vector w' b ys cb ∧ heap_wf w' ∧
              ((e = bad_alloc ∧ ca < Z.of_nat (length ys) ∧
                alloc_refused w (Z.of_nat (length ys) * Z.pos sizeof)) ∨
               thrown_by_fault w e)) ∧
  assign_copy a a w = Ok tt w.
Proof.
  intros Hne (Hwf & _ & Hsep) Ha Hb. split; [|apply assign_copy_self].
  eapply wp_mono;
    [exact (assign_copy_spec a b xs ys ca cb w Hne Ha Hb Hwf (Hsep a b Hne))| |].
  - intros [] w' (Hwf' & Hfr & Hv & _). split; [done|].
    exact (is_vector_frame a b w w' ys cb Hfr (not_eq_sym Hne) Hwf (Hsep b a (not_eq_sym Hne)) Hb).
  - intros e w' (Hwf' & Hfr & Hx & Hwhy). split_and!; try done.
    exact (is_vector_frame a b w w' ys cb Hfr (not_eq_sym Hne) Hwf (Hsep b a (not_eq_sym Hne)) Hb).
Qed.

(** X14 [Reserve(n)] that ends by an exception (the
    allocation failed, or a constructor threw during the relocation):
    [n] was above the capacity, and the Vector keeps its capacity and
    its size; when elements are relocated by copy construction it holds
    exactly the elements it held. *)
Theorem Reserve_exception_safety this xs cap n w :
  is_vector w this xs cap → heap_wf w → 0 ≤ n → n * Z.pos sizeof ≤ SIZE_MAX →
  wp (Reserve this n) w
     (λ _ w', is_vector w' this xs (Z.max cap n))
     (λ e w', cap < n ∧ heap_wf w' ∧ frame this w w' ∧
              (∃ xs', is_vector w' this xs' cap ∧ length xs' = length xs ∧
                      (relocate_by_move = false → xs' = xs)) ∧
              ((e = bad_alloc ∧ alloc_refused w (n * Z.pos sizeof)) ∨ thrown_by_fault w e)).
Proof.
  intros Hvec Hwf Hn Hsz.
  eapply wp_mono; [exact (Reserve_spec this xs cap n w Hvec Hwf Hn Hsz)| |done].
  intros [] w' Hr. destruct (decide (n ≤ cap)) as [Hle|Hgt].
  - subst w'. by rewrite Z.max_l by lia.
  - destruct Hr as (Hv & _). by rewrite Z.max_r by lia.
Qed.



(** X25 [Emplace] at position [begin() + k] of a Vector
    at capacity whose elements are relocated by copy construction, with
    arguments that are copied, or moved from elsewhere: if the allocation
    and the construction of the new element succeed and the first
    operation to throw is the copy of an element before [k], then the
    exception reaches the caller, the new block is released, and the
    Vector holds exactly the elements it held, with the same capacity;
    when the exception derives from [std::exception], the new element
    and every copy placed in the new block were constructed once and
    destroyed once, and no other slot of the new block was touched. *)
Theorem Emplace_prefix_copy_failure this xs k a x j e w :
  relocate_by_move = false →
  is_vector w this xs (Z.of_nat (length xs)) → heap_wf w →
  0 ≤ k ≤ Z.of_nat (length xs) → arg_value w a = Some x → moved_slot a = None →
  alloc_granted w (grown_capacity (Z.of_nat (length xs)) * Z.pos sizeof) →
  relocation_throws xs a j e w → j < k →
  ∃ w', Emplace this (iterator_at w this k) a w = Throw e w' ∧
        is_vector w' this xs (Z.of_nat (length xs)) ∧
        heap_wf w' ∧ frame this w w' ∧
        blocks w' !! next_loc w = None ∧
        (catch_std_exception e = true → new_block_cleaned (next_loc w) k j w w').
Proof. apply Emplace_prefix_copy_throws. Qed.
End Failures.

(** * Insertion and removal together *)

Section Composition.
Context {T : Type} {ET : Element T}.
Implicit Types (w : World T) (xs ys zs : list T).

(** X17 [Emplace(pos, args...)] at any position [begin() + k],
    [end()] included, on each of its three paths, for arguments that
    designate an object of value [x]: when it returns, the new element,
    of value [x], is at index [k], the elements that were before [k] are
    where they were, those from [k] on are one index further, the size
    is one more, and the capacity is unchanged unless the Vector was
    full, in which case it is [max(1, 2 * capacity)].  The elements are
    those the Vector held, except that the one the call was asked to
    move from, if it is an element of the Vector itself, is in its
    moved-from state ([after_use]); for arguments that are copied, or
    moved from elsewhere, they are exactly those it held.  It returns
    whenever no element operation throws and the allocation (if the
    Vector was full) succeeds; its behaviour is undefined on the two
    exits [destroys_dead_slot] only. *)
Theorem Emplace_inserts this xs cap k a x w :
  is_vector w this xs cap → heap_wf w → 0 ≤ k ≤ Z.of_nat (length xs) →
  arg_value w a = Some x →
  wp_or (Emplace this (iterator_at w this k) a) w
     (λ _ w', ∃ xs',
        is_vector w' this xs' (capacity_after_insert (Z.of_nat (length xs)) cap) ∧
        length xs' = S (length xs) ∧
        lookupZ xs' k = Some x ∧
        (∀ i, i < k → lookupZ xs' i = lookupZ (after_use w this a xs) i) ∧
        (∀ i, k ≤ i → lookupZ xs' (i + 1) = lookupZ (after_use w this a xs) i) ∧
        heap_wf w' ∧ frame this (moved_out a w) w')
     (λ _ _, True)
     (destroys_dead_slot xs cap k a w) ∧
  (moved_slot a = None → after_use w this a xs = xs ∧ moved_out a w = w) ∧
  (no_faults w →
   (Z.of_nat (length xs) = cap → alloc_granted w (grown_capacity cap * Z.pos sizeof)) →
   ∃ r w', Emplace this (iterator_at w this k) a w = Ok r w').
Proof.
  intros Hvec Hwf Hk Hx. split_and!.
  - eapply wp_mono; [exact (Emplace_spec_by_reference this xs cap k a x w Hvec Hwf Hk Hx)| |done].
    intros r w' Hr. apply Emplace_returned_done in Hr as (Hv & Hwf' & Hfr & _).
    rewrite length_after_use in Hv.
    assert (0 ≤ k ≤ Z.of_nat (length (after_use w this a xs))) as Hk'
      by (by rewrite length_after_use).
    exists (inserted k x (after_use w this a xs)). split_and!; try done.
    + by rewrite length_inserted, length_after_use.
    + rewrite lookupZ_inserted by done. rewrite decide_False by lia. by rewrite decide_True.
    + intros i Hi. rewrite lookupZ_inserted by done. by rewrite decide_True.
    + intros i Hi. rewrite lookupZ_inserted by done. rewrite !decide_False by lia.
      f_equal. lia.
  - intros Hm. split; [by apply after_use_not_moved|by apply moved_out_not_moved].
  - intros Hnf Halloc.
    destruct (Emplace_returns this xs cap k a x w Hvec Hwf Hk Hx Hnf Halloc)
      as (r & w' & Hrun & _).
    by exists r, w'.
Qed.

Lemma delete_inserted xs k x :
  0 ≤ k ≤ Z.of_nat (length xs) → delete (Z.to_nat k) (inserted k x xs) = xs.
Proof.
  intros Hk. unfold inserted.
  assert (Z.to_nat k = length (take (Z.to_nat k) xs)) as Hl by (rewrite length_take; lia).
  rewrite Hl at 1. rewrite delete_middle. apply take_drop.
Qed.

(** X18 [Insert(pos, v)], with [v] copied or moved in from
    an object it designates, followed by [Erase] at the iterator that
    [Insert] returned: when [Insert] returns, [Erase] does not fail an
    assertion, and when both return, the Vector holds the elements it
    held, in the same order (the one that [Insert] was asked to move
    from, if it is an element of the Vector itself, in its moved-from
    state: [after_use]); its capacity is unchanged unless it was full.
    Both return whenever no element operation throws and the allocation
    (if the Vector was full) succeeds.  The behaviour is undefined on
    the two exits [destroys_dead_slot] of [Insert] only. *)
Theorem Insert_then_Erase this xs cap k (value : ref T) x (by_move : bool) w :
  is_vector w this xs cap → heap_wf w → 0 ≤ k ≤ Z.of_nat (length xs) →
  let insert := if by_move then Insert_move else Insert in
  let a := if by_move then ByMove value else ByCopy value in
  arg_value w a = Some x →
  wp_or (bind (insert this (iterator_at w this k) value) (λ r, Erase this r)) w
     (λ _ w', is_vector w' this (after_use w this a xs)
                (capacity_after_insert (Z.of_nat (length xs)) cap))
     (λ _ _, True)
     (destroys_dead_slot xs cap k a w) ∧
  (by_move = false → after_use w this a xs = xs) ∧
  (no_faults w →
   (Z.of_nat (length xs) = cap → alloc_granted w (grown_capacity cap * Z.pos sizeof)) →
   ∃ r w', bind (insert this (iterator_at w this k) value) (λ r, Erase this r) w = Ok r w').
Proof.
  intros Hvec Hwf Hk insert a Hx.
  assert (insert this (iterator_at w this k) value = Emplace this (iterator_at w this k) a)
    as Hins.
  { unfold insert, a. by destruct by_move. }
  rewrite Hins.
  set (ys := after_use w this a xs).
  assert (length ys = length xs) as Hlys by apply length_after_use.
  assert (∀ w1, is_vector w1 this (inserted k x ys)
                  (capacity_after_insert (Z.of_nat (length xs)) cap) → heap_wf w1 →
            wp (Erase this (iterator_at w1 this k)) w1
               (λ _ w', is_vector w' this ys (capacity_after_insert (Z.of_nat (length xs)) cap))
               (λ e _, thrown_by_fault w1 e)) as Herase.
  { intros w1 Hv1 Hwf1.
    eapply wp_mono;
      [apply (Erase_spec this _ _ k w1 Hv1 Hwf1); rewrite length_inserted; lia| |].
    - intros r w' (Hv' & _). rewrite delete_inserted in Hv'; [done|lia].
    - by intros e w' (_ & _ & _ & ? & _). }
  split_and!.
  - apply wp_bind.
    eapply wp_mono; [exact (Emplace_spec_by_reference this xs cap k a x w Hvec Hwf Hk Hx)| |done].
    intros r w1 Hr. apply Emplace_returned_done in Hr as (Hv1 & Hwf1 & _ & ->).
    fold ys in Hv1. rewrite Hlys in Hv1.
    apply wp_defined. eapply wp_mono; [by apply Herase|done|done].
  - intros ->. by apply after_use_not_moved.
  - intros Hnf Halloc.
    destruct (Emplace_returns this xs cap k a x w Hvec Hwf Hk Hx Hnf Halloc)
      as (r & w1 & Hrun & Hr).
    apply Emplace_returned_done in Hr as (Hv1 & Hwf1 & Hfr1 & ->).
    fold ys in Hv1. rewrite Hlys in Hv1.
    unfold bind. rewrite Hrun.
    destruct (wp_no_throw _ _ _ _ (Herase w1 Hv1 Hwf1)) as (r' & w' & Hrun' & _).
    + intros e w' Hth.
      assert (no_faults w1) as Hnf1; [|exact (no_faults_not_thrown w1 e Hnf1 Hth)].
      eapply (no_faults_frame this (moved_out a w)); [done|].
      destruct (moved_out_fields a w) as (_ & _ & _ & _ & Hf & Ho & _).
      unfold no_faults. by rewrite Hf, Ho.
    + by exists r', w'.
Qed.

(** X19 [PushBack(x)] followed by [PopBack()], for a reference
    that designates an object: whenever [PushBack] returns, [PopBack]
    returns too, and the Vector then holds the elements it held; its
    capacity is unchanged unless it was full, in which case it stays at
    [max(1, 2 * capacity)]: [PopBack] gives no storage back.
    [PushBack] returns whenever no element operation throws and the
    allocation (if the Vector was full) succeeds. *)
Theorem PushBack_then_PopBack this xs cap (value : ref T) x w :
  is_vector w this xs cap → heap_wf w → arg_value w (ByCopy value) = Some x →
  (∀ w1, PushBack this value w = Ok tt w1 →
         ∃ w2, PopBack this w1 = Ok tt w2 ∧
               is_vector w2 this xs (capacity_after_insert (Z.of_nat (length xs)) cap) ∧
               bind (PushBack this value) (λ _, PopBack this) w = Ok tt w2) ∧
  (no_faults w →
   (Z.of_nat (length xs) = cap → alloc_granted w (grown_capacity cap * Z.pos sizeof)) →
   ∃ w1, PushBack this value w = Ok tt w1).
Proof.
  intros Hvec Hwf Hx.
  assert (∀ w1, is_vector w1 this (xs ++ [x])
                  (capacity_after_insert (Z.of_nat (length xs)) cap) → heap_wf w1 →
            wp (PopBack this) w1
               (λ _ w', is_vector w' this xs (capacity_after_insert (Z.of_nat (length xs)) cap))
               (λ _ _, False)) as Hpop.
  { intros w1 Hv1 Hwf1.
    eapply wp_mono; [apply (PopBack_spec this _ _ w1 Hv1 Hwf1); rewrite length_app; simpl; lia| |done].
    intros [] w' (Hv' & _). rewrite length_app in Hv'. simpl in Hv'.
    replace (length xs + 1 - 1)%nat with (length xs) in Hv' by lia.
    by rewrite take_app_length in Hv'. }
  assert (PushBack this value w =
          bind (Emplace this (iterator_at w this (Z.of_nat (length xs))) (ByCopy value))
               (λ _, ret tt) w) as Hpush.
  { unfold PushBack, bind. by rewrite (EmplaceBack_run _ _ _ _ _ Hvec). }
  pose proof (Emplace_spec_by_reference this xs cap (Z.of_nat (length xs)) (ByCopy value) x w
                Hvec Hwf ltac:(lia) Hx) as Hspec.
  unfold wp_or in Hspec.
  split.
  - intros w1 Hrun. rewrite Hpush in Hrun. unfold bind in Hrun.
    destruct (Emplace this (iterator_at w this (Z.of_nat (length xs))) (ByCopy value) w)
      as [r w1'|e w1'|] eqn:Hemp; [|done|done].
    injection Hrun as <-.
    apply Emplace_returned_done in Hspec as (Hv1 & Hwf1 & _).
    change (after_use w this (ByCopy value) xs) with xs in Hv1.
    rewrite inserted_at_end in Hv1.
    destruct (wp_returns _ _ _ (Hpop w1' Hv1 Hwf1)) as ([] & w2 & Hrun' & Hv2).
    exists w2. split_and!; [done|done|].
    unfold bind at 1. rewrite Hpush. unfold bind. by rewrite Hemp.
  - intros Hnf Halloc.
    destruct (Emplace_returns this xs cap (Z.of_nat (length xs)) (ByCopy value) x w)
      as (r & w1 & Hrun & _); [done|done|lia|done|done|done|].
    exists w1. rewrite Hpush. unfold bind. by rewrite Hrun.
Qed.
End Composition.

(** * Other Vectors *)

Section Independence.
Context {T : Type} {ET : Element T}.
Implicit Types (w : World T) (xs ys zs : list T).

(** X20 A call on one Vector never changes another one:
    whether it returns or throws, every Vector other than [this], than
    the Vector the call exchanges members with (by move construction,
    move assignment or [Swap]) and than the Vector one of whose elements
    the call is asked to move from (an insertion given an rvalue
    reference to it) keeps its elements, size, capacity and buffer.
    Nothing is said of the two exits of an insertion on which the
    behaviour is undefined ([reaches_dead_slot]); the behaviour of every
    other call is defined. *)
Theorem other_vectors_untouched this (op : operation) b ys cb w :
  world_inv w → callable w this op →
  b ≠ this → exchanged_with op ≠ Some b → ¬ moves_from w op b → is_vector w b ys cb →
  match call this op w with
  | Ok _ w' | Throw _ w' => is_vector w' b ys cb ∧ vecs w' !! b = vecs w !! b
  | Undef => reaches_dead_slot w this op
  end.
Proof.
  intros Hinv Hcall Hb Hex Hmv Hvec.
  pose proof (call_keeps_invariant this op w Hinv Hcall) as Hk. unfold wp_or in Hk.
  assert (match call this op w with
          | Ok _ w' | Throw _ w' => vecs w' !! b = vecs w !! b
          | Undef => True
          end) as Hsame.
  { destruct (exchanged_with op) as [other|] eqn:Hex'.
    - destruct (exchange_run this op other w Hcall Hex') as (v & o & v' & o' & _ & _ & Hrun & _).
      rewrite Hrun. simpl. rewrite !lookup_insert_ne; [done|congruence|congruence].
    - pose proof (exits_run _ _ _ _
                    (call_storage this op w (fresh_block w (proj1 Hinv)) Hcall Hex')) as Hst.
      destruct (call this op w) as [[] w'|e w'|]; [| |done];
        destruct Hst as [(Hvs & _) _]; by apply Hvs. }
  destruct (call this op w) as [[] w'|e w'|]; [| |done].
  - split; [|done]. destruct Hk as [_ Hk]. by apply Hk.
  - split; [|done]. destruct Hk as [_ Hk]. by apply Hk.
Qed.
End Independence.

(** * The size after an exception *)

Section SizeOnFailure.
Context {T : Type} {ET : Element T}.
Implicit Types (w : World T) (xs ys zs : list T).

Lemma size_kept_length this xs xs' cap cap' w w' :
  is_vector w this xs cap → is_vector w' this xs' cap' → length xs' = length xs →
  size_kept this w w'.
Proof.
  intros (d & Hv & _) (d' & Hv' & _) Hlen v Hv0. rewrite Hv in Hv0. injection Hv0 as <-.
  eexists. split; [exact Hv'|]. simpl. by rewrite Hlen.
Qed.

Lemma Emplace_failed_size this xs cap k a w e w' :
  is_vector w this xs cap → Emplace_failed this xs cap k a w e w' → size_kept this w w'.
Proof.
  intros Hvec. unfold Emplace_failed.
  destruct (decide (Z.of_nat (length xs) = cap)) as [Heq|Hne].
  - intros (_ & _ & _ & [(_ & _ & Hv & _)|[(_ & _ & _ & Hv & _)|(j & _ & _ & _ & _ & _ & _ & _ & Hv & _)]]).
    + by eapply size_kept_length.
    + by eapply size_kept_length.
    + eapply size_kept_length; [done|done|]. apply length_relocate_prefix.
  - destruct (decide (k = Z.of_nat (length xs))) as [Hend|Hmid].
    + intros [(Hv & _) _]. by eapply size_kept_length.
    + intros (_ & _ & _ & [(xs' & Hv & Hlen)|(_ & l & d & Hv' & _)]).
      * by eapply size_kept_length.
      * intros v Hv. destruct Hvec as (d0 & Hv0 & _). rewrite Hv0 in Hv. injection Hv as <-.
        eexists. split; [exact Hv'|done].
Qed.

Lemma size_kept_moved_out this a w w' :
  size_kept this (moved_out a w) w' → size_kept this w w'.
Proof.
  destruct (moved_out_fields a w) as (Hv & _). unfold size_kept. by rewrite Hv.
Qed.

Lemma insertion_size_kept this xs cap k a x (m : M T unit) w :
  is_vector w this xs cap → heap_wf w → 0 ≤ k ≤ Z.of_nat (length xs) →
  arg_value w a = Some x →
  m w = bind (Emplace this (iterator_at w this k) a) (λ _, ret tt) w →
  wp_or m w (λ _ _, True) (λ _ w', size_kept this w w') (destroys_dead_slot xs cap k a w).
Proof.
  intros Hvec Hwf Hk Hx Hm. eapply wp_eq; [exact Hm|]. apply wp_bind.
  eapply wp_mono; [exact (Emplace_spec_by_reference this xs cap k a x w Hvec Hwf Hk Hx)|done|].
  intros e w' Hf. destruct (decide (arg_consumed xs cap a w)).
  - apply (size_kept_moved_out this a). eapply Emplace_failed_size; [|exact Hf].
    by eapply is_vector_moved_out.
  - by eapply Emplace_failed_size.
Qed.

Lemma call_size_kept this (op : operation) w :
  world_inv w → callable w this op →
  wp_or (call this op) w (λ _ _, True) (λ _ w', size_kept this w w')
    (reaches_dead_slot w this op).
Proof.
  intros Hinv [Hargs Hcall]. pose proof Hinv as (Hwf & Hvi & Hsep).
  assert (∀ a, op_args op = Some a → ∃ x, arg_value w a = Some x) as Harg.
  { intros a Ha. destruct (Hargs a Ha) as [x Hx]. by exists x. }
  assert (∀ xs cap k a, is_vector w this xs cap → insertion op = Some (k, a) →
            destroys_dead_slot xs cap k a w → reaches_dead_slot w this op) as Hdead.
  { intros xs cap k a Hv Hi Hd. by exists k, a, xs, cap. }
  assert (∀ w', vecs w !! this = None → size_kept this w w') as Hnew.
  { intros w' Hnone v Hv. congruence. }
  destruct op; simpl in Hcall; simpl call.
  - apply wp_defined. eapply wp_mono; [by apply Vector_default_spec|done|done].
  - apply wp_defined. destruct Hcall as (Hnone & Hn & Hsz).
    eapply wp_mono; [by apply Vector_sized_spec|done|]. intros e w' _. by apply Hnew.
  - apply wp_defined. destruct Hcall as (Hnone & Hoth). destruct (Hvi _ Hoth) as (ys & co & Hvo).
    eapply wp_mono; [by eapply Vector_copy_spec|done|]. intros e w' _. by apply Hnew.
  - apply wp_defined. destruct Hcall as (Hnone & Hoth). destruct (Hvi _ Hoth) as (ys & co & Hvo).
    assert (this ≠ other) as Hne by (intros ->; rewrite Hnone in Hoth; by destruct Hoth).
    destruct (Vector_move_spec this other ys co w Hvo Hne) as (w' & Hrun & _).
    unfold wp_or. by rewrite Hrun.
  - apply wp_defined. destruct (Hvi _ Hcall) as (xs & cap & Hvec).
    eapply wp_mono; [by eapply Vector_dtor_spec|done|done].
  - apply wp_defined. destruct Hcall as (Hthis & Hrhs).
    destruct (decide (this = rhs)) as [<-|Hne].
    { unfold wp_or. by rewrite assign_copy_self. }
    destruct (Hvi _ Hthis) as (xs & ca & Hva). destruct (Hvi _ Hrhs) as (ys & cb & Hvb).
    eapply wp_mono; [eapply assign_copy_spec; [done|exact Hva|exact Hvb|done|by apply Hsep]|done|].
    intros e w' (_ & _ & (xs' & Hv & Hlen & _) & _). by eapply size_kept_length.
  - apply wp_defined. destruct Hcall as ([v Hv] & [o Ho]). unfold wp_or, assign_move. by rewrite (Swap_run _ _ _ _ _ Hv Ho).
  - apply wp_defined. destruct Hcall as ([v Hv] & [o Ho]). unfold wp_or. by rewrite (Swap_run _ _ _ _ _ Hv Ho).
  - apply wp_defined. destruct Hcall as (Hthis & Hn & Hsz). destruct (Hvi _ Hthis) as (xs & cap & Hvec).
    eapply wp_mono; [by eapply Reserve_spec|done|].
    intros e w' (_ & _ & _ & (xs' & Hv & Hlen & _) & _). by eapply size_kept_length.
  - apply wp_defined. destruct Hcall as (Hthis & Hn & Hsz). destruct (Hvi _ Hthis) as (xs & cap & Hvec).
    eapply wp_mono; [by eapply Resize_spec|done|].
    intros e w' (_ & _ & _ & (xs' & cap' & Hv & Hlen) & _). by eapply size_kept_length.
  - destruct (Hvi _ Hcall) as (xs & cap & Hvec). destruct (Harg _ eq_refl) as [x Hx].
    unfold PushBack.
    eapply wp_or_mono;
      [eapply (insertion_size_kept this xs cap (Z.of_nat (length xs)) (ByCopy value) x);
         [done|done|lia|done|]|by intros ?%at_end_defined].
    unfold bind. by rewrite (EmplaceBack_run _ _ _ _ _ Hvec).
  - destruct (Hvi _ Hcall) as (xs & cap & Hvec). destruct (Harg _ eq_refl) as [x Hx].
    unfold PushBack_move.
    eapply wp_or_mono;
      [eapply (insertion_size_kept this xs cap (Z.of_nat (length xs)) (ByMove value) x);
         [done|done|lia|done|]|by intros ?%at_end_defined].
    unfold bind. by rewrite (EmplaceBack_run _ _ _ _ _ Hvec).
  - apply wp_defined. destruct Hcall as (v & Hv & Hpos).
    destruct (Hvi this) as (xs & cap & Hvec); [by rewrite Hv|].
    rewrite (is_vector_size _ _ _ _ _ Hvec Hv) in Hpos.
    eapply wp_mono; [by eapply PopBack_spec|done|done].
  - destruct (Hvi _ Hcall) as (xs & cap & Hvec). destruct (Harg _ eq_refl) as [x Hx].
    eapply wp_or_mono;
      [eapply (insertion_size_kept this xs cap (Z.of_nat (length xs)) a x);
         [done|done|lia|done|]|by intros ?%at_end_defined].
    unfold bind. by rewrite (EmplaceBack_run _ _ _ _ _ Hvec).
  - destruct Hcall as (v & Hv & Hk). destruct (Harg _ eq_refl) as [x Hx].
    destruct (Hvi this) as (xs & cap & Hvec); [by rewrite Hv|].
    rewrite (is_vector_size _ _ _ _ _ Hvec Hv) in Hk.
    eapply wp_or_mono;
      [eapply (insertion_size_kept this xs cap k a x); [done|done|done|done|]
      |by apply Hdead].
    exact (at_offset_run this xs cap k (λ pos, Emplace this pos a) w Hvec).
  - destruct Hcall as (v & Hv & Hk). destruct (Harg _ eq_refl) as [x Hx].
    destruct (Hvi this) as (xs & cap & Hvec); [by rewrite Hv|].
    rewrite (is_vector_size _ _ _ _ _ Hvec Hv) in Hk.
    eapply wp_or_mono;
      [eapply (insertion_size_kept this xs cap k (ByCopy value) x); [done|done|done|done|]
      |by apply Hdead].
    exact (at_offset_run this xs cap k (λ pos, Insert this pos value) w Hvec).
  - destruct Hcall as (v & Hv & Hk). destruct (Harg _ eq_refl) as [x Hx].
    destruct (Hvi this) as (xs & cap & Hvec); [by rewrite Hv|].
    rewrite (is_vector_size _ _ _ _ _ Hvec Hv) in Hk.
    eapply wp_or_mono;
      [eapply (insertion_size_kept this xs cap k (ByMove value) x); [done|done|done|done|]
      |by apply Hdead].
    exact (at_offset_run this xs cap k (λ pos, Insert_move this pos value) w Hvec).
  - apply wp_defined. destruct Hcall as (v & Hv & Hk).
    destruct (Hvi this) as (xs & cap & Hvec); [by rewrite Hv|].
    rewrite (is_vector_size _ _ _ _ _ Hvec Hv) in Hk.
    eapply wp_eq; [exact (at_offset_run this xs cap k (λ pos, Erase this pos) w Hvec)|].
    apply wp_bind. eapply wp_mono; [by eapply Erase_spec|done|].
    intros e w' ((xs' & Hv' & Hlen) & _). by eapply size_kept_length.
Qed.

(** X21 An operation that ends by an exception changes the
    size of no Vector: [Size()] of the Vector it was called on, and of
    every other Vector, is what it was before the call.  (The elements
    may have changed where the operation gives the basic guarantee only,
    and the capacity may have grown in [Resize].)  Nothing is said of
    the two exits of an insertion on which the behaviour is undefined
    ([reaches_dead_slot]); the behaviour of every other call is
    defined. *)
Theorem size_kept_on_exception this (op : operation) w :
  world_inv w → callable w this op →
  match call this op w with
  | Ok _ _ => True
  | Throw _ w' => ∀ a n, Size a w = Ok n w → Size a w' = Ok n w'
  | Undef => reaches_dead_slot w this op
  end.
Proof.
  intros Hinv Hcall.
  pose proof (call_size_kept this op w Hinv Hcall) as Hk. unfold wp_or in Hk.
  destruct (exchanged_with op) as [other|] eqn:Hex.
  { destruct (exchange_run this op other w Hcall Hex) as (v & o & v' & o' & _ & _ & Hrun & _).
    by rewrite Hrun. }
  pose proof (exits_run _ _ _ _
                (call_storage this op w (fresh_block w (proj1 Hinv)) Hcall Hex)) as Hst.
  destruct (call this op w) as [[] w'|e w'|]; [done| |done].
  intros a n. unfold Size, get_size, bind, get_vec.
  destruct (vecs w !! a) as [v|] eqn:Hv; [|done]. intros [= <-].
  destruct (decide (a = this)) as [->|Hne].
  - destruct (Hk v Hv) as (v' & Hv' & Hsize). by rewrite Hv', Hsize.
  - destruct Hst as [(Hvs & _) _]. by rewrite (Hvs a Hne), Hv.
Qed.
End SizeOnFailure.

(** * Resize after an exception *)

Section ResizeFailure.
Context {T : Type} {ET : Element T}.
Implicit Types (w : World T) (xs ys zs : list T).

(** X22 [Resize(m)] that ends by an exception: [m] was
    above the size, the Vector keeps its size, and either the
    reallocation failed, and capacity is what it was (and so are the
    elements when they are relocated by copy), or a default constructor
    threw after it, and the Vector holds exactly the elements it held,
    in a buffer that has already grown to [max(capacity, m)]: [Resize]
    gives the basic guarantee only. *)
Theorem Resize_exception_safety this xs cap m w :
  is_vector w this xs cap → heap_wf w → 0 ≤ m → m * Z.pos sizeof ≤ SIZE_MAX →
  wp (Resize this m) w
     (λ _ w', ∃ xs', is_vector w' this xs' (Z.max cap m) ∧ Z.of_nat (length xs') = m)
     (λ e w', Z.of_nat (length xs) < m ∧ heap_wf w' ∧
              ((∃ xs', is_vector w' this xs' cap ∧ length xs' = length xs ∧
                       (relocate_by_move = false → xs' = xs)) ∨
               is_vector w' this xs (Z.max cap m))).
Proof.
  intros Hvec Hwf Hm Hsz.
  pose proof Hvec as (d & Hv & Hcap & Hown).
  assert (Z.of_nat (length xs) ≤ cap) as Hncap by (destruct Hown as (_ & ? & _); lia).
  destruct (decide (m ≤ Z.of_nat (length xs))) as [Hle|Hgt].
  { eapply wp_mono; [exact (Resize_spec this xs cap m w Hvec Hwf Hm Hsz)| |].
    - intros [] w' (_ & _ & Hr). unfold Resize_done in Hr. rewrite decide_True in Hr by done.
      destruct Hr as [Hv' _]. eexists. rewrite Z.max_l by lia. split; [exact Hv'|].
      rewrite length_take. lia.
    - intros e w' (? & _). lia. }
  remember (Z.of_nat (length xs)) as n eqn:Hn.
  unfold Resize. apply wp_bind. eapply wp_get_vec; [done|]. cbn [size_ data_].
  destruct (Z.geb_spec n m) as [?|_]; [lia|].
  apply wp_bind. eapply wp_mono; [exact (Reserve_spec this xs cap m w Hvec Hwf Hm Hsz)| |].
  2:{ intros e w' (_ & Hwf' & _ & Hx & _). split_and!; [lia|done|by left]. }
  intros [] w1 Hres.
  assert (is_vector w1 this xs (Z.max cap m) ∧ heap_wf w1) as (Hvec1 & Hwf1).
  { destruct (decide (m ≤ cap)).
    - subst w1. rewrite Z.max_l by lia. done.
    - destruct Hres as (? & ? & _). rewrite Z.max_r by lia. done. }
  destruct (is_vector_has_room _ _ _ _ Hvec1)
    as (l & bytes & Hv1 & Hlen1 & Hb1 & Hbsz1 & Hc1 & Hbl1); [lia|].
  rewrite <- Hn in *.
  apply wp_bind. eapply wp_get_vec; [done|]. cbn [size_ data_]. unfold GetAddress.
  cbn [buffer_ ptr_add].
  rewrite size_t_small by (unfold SIZE_MAX in *; pose proof (Pos2Z.is_pos sizeof); nia).
  apply wp_bind. unfold uninitialized_default_construct_n.
  apply wp_uninitialized_fill; [lia|done| | |].
  - intros j Hj. split.
    + eapply in_block_intro; [done|lia|nia].
    + rewrite Hc1. apply lookupZ_None. lia.
  - intros c Hf Hc'. eapply wp_set_size; [exact Hv1|]. cbn [data_].
    set (ys := xs ++ replicate (Z.to_nat (m - n)) default_init).
    assert (Z.of_nat (length ys) = m) as Hlys.
    { unfold ys. rewrite length_app, length_replicate. lia. }
    exists ys. split; [|done].
    apply (is_vector_resized this l bytes (mkRawMemory (Ptr l 0) (Z.max cap m)));
      simpl; try done; try lia.
    intros i. rewrite Hc', Hc1. unfold ys.
    destruct (decide (l = l ∧ 0 + n ≤ i < 0 + n + (m - n))) as [[_ ?]|Hno].
    + rewrite lookupZ_app_r by lia. rewrite lookupZ_replicate, decide_True; [done|lia].
    + destruct (decide (i < n)).
      * rewrite lookupZ_app_l; [done|lia].
      * assert (m ≤ i) by lia.
        rewrite (proj2 (lookupZ_None xs i)) by lia. symmetry.
        apply lookupZ_None. rewrite length_app, length_replicate. lia.
  - intros j e Hj Hf He. split_and!; [lia| |].
    + apply (heap_wf_with_heap _ _ _ w1); [done|]. apply Hwf1.
    + right. destruct Hvec1 as (d1 & Hvd1 & Hcap1 & Hown1). exists d1. split_and!; done.
Qed.
End ResizeFailure.

(** * RawMemory *)

Section RawStorage.
Context {T : Type} {ET : Element T}.
Implicit Types (w : World T) (xs ys zs : list T).

(** X23 [RawMemory(n)] followed by [~RawMemory()]: when the
    allocation succeeds, the destructor returns and the heap is what it
    was before the construction: the block obtained is released, by
    exactly one call of [operator delete], and no element and no Vector
    is touched; for [n == 0] neither [operator new] nor
    [operator delete] has any effect. *)
Theorem RawMemory_create_destroy n w :
  heap_wf w → 0 ≤ n ≤ SIZE_MAX →
  (n ≠ 0 → alloc_granted w (size_t (n * Z.pos sizeof))) →
  ∃ w', bind (RawMemory_ctor n) RawMemory_dtor w = Ok tt w' ∧
        blocks w' = blocks w ∧ cells w' = cells w ∧ vecs w' = vecs w ∧
        events_since w w'
          (if decide (n = 0) then []
           else [EvDelete (next_loc w); EvNew (size_t (n * Z.pos sizeof))]).
Proof.
  intros Hwf Hn Halloc. pose proof (fresh_block w Hwf) as Hfresh.
  unfold bind, RawMemory_ctor, Allocate, bind.
  destruct (decide (n = 0)) as [->|Hne].
  - exists w. by simpl.
  - rewrite decide_True by done. destruct (Halloc Hne) as [Hf Hb].
    unfold operator_new. rewrite Hf. simpl.
    destruct (Z.ltb_spec PTRDIFF_MAX (size_t (n * Z.pos sizeof))); [lia|].
    unfold ret, RawMemory_dtor, Deallocate, operator_delete. simpl.
    rewrite lookup_insert_eq. simpl. eexists. split; [reflexivity|]. simpl.
    split_and!; try done. rewrite delete_insert_eq. by apply delete_id.
Qed.

(** X24 Move assignment of RawMemory: assigned from
    another object, it releases the block it owned (by one call of
    [operator delete], and without destroying any element), takes over
    the block and the capacity of [rhs], and leaves [rhs] null with
    capacity 0, so that the destructor of [rhs] then releases nothing;
    assigned from itself, it does nothing. *)
Theorem RawMemory_assign_move_transfers rm rhs w :
  (∀ l i, buffer_ rm = Ptr l i → i = 0 ∧ is_Some (blocks w !! l)) →
  RawMemory_assign_move true rm rm w = Ok (rm, rm) w ∧
  ∃ w', RawMemory_assign_move false rm rhs w =
          Ok (mkRawMemory (buffer_ rhs) (capacity_ rhs), mkRawMemory nullptr 0) w' ∧
        (∀ l, blocks w' !! l =
              if decide (block_of (buffer_ rm) = Some l) then None else blocks w !! l) ∧
        cells w' = cells w ∧ vecs w' = vecs w ∧
        events_since w w' (match buffer_ rm with Ptr l _ => [EvDelete l] | nullptr => [] end) ∧
        RawMemory_dtor (mkRawMemory nullptr 0) w' = Ok tt w'.
Proof.
  intros Hown. split; [done|]. exists (released (buffer_ rm) w).
  split_and!.
  - unfold RawMemory_assign_move, bind, Deallocate, operator_delete. simpl.
    destruct (buffer_ rm) as [|l i] eqn:Hb; [done|].
    destruct (Hown l i eq_refl) as [-> [bytes Hl]]. by rewrite Hl.
  - apply blocks_released.
  - apply cells_released.
  - apply vecs_released.
  - unfold events_since. by rewrite trace_released.
  - done.
Qed.
End RawStorage.

(** * The claims on examples *)

Lemma one_vector_inv ET xs cap faults :
  0 < cap → Z.of_nat (length xs) ≤ cap → cap * Z.pos (sizeof (Element := ET)) ≤ PTRDIFF_MAX →
  world_inv (ET := ET) (one_vector ET xs cap faults).
Proof. intros. apply with_vector_inv; [apply start_inv|done..]. Qed.

Lemma one_vector_wf ET xs cap faults :
  0 < cap → Z.of_nat (length xs) ≤ cap → cap * Z.pos (sizeof (Element := ET)) ≤ PTRDIFF_MAX →
  heap_wf (one_vector ET xs cap faults).
Proof. intros. by apply one_vector_inv. Qed.

Lemma one_vector_holds ET xs cap faults :
  0 < cap → Z.of_nat (length xs) ≤ cap →
  is_vector (ET := ET) (one_vector ET xs cap faults) vec_a xs cap.
Proof. intros. apply with_vector_holds; [apply start_inv|done..]. Qed.

Lemma two_vectors_inv : world_inv (ET := int_element) two_vectors.
Proof. apply with_vector_inv; [by apply one_vector_inv|done..]. Qed.

Lemma two_vectors_a : is_vector (ET := int_element) two_vectors vec_a [1; 2] 2.
Proof.
  apply with_vector_keeps; [by apply one_vector_inv|done|by apply one_vector_holds].
Qed.

Lemma two_vectors_b : is_vector (ET := int_element) two_vectors vec_b [7] 3.
Proof. apply with_vector_holds; [by apply one_vector_wf|done..]. Qed.

Lemma empty_vector_holds : is_vector (ET := int_element) empty_vector vec_a [] 0.
Proof.
  exists RawMemory_default. split_and!; [apply lookup_insert_eq|done|]. split_and!; done.
Qed.

Lemma empty_vector_wf : heap_wf empty_vector.
Proof. apply heap_wf_set_vecs. apply (start_inv (ET := int_element)). Qed.

Lemma no_fault_no_faults (w : World Z) : fault_at w = no_fault → no_faults w.
Proof. intros H k _. by rewrite H. Qed.

Lemma no_alloc_fault_no_alloc_faults (w : World Z) :
  alloc_fault_at w = no_alloc_fault → no_alloc_faults w.
Proof. intros H k _. by rewrite H. Qed.

(** C1 at a Vector [1; 2] at capacity, relocated by copy:
    [Insert(begin(), 9)] where the copy of the first element, which is
    relocated after the insertion position, throws a [std::exception]. *)
Lemma C1_witness :
  Emplace (ET := copied_element) vec_a
    (iterator_at (one_vector copied_element [1; 2] 2 (fault_on 1 (std_exception 0))) vec_a 0)
    (ByCopy (Outside 9))
    (one_vector copied_element [1; 2] 2 (fault_on 1 (std_exception 0)))
  = Undef.
Proof.
  apply (C1_suffix_relocation_failure (ET := copied_element) vec_a [1; 2] 0
           (ByCopy (Outside 9)) 9 0 (std_exception 0)
           (one_vector copied_element [1; 2] 2 (fault_on 1 (std_exception 0)))).
  - apply (one_vector_holds copied_element); simpl; lia.
  - apply (one_vector_wf copied_element); [lia|simpl; lia|by vm_compute].
  - simpl. lia.
  - reflexivity.
  - split; [reflexivity|by vm_compute].
  - reflexivity.
  - split_and!; [simpl; lia|simpl; lia|intros _; reflexivity|intros j' ?; lia|reflexivity].
  - lia.
  - reflexivity.
Defined.

(** What else happens when a relocation throws during an [Emplace] at
    capacity: (1) when the copy of an element before the position throws
    a [std::exception], the new element and the copies made so far are
    destroyed once and the Vector is as it was; (2) an exception that is
    not a [std::exception] passes both handlers, and the new element and the
    relocated elements are left undestroyed in the block that is released;
    (3) with move relocation of a move-only type whose move constructor
    throws, the elements relocated so far stay moved-from. *)
Example relocation_failures :
  match Emplace (ET := copied_element) vec_a (Ptr 0%nat 2) (ByCopy (Outside 9))
          (one_vector copied_element [1; 2] 2 (fault_on 2 (std_exception 0))) with
  | Throw e w' => e = std_exception 0 ∧
                  constructed (InBuffer 1%nat 2) (trace w') = 1%nat ∧
                  destroyed (InBuffer 1%nat 2) (trace w') = 1%nat ∧
                  constructed (InBuffer 1%nat 0) (trace w') = 1%nat ∧
                  destroyed (InBuffer 1%nat 0) (trace w') = 1%nat ∧
                  cells w' !! (0%nat, 0) = Some 1 ∧ cells w' !! (0%nat, 1) = Some 2
  | _ => False
  end ∧
  match Emplace (ET := copied_element) vec_a (Ptr 0%nat 1) (ByCopy (Outside 9))
          (one_vector copied_element [1; 2] 2 (fault_on 2 (foreign_exception 0))) with
  | Throw e w' => e = foreign_exception 0 ∧
                  constructed (InBuffer 1%nat 0) (trace w') = 1%nat ∧
                  destroyed (InBuffer 1%nat 0) (trace w') = 0%nat ∧
                  constructed (InBuffer 1%nat 1) (trace w') = 1%nat ∧
                  destroyed (InBuffer 1%nat 1) (trace w') = 0%nat
  | _ => False
  end ∧
  match Emplace (ET := unique_element) vec_a (Ptr 0%nat 2) (ByMove (Outside 9))
          (one_vector unique_element [1; 2] 2 (fault_on 2 (std_exception 0))) with
  | Throw e w' => e = std_exception 0 ∧
                  cells (one_vector unique_element [1; 2] 2 (fault_on 2 (std_exception 0)))
                    !! (0%nat, 0) = Some 1 ∧
                  cells w' !! (0%nat, 0) = Some 0
  | _ => False
  end.
Proof. vm_compute. done. Qed.

(** C2 at three slots of four bytes. *)
Lemma C2_witness :
  RawMemory_ctor (ET := int_element) 3 (start no_fault no_alloc_fault) =
  Ok (mkRawMemory (Ptr 0%nat 0) 3) (allocated 12 (start no_fault no_alloc_fault)).
Proof.
  destruct (C2_creation (ET := int_element) 3 (start no_fault no_alloc_fault)) as [_ H].
  - by vm_compute.
  - destruct H as (_ & Hok & _); [done|]. apply Hok. split; [reflexivity|by vm_compute].
Defined.

(** The claim C2 fails: for two-byte elements and [n = 2^63] the product
    [n * sizeof(T)] overflows [size_t], and the creation does not fail: it
    asks for 0 bytes and returns a block with capacity [2^63]. *)
Lemma C2_counterexample :
  0 ≤ 2 ^ 63 ≤ SIZE_MAX ∧
  SIZE_MAX < 2 ^ 63 * Z.pos (sizeof (Element := short_element)) ∧
  RawMemory_ctor (ET := short_element) (2 ^ 63) (start no_fault no_alloc_fault) =
  Ok (mkRawMemory (Ptr 0%nat 0) (2 ^ 63)) (allocated 0 (start no_fault no_alloc_fault)).
Proof. split_and!; [by vm_compute|by vm_compute|by vm_compute|reflexivity]. Qed.

(** C3 on five appends to an empty Vector: the capacity ends at 8. *)
Lemma C3_witness :
  ∃ w', push_all (ET := int_element) vec_a [1; 2; 3; 4; 5] empty_vector = Ok tt w' ∧
        is_vector (ET := int_element) w' vec_a [1; 2; 3; 4; 5] 8.
Proof.
  destruct (C3_growth (ET := int_element) vec_a) as (_ & _ & _ & _ & H).
  apply (H [1; 2; 3; 4; 5] empty_vector).
  - apply empty_vector_holds.
  - apply empty_vector_wf.
  - by apply no_fault_no_faults.
  - by apply no_alloc_fault_no_alloc_faults.
  - by vm_compute.
Defined.

(** The capacities seen while appending nine elements. *)
Example doubled_sequence :
  doubled <$> [0; 1; 2; 3; 4; 5; 6; 7; 8; 9] = [0; 1; 2; 4; 4; 8; 8; 8; 8; 16].
Proof. reflexivity. Qed.

(** C4 on [PushBack(3)] at a full Vector. *)
Lemma C4_witness :
  match call (ET := int_element) vec_a (OpPushBack (Outside 3))
          (one_vector int_element [1; 2] 2 no_fault) with
  | Ok _ w' => world_inv (ET := int_element) w'
  | Throw e w' =>
      world_inv (ET := int_element) w' ∨
      last_assign_threw (ET := int_element) (one_vector int_element [1; 2] 2 no_fault)
        vec_a (OpPushBack (Outside 3)) e w'
  | Undef =>
      reaches_dead_slot (ET := int_element) (one_vector int_element [1; 2] 2 no_fault)
        vec_a (OpPushBack (Outside 3))
  end.
Proof.
  apply (C4_invariant (ET := int_element)).
  - apply one_vector_inv; [lia|simpl; lia|by vm_compute].
  - split; [intros a [= <-]; by eexists|]. vm_compute. eauto.
Defined.

(** The claim C4 fails: (1) for two-byte elements, [Reserve(2^63)] on a
    Vector holding [1] asks for 0 bytes and relocates the element to a
    place outside the new block; (2) [Insert(begin(), 9)] into [1; 2] with
    capacity 4, where the last move assignment throws, ends with size 2 and
    an object in slot 2; (3) the same call on a type whose move
    constructor may throw, where the move construction of the last element
    into slot 2 throws: the handler destroys slot 2, which holds no object;
    (4) [Insert(begin(), 9)] into [1; 2] at capacity, relocated by copy,
    where the copy of the first element throws a [std::exception]: the new
    element is destroyed twice. *)
Lemma C4_counterexample :
  (world_inv (ET := short_element) (one_vector short_element [1] 1 no_fault) ∧
   call (ET := short_element) vec_a (OpReserve (2 ^ 63)) (one_vector short_element [1] 1 no_fault) =
   Undef) ∧
  (world_inv (ET := int_element) (one_vector int_element [1; 2] 4 (fault_on 2 (std_exception 0))) ∧
   callable (ET := int_element) (one_vector int_element [1; 2] 4 (fault_on 2 (std_exception 0)))
     vec_a (OpInsert 0 (Outside 9)) ∧
   match call (ET := int_element) vec_a (OpInsert 0 (Outside 9))
           (one_vector int_element [1; 2] 4 (fault_on 2 (std_exception 0))) with
   | Throw e w' =>
       vecs w' !! vec_a = Some (mkVector (mkRawMemory (Ptr 0%nat 0) 4) 2) ∧
       cells w' !! (0%nat, 2) = Some 2 ∧
       ¬ vector_inv (ET := int_element) w' vec_a
   | _ => False
   end) ∧
  (world_inv (ET := copied_element)
     (one_vector copied_element [1; 2] 4 (fault_on 1 (foreign_exception 0))) ∧
   callable (ET := copied_element)
     (one_vector copied_element [1; 2] 4 (fault_on 1 (foreign_exception 0)))
     vec_a (OpInsert 0 (Outside 9)) ∧
   call (ET := copied_element) vec_a (OpInsert 0 (Outside 9))
     (one_vector copied_element [1; 2] 4 (fault_on 1 (foreign_exception 0))) = Undef) ∧
  (world_inv (ET := copied_element)
     (one_vector copied_element [1; 2] 2 (fault_on 1 (std_exception 0))) ∧
   callable (ET := copied_element)
     (one_vector copied_element [1; 2] 2 (fault_on 1 (std_exception 0)))
     vec_a (OpInsert 0 (Outside 9)) ∧
   call (ET := copied_element) vec_a (OpInsert 0 (Outside 9))
     (one_vector copied_element [1; 2] 2 (fault_on 1 (std_exception 0))) = Undef).
Proof.
  assert (∀ (ET : Element Z) w, (∃ v, vecs w !! vec_a = Some v ∧ 0 ≤ 0 ≤ size_ v) →
            callable (ET := ET) w vec_a (OpInsert 0 (Outside 9))) as Hcallable.
  { intros ET w Hv. split; [intros a [= <-]; by eexists|exact Hv]. }
  split_and!.
  - apply one_vector_inv; [lia|simpl; lia|by vm_compute].
  - by vm_compute.
  - apply one_vector_inv; [lia|simpl; lia|by vm_compute].
  - apply Hcallable. vm_compute. eexists. split; [reflexivity|]. split; discriminate.
  - assert (match call (ET := int_element) vec_a (OpInsert 0 (Outside 9))
                    (one_vector int_element [1; 2] 4 (fault_on 2 (std_exception 0))) with
            | Throw e w' =>
                vecs w' !! vec_a = Some (mkVector (mkRawMemory (Ptr 0%nat 0) 4) 2) ∧
                cells w' !! (0%nat, 2) = Some 2
            | _ => False
            end) as Hrun by (by vm_compute).
    destruct (call vec_a (OpInsert 0 (Outside 9)) _) as [|e w'|]; [done| |done].
    destruct Hrun as [Hv Hc]. split_and!; [done|done|].
    intros (xs & cap & d & Hv' & _ & _ & _ & Hbuf).
    rewrite Hv in Hv'. injection Hv' as <- Hlen. cbn [buffer_] in Hbuf.
    destruct Hbuf as (_ & _ & bytes & _ & _ & Hcells).
    assert (is_Some (lookupZ xs 2)) as Hs.
    { exists 2. transitivity (cells w' !! (0%nat, 2)); [symmetry; apply Hcells|exact Hc]. }
    apply lookupZ_is_Some in Hs. lia.
  - apply one_vector_inv; [lia|simpl; lia|by vm_compute].
  - apply Hcallable. vm_compute. eexists. split; [reflexivity|]. split; discriminate.
  - by vm_compute.
  - apply one_vector_inv; [lia|simpl; lia|by vm_compute].
  - apply Hcallable. vm_compute. eexists. split; [reflexivity|]. split; discriminate.
  - by vm_compute.
Qed.

(** C5 on [vec_a = std::move(vec_b)]. *)
Lemma C5_witness :
  ∃ w', assign_move vec_a vec_b two_vectors = Ok tt w' ∧
        is_vector (ET := int_element) w' vec_a [7] 3 ∧
        is_vector (ET := int_element) w' vec_b [1; 2] 2.
Proof.
  destruct (C5_move_assignment_swaps (ET := int_element) vec_a vec_b [1; 2] [7] 2 3 two_vectors
              two_vectors_a two_vectors_b) as (w' & Hrun & Ha & Hb & _).
  exists w'. split_and!; [exact Hrun|exact Ha|exact Hb].
Defined.

(** C6 on [vec_a = vec_b]. *)
Lemma C6_witness :
  ∃ w', assign_copy (ET := int_element) vec_a vec_b two_vectors = Ok tt w'.
Proof.
  apply (proj2 (C6_copy_assignment (ET := int_element) vec_a vec_b [1; 2] [7] 2 3 two_vectors
                  ltac:(done) two_vectors_inv two_vectors_a two_vectors_b)).
  - by apply no_fault_no_faults.
  - simpl. lia.
Defined.

(** C7 on [Reserve(5)] of a Vector with capacity 2. *)
Lemma C7_witness :
  ∃ w', Reserve (ET := int_element) vec_a 5 (one_vector int_element [1; 2] 2 no_fault) = Ok tt w'.
Proof.
  apply (proj2 (proj2 (C7_Reserve (ET := int_element) vec_a [1; 2] 2 5
                         (one_vector int_element [1; 2] 2 no_fault)
                         (one_vector_holds int_element [1; 2] 2 no_fault ltac:(lia) ltac:(simpl; lia))
                         (one_vector_wf int_element [1; 2] 2 no_fault ltac:(lia) ltac:(simpl; lia)
                            ltac:(by vm_compute))
                         ltac:(lia) ltac:(by vm_compute)))).
  - by apply no_fault_no_faults.
  - intros _. split; [reflexivity|by vm_compute].
Defined.

(** The claim C7 fails: for two-byte elements, [Reserve(2^63)] on a Vector
    holding [1] with capacity 1 asks [operator new] for [2^64 mod 2^64 = 0]
    bytes, and the relocation of the element writes outside that block:
    the behaviour is undefined. *)
Lemma C7_counterexample :
  is_vector (ET := short_element) (one_vector short_element [1] 1 no_fault) vec_a [1] 1 ∧
  heap_wf (one_vector short_element [1] 1 no_fault) ∧
  1 < 2 ^ 63 ≤ SIZE_MAX ∧
  RawMemory_ctor (ET := short_element) (2 ^ 63) (one_vector short_element [1] 1 no_fault) =
  Ok (mkRawMemory (Ptr 1%nat 0) (2 ^ 63)) (allocated 0 (one_vector short_element [1] 1 no_fault)) ∧
  Reserve (ET := short_element) vec_a (2 ^ 63) (one_vector short_element [1] 1 no_fault) = Undef.
Proof.
  split_and!.
  - apply one_vector_holds; [lia|simpl; lia].
  - apply one_vector_wf; [lia|simpl; lia|by vm_compute].
  - by vm_compute.
  - by vm_compute.
  - by vm_compute.
  - by vm_compute.
Qed.

(** C8 on [Resize(1)] of a Vector holding two elements. *)
Lemma C8_witness :
  ∃ w', Resize (ET := int_element) vec_a 1 (one_vector int_element [1; 2] 2 no_fault) = Ok tt w'.
Proof.
  apply (proj2 (C8_Resize (ET := int_element) vec_a [1; 2] 2 1
                  (one_vector int_element [1; 2] 2 no_fault)
                  (one_vector_holds int_element [1; 2] 2 no_fault ltac:(lia) ltac:(simpl; lia))
                  (one_vector_wf int_element [1; 2] 2 no_fault ltac:(lia) ltac:(simpl; lia)
                     ltac:(by vm_compute))
                  ltac:(lia) ltac:(by vm_compute))).
  - by apply no_fault_no_faults.
  - lia.
Defined.

(** The claim C8 fails: for two-byte elements, [Resize(2^63)] on a Vector
    holding [1] with capacity 1 calls [Reserve(2^63)], which asks
    [operator new] for 0 bytes and relocates the element to a place
    outside that block: the behaviour is undefined. *)
Lemma C8_counterexample :
  is_vector (ET := short_element) (one_vector short_element [1] 1 no_fault) vec_a [1] 1 ∧
  heap_wf (one_vector short_element [1] 1 no_fault) ∧
  1 < 2 ^ 63 ≤ SIZE_MAX ∧
  Resize (ET := short_element) vec_a (2 ^ 63) (one_vector short_element [1] 1 no_fault) = Undef.
Proof.
  split_and!.
  - apply one_vector_holds; [lia|simpl; lia].
  - apply one_vector_wf; [lia|simpl; lia|by vm_compute].
  - by vm_compute.
  - by vm_compute.
  - by vm_compute.
Qed.

(** C9 on [Erase(begin() + 1)] then [Insert(begin() + 1, 9)] in [1; 2; 3]. *)
Lemma C9_witness :
  ∃ r w', bind (Erase (ET := int_element) vec_a
                  (iterator_at (one_vector int_element [1; 2; 3] 4 no_fault) vec_a 1))
               (λ _, Insert (ET := int_element) vec_a
                       (iterator_at (one_vector int_element [1; 2; 3] 4 no_fault) vec_a 1)
                       (Outside 9))
               (one_vector int_element [1; 2; 3] 4 no_fault) = Ok r w'.
Proof.
  apply (proj2 (C9_erase_then_insert (ET := int_element) vec_a [1; 2; 3] 4 1 (Outside 9) 9 false
                  (one_vector int_element [1; 2; 3] 4 no_fault)
                  (one_vector_holds int_element [1; 2; 3] 4 no_fault ltac:(lia) ltac:(simpl; lia))
                  (one_vector_wf int_element [1; 2; 3] 4 no_fault ltac:(lia) ltac:(simpl; lia)
                     ltac:(by vm_compute))
                  ltac:(simpl; lia)
                  ltac:(intros; reflexivity)
                  ltac:(intros [=]))).
  by apply no_fault_no_faults.
Defined.

(** The claim C9 fails when the value is moved in from an element of the
    Vector itself.  In [1; 2; 3] with capacity 4, of a type whose
    moved-from value is 0 and with no exception thrown, [Erase(begin())]
    leaves [2; 3]; the value that [v[1]] designates is then 3, and
    [Insert(begin(), std::move(v[1]))] leaves [3; 2; 0], not [3; 2; 3]. *)
Lemma C9_counterexample :
  is_vector (ET := copied_element) (one_vector copied_element [1; 2; 3] 4 no_fault)
    vec_a [1; 2; 3] 4 ∧
  iterator_at (one_vector copied_element [1; 2; 3] 4 no_fault) vec_a 0 = Ptr 0%nat 0 ∧
  ∃ p w1,
    Erase (ET := copied_element) vec_a (Ptr 0%nat 0)
      (one_vector copied_element [1; 2; 3] 4 no_fault) = Ok p w1 ∧
    arg_value (ET := copied_element) w1 (ByMove (Slot (Ptr 0%nat 1))) = Some 3 ∧
    ∃ r w',
      Insert_move (ET := copied_element) vec_a (Ptr 0%nat 0) (Slot (Ptr 0%nat 1)) w1 = Ok r w' ∧
      vecs w' !! vec_a = Some (mkVector (mkRawMemory (Ptr 0%nat 0) 4) 3) ∧
      cells w' !! (0%nat, 0) = Some 3 ∧ cells w' !! (0%nat, 1) = Some 2 ∧
      cells w' !! (0%nat, 2) = Some 0 ∧
      ¬ is_vector (ET := copied_element) w' vec_a (<[0%nat := 3]> [1; 2; 3]) 4.
Proof.
  split_and!.
  - apply one_vector_holds; [lia|simpl; lia].
  - reflexivity.
  - destruct (Erase (ET := copied_element) vec_a (Ptr 0%nat 0)
                (one_vector copied_element [1; 2; 3] 4 no_fault)) as [p w1| |] eqn:Herase;
      [|by vm_compute in Herase..].
    exists p, w1. split; [reflexivity|].
    assert (Ok p w1 = Erase (ET := copied_element) vec_a (Ptr 0%nat 0)
                        (one_vector copied_element [1; 2; 3] 4 no_fault)) as Hw1 by done.
    clear Herase. vm_compute in Hw1. injection Hw1 as -> ->.
    split; [by vm_compute|].
    eexists _, _. split; [by vm_compute|].
    split_and!; try (by vm_compute).
    intros (d & Hv & _ & _ & _ & Hbuf). vm_compute in Hv. injection Hv as <-.
    cbn [buffer_] in Hbuf. destruct Hbuf as (_ & _ & bytes & _ & _ & Hcells).
    specialize (Hcells 2). by vm_compute in Hcells.
Qed.

(** C10 on [EmplaceBack(9)] at a Vector holding [1; 2; 3]. *)
Lemma C10_witness :
  ∃ r w', EmplaceBack (ET := int_element) vec_a (ByArgs 9)
            (one_vector int_element [1; 2; 3] 4 no_fault) = Ok r w'.
Proof.
  destruct (C10_return_values (ET := int_element) vec_a [1; 2; 3] 4
              (one_vector int_element [1; 2; 3] 4 no_fault)
              (one_vector_holds int_element [1; 2; 3] 4 no_fault ltac:(lia) ltac:(simpl; lia))
              (one_vector_wf int_element [1; 2; 3] 4 no_fault ltac:(lia) ltac:(simpl; lia)
                 ltac:(by vm_compute)))
    as (_ & _ & _ & _ & _ & H).
  destruct H as (_ & _ & H).
  - by apply no_fault_no_faults.
  - simpl. lia.
  - by apply (H (ByArgs 9) 9).
Defined.

Section Scenario.
#[local] Existing Instance int_element.

(** The scenario of the specification: three appends to an empty Vector,
  an insertion, an erasure and a [PopBack]. *)
Example scenario :
match bind (call vec_a (OpPushBack (Outside 1))) (λ _,
      bind (call vec_a (OpPushBack (Outside 2))) (λ _,
      bind (call vec_a (OpPushBack (Outside 3))) (λ _,
      bind (call vec_a (OpEmplace 1 (ByArgs 99))) (λ _,
      bind (call vec_a (OpErase 0)) (λ _,
      call vec_a OpPopBack))))) empty_vector with
| Ok _ w' =>
    vecs w' !! vec_a = Some (mkVector (mkRawMemory (Ptr 2%nat 0) 4) 2) ∧
    cells w' !! (2%nat, 0) = Some 99 ∧ cells w' !! (2%nat, 1) = Some 2 ∧
    cells w' !! (2%nat, 2) = None
| _ => False
end.
Proof. by vm_compute. Qed.
End Scenario.

(** * The further properties on examples *)

Lemma three_of_four_holds : is_vector (ET := int_element) three_of_four vec_a [1; 2; 3] 4.
Proof. apply one_vector_holds; [lia|simpl; lia]. Qed.

Lemma three_of_four_wf : heap_wf three_of_four.
Proof. apply one_vector_wf; [lia|simpl; lia|by vm_compute]. Qed.


Lemma full_failing_holds ET i : is_vector (ET := ET) (full_failing ET i) vec_a [1; 2] 2.
Proof. apply one_vector_holds; [lia|simpl; lia]. Qed.

Lemma full_failing_inv ET i :
  2 * Z.pos (sizeof (Element := ET)) ≤ PTRDIFF_MAX → world_inv (ET := ET) (full_failing ET i).
Proof. intros H. apply one_vector_inv; [lia|simpl; lia|done]. Qed.

Lemma start_owned {T} (faults : Z → option exn) alloc_faults :
  all_owned (start (T := T) faults alloc_faults).
Proof. intros l [b Hl]. simpl in Hl. by rewrite lookup_empty in Hl. Qed.

Lemma with_vector_owned {T} {ET : Element T} a (xs : list T) cap (w : World T) :
  vecs w !! a = None → all_owned w → all_owned (with_vector a xs cap w).
Proof.
  intros Hnone Hown l Hl. simpl in Hl.
  destruct (decide (l = next_loc w)) as [->|Hne].
  - exists a. unfold buffer_loc. simpl. by rewrite lookup_insert_eq.
  - rewrite lookup_insert_ne in Hl by done. destruct (Hown l Hl) as [b Hb]. exists b.
    unfold buffer_loc in *. simpl. rewrite lookup_insert_ne; [done|].
    intros <-. by rewrite Hnone in Hb.
Qed.

Lemma one_vector_owned ET xs cap faults : all_owned (one_vector ET xs cap faults).
Proof. apply with_vector_owned; [done|apply start_owned]. Qed.

Lemma two_vectors_owned : all_owned two_vectors.
Proof. apply with_vector_owned; [done|apply one_vector_owned]. Qed.

(** [v[1]] in [1; 2; 3]. *)
Lemma Vector_index_witness :
  Vector_index vec_a 1 three_of_four =
    Ok (iterator_at three_of_four vec_a 1) three_of_four ∧
  load (ET := int_element) (iterator_at three_of_four vec_a 1) three_of_four = Ok 2 three_of_four.
Proof.
  exact (Vector_index_in_range (ET := int_element) vec_a [1; 2; 3] 4 1 three_of_four
           three_of_four_holds ltac:(lia)).
Defined.

(** The range of a Vector holding [1; 2; 3]. *)
Lemma begin_end_witness :
  ∃ first last,
    Vector_begin vec_a three_of_four = Ok first three_of_four ∧
    Vector_end vec_a three_of_four = Ok last three_of_four ∧
    ptr_diff last first = Some 3.
Proof.
  destruct (begin_end_range (ET := int_element) vec_a [1; 2; 3] 4 three_of_four
              three_of_four_holds) as (first & last & Hb & He & _ & _ & Hd & _).
  by exists first, last.
Defined.

(** [PopBack()] on [1; 2; 3]. *)
Lemma PopBack_witness :
  ∃ w', PopBack (ET := int_element) vec_a three_of_four = Ok tt w' ∧
        is_vector (ET := int_element) w' vec_a [1; 2] 4.
Proof.
  destruct (PopBack_drops_last (ET := int_element) vec_a [1; 2; 3] 4 three_of_four
              three_of_four_holds three_of_four_wf) as [_ H].
  destruct H as (w' & Hrun & Hv & _); [done|]. by exists w'.
Defined.

(** [Erase(begin() + 1)] in [1; 2; 3]. *)
Lemma Erase_witness :
  ∃ r w', Erase (ET := int_element) vec_a (iterator_at three_of_four vec_a 1) three_of_four =
          Ok r w'.
Proof.
  pose proof (Erase_removes (ET := int_element) vec_a [1; 2; 3] 4 1 three_of_four
                three_of_four_holds three_of_four_wf ltac:(lia)) as H.
  rewrite decide_True in H by (simpl; lia). destruct H as [_ H]. apply H.
  by apply no_fault_no_faults.
Defined.


(** [PushBack(3)] on a full Vector calls the allocator once. *)
Lemma one_allocation_witness :
  ∃ w', call (ET := int_element) vec_a (OpPushBack (Outside 3)) (one_vector int_element [1; 2] 2 no_fault) =
        Ok tt w' ∧ allocs_done w' = 1.
Proof.
  pose proof (at_most_one_allocation (ET := int_element) vec_a (OpPushBack (Outside 3))
                (one_vector int_element [1; 2] 2 no_fault)
                (one_vector_inv int_element [1; 2] 2 no_fault ltac:(lia) ltac:(simpl; lia)
                   ltac:(by vm_compute))
                ltac:(split; [intros a [= <-]; by eexists|vm_compute; eauto])) as H.
  destruct (call vec_a (OpPushBack (Outside 3)) (one_vector int_element [1; 2] 2 no_fault))
    as [[] w'|e w'|] eqn:Hrun; [|by vm_compute in Hrun..].
  exists w'. split; [done|]. vm_compute in Hrun. by injection Hrun as <-.
Defined.


(** [Vector(3)] in an empty world. *)
Lemma Vector_sized_witness :
  ∃ w', Vector_sized (ET := int_element) vec_a 3 (start no_fault no_alloc_fault) = Ok tt w'.
Proof.
  apply (proj2 (proj2 (Vector_sized_builds (ET := int_element) vec_a 3
                         (start no_fault no_alloc_fault)
                         (proj1 (start_inv (ET := int_element) no_fault no_alloc_fault))
                         ltac:(lia) ltac:(by vm_compute)))).
  - by apply no_fault_no_faults.
  - intros _. split; [reflexivity|by vm_compute].
Defined.

(** A copy [vec_b] of [vec_a], which holds [1; 2; 3] with capacity 4. *)
Lemma Vector_copy_witness :
  ∃ w', Vector_copy (ET := int_element) vec_b vec_a three_of_four = Ok tt w'.
Proof.
  apply (proj2 (Vector_copy_builds (ET := int_element) vec_b vec_a [1; 2; 3] 4 three_of_four
                  three_of_four_holds three_of_four_wf ltac:(reflexivity))).
  - by apply no_fault_no_faults.
  - split; [reflexivity|by vm_compute].
Defined.

(** [vec_b] move-constructed from [vec_a]. *)
Lemma Vector_move_witness :
  ∃ w', Vector_move vec_b vec_a three_of_four = Ok tt w' ∧
        is_vector (ET := int_element) w' vec_b [1; 2; 3] 4 ∧
        is_vector (ET := int_element) w' vec_a [] 0.
Proof.
  destruct (Vector_move_steals (ET := int_element) vec_b vec_a [1; 2; 3] 4 three_of_four
              three_of_four_holds ltac:(done)) as (w' & Hrun & Hb & Ha & _).
  by exists w'.
Defined.

(** The destructor of a Vector holding [1; 2; 3]. *)
Lemma Vector_dtor_witness :
  ∃ w', Vector_dtor (ET := int_element) vec_a three_of_four = Ok tt w' ∧
        vecs w' !! vec_a = None ∧ blocks w' !! 0%nat = None.
Proof.
  destruct (Vector_dtor_destroys (ET := int_element) vec_a [1; 2; 3] 4 three_of_four
              three_of_four_holds three_of_four_wf)
    as (w' & evs & Hrun & _ & Hgone & _ & _ & Hblock & _).
  exists w'. split_and!; [done|done|]. by apply Hblock.
Defined.

(** [vec_a.Swap(vec_b)] twice. *)
Lemma Swap_witness :
  bind (Swap vec_a vec_b) (λ _, Swap vec_a vec_b) two_vectors = Ok tt two_vectors.
Proof.
  apply (Swap_involution vec_a vec_b two_vectors); vm_compute; eauto.
Defined.

(** [vec_a = vec_b] where the copy of the second element of [vec_b]
    throws. *)
Lemma assign_copy_failure_witness :
  ∃ e w', assign_copy (ET := copied_element) vec_a vec_b copy_failing = Throw e w' ∧
          is_vector (ET := copied_element) w' vec_a [1; 2] 2 ∧
          is_vector (ET := copied_element) w' vec_b [7; 8; 9] 3.
Proof.
  assert (world_inv (ET := copied_element)
            (one_vector copied_element [1; 2] 2 (fault_on 1 (std_exception 0)))) as Hinv
    by (apply one_vector_inv; [lia|simpl; lia|by vm_compute]).
  destruct (assign_copy_exception_safety (ET := copied_element) vec_a vec_b [1; 2] [7; 8; 9] 2 3
              copy_failing ltac:(done)) as [H _].
  - apply with_vector_inv; [exact Hinv|done..].
  - apply with_vector_keeps; [exact Hinv|done|]. apply one_vector_holds; [lia|simpl; lia].
  - apply with_vector_holds; [apply Hinv|done..].
  - apply wp_run in H.
    destruct (assign_copy vec_a vec_b copy_failing) as [[] w'|e w'|] eqn:Hrun;
      [by vm_compute in Hrun| |done].
    destruct H as ((xs' & Ha & _ & Hsame) & Hb & _).
    exists e, w'. split_and!; [done| |done]. rewrite <- Hsame; [done|simpl; lia].
Defined.

(** [Reserve(5)] on [1; 2] at capacity, relocated by copy, where the second
    copy throws. *)
Lemma Reserve_failure_witness :
  ∃ e w', Reserve (ET := copied_element) vec_a 5 (full_failing copied_element 1) = Throw e w' ∧
          is_vector (ET := copied_element) w' vec_a [1; 2] 2.
Proof.
  pose proof (Reserve_exception_safety (ET := copied_element) vec_a [1; 2] 2 5
                (full_failing copied_element 1) (full_failing_holds copied_element 1)
                (proj1 (full_failing_inv copied_element 1 ltac:(by vm_compute)))
                ltac:(lia) ltac:(by vm_compute)) as H.
  apply wp_run in H.
  destruct (Reserve vec_a 5 (full_failing copied_element 1)) as [[] w'|e w'|] eqn:Hrun;
    [by vm_compute in Hrun| |done].
  destruct H as (_ & _ & _ & (xs' & Hv & _ & Hsame) & _).
  exists e, w'. split; [done|]. by rewrite <- Hsame.
Defined.


(** [PushBack(std::move(v[0]))] on [1; 2] at capacity, for a type whose
    moved-from value is 0: the Vector ends as [0; 2; 1]. *)
Example PushBack_moved_from_own_element :
  arg_value (ET := copied_element) (one_vector copied_element [1; 2] 2 no_fault)
    (ByMove (Slot (Ptr 0%nat 0))) = Some 1 ∧
  after_use (ET := copied_element) (one_vector copied_element [1; 2] 2 no_fault) vec_a
    (ByMove (Slot (Ptr 0%nat 0))) [1; 2] = [0; 2] ∧
  match PushBack_move (ET := copied_element) vec_a (Slot (Ptr 0%nat 0))
          (one_vector copied_element [1; 2] 2 no_fault) with
  | Ok _ w' => vecs w' !! vec_a = Some (mkVector (mkRawMemory (Ptr 1%nat 0) 4) 3) ∧
               cells w' !! (1%nat, 0) = Some 0 ∧ cells w' !! (1%nat, 1) = Some 2 ∧
               cells w' !! (1%nat, 2) = Some 1
  | _ => False
  end.
Proof. by vm_compute. Qed.


(** [Emplace(end(), 9)] into [1; 2] at capacity, relocated by copy, where
    the copy of the second element throws. *)
Lemma Emplace_prefix_copy_failure_witness :
  ∃ w', Emplace (ET := copied_element) vec_a (iterator_at (full_failing copied_element 2) vec_a 2)
          (ByCopy (Outside 9)) (full_failing copied_element 2) = Throw (std_exception 0) w' ∧
        is_vector (ET := copied_element) w' vec_a [1; 2] 2.
Proof.
  destruct (Emplace_prefix_copy_failure (ET := copied_element) vec_a [1; 2] 2
              (ByCopy (Outside 9)) 9 1 (std_exception 0) (full_failing copied_element 2))
    as (w' & Hrun & Hv & _).
  - reflexivity.
  - apply full_failing_holds.
  - apply (full_failing_inv copied_element 2). by vm_compute.
  - simpl. lia.
  - reflexivity.
  - reflexivity.
  - split; [reflexivity|by vm_compute].
  - split_and!; [simpl; lia|simpl; lia|intros _; reflexivity| |reflexivity].
    intros j' Hj'. assert (j' = 0) as -> by lia. reflexivity.
  - lia.
  - by exists w'.
Defined.

(** [Emplace(begin() + 1, 9)] into [1; 2; 3]. *)
Lemma Emplace_witness :
  ∃ r w', Emplace (ET := int_element) vec_a (iterator_at three_of_four vec_a 1)
            (ByCopy (Outside 9)) three_of_four = Ok r w'.
Proof.
  apply (proj2 (proj2 (Emplace_inserts (ET := int_element) vec_a [1; 2; 3] 4 1
                         (ByCopy (Outside 9)) 9 three_of_four
                         three_of_four_holds three_of_four_wf ltac:(simpl; lia)
                         ltac:(reflexivity)))).
  - by apply no_fault_no_faults.
  - simpl. lia.
Defined.

(** [Emplace(begin(), std::move(v[2]))] into [1; 2; 3] with capacity 4, for
    a type whose moved-from value is 0: the Vector ends as [3; 1; 2; 0]. *)
Example Emplace_moved_from_own_element :
  arg_value (ET := copied_element) (one_vector copied_element [1; 2; 3] 4 no_fault)
    (ByMove (Slot (Ptr 0%nat 2))) = Some 3 ∧
  inserted 0 3 (after_use (ET := copied_element)
                  (one_vector copied_element [1; 2; 3] 4 no_fault) vec_a
                  (ByMove (Slot (Ptr 0%nat 2))) [1; 2; 3]) = [3; 1; 2; 0] ∧
  match Emplace (ET := copied_element) vec_a (Ptr 0%nat 0) (ByMove (Slot (Ptr 0%nat 2)))
          (one_vector copied_element [1; 2; 3] 4 no_fault) with
  | Ok _ w' => vecs w' !! vec_a = Some (mkVector (mkRawMemory (Ptr 0%nat 0) 4) 4) ∧
               cells w' !! (0%nat, 0) = Some 3 ∧ cells w' !! (0%nat, 1) = Some 1 ∧
               cells w' !! (0%nat, 2) = Some 2 ∧ cells w' !! (0%nat, 3) = Some 0
  | _ => False
  end.
Proof. by vm_compute. Qed.

(** [Erase(Insert(begin() + 1, 9))] on [1; 2; 3]. *)
Lemma Insert_then_Erase_witness :
  ∃ r w', bind (Insert (ET := int_element) vec_a (iterator_at three_of_four vec_a 1) (Outside 9))
               (λ r, Erase (ET := int_element) vec_a r) three_of_four = Ok r w'.
Proof.
  apply (proj2 (proj2 (Insert_then_Erase (ET := int_element) vec_a [1; 2; 3] 4 1 (Outside 9) 9
                         false three_of_four
                         three_of_four_holds three_of_four_wf ltac:(simpl; lia)
                         ltac:(reflexivity)))).
  - by apply no_fault_no_faults.
  - simpl. lia.
Defined.

(** [PushBack(9)] then [PopBack()] on [1; 2; 3]. *)
Lemma PushBack_then_PopBack_witness :
  ∃ w1 w2, PushBack (ET := int_element) vec_a (Outside 9) three_of_four = Ok tt w1 ∧
           PopBack (ET := int_element) vec_a w1 = Ok tt w2 ∧
           is_vector (ET := int_element) w2 vec_a [1; 2; 3] 4.
Proof.
  destruct (PushBack_then_PopBack (ET := int_element) vec_a [1; 2; 3] 4 (Outside 9) 9
              three_of_four three_of_four_holds three_of_four_wf ltac:(reflexivity))
    as [Hpop Hpush].
  destruct Hpush as [w1 Hrun].
  - by apply no_fault_no_faults.
  - simpl. lia.
  - destruct (Hpop w1 Hrun) as (w2 & Hrun2 & Hv & _). by exists w1, w2.
Defined.

(** [vec_a.PushBack(3)] reallocates [vec_a] and leaves [vec_b] alone. *)
Lemma independence_witness :
  ∃ w', call (ET := int_element) vec_a (OpPushBack (Outside 3)) two_vectors = Ok tt w' ∧
        is_vector (ET := int_element) w' vec_b [7] 3.
Proof.
  pose proof (other_vectors_untouched (ET := int_element) vec_a (OpPushBack (Outside 3)) vec_b [7] 3
                two_vectors two_vectors_inv ltac:(split; [intros a [= <-]; by eexists|vm_compute; eauto]) ltac:(done) ltac:(done)
                ltac:(by intros (a & l & i & [= <-] & [=] & _))
                two_vectors_b) as H.
  destruct (call vec_a (OpPushBack (Outside 3)) two_vectors) as [[] w'|e w'|] eqn:Hrun;
    [|by vm_compute in Hrun..].
  destruct H as [Hb _]. by exists w'.
Defined.

(** [PushBack(3)] on [1; 2] at capacity where the constructor of the new
    element throws: the size is still 2. *)
Lemma size_kept_witness :
  ∃ e w', call (ET := int_element) vec_a (OpPushBack (Outside 3)) (full_failing int_element 0) = Throw e w' ∧
          Size vec_a w' = Ok 2 w'.
Proof.
  pose proof (size_kept_on_exception (ET := int_element) vec_a (OpPushBack (Outside 3))
                (full_failing int_element 0)
                (full_failing_inv int_element 0 ltac:(by vm_compute))
                ltac:(split; [intros a [= <-]; by eexists|vm_compute; eauto])) as H.
  destruct (call vec_a (OpPushBack (Outside 3)) (full_failing int_element 0)) as [[] w'|e w'|] eqn:Hrun;
    [by vm_compute in Hrun| |by vm_compute in Hrun].
  exists e, w'. split; [done|]. by apply H.
Defined.

(** [Resize(3)] on [1] at capacity, relocated by copy, where the second
    default constructor throws after the reallocation: the capacity is 3. *)
Lemma Resize_failure_witness :
  ∃ e w', Resize (ET := copied_element) vec_a 3
            (one_vector copied_element [1] 1 (fault_on 2 (std_exception 0))) = Throw e w' ∧
          is_vector (ET := copied_element) w' vec_a [1] 3.
Proof.
  pose proof (Resize_exception_safety (ET := copied_element) vec_a [1] 1 3
                (one_vector copied_element [1] 1 (fault_on 2 (std_exception 0)))
                (one_vector_holds copied_element [1] 1 _ ltac:(lia) ltac:(simpl; lia))
                (one_vector_wf copied_element [1] 1 _ ltac:(lia) ltac:(simpl; lia)
                   ltac:(by vm_compute))
                ltac:(lia) ltac:(by vm_compute)) as H.
  apply wp_run in H.
  destruct (Resize vec_a 3 (one_vector copied_element [1] 1 (fault_on 2 (std_exception 0))))
    as [[] w'|e w'|] eqn:Hrun; [by vm_compute in Hrun| |done].
  exists e, w'. split; [done|].
  destruct H as (_ & _ & [(xs' & (d & Hlook & Hcap & _) & _)|Hv]); [|exact Hv].
  vm_compute in Hrun. injection Hrun as _ <-. vm_compute in Hlook.
  injection Hlook as <- _. by vm_compute in Hcap.
Defined.

(** [RawMemory(3)] and its destructor in an empty world. *)
Lemma RawMemory_create_destroy_witness :
  ∃ w', bind (RawMemory_ctor (ET := int_element) 3) RawMemory_dtor (start no_fault no_alloc_fault) =
        Ok tt w' ∧ blocks w' = blocks (start (T := Z) no_fault no_alloc_fault).
Proof.
  destruct (RawMemory_create_destroy (ET := int_element) 3 (start no_fault no_alloc_fault)
              (proj1 (start_inv (ET := int_element) no_fault no_alloc_fault))
              ltac:(by vm_compute)) as (w' & Hrun & Hb & _).
  - intros _. split; [reflexivity|by vm_compute].
  - by exists w'.
Defined.

(** The storage of [vec_a] in [two_vectors], assigned from the storage of
    [vec_b]. *)
Lemma RawMemory_assign_move_witness :
  ∃ w', RawMemory_assign_move false (mkRawMemory (Ptr 0%nat 0) 2) (mkRawMemory (Ptr 1%nat 0) 3)
          two_vectors =
        Ok (mkRawMemory (Ptr 1%nat 0) 3, mkRawMemory nullptr 0) w' ∧
        blocks w' !! 0%nat = None.
Proof.
  destruct (RawMemory_assign_move_transfers (T := Z) (mkRawMemory (Ptr 0%nat 0) 2)
              (mkRawMemory (Ptr 1%nat 0) 3) two_vectors) as (_ & w' & Hrun & Hb & _).
  - intros l i [= <- <-]. split; [done|]. vm_compute. eauto.
  - exists w'. split; [exact Hrun|]. by rewrite Hb.
Defined.
